(** * LottoGenius prediction engine: a shallow embedding and its properties

    The development follows [src/lottery-data.js] (game configuration, draw
    history, [LotteryDataAnalyzer]) and [src/algorithms.js]
    ([PredictionEngine]).

    Modelling conventions.
    - A JavaScript number is a [jsnum]: an exact rational, [+Infinity],
      [-Infinity] or [NaN].  Arithmetic on finite values is exact (rounding of
      IEEE doubles and the sign of zero are not modelled); the special values
      follow the IEEE rules the code relies on ([0/0 = NaN], [x/0 = Infinity],
      every comparison with [NaN] is false).  Counts and other
      integers are exact in doubles too; where fractions are involved the
      statements either do not depend on the rounding or say that their
      sums are exact.
    - A JavaScript object whose keys are integers is a [table]: an association
      list kept in ascending key order, which is the order [for .. in] and
      [Object.values] enumerate integer-like property names in.
    - [Math.random()] is the next element of a sequence [rnd : nat -> Q]; the
      number of calls made so far is threaded through the code as state.
    - Loops that have no bound in the source take a fuel argument; running
      out of it is the outcome [OutOfFuel], a JavaScript exception is
      [Throw]. *)

From Stdlib Require Import QArith Qround Qabs Lqa Lia.
From stdpp Require Import gmap strings list sorting.

Local Open Scope Q_scope.

(* ===================================================================== *)
(** * JavaScript numbers *)
(* ===================================================================== *)

Module JS.

Inductive jsnum : Type :=
| Fin (q : Q)
| PInf
| NInf
| NaN.

Definition of_nat (n : nat) : jsnum := Fin (inject_Z (Z.of_nat n)).
Definition of_Z (z : Z) : jsnum := Fin (inject_Z z).

Definition Qpos_b (q : Q) : bool := negb (Qle_bool q 0).
Definition Qneg_b (q : Q) : bool := negb (Qle_bool 0 q).
Definition Qzero_b (q : Q) : bool := Qeq_bool q 0.

Definition neg (a : jsnum) : jsnum :=
  match a with
  | Fin q => Fin (- q)
  | PInf => NInf
  | NInf => PInf
  | NaN => NaN
  end.

Definition add (a b : jsnum) : jsnum :=
  match a, b with
  | NaN, _ | _, NaN => NaN
  | Fin x, Fin y => Fin (x + y)
  | PInf, NInf | NInf, PInf => NaN
  | PInf, _ | _, PInf => PInf
  | NInf, _ | _, NInf => NInf
  end.

Definition sub (a b : jsnum) : jsnum := add a (neg b).

(** The sign of an infinite product or quotient; a zero factor gives [NaN]
    for a product. *)
Definition inf_signed (positive : bool) : jsnum := if positive then PInf else NInf.

Definition mul (a b : jsnum) : jsnum :=
  match a, b with
  | NaN, _ | _, NaN => NaN
  | Fin x, Fin y => Fin (x * y)
  | Fin x, PInf | PInf, Fin x =>
      if Qzero_b x then NaN else inf_signed (Qpos_b x)
  | Fin x, NInf | NInf, Fin x =>
      if Qzero_b x then NaN else inf_signed (Qneg_b x)
  | PInf, PInf | NInf, NInf => PInf
  | PInf, NInf | NInf, PInf => NInf
  end.

Definition div (a b : jsnum) : jsnum :=
  match a, b with
  | NaN, _ | _, NaN => NaN
  | Fin x, Fin y =>
      if Qzero_b y
      then (if Qzero_b x then NaN else inf_signed (Qpos_b x))
      else Fin (x / y)
  | Fin _, PInf | Fin _, NInf => Fin 0
  | PInf, Fin y => inf_signed (negb (Qneg_b y))
  | NInf, Fin y => inf_signed (Qneg_b y)
  | PInf, PInf | PInf, NInf | NInf, PInf | NInf, NInf => NaN
  end.

(** [a <= b], [a < b], [a > b], [a >= b] and [a === b]. *)
Definition le (a b : jsnum) : bool :=
  match a, b with
  | NaN, _ | _, NaN => false
  | Fin x, Fin y => Qle_bool x y
  | NInf, _ => true
  | _, PInf => true
  | _, _ => false
  end.

Definition lt (a b : jsnum) : bool :=
  match a, b with
  | NaN, _ | _, NaN => false
  | Fin x, Fin y => negb (Qle_bool y x)
  | PInf, _ => false
  | _, NInf => false
  | _, _ => true
  end.

Definition gt (a b : jsnum) : bool := lt b a.
Definition ge (a b : jsnum) : bool := le b a.

Definition eq (a b : jsnum) : bool :=
  match a, b with
  | Fin x, Fin y => Qeq_bool x y
  | PInf, PInf | NInf, NInf => true
  | _, _ => false
  end.

(** [Math.min(a, b)] and [Math.max(a, b)]: [NaN] if either argument is. *)
Definition min (a b : jsnum) : jsnum :=
  match a, b with
  | NaN, _ | _, NaN => NaN
  | _, _ => if le a b then a else b
  end.

Definition max (a b : jsnum) : jsnum :=
  match a, b with
  | NaN, _ | _, NaN => NaN
  | _, _ => if le a b then b else a
  end.

Definition abs (a : jsnum) : jsnum :=
  match a with
  | Fin q => Fin (Qabs q)
  | PInf | NInf => PInf
  | NaN => NaN
  end.

Definition floor (a : jsnum) : jsnum :=
  match a with
  | Fin q => Fin (inject_Z (Qfloor q))
  | _ => a
  end.

Definition ceil (a : jsnum) : jsnum :=
  match a with
  | Fin q => Fin (inject_Z (Qceiling q))
  | _ => a
  end.

(** [Math.round(a)]: the integer nearest to [a], halves rounded up. *)
Definition round (a : jsnum) : jsnum :=
  match a with
  | Fin q => Fin (inject_Z (Qfloor (q + (1 # 2))))
  | _ => a
  end.

(** [a || d] on numbers: [0] and [NaN] are falsy. *)
Definition truthy (a : jsnum) : bool :=
  match a with
  | Fin q => negb (Qzero_b q)
  | PInf | NInf => true
  | NaN => false
  end.

Definition or_else (a d : jsnum) : jsnum := if truthy a then a else d.

(** [xs.reduce((a, b) => a + b, 0)]. *)
Definition sum (xs : list jsnum) : jsnum := fold_left add xs (Fin 0).

(** [Math.min(...xs)] and [Math.max(...xs)]; on no arguments they are
    [Infinity] and [-Infinity]. *)
Definition min_list (xs : list jsnum) : jsnum := fold_left min xs PInf.
Definition max_list (xs : list jsnum) : jsnum := fold_left max xs NInf.

(** Finite and non-negative. *)
Definition nonneg (a : jsnum) : Prop :=
  match a with Fin q => 0 <= q | _ => False end.

Definition is_integer (a : jsnum) : Prop :=
  match a with Fin q => exists z : Z, q == inject_Z z | _ => False end.

End JS.

Abbreviation jsnum := JS.jsnum.
Abbreviation Fin := JS.Fin.
Abbreviation NaN := JS.NaN.
Abbreviation PInf := JS.PInf.
Abbreviation NInf := JS.NInf.

(* ===================================================================== *)
(** * Outcomes and the random source *)
(* ===================================================================== *)

Inductive result (A : Type) : Type :=
| Ok (x : A)
| Throw
| OutOfFuel.
Arguments Ok {A} x.
Arguments Throw {A}.
Arguments OutOfFuel {A}.

(** A computation that may call [Math.random()]: it receives the number of
    calls made so far and returns its value with the new count. *)
Definition M (A : Type) : Type := nat -> result (A * nat).

Definition ret {A} (x : A) : M A := fun s => Ok (x, s).

Definition bind {A B} (m : M A) (k : A -> M B) : M B :=
  fun s => match m s with
           | Ok (x, s') => k x s'
           | Throw => Throw
           | OutOfFuel => OutOfFuel
           end.

Definition throw {A} : M A := fun _ => Throw.
Definition out_of_fuel {A} : M A := fun _ => OutOfFuel.

Notation "'let*' x ':=' m 'in' k" := (bind m (fun x => k))
  (at level 10, x pattern, m at level 100, k at level 200).

(** The value of a computation, forgetting the random-call count. *)
Definition value {A} (r : result (A * nat)) : result A :=
  match r with
  | Ok (x, _) => Ok x
  | Throw => Throw
  | OutOfFuel => OutOfFuel
  end.

(** Code that calls no [Math.random()] but may throw. *)
Definition rbind {A B} (r : result A) (k : A -> result B) : result B :=
  match r with
  | Ok x => k x
  | Throw => Throw
  | OutOfFuel => OutOfFuel
  end.

Definition lift {A} (r : result A) : M A :=
  fun s => match r with
           | Ok x => Ok (x, s)
           | Throw => Throw
           | OutOfFuel => OutOfFuel
           end.

(** [xs.forEach] with a body that may throw, threading the updated object. *)
Fixpoint foldR {A B} (f : B -> A -> result B) (l : list A) (b : B) : result B :=
  match l with
  | [] => Ok b
  | x :: l' => rbind (f b x) (foldR f l')
  end.

(** A counted loop over [l] in the random monad. *)
Fixpoint foldM {A B} (f : B -> A -> M B) (l : list A) (b : B) : M B :=
  match l with
  | [] => ret b
  | x :: l' => let* b' := f b x in foldM f l' b'
  end.

(* ===================================================================== *)
(** * Arrays and integer-keyed objects *)
(* ===================================================================== *)

(** [xs.includes(x)]. *)
Definition includes (xs : list nat) (x : nat) : bool := existsb (Nat.eqb x) xs.

(** [xs.sort(cmp)] for a comparator given by the test [cmp(a, b) > 0]
    ("a goes after b"): a stable insertion sort. *)
Fixpoint sort_insert {A} (after : A -> A -> bool) (x : A) (l : list A) : list A :=
  match l with
  | [] => [x]
  | y :: l' => if after x y then y :: sort_insert after x l' else x :: l
  end.

Definition js_sort {A} (after : A -> A -> bool) (l : list A) : list A :=
  fold_right (sort_insert after) [] l.

(** [xs.sort((a, b) => a - b)]. *)
Definition sort_asc (l : list nat) : list nat := js_sort (fun a b => Nat.ltb b a) l.

(** An object with integer keys, in enumeration order. *)
Definition table : Type := list (nat * jsnum).

Definition keys {V} (t : list (nat * V)) : list nat := map fst t.
Definition values (t : table) : list jsnum := map snd t.   (* Object.values *)

(** [t[k]]: [None] is [undefined]. *)
Fixpoint tget {V} (t : list (nat * V)) (k : nat) : option V :=
  match t with
  | [] => None
  | (k', v) :: t' => if Nat.eqb k k' then Some v else tget t' k
  end.

(** [t[k]] read as a number: [undefined] behaves as [NaN] in arithmetic. *)
Definition tnum (t : table) (k : nat) : jsnum :=
  match tget t k with Some v => v | None => NaN end.

(** [t[k] = v]. *)
Fixpoint tset {V} (t : list (nat * V)) (k : nat) (v : V) : list (nat * V) :=
  match t with
  | [] => [(k, v)]
  | (k', v') :: t' =>
      if Nat.eqb k k' then (k, v) :: t'
      else if Nat.ltb k k' then (k, v) :: t
      else (k', v') :: tset t' k v
  end.

(** [delete t[k]]. *)
Fixpoint tdel {V} (t : list (nat * V)) (k : nat) : list (nat * V) :=
  match t with
  | [] => []
  | (k', v') :: t' => if Nat.eqb k k' then t' else (k', v') :: tdel t' k
  end.

(** [t[k]++]. *)
Definition tincr (t : table) (k : nat) : table := tset t k (JS.add (tnum t k) (Fin 1)).

(** [for (let i = 1; i <= n; i++) t[i] = v], from the empty object. *)
Definition tinit (n : nat) (v : jsnum) : table := map (fun i => (i, v)) (seq 1 n).

(* ===================================================================== *)
(** * Data model ([src/lottery-data.js]) *)
(* ===================================================================== *)

Record GameConfig : Type := mkGame {
  balls : nat;      (* numbers are drawn from 1..balls *)
  pick : nat        (* numbers per draw *)
}.

Record Draw : Type := mkDraw {
  numbers : list nat;
  bonus : nat
}.

(** The invariants of a game and of a draw history for it. *)
Definition valid_numbers (g : GameConfig) (c : list nat) : Prop :=
  length c = pick g /\ NoDup c /\ Forall (fun n => (1 <= n <= balls g)%nat) c.

Definition valid_game (g : GameConfig) : Prop := (pick g < balls g)%nat.

Definition valid_data (g : GameConfig) (data : list Draw) : Prop :=
  Forall (fun d => valid_numbers g (numbers d)) data.

(** A candidate: [pick] distinct numbers of [1..balls] in ascending order. *)
Definition candidate (g : GameConfig) (c : list nat) : Prop :=
  valid_numbers g c /\ Sorted Nat.lt c.

(* ===================================================================== *)
(** * LotteryDataAnalyzer ([src/lottery-data.js]) *)
(* ===================================================================== *)

(** An object whose keys are not integer-like (pair keys ["a-b"], odd/even
    keys ["3O/4E"], range keys ["100-119"]): enumeration follows insertion
    order.  The key strings are modelled by the numbers they are built
    from. *)
Fixpoint oget {K V} (eqb : K -> K -> bool) (o : list (K * V)) (k : K) : option V :=
  match o with
  | [] => None
  | (k', v) :: o' => if eqb k k' then Some v else oget eqb o' k
  end.

Fixpoint oset {K V} (eqb : K -> K -> bool) (o : list (K * V)) (k : K) (v : V) : list (K * V) :=
  match o with
  | [] => [(k, v)]
  | (k', v') :: o' => if eqb k k' then (k, v) :: o' else (k', v') :: oset eqb o' k v
  end.

(** [o[k] = (o[k] || 0) + 1] on a counter object. *)
Definition obump {K} (eqb : K -> K -> bool) (o : list (K * nat)) (k : K) : list (K * nat) :=
  oset eqb o k (S (default 0%nat (oget eqb o k))).

Definition pair_eqb (a b : nat * nat) : bool :=
  Nat.eqb (fst a) (fst b) && Nat.eqb (snd a) (snd b).

(** Entries by descending value: [.sort((a, b) => b[1] - a[1])]. *)
Definition by_value_desc {K} (a b : K * jsnum) : bool :=
  JS.gt (JS.sub (snd b) (snd a)) (Fin 0).
Definition by_value_asc {K} (a b : K * jsnum) : bool :=
  JS.gt (JS.sub (snd a) (snd b)) (Fin 0).
Definition by_count_desc {K} (a b : K * nat) : bool := Nat.ltb (snd a) (snd b).

(** [xs.filter(n => n % 2 === 1).length]. *)
Definition count_odd (xs : list nat) : nat := length (filter (fun n => Nat.eqb (n mod 2) 1) xs).

(** [xs.reduce((a, b) => a + b, 0)] on integers. *)
Definition sum_nat (xs : list nat) : nat := fold_left Nat.add xs 0%nat.

(** The pairs [(xs[i], xs[j])], [i < j], in the order of the two nested loops. *)
Fixpoint pairs_of (xs : list nat) : list (nat * nat) :=
  match xs with
  | [] => []
  | x :: xs' => map (fun y => (x, y)) xs' ++ pairs_of xs'
  end.

(** [sorted[i] - sorted[i-1]] for [i = 1 ..]. *)
Fixpoint gaps (sorted : list nat) : list nat :=
  match sorted with
  | x :: ((y :: _) as rest) => (y - x)%nat :: gaps rest
  | _ => []
  end.

(** [sorted[sorted.length - 1] - sorted[0]]; [undefined - undefined] on the
    empty array. *)
Definition spread_of (sorted : list nat) : jsnum :=
  match sorted with
  | [] => NaN
  | x :: _ => JS.of_nat (List.last sorted x - x)
  end.

Record SumDistribution : Type := mkSumDist {
  sd_min : jsnum;
  sd_max : jsnum;
  sd_avg : jsnum;
  sd_ranges : list (nat * nat)      (* range start |-> count *)
}.

Record PatternAnalysis : Type := mkPatterns {
  allOdd : nat;
  allEven : nat;
  balanced : nat;
  lowNumbers : nat;
  highNumbers : nat;
  hasConsecutive : nat;
  spreadOut : nat
}.

Definition bump (b : bool) (n : nat) : nat := if b then S n else n.

Section Analyzer.

Variable game : GameConfig.
Variable data : list Draw.        (* HISTORICAL_DATA[gameKey], most recent first *)

Definition getNumberFrequency : table :=
  let frequency := tinit (balls game) (Fin 0) in
  fold_left (fun fr draw => fold_left tincr (numbers draw) fr) data frequency.

Definition getExpectedFrequency : jsnum :=
  let totalDraws := JS.of_nat (length data) in
  let numbersPerDraw := JS.of_nat (pick game) in
  JS.div (JS.mul totalDraws numbersPerDraw) (JS.of_nat (balls game)).

Definition getHotNumbers (count : nat) : list (nat * jsnum) :=
  take count (js_sort by_value_desc getNumberFrequency).

Definition getColdNumbers (count : nat) : list (nat * jsnum) :=
  take count (js_sort by_value_asc getNumberFrequency).

(** The [lastSeen] object built by [getOverdueNumbers] (and again by
    [overdueBasedPrediction]). *)
Definition lastSeenStep (lastSeen : table) (idx : nat) (draw : Draw) : table :=
  fold_left (fun ls num =>
               if JS.gt (tnum ls num) (JS.of_nat idx) then tset ls num (JS.of_nat idx) else ls)
            (numbers draw) lastSeen.

Fixpoint lastSeenLoop (draws : list Draw) (idx : nat) (lastSeen : table) : table :=
  match draws with
  | [] => lastSeen
  | d :: ds => lastSeenLoop ds (S idx) (lastSeenStep lastSeen idx d)
  end.

Definition lastSeenTable : table :=
  lastSeenLoop data 0 (tinit (balls game) (JS.of_nat (length data))).

Definition getOverdueNumbers (count : nat) : list (nat * jsnum) :=
  take count (js_sort by_value_desc lastSeenTable).

Definition pairCounts : list ((nat * nat) * nat) :=
  fold_left (fun pairs draw => fold_left (obump pair_eqb) (pairs_of (numbers draw)) pairs)
            data [].

Definition getCommonPairs (count : nat) : list ((nat * nat) * nat) :=
  take count (js_sort by_count_desc pairCounts).

Definition getOddEvenDistribution : list ((nat * nat) * nat) :=
  fold_left (fun distribution draw =>
               let oddCount := count_odd (numbers draw) in
               let evenCount := (length (numbers draw) - oddCount)%nat in
               obump pair_eqb distribution (oddCount, evenCount))
            data [].

Definition getSumDistribution : SumDistribution :=
  let sums := map (fun draw => sum_nat (numbers draw)) data in
  let jsums := map JS.of_nat sums in
  let rangeSize := 20%nat in
  {| sd_min := JS.min_list jsums;
     sd_max := JS.max_list jsums;
     sd_avg := JS.div (JS.sum jsums) (JS.of_nat (length sums));
     sd_ranges :=
       fold_left (fun ranges sum => obump Nat.eqb ranges ((sum / rangeSize) * rangeSize)%nat)
                 sums [] |}.

(** The decade holding [num], as the pair (start, end) its key is built from. *)
Definition decade_key (decadeIndex : nat) : nat * nat :=
  ((decadeIndex * 10 + 1)%nat, Nat.min ((decadeIndex + 1) * 10) (balls game)).

(** [Math.ceil(balls / 10)]. *)
Definition decade_count : nat := ((balls game + 9) / 10)%nat.

Definition getDecadeDistribution : list ((nat * nat) * jsnum) :=
  let decades := map (fun i => (decade_key i, Fin 0)) (seq 0 decade_count) in
  fold_left (fun dec draw =>
               fold_left (fun dec num =>
                            let k := decade_key ((num - 1) / 10) in
                            let old := match oget pair_eqb dec k with
                                       | Some v => v | None => NaN end in
                            oset pair_eqb dec k (JS.add old (Fin 1)))
                         (numbers draw) dec)
            data decades.

Definition getDeltaAnalysis : table :=
  let deltas := flat_map (fun draw => gaps (sort_asc (numbers draw))) data in
  fold_left (fun frequency d => tset frequency d (JS.add (JS.or_else (tnum frequency d) (Fin 0)) (Fin 1)))
            deltas [].

Definition getPatternAnalysis : PatternAnalysis :=
  let midPoint := JS.div (JS.of_nat (balls game)) (Fin 2) in
  fold_left
    (fun p draw =>
       let odds := count_odd (numbers draw) in
       let lows := length (filter (fun n => JS.le (JS.of_nat n) midPoint) (numbers draw)) in
       let sorted := sort_asc (numbers draw) in
       let hasConsec := existsb (fun d => Nat.eqb d 1) (gaps sorted) in
       let spread := spread_of sorted in
       {| allOdd := bump (Nat.eqb odds (pick game)) (allOdd p);
          allEven := bump (Nat.eqb odds 0) (allEven p);
          balanced :=
            bump (JS.le (JS.abs (JS.sub (JS.of_nat odds)
                                        (JS.div (JS.of_nat (pick game)) (Fin 2))))
                        (Fin 1))
                 (balanced p);
          lowNumbers := bump (Nat.leb (pick game - 1) lows) (lowNumbers p);
          highNumbers := bump (Nat.leb lows 1) (highNumbers p);
          hasConsecutive := bump hasConsec (hasConsecutive p);
          spreadOut :=
            bump (JS.ge spread (JS.mul (JS.of_nat (balls game)) (Fin (7 # 10))))
                 (spreadOut p) |})
    data
    (mkPatterns 0 0 0 0 0 0 0).

End Analyzer.

(* ===================================================================== *)
(** * PredictionEngine ([src/algorithms.js]) *)
(* ===================================================================== *)

(** The [constraints] argument of [generateMultipleSets] (the
    [includeConsecutive] flag of the caller is never read). *)
Record Constraints : Type := mkConstraints {
  balanceOddEven : bool;
  balanceHighLow : bool;
  avoidRepeats : bool
}.

(** One entry of the array [generateMultipleSets] returns. *)
Record PredictionSet : Type := mkSet {
  ps_numbers : list nat;
  ps_confidence : jsnum;
  ps_algorithm : string
}.

(** The [weights] field of a [PredictionEngine], as set by the constructor,
    and [setWeights]: [this.weights = { ...this.weights, ...weights }]. *)
Definition initialWeights : gmap string jsnum :=
  <["frequency" := Fin (25 # 100)]>
    (<["overdue" := Fin (25 # 100)]>
       (<["pattern" := Fin (25 # 100)]>
          (<["statistical" := Fin (25 # 100)]> ∅))).


Section Engine.

Variable rnd : nat -> Q.          (* successive values of Math.random() *)
Variable game : GameConfig.
Variable data : list Draw.

(** [Math.random()]. *)
Definition random : M Q := fun s => Ok (rnd s, S s).

(** [Math.floor(Math.random() * n)]. *)
Definition randomBelow (n : nat) : M nat :=
  let* r := random in
  ret (Z.to_nat (Qfloor (r * inject_Z (Z.of_nat n)))).

(** ** Utility methods *)

(** The [for (let num in available)] loop of [weightedSelection]: the key
    at which the running [rand] first drops to [<= 0], if any.  The
    subtraction is exact here; in double arithmetic it is rounded, so that a
    scan can end with [rand > 0] where the exact one reaches a key, and
    [Math.random() * total] can underflow to 0.  What is stated of the code
    about [weightedSelection] for arbitrary weights is therefore about the
    values it returns, not about its returning. *)
Fixpoint ws_scan (rand : jsnum) (available : table) : option nat :=
  match available with
  | [] => None
  | (num, w) :: rest =>
      let rand' := JS.sub rand w in
      if JS.le rand' (Fin 0) then Some num else ws_scan rand' rest
  end.

(** The fallback of [weightedSelection]: weight 1 for every number of
    [1..balls] not selected yet. *)
Definition ws_fallback (selected : list nat) (available : table) : table :=
  fold_left (fun av i => if includes selected i then av else tset av i (Fin 1))
            (seq 1 (balls game)) available.

Fixpoint ws_loop (fuel count : nat) (selected : list nat) (available : table)
  : M (list nat) :=
  match fuel with
  | O => out_of_fuel
  | S fuel' =>
      if Nat.ltb (length selected) count then
        let total := JS.sum (values available) in
        if JS.eq total (Fin 0) then
          ws_loop fuel' count selected (ws_fallback selected available)
        else
          let* r := random in
          match ws_scan (JS.mul (Fin r) total) available with
          | Some num => ws_loop fuel' count (selected ++ [num]) (tdel available num)
          | None => ws_loop fuel' count selected available
          end
      else ret (sort_asc selected)
  end.

Definition weightedSelection (fuel : nat) (weights : table) (count : nat) : M (list nat) :=
  ws_loop fuel count [] weights.

(** [generateRandomNumbers]: a [Set] filled until it has [pick] members,
    returned in insertion order. *)
Fixpoint grn_loop (fuel : nat) (numbers : list nat) : M (list nat) :=
  match fuel with
  | O => out_of_fuel
  | S fuel' =>
      if Nat.ltb (length numbers) (pick game) then
        let* k := randomBelow (balls game) in
        let n := S k in
        grn_loop fuel' (if includes numbers n then numbers else numbers ++ [n])
      else ret numbers
  end.

Definition generateRandomNumbers (fuel : nat) : M (list nat) := grn_loop fuel [].

(** [generateCombinations(arr, size)]: the [size]-element sublists of
    [arr], in the order the recursive [combine] pushes them. *)
Fixpoint generateCombinations (arr : list nat) (size : nat) {struct size}
  : list (list nat) :=
  match size with
  | O => [[]]
  | S size' =>
      (fix from (arr : list nat) : list (list nat) :=
         match arr with
         | [] => []
         | x :: rest => map (cons x) (generateCombinations rest size') ++ from rest
         end) arr
  end.

(** ** Algorithm 1: frequency *)

Definition frequencyWeights : table :=
  let frequency := getNumberFrequency game data in
  let totalFreq := JS.sum (values frequency) in
  map (fun e => (fst e, JS.div (snd e) totalFreq)) frequency.

Definition frequencyBasedPrediction (fuel : nat) : M (list nat) :=
  weightedSelection fuel frequencyWeights (pick game).

(** ** Algorithm 2: overdue *)

Definition overdueScores : table :=
  let lastSeen := lastSeenTable game data in
  let expectedInterval := JS.div (JS.of_nat (balls game)) (JS.of_nat (pick game)) in
  map (fun i =>
         let drawsSince := tnum lastSeen i in
         let overdueRatio := JS.div drawsSince expectedInterval in
         (i, JS.min overdueRatio (Fin 3)))
      (seq 1 (balls game)).

Definition overdueBasedPrediction (fuel : nat) : M (list nat) :=
  weightedSelection fuel overdueScores (pick game).

(** ** Algorithm 6: delta system *)

(** The ten most frequent deltas. *)
Definition sortedDeltas : list nat :=
  map fst (take 10 (js_sort by_value_desc (getDeltaAnalysis data))).

(** [next <= balls && !numbers.includes(next)], [next] possibly
    [NaN] (there [None]). *)
Definition delta_ok (numbers : list nat) (next : option nat) : bool :=
  match next with
  | Some n => Nat.leb n (balls game) && negb (includes numbers n)
  | None => false
  end.

(** The first [while] loop of [deltaSystemPrediction]. *)
Fixpoint delta_loop (fuel : nat) (numbers : list nat) : M (list nat) :=
  match fuel with
  | O => out_of_fuel
  | S fuel' =>
      if Nat.ltb (length numbers) (pick game) then
        let* i := randomBelow (length sortedDeltas) in
        let lastNumber := List.last numbers 0%nat in
        let next := (fun delta => lastNumber + delta)%nat <$> sortedDeltas !! i in
        if delta_ok numbers next then
          delta_loop fuel' (numbers ++ [default 0%nat next])
        else if Nat.ltb (length numbers) (pick game) then
          let* j := randomBelow 10 in
          let altNext := (lastNumber + j + 1)%nat in
          if delta_ok numbers (Some altNext) then
            delta_loop fuel' (numbers ++ [altNext])
          else delta_loop fuel' numbers
        else delta_loop fuel' numbers
      else ret numbers
  end.

(** The second [while] loop: fill with random numbers. *)
Fixpoint delta_fill (fuel : nat) (numbers : list nat) : M (list nat) :=
  match fuel with
  | O => out_of_fuel
  | S fuel' =>
      if Nat.ltb (length numbers) (pick game) then
        let* k := randomBelow (balls game) in
        let rand := S k in
        delta_fill fuel' (if includes numbers rand then numbers else numbers ++ [rand])
      else ret numbers
  end.

Definition deltaSystemPrediction (fuel : nat) : M (list nat) :=
  let* k := randomBelow 15 in
  let start := S k in
  let* numbers := delta_loop fuel [start] in
  let* numbers := delta_fill fuel numbers in
  ret (sort_asc numbers).

(** ** Algorithm 3: pattern *)

(** [pairScores]: both orientations of every common pair. *)
Definition pairScores : list ((nat * nat) * nat) :=
  fold_left (fun ps e =>
               let '((a, b), freq) := e in
               oset pair_eqb (oset pair_eqb ps (a, b) freq) (b, a) freq)
            (getCommonPairs data 30) [].

(** The score of [num] against the numbers selected so far. *)
Definition patternScore (frequency : table) (selected : list nat) (num : nat) : jsnum :=
  fold_left (fun score sel =>
               JS.add score
                      (JS.mul (JS.of_nat (default 0%nat (oget pair_eqb pairScores (sel, num))))
                              (Fin 2)))
            selected (tnum frequency num).

(** The inner [for] loop: the best unselected number and its score. *)
Definition patternBest (frequency : table) (selected : list nat) : option nat * jsnum :=
  fold_left (fun best num =>
               if includes selected num then best
               else
                 let score := patternScore frequency selected num in
                 if JS.gt score (snd best) then (Some num, score) else best)
            (seq 1 (balls game)) (None, Fin (-1)).

Fixpoint pattern_loop (fuel : nat) (frequency : table) (selected : list nat)
  : result (list nat) :=
  match fuel with
  | O => OutOfFuel
  | S fuel' =>
      if Nat.ltb (length selected) (pick game) then
        match fst (patternBest frequency selected) with
        | Some bestNext => pattern_loop fuel' frequency (selected ++ [bestNext])
        | None => pattern_loop fuel' frequency selected
        end
      else Ok selected
  end.

Definition patternBasedPrediction (fuel : nat) : result (list nat) :=
  let frequency := getNumberFrequency game data in
  match js_sort by_value_desc frequency with
  | [] => Throw                                   (* sorted[0] is undefined *)
  | (first, _) :: _ =>
      rbind (pattern_loop fuel frequency [first]) (fun selected => Ok (sort_asc selected))
  end.

(** ** Algorithm 4: statistical equilibrium *)

(** [Math.abs(odds - targetOdds) <= 1 && Math.abs(sum - targetSum) <= 30]. *)
Definition matchesProfile (targetOdds : nat) (targetSum : jsnum) (candidate : list nat)
  : bool :=
  let odds := count_odd candidate in
  let sum := sum_nat candidate in
  JS.le (JS.abs (JS.sub (JS.of_nat odds) (JS.of_nat targetOdds))) (Fin 1)
  && JS.le (JS.abs (JS.sub (JS.of_nat sum) targetSum)) (Fin 30).

Fixpoint equilibrium_loop (fuel attemptsLeft targetOdds : nat) (targetSum : jsnum)
  : M (list nat) :=
  match attemptsLeft with
  | O => frequencyBasedPrediction fuel
  | S attemptsLeft' =>
      let* candidate := generateRandomNumbers fuel in
      if matchesProfile targetOdds targetSum candidate then ret (sort_asc candidate)
      else equilibrium_loop fuel attemptsLeft' targetOdds targetSum
  end.

Definition statisticalEquilibriumPrediction (fuel : nat) : M (list nat) :=
  let oddEven := getOddEvenDistribution data in
  let sumDist := getSumDistribution data in
  match js_sort by_count_desc oddEven with
  | [] => throw                                   (* sortedOddEven[0] is undefined *)
  | ((targetOdds, _), _) :: _ =>
      equilibrium_loop fuel 1000 targetOdds (sd_avg sumDist)
  end.

(** ** Algorithm 5: wheeling *)

Definition wheelingSystemPrediction (keyNumbers : option (list nat)) : result (list nat) :=
  let keyNumbers :=
    match keyNumbers with
    | Some ks => ks
    | None => map fst (getHotNumbers game data (pick game + 3))
    end in
  let combinations := generateCombinations keyNumbers (pick game) in
  let frequency := getNumberFrequency game data in
  let scores :=
    map (fun combo =>
           (combo, fold_left (fun sum num => JS.add sum (tnum frequency num)) combo (Fin 0)))
        combinations in
  match js_sort by_value_desc scores with
  | [] => Throw                                   (* scores[0] is undefined *)
  | (combo, _) :: _ => Ok (sort_asc combo)
  end.

(** ** Algorithm 7: Markov chain *)

(** [transitions[prev][curr]++]. *)
Definition bumpTransition (transitions : list (nat * table)) (prev curr : nat)
  : result (list (nat * table)) :=
  match tget transitions prev with
  | None => Throw                                 (* transitions[prev] is undefined *)
  | Some row => Ok (tset transitions prev (tincr row curr))
  end.

(** The counting loop: [draws] is [data] from index [i - 1] on. *)
Fixpoint countTransitions (draws : list Draw) (transitions : list (nat * table))
  : result (list (nat * table)) :=
  match draws with
  | curr :: ((prev :: _) as rest) =>
      rbind (foldR (fun tr p => foldR (fun tr c => bumpTransition tr p c) (numbers curr) tr)
                   (numbers prev) transitions)
            (countTransitions rest)
  | _ => Ok transitions
  end.

Definition markovCounts : result (list (nat * table)) :=
  countTransitions data
    (map (fun i => (i, tinit (balls game) (Fin 0))) (seq 1 (balls game))).

Definition normalizeRow (row : table) : table :=
  let total := JS.sum (values row) in
  if JS.gt total (Fin 0)
  then map (fun e => (fst e, JS.div (snd e) total)) row
  else row.

Definition markovTransitions : result (list (nat * table)) :=
  rbind markovCounts (fun tr => Ok (map (fun e => (fst e, normalizeRow (snd e))) tr)).

Definition markovScores (transitions : list (nat * table)) (lastDraw : list nat)
  : result table :=
  foldR (fun scores i =>
           rbind (foldR (fun score prev =>
                           match tget transitions prev with
                           | None => Throw
                           | Some row => Ok (JS.add score (tnum row i))
                           end)
                        lastDraw (Fin 0))
                 (fun score => Ok (scores ++ [(i, score)])))
        (seq 1 (balls game)) [].

Definition markovChainPrediction (fuel : nat) : M (list nat) :=
  let* transitions := lift markovTransitions in
  match data with
  | [] => throw                                   (* data[0] is undefined *)
  | lastDraw :: _ =>
      let* scores := lift (markovScores transitions (numbers lastDraw)) in
      weightedSelection fuel scores (pick game)
  end.

(** ** Algorithm 8: genetic algorithm *)

(** [pairs.find(p => p matches {a, b})]. *)
Definition findPair (pairs : list ((nat * nat) * nat)) (a b : nat) : option nat :=
  snd <$> List.find (fun p => pair_eqb (fst p) (a, b) || pair_eqb (fst p) (b, a)) pairs.

Definition evaluateFitness (numbers : list nat) : jsnum :=
  let frequency := getNumberFrequency game data in
  let pairs := getCommonPairs data 50 in
  let fitness :=
    fold_left (fun f num => JS.add f (JS.mul (tnum frequency num) (Fin (1 # 2))))
              numbers (Fin 0) in
  let fitness :=
    fold_left (fun f p =>
                 match findPair pairs (fst p) (snd p) with
                 | Some freq => JS.add f (JS.mul (JS.of_nat freq) (Fin (3 # 10)))
                 | None => f
                 end)
              (pairs_of numbers) fitness in
  let odds := count_odd numbers in
  let evenCount := (length numbers - odds)%nat in
  let fitness :=
    JS.add fitness
           (JS.mul (JS.sub (Fin 1)
                           (JS.div (JS.abs (JS.sub (JS.of_nat odds) (JS.of_nat evenCount)))
                                   (JS.of_nat (length numbers))))
                   (Fin 10)) in
  let spread := spread_of (sort_asc numbers) in
  JS.add fitness (JS.mul (JS.div spread (JS.of_nat (balls game))) (Fin 5)).

(** [child.add(x)] on a [Set] kept in insertion order. *)
Definition set_add (child : list nat) (x : nat) : list nat :=
  if includes child x then child else child ++ [x].

Fixpoint crossover_fill (fuel : nat) (child : list nat) : M (list nat) :=
  match fuel with
  | O => out_of_fuel
  | S fuel' =>
      if Nat.ltb (length child) (pick game) then
        let* k := randomBelow (balls game) in
        crossover_fill fuel' (set_add child (S k))
      else ret child
  end.

(** [crossover]; the parents have at least [crossPoint] genes. *)
Definition crossover (fuel : nat) (parent1 parent2 : list nat) : M (list nat) :=
  let crossPoint := (pick game / 2)%nat in
  let guarded_add child x :=
    if Nat.ltb (length child) (pick game) then set_add child x else child in
  let child := fold_left guarded_add (take crossPoint parent1) [] in
  let child := fold_left guarded_add parent2 child in
  crossover_fill fuel child.

(** The [do .. while (mutated.includes(newNum))] loop of [mutate]. *)
Fixpoint mutate_pick (fuel : nat) (mutated : list nat) : M nat :=
  match fuel with
  | O => out_of_fuel
  | S fuel' =>
      let* k := randomBelow (balls game) in
      let newNum := S k in
      if includes mutated newNum then mutate_pick fuel' mutated else ret newNum
  end.

Definition mutate (fuel : nat) (numbers : list nat) (rate : Q) : M (list nat) :=
  foldM (fun mutated i =>
           let* r := random in
           if negb (Qle_bool rate r) then
             let* newNum := mutate_pick fuel mutated in
             ret (<[i := newNum]> mutated)
           else ret mutated)
        (seq 0 (length numbers)) numbers.

(** Individuals by descending fitness. *)
Definition rank (population : list (list nat)) : list (list nat * jsnum) :=
  js_sort by_value_desc (map (fun individual => (individual, evaluateFitness individual))
                             population).

(** [Math.floor(populationSize * 0.2)]. *)
Definition eliteSize (populationSize : nat) : nat :=
  Z.to_nat (Qfloor (inject_Z (Z.of_nat populationSize) * (2 # 10))).

(** One offspring: two parents drawn from the elite, crossover, mutation. *)
Definition offspring (fuel : nat) (elite : list (list nat * jsnum)) : M (list nat) :=
  let* i1 := randomBelow (length elite) in
  match elite !! i1 with
  | None => throw                                 (* elite[i] is undefined *)
  | Some (parent1, _) =>
      let* i2 := randomBelow (length elite) in
      match elite !! i2 with
      | None => throw
      | Some (parent2, _) =>
          let* child := crossover fuel parent1 parent2 in
          mutate fuel child (1 # 10)
      end
  end.

(** The [while (newPopulation.length < populationSize)] loop; each turn
    pushes one individual, [missing] of them are left to add. *)
Fixpoint breed (fuel missing : nat) (elite : list (list nat * jsnum))
    (newPopulation : list (list nat)) : M (list (list nat)) :=
  match missing with
  | O => ret newPopulation
  | S missing' =>
      let* mutated := offspring fuel elite in
      breed fuel missing' elite (newPopulation ++ [mutated])
  end.

(** One turn of the evolution loop. *)
Definition nextGeneration (fuel populationSize : nat) (population : list (list nat))
  : M (list (list nat)) :=
  let scored := rank population in
  let elite := take (eliteSize populationSize) scored in
  let newPopulation := map fst elite in
  breed fuel (populationSize - length newPopulation) elite newPopulation.

Fixpoint initialPopulation (fuel populationSize : nat) : M (list (list nat)) :=
  match populationSize with
  | O => ret []
  | S n =>
      let* individual := generateRandomNumbers fuel in
      let* rest := initialPopulation fuel n in
      ret (individual :: rest)
  end.

(** The population after [generations] turns. *)
Fixpoint evolve (fuel generations populationSize : nat) : M (list (list nat)) :=
  match generations with
  | O => initialPopulation fuel populationSize
  | S gen =>
      let* population := evolve fuel gen populationSize in
      nextGeneration fuel populationSize population
  end.

Definition geneticAlgorithmPrediction (fuel generations populationSize : nat)
  : M (list nat) :=
  let* population := evolve fuel generations populationSize in
  match rank population with
  | [] => throw                                   (* final[0] is undefined *)
  | (best, _) :: _ => ret (sort_asc best)
  end.

(** ** Algorithm 9: Monte Carlo *)

Definition monteCarloCdf : list (nat * jsnum) :=
  let frequency := getNumberFrequency game data in
  let totalFreq := JS.sum (values frequency) in
  snd (fold_left (fun acc i =>
                    let cumulative := JS.add (fst acc) (JS.div (tnum frequency i) totalFreq) in
                    (cumulative, snd acc ++ [(i, cumulative)]))
                 (seq 1 (balls game)) (Fin 0, [])).

Fixpoint mc_sample (fuel : nat) (cdf : list (nat * jsnum)) (sample : list nat)
  : M (list nat) :=
  match fuel with
  | O => out_of_fuel
  | S fuel' =>
      if Nat.ltb (length sample) (pick game) then
        let* rand := random in
        match List.find (fun c => JS.ge (snd c) (Fin rand)) cdf with
        | None => throw                           (* cdf.find(..) is undefined *)
        | Some (num, _) =>
            mc_sample fuel' cdf (if includes sample num then sample else sample ++ [num])
        end
      else ret sample
  end.

Fixpoint mc_run (fuel iterations : nat) (cdf : list (nat * jsnum))
    (combinationCounts : list (list nat * nat)) : M (list (list nat * nat)) :=
  match iterations with
  | O => ret combinationCounts
  | S iterations' =>
      let* sample := mc_sample fuel cdf [] in
      mc_run fuel iterations' cdf
             (obump (fun a b => bool_decide (a = b)) combinationCounts (sort_asc sample))
  end.

(** [Object.entries(combinationCounts)]: insertion order, except that the
    one-number keys of a game with [pick = 1] are integer-like and come in
    ascending order. *)
Definition mc_entries (combinationCounts : list (list nat * nat)) : list (list nat * nat) :=
  if Nat.eqb (pick game) 1
  then js_sort (fun a b => Nat.ltb (List.hd 0%nat (fst b)) (List.hd 0%nat (fst a)))
               combinationCounts
  else combinationCounts.

Definition monteCarloSimulation (fuel iterations : nat) : M (list nat) :=
  let* combinationCounts := mc_run fuel iterations monteCarloCdf [] in
  match js_sort by_count_desc (mc_entries combinationCounts) with
  | [] => throw                                   (* sorted[0] is undefined *)
  | (combo, _) :: _ =>
      (* "".split('-').map(Number) is [0] *)
      ret (match combo with [] => [0%nat] | _ => combo end)
  end.

(** ** Algorithm 10: Fourier / cyclical *)

(** The indices of the draws holding [num]. *)
Definition positionsOf (num : nat) : list nat :=
  map fst (filter (fun e => includes (numbers (snd e)) num)
                  (combine (seq 0 (length data)) data)).

Definition cycleScoreOf (frequency : table) (num : nat) : jsnum :=
  let positions := positionsOf num in
  if Nat.ltb (length positions) 2 then tnum frequency num
  else
    let gaps := gaps positions in
    let avgCycle := JS.div (JS.of_nat (sum_nat gaps)) (JS.of_nat (length gaps)) in
    let drawsSinceLast := JS.of_nat (List.hd 0%nat positions) in
    let cycleScore := JS.div drawsSinceLast avgCycle in
    JS.mul cycleScore (tnum frequency num).

Definition fourierCycles : table :=
  let frequency := getNumberFrequency game data in
  map (fun num => (num, cycleScoreOf frequency num)) (seq 1 (balls game)).

Definition fourierAnalysisPrediction (fuel : nat) : M (list nat) :=
  weightedSelection fuel fourierCycles (pick game).

(** ** Hybrid *)

(** [this.weights.<key>]; a missing key reads as [undefined], here [NaN]. *)
Definition weightOf (weights : gmap string jsnum) (key : string) : jsnum :=
  default NaN (weights !! key).

Definition algoWeights (weights : gmap string jsnum) : list jsnum :=
  [ weightOf weights "frequency"; weightOf weights "overdue";
    weightOf weights "pattern"; weightOf weights "statistical";
    Fin (15 # 100); Fin (2 # 10); Fin (25 # 100); Fin (15 # 100) ].

(** The credit one strategy's prediction adds to the number scores. *)
Definition creditPrediction (numberScores : table) (weight : jsnum) (prediction : list nat)
  : table :=
  fold_left (fun scores e =>
               let '(idx, num) := e in
               let positionWeight :=
                 JS.div (JS.sub (JS.of_nat (pick game)) (JS.of_nat idx))
                        (JS.of_nat (pick game)) in
               tset scores num
                    (JS.add (tnum scores num)
                            (JS.mul (JS.or_else weight (Fin (1 # 10))) positionWeight)))
            (combine (seq 0 (length prediction)) prediction) numberScores.

(** The scores of [hybridPrediction] from the eight predictions. *)
Definition hybridScores (weights : gmap string jsnum) (predictions : list (list nat))
  : table :=
  fold_left (fun scores e => creditPrediction scores (fst e) (snd e))
            (combine (algoWeights weights) predictions)
            (tinit (balls game) (Fin 0)).

Definition hybridPrediction (weights : gmap string jsnum) (fuel : nat) : M (list nat) :=
  let* frequency := frequencyBasedPrediction fuel in
  let* overdue := overdueBasedPrediction fuel in
  let* pattern := lift (patternBasedPrediction fuel) in
  let* statistical := statisticalEquilibriumPrediction fuel in
  let* delta := deltaSystemPrediction fuel in
  let* markov := markovChainPrediction fuel in
  let* genetic := geneticAlgorithmPrediction fuel 30 50 in
  let* fourier := fourierAnalysisPrediction fuel in
  let numberScores :=
    hybridScores weights
      [frequency; overdue; pattern; statistical; delta; markov; genetic; fourier] in
  weightedSelection fuel numberScores (pick game).

(** ** Confidence *)

(** The five components of [calculateConfidence]. *)
Definition frequencyAlignment (numbers : list nat) : jsnum :=
  let frequency := getNumberFrequency game data in
  let expected := getExpectedFrequency game data in
  let avgFreq :=
    JS.div (fold_left (fun sum n => JS.add sum (tnum frequency n)) numbers (Fin 0))
           (JS.of_nat (length numbers)) in
  JS.mul (JS.min (JS.div avgFreq expected) (Fin (15 # 10))) (Fin 20).

Definition balanceComponent (numbers : list nat) : jsnum :=
  let odds := JS.of_nat (count_odd numbers) in
  let half := JS.div (JS.of_nat (pick game)) (Fin 2) in
  let balanceScore := JS.sub (Fin 1) (JS.div (JS.abs (JS.sub odds half)) half) in
  JS.mul balanceScore (Fin 20).

Definition spreadComponent (numbers : list nat) : jsnum :=
  let spread := spread_of (sort_asc numbers) in
  let spreadScore :=
    JS.min (JS.div spread (JS.mul (JS.of_nat (balls game)) (Fin (8 # 10)))) (Fin 1) in
  JS.mul spreadScore (Fin 20).

(** [new Set(numbers.map(n => Math.floor((n - 1) / 10)))]. *)
Definition decadesOf (numbers : list nat) : list Z :=
  remove_dups (map (fun n => ((Z.of_nat n - 1) / 10)%Z) numbers).

Definition decadeComponent (numbers : list nat) : jsnum :=
  let decadeCoverage :=
    JS.div (JS.of_nat (length (decadesOf numbers)))
           (JS.ceil (JS.div (JS.of_nat (balls game)) (Fin 10))) in
  JS.mul decadeCoverage (Fin 20).

Definition pairBonus (numbers : list nat) : nat :=
  let pairs := getCommonPairs data 20 in
  fold_left (fun bonus p =>
               if existsb (fun q => pair_eqb (fst q) p || pair_eqb (fst q) (snd p, fst p)) pairs
               then (bonus + 2)%nat else bonus)
            (pairs_of numbers) 0%nat.

Definition pairComponent (numbers : list nat) : jsnum :=
  JS.min (JS.of_nat (pairBonus numbers)) (Fin 20).

Definition calculateConfidence (numbers : list nat) : jsnum :=
  let confidence := Fin 0 in
  let confidence := JS.add confidence (frequencyAlignment numbers) in
  let confidence := JS.add confidence (balanceComponent numbers) in
  let confidence := JS.add confidence (spreadComponent numbers) in
  let confidence := JS.add confidence (decadeComponent numbers) in
  let confidence := JS.add confidence (pairComponent numbers) in
  JS.min (JS.round confidence) (Fin 100).

(** ** Multiple prediction sets *)

(** The [switch (algorithm)] of [generateMultipleSets], with the default
    arguments of each strategy. *)
Definition runAlgorithm (weights : gmap string jsnum) (fuel : nat) (algorithm : string)
  : M (list nat) :=
  if String.eqb algorithm "frequency" then frequencyBasedPrediction fuel
  else if String.eqb algorithm "overdue" then overdueBasedPrediction fuel
  else if String.eqb algorithm "pattern" then lift (patternBasedPrediction fuel)
  else if String.eqb algorithm "statistical" then statisticalEquilibriumPrediction fuel
  else if String.eqb algorithm "wheeling" then lift (wheelingSystemPrediction None)
  else if String.eqb algorithm "delta" then deltaSystemPrediction fuel
  else if String.eqb algorithm "markov" then markovChainPrediction fuel
  else if String.eqb algorithm "genetic" then geneticAlgorithmPrediction fuel 50 100
  else if String.eqb algorithm "montecarlo" then monteCarloSimulation fuel 10000
  else if String.eqb algorithm "fourier" then fourierAnalysisPrediction fuel
  else hybridPrediction weights fuel.

(** [odds < 2 || odds > pick - 2]. *)
Definition oddEvenViolated (numbers : list nat) : bool :=
  let odds := count_odd numbers in
  Nat.ltb odds 2 || Z.ltb (Z.of_nat (pick game) - 2) (Z.of_nat odds).

(** [lows < 2 || lows > pick - 2], [lows] counting the numbers [<= balls / 2]. *)
Definition highLowViolated (numbers : list nat) : bool :=
  let mid := JS.div (JS.of_nat (balls game)) (Fin 2) in
  let lows := length (filter (fun n => JS.le (JS.of_nat n) mid) numbers) in
  Nat.ltb lows 2 || Z.ltb (Z.of_nat (pick game) - 2) (Z.of_nat lows).

(** [overlap > pick / 2], [overlap] counting the numbers of the three most
    recent draws. *)
Definition repeatsViolated (candidate : list nat) : bool :=
  let recentNumbers := flat_map numbers (take 3 data) in
  let overlap := length (filter (fun n => includes recentNumbers n) candidate) in
  JS.gt (JS.of_nat overlap) (JS.div (JS.of_nat (pick game)) (Fin 2)).

(** The [attempts] counter at the end of one turn of the [do .. while]
    body.  A violated constraint runs [attempts++; continue], and
    [continue] in a [do .. while] jumps to the loop test; the other path
    runs the final [attempts++] and reaches the same test. *)
Definition attemptsAfter (constraints : Constraints) (numbers : list nat) (attempts : nat)
  : nat :=
  if balanceOddEven constraints && oddEvenViolated numbers then S attempts
  else if balanceHighLow constraints && highLowViolated numbers then S attempts
  else if avoidRepeats constraints && repeatsViolated numbers then S attempts
  else S attempts.

(** [usedCombinations.has(numbers.join('-'))]. *)
Definition usedHas (usedCombinations : list (list nat)) (numbers : list nat) : bool :=
  existsb (fun c => bool_decide (c = numbers)) usedCombinations.

(** The [do .. while (usedCombinations.has(..) && attempts < 100)] loop. *)
Fixpoint gms_attempts (weights : gmap string jsnum) (fuel turns : nat) (algorithm : string)
    (constraints : Constraints) (usedCombinations : list (list nat)) (attempts : nat)
  : M (list nat) :=
  match turns with
  | O => out_of_fuel
  | S turns' =>
      let* numbers := runAlgorithm weights fuel algorithm in
      let attempts := attemptsAfter constraints numbers attempts in
      if usedHas usedCombinations numbers && Nat.ltb attempts 100
      then gms_attempts weights fuel turns' algorithm constraints usedCombinations attempts
      else ret numbers
  end.

(** The [for (let i = 0; i < count; i++)] loop, [remaining] sets to go. *)
Fixpoint gms_sets (weights : gmap string jsnum) (fuel remaining : nat) (algorithm : string)
    (constraints : Constraints) (sets : list PredictionSet)
    (usedCombinations : list (list nat)) : M (list PredictionSet) :=
  match remaining with
  | O => ret sets
  | S remaining' =>
      let* numbers :=
        gms_attempts weights fuel fuel algorithm constraints usedCombinations 0 in
      gms_sets weights fuel remaining' algorithm constraints
               (sets ++ [mkSet numbers (calculateConfidence numbers) algorithm])
               (if usedHas usedCombinations numbers then usedCombinations
                else usedCombinations ++ [numbers])
  end.

Definition generateMultipleSets (weights : gmap string jsnum) (fuel count : nat)
    (algorithm : string) (constraints : Constraints) : M (list PredictionSet) :=
  let* sets := gms_sets weights fuel count algorithm constraints [] [] in
  ret (js_sort (fun a b => JS.gt (JS.sub (ps_confidence b) (ps_confidence a)) (Fin 0)) sets).

End Engine.

(* ===================================================================== *)
(** * Predicates used in the statements *)
(* ===================================================================== *)

(** The random source stays in [[0, 1)], as [Math.random()] does. *)
Definition rnd_ok (rnd : nat -> Q) : Prop := forall n, 0 <= rnd n /\ rnd n < 1.

(** A weight table for numbers of [1..N]: ascending keys in range, finite
    non-negative weights. *)
Definition wf_weights (N : nat) (t : table) : Prop :=
  StronglySorted Nat.lt (keys t) /\
  Forall (fun e => (1 <= fst e <= N)%nat /\ JS.nonneg (snd e)) t.

(** The sum of the finite weights of a table, as a rational. *)
Fixpoint qtotal (t : table) : Q :=
  match t with
  | [] => 0
  | (_, Fin q) :: t' => q + qtotal t'
  | _ :: t' => qtotal t'
  end.


(** [count] distinct numbers of [1..N] in ascending order. *)
Definition selection (N count : nat) (res : list nat) : Prop :=
  length res = count /\ NoDup res /\
  Forall (fun n => (1 <= n <= N)%nat) res /\ Sorted Nat.lt res.

(** [k] has a positive weight in [t]. *)
Definition positive_key (t : table) (k : nat) : Prop :=
  exists w, (k, Fin w) ∈ t /\ 0 < w.


(** The result of a selection respects the weights: it holds positive-weight
    numbers only, or all of them. *)
Definition respects_weights (weights : table) (res : list nat) : Prop :=
  Forall (positive_key weights) res \/ (forall k, positive_key weights k -> k ∈ res).

(** The random source never returns exactly 0. *)
Definition rnd_positive (rnd : nat -> Q) : Prop := forall n, 0 < rnd n /\ rnd n < 1.

(** The two phases of the loop of [weightedSelection] with respect to the
    initial [weights].  Before the fallback: only positive weights selected,
    every other positive weight still available ([Good] is a further
    property of the remaining weights).  After it: every positive weight has
    been selected. *)
Definition phaseA (weights : table) (Good : table -> Prop)
    (selected : list nat) (av : table) : Prop :=
  Forall (positive_key weights) selected /\
  (forall e, e ∈ av -> e ∈ weights) /\
  (forall k, positive_key weights k -> k ∉ selected -> positive_key av k) /\
  Good av /\
  Forall (fun e => JS.nonneg (snd e)) av.

Definition phaseB (weights : table) (selected : list nat) : Prop :=
  forall k, positive_key weights k -> k ∈ selected.



(** The Lottario game of [GAMES] and a one-draw history for it. *)
Definition lottario : GameConfig := mkGame 45 6.
Definition lottario_history : list Draw := [mkDraw [5; 15; 25; 35; 40; 45]%nat 7].

(** The Lotto 6/49 game of [GAMES] and a history of five identical all-even
    draws for it. *)
Definition lotto649 : GameConfig := mkGame 49 6.
Definition five_even_draws : list Draw := repeat (mkDraw [2; 4; 6; 8; 10; 12]%nat 1) 5.
Definition onlyOddEven : Constraints := mkConstraints true false false.





(** A statistic that is a number at all: not [NaN]. *)
Definition is_number (a : jsnum) : bool :=
  match a with NaN => false | _ => true end.

(** A row of counts or of weights over the numbers [1..N]. *)
Definition row_wf (N : nat) (row : table) : Prop :=
  keys row = seq 1 N /\ Forall (fun e => JS.nonneg (snd e)) row.

(** A transition matrix with one well-formed row per number of [1..N]. *)
Definition matrix_wf (N : nat) (tr : list (nat * table)) : Prop :=
  keys tr = seq 1 N /\ Forall (fun e => row_wf N (snd e)) tr.

(** A three-draw history for a small game. *)
Definition small_game : GameConfig := mkGame 6 2.
Definition small_history : list Draw :=
  [mkDraw [1; 2]%nat 1; mkDraw [2; 3]%nat 1; mkDraw [1; 5]%nat 1].

(** A finite number within [[lo, hi]]. *)
Definition fin_in (lo hi : Q) (a : jsnum) : Prop :=
  exists q, a = Fin q /\ lo <= q <= hi.

(** A finite positive number. *)
Definition fin_pos (a : jsnum) : Prop :=
  exists q, a = Fin q /\ 0 < q.

(** Partial correctness of a computation: every value it returns satisfies
    [Q]. *)
Definition post {A} (m : M A) (Q : A -> Prop) : Prop :=
  forall s x s', m s = Ok (x, s') -> Q x.

(** An individual of the genetic algorithm: [pick] distinct numbers of
    [1..balls], in any order. *)
Definition individual (g : GameConfig) (x : list nat) : Prop := valid_numbers g x.

(** Numbers collected so far by a loop that builds a combination: distinct,
    in range, at most [pick] of them. *)
Definition partial_numbers (g : GameConfig) (x : list nat) : Prop :=
  NoDup x /\ Forall (fun n => (1 <= n <= balls g)%nat) x /\ (length x <= pick g)%nat.

(** The best fitness present in a population ([-Infinity] for an empty one). *)
Definition bestFitness (g : GameConfig) (data : list Draw) (population : list (list nat))
  : jsnum :=
  JS.max_list (map (evaluateFitness g data) population).

Definition is_fin (a : jsnum) : Prop := exists q, a = Fin q.

(** A random source for worked examples: 0.1, 0.7, 0.3, 0.9, 0.5, 0.2, 0.6,
    repeated. *)
Definition sample_rnd (n : nat) : Q :=
  match (n mod 7)%nat with
  | 0%nat => 1 # 10
  | 1%nat => 7 # 10
  | 2%nat => 3 # 10
  | 3%nat => 9 # 10
  | 4%nat => 5 # 10
  | 5%nat => 2 # 10
  | _ => 6 # 10
  end.

(** Entries in descending order of their value. *)
Definition desc_by_value {K} (a b : K * jsnum) : Prop := JS.le (snd b) (snd a) = true.

(** An object whose keys are numbers of [1..N] in ascending order, whatever
    its values. *)
Definition keys_ok {V} (N : nat) (t : list (nat * V)) : Prop :=
  StronglySorted Nat.lt (keys t) /\ Forall (fun k => (1 <= k <= N)%nat) (keys t).

(** The state of the loop of [weightedSelection], the weights left aside. *)
Definition ws_pinv (N : nat) (selected : list nat) (available : table) : Prop :=
  keys_ok N available /\
  NoDup selected /\
  Forall (fun n => (1 <= n <= N)%nat) selected /\
  (forall n, n ∈ selected -> n ∉ keys available).

(** A game with one number per draw and fewer than 15 numbers, with a valid
    history. *)
Definition tiny_game : GameConfig := mkGame 10 1.
Definition tiny_history : list Draw := [mkDraw [3]%nat 1; mkDraw [7]%nat 1].

(* ===================================================================== *)
(** * The rest of [src/lottery-data.js] *)
(* ===================================================================== *)

(** The fields of an entry of [GAMES] read besides [balls] and [pick]. *)
Record GameInfo : Type := mkInfo {
  config : GameConfig;
  hasBonus : bool;
  bonusBalls : nat;
  drawDays : list string;
  jackpotStart : Z
}.

Definition GAMES : list (string * GameInfo) :=
  [ ("lottomax", mkInfo (mkGame 50 7) true 50 ["Tuesday"; "Friday"] 10000000);
    ("lotto649", mkInfo (mkGame 49 6) true 49 ["Wednesday"; "Saturday"] 5000000);
    ("dailygrand", mkInfo (mkGame 49 5) true 7 ["Monday"; "Thursday"] 1000);
    ("lottario", mkInfo (mkGame 45 6) true 45 ["Saturday"] 250000);
    ("ontario49", mkInfo (mkGame 49 6) true 49 ["Wednesday"; "Saturday"] 2000000) ].

(** [Math.floor(Math.random() * n)] for a large [n]. *)
Definition randomBelowZ (rnd : nat -> Q) (n : Z) : M Z :=
  let* r := random rnd in
  ret (Qfloor (r * inject_Z n)).

(** One generated draw: its numbers and bonus number, and the jackpot.  The
    [date] string is not part of the model: it is computed in double
    arithmetic, set in local time and read back in UTC, so its value depends
    on the time zone of the process. *)
Record SampleDraw : Type := mkSample {
  draw : Draw;
  jackpot : Z
}.

Module Data.

Section Generator.

Variable rnd : nat -> Q.

(** The free function [generateRandomNumbers(max, count)]. *)
Fixpoint generateRandomNumbers_loop (fuel max count : nat) (numbers : list nat)
  : M (list nat) :=
  match fuel with
  | O => out_of_fuel
  | S fuel' =>
      if Nat.ltb (length numbers) count then
        let* k := randomBelow rnd max in
        generateRandomNumbers_loop fuel' max count (set_add numbers (S k))
      else ret numbers
  end.

Definition generateRandomNumbers (fuel max count : nat) : M (list nat) :=
  generateRandomNumbers_loop fuel max count [].

(** The body of the [for] loop of [generateSampleData] for draw [i].  Of the
    date only its validity is modelled: an invalid date (no draw day makes
    [avgDaysBetweenDraws] infinite) makes [toISOString] throw when the record
    is built, after the numbers and the bonus have been drawn. *)
Definition sampleDraw (fuel : nat) (game : GameInfo) (i : nat) : M SampleDraw :=
  let drawsPerWeek := JS.of_nat (length (drawDays game)) in
  let avgDaysBetweenDraws := JS.div (Fin 7) drawsPerWeek in
  let back := JS.floor (JS.mul (JS.of_nat i) avgDaysBetweenDraws) in
  let* numbers := generateRandomNumbers fuel (balls (config game)) (pick (config game)) in
  let* b := randomBelow rnd (if hasBonus game then bonusBalls game else 1) in
  let bonus := S b in
  match back with
  | Fin _ =>
      let* j := randomBelowZ rnd 50000000 in
      ret (mkSample (mkDraw (sort_asc numbers) bonus) (jackpotStart game + j)%Z)
  | _ => throw
  end.

Fixpoint generateSampleData_loop (fuel : nat) (game : GameInfo) (i remaining : nat)
    (data : list SampleDraw) : M (list SampleDraw) :=
  match remaining with
  | O => ret data
  | S remaining' =>
      let* d := sampleDraw fuel game i in
      generateSampleData_loop fuel game (S i) remaining' (data ++ [d])
  end.

Definition generateSampleData (fuel : nat) (game : GameInfo) (numDraws : nat)
  : M (list SampleDraw) :=
  generateSampleData_loop fuel game 0 numDraws [].

End Generator.

End Data.

Module RealisticDataGenerator.

Section Generator.

Variable rnd : nat -> Q.

(** [Object.entries(frequency).filter(([_, f]) => f < avgFreq)], as the
    list of the numbers. *)
Definition underrepresentedOf (frequency : table) (avgFreq : jsnum) : list nat :=
  map fst (List.filter (fun e => JS.lt (snd e) avgFreq) frequency).

(** The [while] loop of [generateBalancedNumbers].  The index into
    [underrepresented] is in range because [Math.random() < 1]. *)
Fixpoint generateBalancedNumbers_loop (fuel maxBall count : nat) (frequency : table)
    (totalFreq : jsnum) (numbers : list nat) : M (list nat) :=
  match fuel with
  | O => out_of_fuel
  | S fuel' =>
      if Nat.ltb (length numbers) count then
        let* r := random rnd in
        let* num :=
          if negb (Qle_bool (7 # 10) r) then
            let* k := randomBelow rnd maxBall in ret (S k)
          else
            let avgFreq := JS.div totalFreq (JS.of_nat maxBall) in
            let underrepresented := underrepresentedOf frequency avgFreq in
            if Nat.ltb 0 (length underrepresented) then
              let* i := randomBelow rnd (length underrepresented) in
              match underrepresented !! i with
              | Some n => ret n
              | None => throw
              end
            else
              let* k := randomBelow rnd maxBall in ret (S k) in
        generateBalancedNumbers_loop fuel' maxBall count frequency totalFreq
                                     (set_add numbers num)
      else ret numbers
  end.

Definition generateBalancedNumbers (fuel maxBall count : nat) (frequency : table)
  : M (list nat) :=
  let totalFreq := JS.or_else (JS.sum (values frequency)) (Fin 1) in
  generateBalancedNumbers_loop fuel maxBall count frequency totalFreq [].

(** The body of the [for] loop of [generate]: the draw and the updated
    frequencies.  [daysToAdd] is computed and never read, and the date, a
    valid one for every [d], is not modelled. *)
Definition generateDraw (fuel : nat) (game : GameInfo) (frequency : table)
  : M (SampleDraw * table) :=
  let* numbers :=
    generateBalancedNumbers fuel (balls (config game)) (pick (config game)) frequency in
  let frequency := fold_left tincr numbers frequency in
  let* b := randomBelow rnd (if Nat.eqb (bonusBalls game) 0
                             then balls (config game) else bonusBalls game) in
  let bonus := S b in
  let* j := randomBelowZ rnd 70000000 in
  ret (mkSample (mkDraw (sort_asc numbers) bonus) (jackpotStart game + j)%Z, frequency).

(** The loop over [d], with [remaining] draws left to generate. *)
Fixpoint generate_loop (fuel : nat) (game : GameInfo) (remaining : nat)
    (frequency : table) (draws : list SampleDraw) : M (list SampleDraw) :=
  match remaining with
  | O => ret draws
  | S remaining' =>
      let* r := generateDraw fuel game frequency in
      generate_loop fuel game remaining' (snd r) (draws ++ [fst r])
  end.

Definition generate (fuel : nat) (game : GameInfo) (numDraws : nat) : M (list SampleDraw) :=
  let frequency := tinit (balls (config game)) (Fin 0) in
  let* draws := generate_loop fuel game numDraws frequency [] in
  ret (rev draws).

End Generator.

End RealisticDataGenerator.

(** The names of the days of the week, indexed by [Date.getDay()]. *)
Definition dayNames : list string :=
  ["Sunday"; "Monday"; "Tuesday"; "Wednesday"; "Thursday"; "Friday"; "Saturday"].

(** [xs.includes(x)] on strings; [x] may be [undefined]. *)
Definition includes_name (xs : list string) (x : option string) : bool :=
  match x with
  | Some name => existsb (String.eqb name) xs
  | None => false
  end.

(** The number of adjacent pairs [sorted[i] === sorted[i-1] + 1]. *)
Fixpoint consecutiveCount (sorted : list nat) : nat :=
  match sorted with
  | x :: ((y :: _) as rest) =>
      ((if Nat.eqb y (x + 1) then 1 else 0) + consecutiveCount rest)%nat
  | _ => 0%nat
  end.

Section AnalyzerStatistics.

Variable game : GameInfo.
Variable data : list Draw.

(** A draw without bonus number has [bonus = 0] (a falsy value). *)
Definition getBonusFrequency : table :=
  let maxBonus := if Nat.eqb (bonusBalls game) 0 then balls (config game)
                  else bonusBalls game in
  fold_left (fun frequency draw =>
               if Nat.eqb (bonus draw) 0 then frequency
               else tincr frequency (bonus draw))
            data (tinit maxBonus (Fin 0)).

Definition getConsecutivePairFrequency : table :=
  fold_left (fun consecutiveCounts draw =>
               let sorted := sort_asc (numbers draw) in
               let consecutiveCount := consecutiveCount sorted in
               tset consecutiveCounts consecutiveCount
                    (JS.add (JS.or_else (tnum consecutiveCounts consecutiveCount) (Fin 0))
                            (Fin 1)))
            data [].

Definition getRecentDraws (count : nat) : list Draw := take count data.

(** [getNextDrawDate], for a current day of the week [today] (the value of
    [getDay()]) and [late] telling whether the current time is past 22:30.
    The result [Some i] is the date [i] days after today; [None] is the
    final [new Date()]. *)
Fixpoint nextDraw_loop (today : nat) (late : bool) (turns i : nat) : option nat :=
  match turns with
  | O => None
  | S turns' =>
      let dayName := dayNames !! ((today + i) mod 7)%nat in
      if includes_name (drawDays game) dayName then
        if Nat.eqb i 0 && late then nextDraw_loop today late turns' (S i)
        else Some i
      else nextDraw_loop today late turns' (S i)
  end.

Definition getNextDrawDate (today : nat) (late : bool) : option nat :=
  nextDraw_loop today late 8 0.

End AnalyzerStatistics.

(* ===================================================================== *)
(** * Predicates used in the statements about the statistics *)
(* ===================================================================== *)

(** The number of draws that hold [n]. *)
Definition drawsWith (n : nat) (data : list Draw) : nat :=
  length (filter (fun d => n ∈ numbers d) data).

(** The order of a ranking by descending value, and by ascending value:
    equal values keep the ascending order of the numbers. *)
Definition before_desc (a b : nat * jsnum) : Prop :=
  JS.lt (snd b) (snd a) = true \/ (JS.eq (snd a) (snd b) = true /\ (fst a < fst b)%nat).

Definition before_asc (a b : nat * jsnum) : Prop :=
  JS.lt (snd a) (snd b) = true \/ (JS.eq (snd a) (snd b) = true /\ (fst a < fst b)%nat).

(** The index of the most recent draw that holds [n]; the number of draws
    if none does. *)
Definition drawsSince (n : nat) (data : list Draw) : nat :=
  match list_find (fun d => n ∈ numbers d) data with
  | Some (i, _) => i
  | None => length data
  end.


Definition drawsWithBoth (a b : nat) (data : list Draw) : nat :=
  length (filter (fun d => a ∈ numbers d /\ b ∈ numbers d) data).


Definition drawsWithOdds (o : nat) (data : list Draw) : nat :=
  length (filter (fun d => count_odd (numbers d) = o) data).

Definition drawsWithSumIn (lo hi : nat) (data : list Draw) : nat :=
  length (filter (fun d => (lo <= sum_nat (numbers d) <= hi)%nat) data).


(** The number of drawn numbers that fall in decade [i]: [10 i + 1 .. 10 i + 10]. *)
Definition drawnInDecade (i : nat) (data : list Draw) : nat :=
  length (filter (fun n => (10 * i + 1 <= n <= 10 * i + 10)%nat) (flat_map numbers data)).


(** The [deltas] array of [getDeltaAnalysis]. *)
Definition drawDeltas (data : list Draw) : list nat :=
  flat_map (fun draw => gaps (sort_asc (numbers draw))) data.

(** The number of members of [ns] whose successor is in [ns] too. *)
Definition consecutivePairs (ns : list nat) : nat :=
  length (filter (fun n => S n ∈ ns) ns).

Definition count_into (t : table) (k : nat) : table :=
  tset t k (JS.add (JS.or_else (tnum t k) (Fin 0)) (Fin 1)).

(** A table that holds, for each key, the positive count [c k]. *)
Definition counts_of (c : nat -> nat) (t : table) : Prop :=
  StronglySorted Nat.lt (keys t) /\
  (forall k, k ∈ keys t <-> (1 <= c k)%nat) /\
  (forall k v, (k, v) ∈ t -> v = JS.of_nat (c k)).

Definition drawsWithConsecutive (c : nat) (data : list Draw) : nat :=
  length (filter (fun d => consecutivePairs (numbers d) = c) data).

Definition drawsWithBonus (b : nat) (data : list Draw) : nat :=
  length (filter (fun d => bonus d = b) data).


(** The draws in which every number is odd, every number is even, and in
    which two numbers are consecutive. *)
Definition drawsAllOdd (data : list Draw) : nat :=
  length (filter (fun d => Forall (fun n => n mod 2 = 1)%nat (numbers d)) data).

Definition drawsAllEven (data : list Draw) : nat :=
  length (filter (fun d => Forall (fun n => n mod 2 = 0)%nat (numbers d)) data).

Definition drawsWithConsecutivePair (data : list Draw) : nat :=
  length (filter (fun d => Exists (fun n => S n ∈ numbers d) (numbers d)) data).


(** The day of the week [day] (counted from a Sunday) is a draw day. *)
Definition isDrawDay (game : GameInfo) (day : nat) : bool :=
  includes_name (drawDays game) (dayNames !! (day mod 7)%nat).


(** The score of a wheel combination: the total frequency of its numbers. *)
Definition wheelScore (data : list Draw) (combo : list nat) : nat :=
  sum_list_with (fun n => drawsWith n data) combo.


(** The body of the two [forEach] loops of [crossover], for a game that picks
    [K] numbers: [if (child.size < K) child.add(x)]. *)
Definition guarded_add (K : nat) (child : list nat) (x : nat) : list nat :=
  if Nat.ltb (length child) K then set_add child x else child.

(** What [generateSampleData] promises of a draw. *)
Definition sampleDrawOk (game : GameInfo) (d : SampleDraw) : Prop :=
  candidate (config game) (numbers (draw d)) /\
  (1 <= bonus (draw d) <= Nat.max 1 (if hasBonus game then bonusBalls game else 1))%nat /\
  (jackpotStart game <= jackpot d < jackpotStart game + 50000000)%Z.

(** What [RealisticDataGenerator.generate] promises of a draw. *)
Definition generatedDrawOk (game : GameInfo) (x : SampleDraw) : Prop :=
  candidate (config game) (numbers (draw x)) /\
  (1 <= bonus (draw x)
     <= if Nat.eqb (bonusBalls game) 0 then balls (config game) else bonusBalls game)%nat /\
  (jackpotStart game <= jackpot x < jackpotStart game + 70000000)%Z.


(* ===================================================================== *)
(** * Manual data entry: [ManualDataEntry.parseCSV] *)
(* ===================================================================== *)

(** Text is a [string] of ASCII characters.  [parseInt] returns [None] for
    [NaN]; the value of a long digit string is exact. *)
Module ManualDataEntry.

Import Stdlib.Strings.Ascii.
Local Open Scope Z_scope.

(** White space and line terminators among the ASCII characters. *)
Definition is_space (c : ascii) : bool :=
  let n := Z.of_nat (nat_of_ascii c) in
  ((9 <=? n) && (n <=? 13)) || (n =? 32).

Fixpoint trimStart (s : string) : string :=
  match s with
  | String c s' => if is_space c then trimStart s' else s
  | EmptyString => s
  end.

(** [trimEnd]: a character is kept if it is not a space or if something
    is kept after it. *)
Fixpoint trimEnd (s : string) : string :=
  match s with
  | String c s' =>
      match trimEnd s' with
      | EmptyString => if is_space c then EmptyString else String c EmptyString
      | rest => String c rest
      end
  | EmptyString => EmptyString
  end.

Definition trim (s : string) : string := trimEnd (trimStart s).

(** [s.split(sep)] for a one-character separator: the pieces between the
    separators, at least one piece. *)
Fixpoint split (sep : ascii) (s : string) : list string :=
  match s with
  | EmptyString => [EmptyString]
  | String c s' =>
      if Strings.Ascii.eqb c sep then EmptyString :: split sep s'
      else match split sep s' with
           | piece :: pieces => String c piece :: pieces
           | [] => [String c EmptyString]
           end
  end.

Definition lower (c : ascii) : ascii :=
  let n := nat_of_ascii c in
  if (Nat.leb 65 n && Nat.leb n 90)%nat then ascii_of_nat (n + 32) else c.

Fixpoint toLowerCase (s : string) : string :=
  match s with
  | String c s' => String (lower c) (toLowerCase s')
  | EmptyString => EmptyString
  end.

(** [s.includes(sub)]. *)
Fixpoint str_includes (sub s : string) : bool :=
  String.prefix sub s ||
  match s with
  | String _ s' => str_includes sub s'
  | EmptyString => false
  end.

(** The value of [c] as a digit of the given radix. *)
Definition digit (radix : Z) (c : ascii) : option Z :=
  let n := Z.of_nat (nat_of_ascii c) in
  let v := if (48 <=? n) && (n <=? 57) then Some (n - 48)
           else if (97 <=? n) && (n <=? 122) then Some (n - 87)
           else if (65 <=? n) && (n <=? 90) then Some (n - 55)
           else None in
  match v with
  | Some d => if d <? radix then Some d else None
  | None => None
  end.

(** The longest prefix of digits, read as a number; [acc] is [None] until
    a digit is seen. *)
Fixpoint digits (radix : Z) (s : string) (acc : option Z) : option Z :=
  match s with
  | String c s' =>
      match digit radix c with
      | Some d => digits radix s' (Some (default 0 acc * radix + d))
      | None => acc
      end
  | EmptyString => acc
  end.

(** [parseInt(s)] with no radix argument: leading white space, a sign, a
    [0x] prefix for radix 16, then digits. *)
Definition parseInt (s : string) : option Z :=
  let s := trimStart s in
  let '(sign, s) :=
    match s with
    | String "-" s' => (-1, s')
    | String "+" s' => (1, s')
    | _ => (1, s)
    end in
  let '(radix, s) :=
    match s with
    | String "0" (String "x" s') => (16, s')
    | String "0" (String "X" s') => (16, s')
    | _ => (10, s)
    end in
  Z.mul sign <$> digits radix s None.

(** One record of the CSV file; [bonus] is [None] for [null], [Some None]
    for [NaN]. *)
Record CsvDraw : Type := mkCsvDraw {
  date : string;
  numbers : list Z;
  bonus : option (option Z)
}.

(** The body of [lines.forEach]: the draws with the line's draw pushed, if
    it yields one. *)
Definition parseLine (game : GameConfig) (draws : list CsvDraw) (idx : nat) (line : string)
  : list CsvDraw :=
  if Nat.eqb idx 0 && str_includes "date" (toLowerCase line) then draws
  else
    let parts := map trim (split "," line) in
    if Nat.ltb (length parts) (pick game + 1) then draws
    else
      let date := List.nth 0 parts EmptyString in
      let numbers :=
        js_sort (fun a b => b <? a)
                (omap parseInt (take (pick game) (drop 1 parts))) in
      let bonus :=
        match parts !! (pick game + 1)%nat with
        | Some (String c p) => Some (parseInt (String c p))
        | _ => None
        end in
      if Nat.eqb (length numbers) (pick game)
      then draws ++ [mkCsvDraw date numbers bonus]
      else draws.

(** [csvText.trim().split('\n')]. *)
Definition linesOf (csvText : string) : list string := split "010" (trim csvText).

Definition parseCSV (csvText : string) (game : GameConfig) : list CsvDraw :=
  let lines := linesOf csvText in
  fold_left (fun draws '(idx, line) => parseLine game draws idx line)
            (combine (seq 0 (length lines)) lines) [].

End ManualDataEntry.

(** The small game with three bonus balls and one weekly draw. *)
Definition small_info : GameInfo := mkInfo small_game true 3 ["Saturday"] 1000.

(** The entry of [GAMES] for Lotto 6/49. *)
Definition lotto649_info : GameInfo :=
  mkInfo lotto649 true 49 ["Wednesday"; "Saturday"] 5000000.


(** A random source whose values are at least [2^-53]: [Math.random()]
    never returns 0, and no product with a weight underflows to 0. *)
Definition rnd_granular (rnd : nat -> Q) : Prop :=
  forall n, (1 # 9007199254740992) <= rnd n /\ rnd n < 1.

(* ===================================================================== *)
(** * Predicates used in the statements about the strategies *)
(* ===================================================================== *)

(** The transitions observed in a history, most recent draw first: the
    number of indices [i >= 1] with [prev] in draw [i] and [curr] in draw
    [i - 1]; and the total for [prev] over the numbers [1..N]. *)
Definition transitionsObserved (data : list Draw) (prev curr : nat) : nat :=
  length (filter (fun e : Draw * Draw => prev ∈ numbers (snd e) /\ curr ∈ numbers (fst e))
                 (zip data (drop 1 data))).

Definition rowObserved (g : GameConfig) (data : list Draw) (prev : nat) : nat :=
  sum_list_with (transitionsObserved data prev) (seq 1 (balls g)).

(** The matrix of [N] rows and [N] columns that holds the count [f prev curr]
    at row [prev] and column [curr]. *)
Definition countsRow (N : nat) (f : nat -> nat -> nat) (prev : nat) : table :=
  map (fun curr => (curr, JS.of_nat (f prev curr))) (seq 1 N).

Definition countsMatrix (N : nat) (f : nat -> nat -> nat) : list (nat * table) :=
  map (fun prev => (prev, countsRow N f prev)) (seq 1 N).

(** The number scores of the hybrid strategy: keys in ascending order, and
    [NaN] at every key outside [1..N] (a number outside [1..N] is credited
    to [undefined]). *)
Definition scores_inv (N : nat) (t : table) : Prop :=
  StronglySorted Nat.lt (keys t) /\
  forall k v, (k, v) ∈ t -> ~ (1 <= k <= N)%nat -> v = NaN.

(** A game with two numbers per draw, a one-draw history for it, and a
    random source that always returns the same value. *)
Definition pair_game : GameConfig := mkGame 15 2.
Definition pair_history : list Draw := [mkDraw [1; 2]%nat 1].
Definition constant_rnd : nat -> Q := fun _ => 29 # 30.

(** A game that picks no number. *)
Definition empty_pick_game : GameConfig := mkGame 10 0.


(* ===================================================================== *)
(** * Properties *)
(* ===================================================================== *)

(** ** Sorting *)

Lemma sort_insert_perm {A} (after : A -> A -> bool) x l :
  sort_insert after x l ≡ₚ x :: l.
Proof.
  induction l as [|y l IH]; simpl; [done|].
  destruct (after x y); [|done].
  rewrite IH. apply Permutation_swap.
Qed.

Lemma js_sort_perm {A} (after : A -> A -> bool) l : js_sort after l ≡ₚ l.
Proof.
  induction l as [|x l IH]; simpl; [done|].
  unfold js_sort in *. simpl. rewrite sort_insert_perm. by rewrite IH.
Qed.

Lemma sort_asc_perm l : sort_asc l ≡ₚ l.
Proof. apply js_sort_perm. Qed.

Lemma sort_asc_insert_sorted x l :
  StronglySorted Nat.le l ->
  StronglySorted Nat.le (sort_insert (fun a b => Nat.ltb b a) x l).
Proof.
  induction 1 as [|y l Hl IH Hy]; simpl.
  - repeat constructor.
  - destruct (Nat.ltb_spec y x) as [Hlt|Hge].
    + constructor; [done|].
      rewrite sort_insert_perm. constructor; [unfold Nat.le; lia|done].
    + constructor; [by constructor|].
      constructor; [done|].
      eapply Forall_impl; [exact Hy|]. intros z Hz. unfold Nat.le in *. lia.
Qed.

Lemma sort_asc_sorted l : StronglySorted Nat.le (sort_asc l).
Proof.
  induction l as [|x l IH]; [constructor|].
  unfold sort_asc, js_sort in *. simpl. by apply sort_asc_insert_sorted.
Qed.

Lemma sorted_le_NoDup_lt l :
  StronglySorted Nat.le l -> NoDup l -> Sorted Nat.lt l.
Proof.
  induction 1 as [|x l Hl IH Hx]; intros Hnd; [constructor|].
  apply NoDup_cons in Hnd as [Hnin Hnd].
  constructor; [by apply IH|].
  destruct l as [|y l']; constructor.
  apply Forall_cons in Hx as [Hxy _].
  assert (x ≠ y) by (intros ->; apply Hnin; left).
  unfold Nat.le, Nat.lt in *. lia.
Qed.

Lemma includes_spec xs x : includes xs x = true <-> x ∈ xs.
Proof.
  unfold includes. rewrite existsb_exists. split.
  - intros (y & Hy & Heq). apply Nat.eqb_eq in Heq. subst. by apply list_elem_of_In.
  - intros H. exists x. split; [by apply list_elem_of_In|apply Nat.eqb_refl].
Qed.

Lemma includes_false xs x : includes xs x = false <-> x ∉ xs.
Proof.
  rewrite <- includes_spec. destruct (includes xs x); split; congruence.
Qed.

(** The sorted result of a selection of distinct numbers is a candidate. *)
Lemma sort_asc_candidate g c :
  valid_numbers g c -> candidate g (sort_asc c).
Proof.
  intros (Hlen & Hnd & Hrange).
  assert (Hp := sort_asc_perm c).
  split; [split; [|split]|].
  - by rewrite Hp.
  - by rewrite Hp.
  - by rewrite Hp.
  - apply sorted_le_NoDup_lt; [apply sort_asc_sorted|by rewrite Hp].
Qed.

(** ** Integer-keyed objects *)

Lemma tget_tset_eq {V} (t : list (nat * V)) k v : tget (tset t k v) k = Some v.
Proof.
  induction t as [|[k' v'] t IH]; simpl.
  - by rewrite Nat.eqb_refl.
  - destruct (Nat.eqb_spec k k'); simpl.
    + by rewrite Nat.eqb_refl.
    + destruct (Nat.ltb k k'); simpl.
      * by rewrite Nat.eqb_refl.
      * destruct (Nat.eqb_spec k k'); [done|]. apply IH.
Qed.


Lemma elem_of_tset {V} (t : list (nat * V)) k v e :
  e ∈ tset t k v -> e = (k, v) \/ e ∈ t.
Proof.
  induction t as [|[k0 v0] t IH]; simpl.
  - intros ->%list_elem_of_singleton. by left.
  - destruct (Nat.eqb k k0).
    + intros [->|H]%elem_of_cons; [by left|right; by right].
    + destruct (Nat.ltb k k0).
      * intros [->|H]%elem_of_cons; [by left|by right].
      * intros [->|H]%elem_of_cons; [right; left|].
        destruct (IH H) as [->|H']; [by left|right; by right].
Qed.

Lemma keys_tset_sorted {V} (t : list (nat * V)) k v :
  StronglySorted Nat.lt (keys t) -> StronglySorted Nat.lt (keys (tset t k v)).
Proof.
  unfold keys. induction t as [|[k0 v0] t IH]; simpl; intros Hs.
  - repeat constructor.
  - apply StronglySorted_cons in Hs as [Hk0 Hs].
    destruct (Nat.eqb_spec k k0); simpl.
    + subst. by constructor.
    + destruct (Nat.ltb_spec k k0); simpl.
      * constructor; [by constructor|].
        constructor; [done|].
        eapply Forall_impl; [exact Hk0|]. intros z Hz. unfold Nat.lt in *. lia.
      * constructor; [by apply IH|].
        apply Forall_forall. intros z Hz.
        apply list_elem_of_fmap in Hz as (e & -> & He).
        apply elem_of_tset in He as [->|He]; simpl.
        -- unfold Nat.lt. lia.
        -- rewrite Forall_forall in Hk0. apply Hk0.
           apply list_elem_of_fmap. by exists e.
Qed.

Lemma elem_of_tdel {V} (t : list (nat * V)) k e : e ∈ tdel t k -> e ∈ t.
Proof.
  induction t as [|[k0 v0] t IH]; simpl; [done|].
  destruct (Nat.eqb k k0).
  - by right.
  - intros [->|H]%elem_of_cons; [left|right; by apply IH].
Qed.

Lemma keys_tdel_sorted {V} (t : list (nat * V)) k :
  StronglySorted Nat.lt (keys t) -> StronglySorted Nat.lt (keys (tdel t k)).
Proof.
  unfold keys. induction t as [|[k0 v0] t IH]; simpl; intros Hs; [done|].
  apply StronglySorted_cons in Hs as [Hk0 Hs].
  destruct (Nat.eqb k k0); simpl; [done|].
  constructor; [by apply IH|].
  apply Forall_forall. intros z Hz.
  apply list_elem_of_fmap in Hz as (e & -> & He).
  apply elem_of_tdel in He.
  rewrite Forall_forall in Hk0. apply Hk0. apply list_elem_of_fmap. by exists e.
Qed.

Lemma keys_tdel_not_in {V} (t : list (nat * V)) k :
  StronglySorted Nat.lt (keys t) -> k ∉ keys (tdel t k).
Proof.
  unfold keys. induction t as [|[k0 v0] t IH]; simpl; intros Hs.
  - apply not_elem_of_nil.
  - apply StronglySorted_cons in Hs as [Hk0 Hs].
    destruct (Nat.eqb_spec k k0); simpl.
    + subst. intros Hin. rewrite Forall_forall in Hk0.
      specialize (Hk0 _ Hin). unfold Nat.lt in Hk0. lia.
    + intros [?|Hin]%elem_of_cons; [done|]. by apply IH.
Qed.

Lemma keys_tinit n v : keys (tinit n v) = seq 1 n.
Proof.
  unfold keys, tinit. rewrite map_map. simpl. apply map_id.
Qed.

Lemma seq_sorted a n : StronglySorted Nat.lt (seq a n).
Proof.
  revert a. induction n as [|n IH]; intros a; simpl; constructor; [apply IH|].
  apply Forall_forall. intros x Hx%list_elem_of_In%in_seq. unfold Nat.lt. lia.
Qed.

(** ** Weighted selection *)

Lemma nonneg_inv a : JS.nonneg a -> exists q, a = Fin q /\ 0 <= q.
Proof. destruct a; simpl; intros H; try done. by exists q. Qed.

Lemma sum_from_finite (t : table) a :
  Forall (fun e => JS.nonneg (snd e)) t ->
  exists q, fold_left JS.add (values t) (Fin a) = Fin q /\ q == a + qtotal t.
Proof.
  revert a. induction t as [|[k v] t IH]; intros a Hall; simpl.
  - exists a. split; [done|ring].
  - apply Forall_cons in Hall as [Hv Hall]. simpl in Hv.
    apply nonneg_inv in Hv as (w & -> & Hw). simpl.
    destruct (IH (a + w) Hall) as (q & Hq & Heq).
    exists q. split; [done|]. rewrite Heq. ring.
Qed.

Lemma sum_finite (t : table) :
  Forall (fun e => JS.nonneg (snd e)) t ->
  exists q, JS.sum (values t) = Fin q /\ q == qtotal t.
Proof.
  intros H. destruct (sum_from_finite t 0 H) as (q & Hq & Heq).
  exists q. split; [done|]. rewrite Heq. ring.
Qed.

Lemma qtotal_nonneg (t : table) :
  Forall (fun e => JS.nonneg (snd e)) t -> 0 <= qtotal t.
Proof.
  induction 1 as [|[k v] t Hv _ IH]; simpl; [lra|].
  simpl in Hv. apply nonneg_inv in Hv as (w & -> & Hw). lra.
Qed.

Lemma qtotal_elem (t : table) k w :
  Forall (fun e => JS.nonneg (snd e)) t -> (k, Fin w) ∈ t -> w <= qtotal t.
Proof.
  induction 1 as [|[k0 v0] t Hv Hall IH]; [by intros ?%elem_of_nil|].
  simpl in Hv. apply nonneg_inv in Hv as (w0 & -> & Hw0).
  apply qtotal_nonneg in Hall as Hge. simpl.
  intros [Heq|Hin]%elem_of_cons.
  - injection Heq as -> ->. lra.
  - specialize (IH Hin). lra.
Qed.

Lemma tget_elem {V} (t : list (nat * V)) k v : tget t k = Some v -> (k, v) ∈ t.
Proof.
  induction t as [|[k0 v0] t IH]; simpl; [done|].
  destruct (Nat.eqb_spec k k0).
  - intros [= ->]. subst. left.
  - intros H. right. by apply IH.
Qed.

Lemma elem_keys {V} (t : list (nat * V)) k v : (k, v) ∈ t -> k ∈ keys t.
Proof. intros H. apply list_elem_of_fmap. by exists (k, v). Qed.


(** A strictly positive draw never lands on a key of weight zero. *)
Lemma ws_scan_positive (t : table) x k :
  Forall (fun e => JS.nonneg (snd e)) t ->
  0 < x -> ws_scan (Fin x) t = Some k ->
  exists w, (k, Fin w) ∈ t /\ 0 < w.
Proof.
  revert x. induction t as [|[k0 v] t IH]; intros x Hall Hx; simpl; [done|].
  apply Forall_cons in Hall as [Hv Hall]. simpl in Hv.
  apply nonneg_inv in Hv as (w & -> & Hw). simpl.
  destruct (Qle_bool (x + - w) 0) eqn:Hle.
  - intros [= ->]. apply Qle_bool_iff in Hle.
    exists w. split; [left|lra].
  - intros Hscan.
    assert (Hpos : ~ x + - w <= 0).
    { intros Hc. apply Qle_bool_iff in Hc. congruence. }
    destruct (IH (x + - w) Hall) as (w' & Hin & Hw'); [lra|done|].
    exists w'. split; [by right|done].
Qed.

Lemma pigeonhole_free (N : nat) (selected : list nat) :
  NoDup selected -> (length selected < N)%nat ->
  exists i, i ∈ seq 1 N /\ i ∉ selected.
Proof.
  intros Hnd Hlen.
  destruct (decide (Forall (fun i => i ∈ selected) (seq 1 N))) as [Hall|Hnot].
  - exfalso.
    assert (Hsub : seq 1 N ⊆+ selected).
    { apply NoDup_submseteq; [apply NoDup_seq|].
      intros i Hi. rewrite Forall_forall in Hall. by apply Hall. }
    apply submseteq_length in Hsub.
    rewrite length_seq in Hsub. lia.
  - apply not_Forall_Exists in Hnot; [|intros i; apply _].
    apply Exists_exists in Hnot as (i & Hi & Hni). by exists i.
Qed.

Section WeightedSelection.

Variable rnd : nat -> Q.
Variable g : GameConfig.
Hypothesis Hrnd : rnd_ok rnd.

Let N := balls g.











Lemma ws_loop_S fuel count selected av :
  ws_loop rnd g (S fuel) count selected av
  = if Nat.ltb (length selected) count then
      let total := JS.sum (values av) in
      if JS.eq total (Fin 0) then
        ws_loop rnd g fuel count selected (ws_fallback g selected av)
      else
        let* r := random rnd in
        match ws_scan (JS.mul (Fin r) total) av with
        | Some num => ws_loop rnd g fuel count (selected ++ [num]) (tdel av num)
        | None => ws_loop rnd g fuel count selected av
        end
    else ret (sort_asc selected).
Proof. reflexivity. Qed.




End WeightedSelection.

(** ** Weighted selection and zero weights *)

Lemma elem_of_tdel_ne {V} (t : list (nat * V)) k e : e ∈ t -> fst e <> k -> e ∈ tdel t k.
Proof.
  induction t as [|[k0 v0] t IH]; simpl; [done|].
  intros [->|Hin]%elem_of_cons Hne; simpl in *.
  - destruct (Nat.eqb_spec k k0); [congruence|left].
  - destruct (Nat.eqb_spec k k0); [done|right; by apply IH].
Qed.

Section RespectsWeights.

Variable rnd : nat -> Q.
Variable g : GameConfig.
Variable weights : table.
Variable count : nat.

(** A property of the remaining weights that deletions keep and under
    which a draw lands on a positive weight. *)
Variable Good : table -> Prop.
Hypothesis Good_tdel : forall av k, Good av -> Good (tdel av k).
Hypothesis Good_scan :
  forall av s q k,
    Good av -> Forall (fun e => JS.nonneg (snd e)) av ->
    q == qtotal av -> 0 < q ->
    ws_scan (Fin (rnd s * q)) av = Some k ->
    exists w, (k, Fin w) ∈ av /\ 0 < w.

Lemma ws_loop_respects fuel :
  forall selected av s res s',
    phaseA weights Good selected av \/ phaseB weights selected ->
    ws_loop rnd g fuel count selected av s = Ok (res, s') ->
    respects_weights weights res.
Proof.
  induction fuel as [|fuel IH]; intros selected av s res s' Hphase; [done|].
  rewrite ws_loop_S.
  destruct (Nat.ltb (length selected) count).
  2:{ intros [= <- <-]. assert (Hp := sort_asc_perm selected).
      destruct Hphase as [(Hsel & _)|HB].
      - left. by rewrite Hp.
      - right. intros k Hk. rewrite Hp. by apply HB. }
  cbv zeta.
  destruct Hphase as [(Hsel & Hsub & Hrem & Hgood & Hnn)|HB].
  - destruct (sum_finite av Hnn) as (q & Hsum & Hq). rewrite Hsum.
    change (JS.eq (Fin q) (Fin 0)) with (Qeq_bool q 0).
    destruct (Qeq_bool q 0) eqn:Hz.
    + apply IH. right. intros k Hk.
      destruct (decide (k ∈ selected)) as [|Hni]; [done|exfalso].
      destruct (Hrem k Hk Hni) as (w & Hin & Hw).
      apply Qeq_bool_eq in Hz.
      assert (w <= qtotal av) by by eapply qtotal_elem.
      lra.
    + assert (Hpos : 0 < q).
      { assert (Hge := qtotal_nonneg av Hnn).
        assert (~ q == 0) by (intros Hc; apply Qeq_bool_iff in Hc; congruence).
        lra. }
      unfold bind, random. change (JS.mul (Fin (rnd s)) (Fin q)) with (Fin (rnd s * q)).
      destruct (ws_scan (Fin (rnd s * q)) av) as [k|] eqn:Hscan.
      * destruct (Good_scan av s q k Hgood Hnn Hq Hpos Hscan) as (w & Hin & Hw).
        apply IH. left. split; [|split; [|split; [|split]]].
        -- apply Forall_app. split; [done|]. apply Forall_singleton.
           exists w. split; [by apply Hsub|done].
        -- intros e He%elem_of_tdel. by apply Hsub.
        -- intros k' Hk' Hni. rewrite not_elem_of_app in Hni. destruct Hni as [Hni Hne].
           destruct (Hrem k' Hk' Hni) as (w' & Hin' & Hw').
           exists w'. split; [|done]. apply elem_of_tdel_ne; [done|].
           simpl. intros ->. apply Hne. left.
        -- by apply Good_tdel.
        -- apply Forall_forall. intros e He%elem_of_tdel.
           rewrite Forall_forall in Hnn. by apply Hnn.
      * apply IH. left. by repeat split.
  - assert (HB' : forall k, phaseB weights (selected ++ [k])).
    { intros k k' Hk'. apply elem_of_app. left. by apply HB. }
    destruct (JS.eq (JS.sum (values av)) (Fin 0)).
    + apply IH. by right.
    + unfold bind, random.
      destruct (ws_scan _ av) as [k|]; apply IH; by right.
Qed.

End RespectsWeights.



Lemma rnd_positive_scan (rnd : nat -> Q) av s q k :
  rnd_positive rnd ->
  True -> Forall (fun e => JS.nonneg (snd e)) av ->
  q == qtotal av -> 0 < q ->
  ws_scan (Fin (rnd s * q)) av = Some k ->
  exists w, (k, Fin w) ∈ av /\ 0 < w.
Proof.
  intros Hrnd _ Hnn Hq Hqpos Hscan. destruct (Hrnd s) as [Hr0 Hr1].
  eapply ws_scan_positive; [done| |done].
  apply Qmult_lt_0_compat; lra.
Qed.

(** With a random source that never returns 0, weighted selection takes a
    zero-weight number only once every positive-weight number is taken. *)
Lemma weightedSelection_respects_positive rnd g weights count fuel s res s' :
  rnd_positive rnd ->
  Forall (fun e => JS.nonneg (snd e)) weights ->
  weightedSelection rnd g fuel weights count s = Ok (res, s') ->
  respects_weights weights res.
Proof.
  intros Hrnd Hnn. unfold weightedSelection.
  apply (ws_loop_respects rnd g weights count (fun _ => True)); [done| |].
  - intros av s0 q k. by apply rnd_positive_scan.
  - left. by repeat split.
Qed.


(** ** The frequency table *)

Lemma tget_of_key {V} (t : list (nat * V)) k : k ∈ keys t -> exists v, tget t k = Some v.
Proof.
  induction t as [|[k0 v0] t IH]; simpl.
  - by intros ?%elem_of_nil.
  - destruct (Nat.eqb_spec k k0); [by exists v0|].
    intros [?|Hin]%elem_of_cons; [done|]. by apply IH.
Qed.

Lemma tset_present (t : table) k v0 v :
  StronglySorted Nat.lt (keys t) ->
  tget t k = Some v0 ->
  keys (tset t k v) = keys t /\
  forall q0 q1, v0 = Fin q0 -> v = Fin q1 -> qtotal (tset t k v) == qtotal t - q0 + q1.
Proof.
  induction t as [|[k1 v1] t IH]; simpl; intros Hs Hget; [done|].
  apply StronglySorted_cons in Hs as [Hk1 Hs].
  destruct (Nat.eqb_spec k k1) as [->|Hne].
  - injection Hget as ->. split; [done|].
    intros q0 q1 -> ->. simpl. ring.
  - destruct (Nat.ltb_spec k k1) as [Hlt|Hge].
    + exfalso. apply tget_elem, elem_keys in Hget.
      rewrite Forall_forall in Hk1. specialize (Hk1 _ Hget). unfold Nat.lt in Hk1. lia.
    + destruct (IH Hs Hget) as [Hkeys Hq]. simpl. split; [by rewrite Hkeys|].
      intros q0 q1 H0 H1. specialize (Hq q0 q1 H0 H1).
      destruct v1; simpl; rewrite Hq; ring.
Qed.

Lemma tincr_freq N (t : table) k :
  keys t = seq 1 N ->
  Forall (fun e => JS.nonneg (snd e)) t ->
  (1 <= k <= N)%nat ->
  keys (tincr t k) = seq 1 N /\
  Forall (fun e => JS.nonneg (snd e)) (tincr t k) /\
  qtotal (tincr t k) == qtotal t + 1.
Proof.
  intros Hkeys Hnn Hk.
  assert (Hs : StronglySorted Nat.lt (keys t)) by (rewrite Hkeys; apply seq_sorted).
  assert (Hin : k ∈ keys t).
  { rewrite Hkeys. apply list_elem_of_In, in_seq. lia. }
  destruct (tget_of_key t k Hin) as (v0 & Hget).
  assert (Hv0 : JS.nonneg v0).
  { apply tget_elem in Hget. rewrite Forall_forall in Hnn. apply (Hnn _ Hget). }
  apply nonneg_inv in Hv0 as (q0 & -> & Hq0).
  unfold tincr, tnum. rewrite Hget. simpl.
  destruct (tset_present t k (Fin q0) (Fin (q0 + 1)) Hs Hget) as [Hk' Hq].
  split; [by rewrite Hk'|]. split.
  - apply Forall_forall. intros e [->|He]%elem_of_tset; simpl; [lra|].
    rewrite Forall_forall in Hnn. by apply Hnn.
  - rewrite (Hq q0 (q0 + 1)); [ring|done|done].
Qed.

Lemma fold_tincr_freq N ns : forall (t : table),
  keys t = seq 1 N ->
  Forall (fun e => JS.nonneg (snd e)) t ->
  Forall (fun n => (1 <= n <= N)%nat) ns ->
  keys (fold_left tincr ns t) = seq 1 N /\
  Forall (fun e => JS.nonneg (snd e)) (fold_left tincr ns t) /\
  qtotal (fold_left tincr ns t) == qtotal t + inject_Z (Z.of_nat (length ns)).
Proof.
  induction ns as [|n ns IH]; intros t Hkeys Hnn Hns; simpl.
  - split; [done|]. split; [done|]. unfold inject_Z. simpl. ring.
  - apply Forall_cons in Hns as [Hn Hns].
    destruct (tincr_freq N t n Hkeys Hnn Hn) as (Hk1 & Hnn1 & Hq1).
    destruct (IH (tincr t n) Hk1 Hnn1 Hns) as (Hk2 & Hnn2 & Hq2).
    split; [done|]. split; [done|].
    rewrite Hq2, Hq1. rewrite Nat2Z.inj_succ, <- Z.add_1_l, inject_Z_plus. ring.
Qed.

Lemma qtotal_tinit_zero n : qtotal (tinit n (Fin 0)) == 0.
Proof.
  unfold tinit. generalize 1%nat. induction n as [|n IH]; intros a; simpl; [done|].
  rewrite IH. ring.
Qed.

Lemma nonneg_tinit_zero n : Forall (fun e => JS.nonneg (snd e)) (tinit n (Fin 0)).
Proof.
  unfold tinit. apply Forall_forall. intros e (i & -> & _)%list_elem_of_fmap. simpl. lra.
Qed.

(** On a valid history the frequency table has one finite count per number
    of [1..balls], and the counts add up to [pick] per draw. *)
Lemma frequency_valid g data :
  valid_data g data ->
  keys (getNumberFrequency g data) = seq 1 (balls g) /\
  Forall (fun e => JS.nonneg (snd e)) (getNumberFrequency g data) /\
  qtotal (getNumberFrequency g data) == inject_Z (Z.of_nat (length data * pick g)).
Proof.
  unfold getNumberFrequency. intros Hdata.
  assert (Hgen : forall t : table,
             keys t = seq 1 (balls g) ->
             Forall (fun e => JS.nonneg (snd e)) t ->
             let t' := fold_left (fun fr draw => fold_left tincr (numbers draw) fr) data t in
             keys t' = seq 1 (balls g) /\
             Forall (fun e => JS.nonneg (snd e)) t' /\
             qtotal t' == qtotal t + inject_Z (Z.of_nat (length data * pick g))).
  { induction Hdata as [|d data Hd Hdata IH]; intros t Hk Hnn; simpl.
    - split; [done|]. split; [done|]. unfold inject_Z. simpl. ring.
    - destruct Hd as (Hlen & _ & Hrange).
      destruct (fold_tincr_freq (balls g) (numbers d) t Hk Hnn Hrange) as (Hk1 & Hnn1 & Hq1).
      destruct (IH _ Hk1 Hnn1) as (Hk2 & Hnn2 & Hq2).
      split; [done|]. split; [done|].
      rewrite Hq2, Hq1, Hlen, Nat2Z.inj_add, inject_Z_plus. ring. }
  destruct (Hgen (tinit (balls g) (Fin 0))) as (Hk & Hnn & Hq).
  - apply keys_tinit.
  - apply nonneg_tinit_zero.
  - split; [done|]. split; [done|]. rewrite Hq, qtotal_tinit_zero. ring.
Qed.

Lemma keys_map_snd (f : jsnum -> jsnum) (t : table) :
  keys (map (fun e => (fst e, f (snd e))) t) = keys t.
Proof. unfold keys. rewrite map_map. simpl. done. Qed.

Lemma seq_keys_wf N (t : table) :
  keys t = seq 1 N ->
  Forall (fun e => JS.nonneg (snd e)) t ->
  wf_weights N t.
Proof.
  intros Hk Hnn. split; [rewrite Hk; apply seq_sorted|].
  apply Forall_forall. intros e He. split.
  - assert (Hin : fst e ∈ keys t) by (apply list_elem_of_fmap; by exists e).
    rewrite Hk in Hin. apply list_elem_of_In, in_seq in Hin. lia.
  - rewrite Forall_forall in Hnn. by apply Hnn.
Qed.


Lemma selection_candidate g res :
  selection (balls g) (pick g) res -> candidate g res.
Proof. intros (? & ? & ? & ?). by repeat split. Qed.

(** ** The frequency strategy on an empty history *)

Lemma ws_scan_NaN (t : table) : ws_scan NaN t = None.
Proof. induction t as [|[k v] t IH]; simpl; [done|]. by destruct v. Qed.

Lemma fold_add_NaN xs : fold_left JS.add xs NaN = NaN.
Proof. induction xs as [|x xs IH]; simpl; [done|]. apply IH. Qed.

(** An object whose first weight is [NaN] makes the loop of
    [weightedSelection] spin: the total is [NaN], which is not [=== 0], and
    no key is ever reached. *)
Lemma ws_loop_NaN rnd g count k rest :
  (0 < count)%nat ->
  forall fuel s, ws_loop rnd g fuel count [] ((k, NaN) :: rest) s = OutOfFuel.
Proof.
  intros Hcount. induction fuel as [|fuel IH]; intros s; [done|].
  rewrite ws_loop_S.
  assert (Hlt : Nat.ltb (length (@nil nat)) count = true) by (apply Nat.ltb_lt; simpl; lia).
  rewrite Hlt. cbv zeta.
  assert (Hsum : JS.sum (values ((k, NaN) :: rest)) = NaN).
  { unfold JS.sum. simpl. apply fold_add_NaN. }
  rewrite Hsum. change (JS.eq NaN (Fin 0)) with false. cbv iota.
  unfold bind, random. change (JS.mul (Fin (rnd s)) NaN) with NaN.
  rewrite ws_scan_NaN. apply IH.
Qed.

Lemma frequencyWeights_empty g :
  (1 <= balls g)%nat -> frequencyWeights g [] = tinit (balls g) NaN.
Proof.
  intros HN. unfold frequencyWeights.
  change (getNumberFrequency g []) with (tinit (balls g) (Fin 0)).
  destruct (sum_finite _ (nonneg_tinit_zero (balls g))) as (q & Hsum & Hq).
  rewrite Hsum. rewrite qtotal_tinit_zero in Hq.
  unfold tinit. rewrite map_map. apply map_ext. intros i. simpl.
  assert (Hz : JS.Qzero_b q = true) by by apply Qeq_bool_iff.
  by rewrite Hz.
Qed.

(** C3 (the code at the failing input).  On an empty history the expected
    frequency is 0 and every frequency is 0, but the frequency strategy never
    returns: its weights are [0/0 = NaN], the total [NaN] does not trigger
    the zero-total fallback, and the selection loop makes no progress
    whatever fuel it is given. *)
Theorem C3_frequency_empty_history_diverges (rnd : nat -> Q) (g : GameConfig) :
  valid_game g -> (1 <= pick g)%nat ->
  (exists q, getExpectedFrequency g [] = Fin q /\ q == 0) /\
  getNumberFrequency g [] = tinit (balls g) (Fin 0) /\
  forall fuel s, frequencyBasedPrediction rnd g [] fuel s = OutOfFuel.
Proof.
  intros Hg Hpick. unfold valid_game in Hg.
  split; [|split; [done|]].
  - unfold getExpectedFrequency. simpl.
    assert (Hz : JS.Qzero_b (inject_Z (Z.of_nat (balls g))) = false).
    { unfold JS.Qzero_b. destruct (Qeq_bool _ 0) eqn:E; [|done].
      apply Qeq_bool_eq in E. unfold Qeq in E. simpl in E. lia. }
    rewrite Hz. eexists. split; [done|].
    unfold Qdiv. ring.
  - intros fuel s. unfold frequencyBasedPrediction, weightedSelection.
    rewrite frequencyWeights_empty by lia.
    destruct (balls g) as [|n]; [lia|].
    unfold tinit. simpl. apply ws_loop_NaN. lia.
Qed.

Lemma C3_frequency_empty_history_diverges_witness :
  valid_game (mkGame 49 6) /\
  frequencyBasedPrediction (fun _ => 1 # 2) (mkGame 49 6) [] 1000 0%nat = OutOfFuel.
Proof.
  split; [unfold valid_game; simpl; lia|].
  apply (C3_frequency_empty_history_diverges (fun _ => 1 # 2) (mkGame 49 6)).
  - unfold valid_game. simpl. lia.
  - simpl. lia.
Defined.

(** ** Weighted selection never prefers a zero weight (C8) *)

Ltac solve_rnd :=
  intros ?; split; unfold Qle, Qlt; simpl; lia.

Ltac solve_NoDup :=
  repeat (apply NoDup_cons_2; [rewrite ?elem_of_cons, elem_of_nil; lia|]);
  apply NoDup_nil_2.

Ltac solve_valid_numbers :=
  split; [reflexivity|split; [solve_NoDup|simpl; repeat (constructor; [lia|]); constructor]].

Ltac solve_valid_data :=
  repeat (apply Forall_cons_2; [solve_valid_numbers|]); apply Forall_nil_2.

Lemma wf_weights_nonneg N t :
  wf_weights N t -> Forall (fun e => JS.nonneg (snd e)) t.
Proof. intros [_ H]. eapply Forall_impl; [exact H|]. by intros e [_ ?]. Qed.





(** ** The delta system (C4) *)

Lemma bind_run {A B} (m : M A) (k : A -> M B) s :
  bind m k s = match m s with
               | Ok (x, s') => k x s'
               | Throw => Throw
               | OutOfFuel => OutOfFuel
               end.
Proof. reflexivity. Qed.

Lemma randomBelow_run rnd n s :
  randomBelow rnd n s = Ok (Z.to_nat (Qfloor (rnd s * inject_Z (Z.of_nat n))), S s).
Proof. reflexivity. Qed.

Lemma delta_loop_S rnd g data fuel numbers :
  delta_loop rnd g data (S fuel) numbers
  = if Nat.ltb (length numbers) (pick g) then
      let* i := randomBelow rnd (length (sortedDeltas data)) in
      let lastNumber := List.last numbers 0%nat in
      let next := (fun delta => lastNumber + delta)%nat <$> sortedDeltas data !! i in
      if delta_ok g numbers next then
        delta_loop rnd g data fuel (numbers ++ [default 0%nat next])
      else if Nat.ltb (length numbers) (pick g) then
        let* j := randomBelow rnd 10 in
        let altNext := (lastNumber + j + 1)%nat in
        if delta_ok g numbers (Some altNext) then
          delta_loop rnd g data fuel (numbers ++ [altNext])
        else delta_loop rnd g data fuel numbers
      else delta_loop rnd g data fuel numbers
    else ret numbers.
Proof. reflexivity. Qed.

(** Once the sequence has reached the top number [balls] with fewer than
    [pick] numbers, the first loop can never add a number again, whatever
    the random source returns. *)
Lemma delta_loop_stuck rnd g data numbers :
  Forall (fun d => (1 <= d)%nat) (sortedDeltas data) ->
  List.last numbers 0%nat = balls g ->
  (length numbers < pick g)%nat ->
  forall fuel s, delta_loop rnd g data fuel numbers s = OutOfFuel.
Proof.
  intros Hdeltas Hlast Hlen. induction fuel as [|fuel IH]; intros s; [done|].
  rewrite delta_loop_S.
  apply Nat.ltb_lt in Hlen. rewrite Hlen, Hlast.
  rewrite bind_run, randomBelow_run. cbv beta iota zeta.
  set (i := Z.to_nat _).
  assert (Hnext : delta_ok g numbers
                    ((fun delta => balls g + delta)%nat <$> sortedDeltas data !! i) = false).
  { destruct (sortedDeltas data !! i) as [d|] eqn:Hd; [|done]. simpl.
    apply list_elem_of_lookup_2 in Hd. rewrite Forall_forall in Hdeltas.
    specialize (Hdeltas _ Hd). simpl in Hdeltas.
    assert (Hgt : Nat.leb (balls g + d) (balls g) = false) by (apply Nat.leb_gt; lia).
    by rewrite Hgt. }
  rewrite Hnext.
  rewrite bind_run, randomBelow_run. cbv beta iota zeta.
  set (j := Z.to_nat _).
  assert (Halt : delta_ok g numbers (Some (balls g + j + 1)%nat) = false).
  { simpl. assert (Hgt : Nat.leb (balls g + j + 1) (balls g) = false) by (apply Nat.leb_gt; lia).
    by rewrite Hgt. }
  rewrite Halt. apply IH.
Qed.

(** The first loop only returns with [pick] numbers or more, so the
    fill-with-random loop after it never adds anything. *)
Lemma delta_loop_returns_full rnd g data fuel :
  forall numbers s res s',
    delta_loop rnd g data fuel numbers s = Ok (res, s') -> (pick g <= length res)%nat.
Proof.
  induction fuel as [|fuel IH]; intros numbers s res s'; [done|].
  rewrite delta_loop_S.
  destruct (Nat.ltb_spec (length numbers) (pick g)) as [Hlt|Hge].
  - rewrite bind_run, randomBelow_run. cbv beta iota zeta.
    destruct (delta_ok g numbers _); [apply IH|].
    rewrite bind_run, randomBelow_run. cbv beta iota zeta.
    destruct (delta_ok g numbers _); apply IH.
  - intros [= <- <-]. done.
Qed.

(** C4 (the code at the failing input).  Lottario (N = 45, K = 6) with the
    one-draw history {5, 15, 25, 35, 40, 45}: when the seed is 15 and the
    next three steps take the delta 10, the sequence is 15, 25, 35, 45 and
    the delta loop never returns, whatever the random source yields from
    then on. *)
Theorem C4_delta_system_diverges (rnd : nat -> Q) :
  rnd 0%nat = (29 # 30) -> rnd 1%nat = 0 -> rnd 2%nat = 0 -> rnd 3%nat = 0 ->
  valid_game lottario /\ valid_data lottario lottario_history /\
  (forall fuel,
      deltaSystemPrediction rnd lottario lottario_history fuel 0%nat = OutOfFuel).
Proof.
  intros H0 H1 H2 H3.
  split; [unfold valid_game; simpl; lia|]. split.
  { unfold lottario_history. solve_valid_data. }
  intros fuel. unfold deltaSystemPrediction.
  rewrite bind_run, randomBelow_run, H0. cbv beta iota zeta.
  change (Z.to_nat (Qfloor ((29 # 30) * inject_Z (Z.of_nat 15)))) with 14%nat.
  rewrite bind_run.
  assert (Hd : sortedDeltas lottario_history = [10; 5]%nat) by reflexivity.
  assert (Hstep : forall f numbers s,
             rnd s = 0 ->
             (length numbers < 6)%nat ->
             (List.last numbers 0 + 10 <= 45)%nat ->
             includes numbers (List.last numbers 0%nat + 10) = false ->
             delta_loop rnd lottario lottario_history (S f) numbers s
             = delta_loop rnd lottario lottario_history f
                          (numbers ++ [(List.last numbers 0 + 10)%nat]) (S s)).
  { intros f numbers s Hs Hlen Hle Hinc. rewrite delta_loop_S.
    apply Nat.ltb_lt in Hlen. change (pick lottario) with 6%nat. rewrite Hlen.
    rewrite bind_run, randomBelow_run, Hs, Hd. cbv beta iota zeta.
    change (Z.to_nat (Qfloor (0 * inject_Z (Z.of_nat (length [10; 5]%nat))))) with 0%nat.
    unfold delta_ok. change (balls lottario) with 45%nat.
    change ([10; 5]%nat !! 0%nat) with (Some 10%nat).
    cbn [fmap option_fmap option_map default].
    apply Nat.leb_le in Hle. rewrite Hle, Hinc. done. }
  assert (Hstuck : forall f s,
             delta_loop rnd lottario lottario_history f [15; 25; 35; 45]%nat s = OutOfFuel).
  { apply delta_loop_stuck; [|done|simpl; lia].
    rewrite Hd. repeat constructor; lia. }
  destruct fuel as [|f1]; [done|].
  rewrite (Hstep f1 [15]%nat 1%nat); [|done|simpl; lia..|done].
  change ([15]%nat ++ [(List.last [15]%nat 0 + 10)%nat]) with [15; 25]%nat.
  destruct f1 as [|f2]; [done|].
  rewrite (Hstep f2 [15; 25]%nat 2%nat); [|done|simpl; lia..|done].
  change ([15; 25]%nat ++ [(List.last [15; 25]%nat 0 + 10)%nat]) with [15; 25; 35]%nat.
  destruct f2 as [|f3]; [done|].
  rewrite (Hstep f3 [15; 25; 35]%nat 3%nat); [|done|simpl; lia..|done].
  change ([15; 25; 35]%nat ++ [(List.last [15; 25; 35]%nat 0 + 10)%nat])
    with [15; 25; 35; 45]%nat.
  by rewrite Hstuck.
Qed.

Lemma C4_delta_system_diverges_witness :
  deltaSystemPrediction
    (fun n => match n with O => 29 # 30 | 1%nat | 2%nat | 3%nat => 0 | _ => 1 # 2 end)
    lottario lottario_history 1000 0%nat = OutOfFuel.
Proof.
  apply (C4_delta_system_diverges
           (fun n => match n with O => 29 # 30 | 1%nat | 2%nat | 3%nat => 0 | _ => 1 # 2 end));
    reflexivity.
Defined.

(** ** Multiple sets and the constraint filter (C2) *)

Lemma attemptsAfter_S g data constraints numbers attempts :
  attemptsAfter g data constraints numbers attempts = S attempts.
Proof.
  unfold attemptsAfter.
  destruct (balanceOddEven constraints && _); [done|].
  destruct (balanceHighLow constraints && _); [done|].
  by destruct (avoidRepeats constraints && _).
Qed.

Lemma gms_attempts_S rnd g data weights fuel turns algorithm constraints used attempts :
  gms_attempts rnd g data weights fuel (S turns) algorithm constraints used attempts
  = let* numbers := runAlgorithm rnd g data weights fuel algorithm in
    let attempts := attemptsAfter g data constraints numbers attempts in
    if usedHas used numbers && Nat.ltb attempts 100
    then gms_attempts rnd g data weights fuel turns algorithm constraints used attempts
    else ret numbers.
Proof. reflexivity. Qed.

(** The constraint flags never change what the retry loop does. *)
Lemma gms_attempts_ignores_constraints rnd g data weights fuel turns algorithm c1 c2 :
  forall used attempts s,
    gms_attempts rnd g data weights fuel turns algorithm c1 used attempts s
    = gms_attempts rnd g data weights fuel turns algorithm c2 used attempts s.
Proof.
  induction turns as [|turns IH]; intros used attempts s; [done|].
  rewrite !gms_attempts_S, !bind_run.
  destruct (runAlgorithm rnd g data weights fuel algorithm s) as [[numbers s']| |]; [|done..].
  cbv zeta. rewrite !attemptsAfter_S.
  destruct (usedHas used numbers && Nat.ltb (S attempts) 100); [apply IH|done].
Qed.

Lemma gms_sets_ignores_constraints rnd g data weights fuel algorithm c1 c2 remaining :
  forall sets used s,
    gms_sets rnd g data weights fuel remaining algorithm c1 sets used s
    = gms_sets rnd g data weights fuel remaining algorithm c2 sets used s.
Proof.
  induction remaining as [|remaining IH]; intros sets used s; [done|].
  simpl. rewrite !bind_run.
  rewrite (gms_attempts_ignores_constraints rnd g data weights fuel fuel algorithm c1 c2).
  destruct (gms_attempts rnd g data weights fuel fuel algorithm c2 used 0 s)
    as [[numbers s']| |]; [|done..].
  apply IH.
Qed.

Lemma generateMultipleSets_ignores_constraints rnd g data weights fuel count algorithm c1 c2 s :
  generateMultipleSets rnd g data weights fuel count algorithm c1 s
  = generateMultipleSets rnd g data weights fuel count algorithm c2 s.
Proof.
  unfold generateMultipleSets. rewrite !bind_run.
  by rewrite (gms_sets_ignores_constraints rnd g data weights fuel algorithm c1 c2).
Qed.

(** C2 (the code at the failing input).  The constraint flags have no
    effect on the retry loop: a violated constraint runs [attempts++;
    continue], which in a [do .. while] goes to the loop test, and the test
    only asks whether the combination was used before.  With Lotto 6/49, a
    history of five all-even draws, the frequency strategy and
    [balanceOddEven] requested, the single set returned is {2, 4, 6, 8, 10,
    12}: no odd number, accepted on the first attempt (six calls of
    [Math.random()], one run of the strategy). *)
Theorem C2_constraints_not_enforced :
  (forall rnd g data weights fuel count algorithm c1 c2 s,
      generateMultipleSets rnd g data weights fuel count algorithm c1 s
      = generateMultipleSets rnd g data weights fuel count algorithm c2 s) /\
  oddEvenViolated lotto649 [2; 4; 6; 8; 10; 12]%nat = true /\
  exists confidence,
    generateMultipleSets (fun _ => 1 # 2) lotto649 five_even_draws initialWeights 20 1
                         "frequency" onlyOddEven 0%nat
    = Ok ([mkSet [2; 4; 6; 8; 10; 12]%nat confidence "frequency"], 6%nat).
Proof.
  split; [|split].
  - intros. apply generateMultipleSets_ignores_constraints.
  - reflexivity.
  - eexists. vm_compute. reflexivity.
Qed.

(** ** Strategy weights (C10) *)







(** ** The analyzer on an empty history (C9) *)

(** A stable sort leaves a list alone when no element has to go after
    another. *)
Lemma js_sort_id {A} (after : A -> A -> bool) (l : list A) :
  (forall x y, x ∈ l -> y ∈ l -> after x y = false) -> js_sort after l = l.
Proof.
  induction l as [|x l IH]; intros Hall; [done|].
  unfold js_sort in *. simpl. rewrite IH.
  - destruct l as [|y l]; [done|]. simpl.
    rewrite Hall; [done|left|right; left].
  - intros a b Ha Hb. apply Hall; by right.
Qed.

Lemma js_sort_tinit n v : js_sort by_value_desc (tinit n (Fin v)) = tinit n (Fin v).
Proof.
  apply js_sort_id. intros x y (i & -> & _)%list_elem_of_fmap (j & -> & _)%list_elem_of_fmap.
  unfold by_value_desc, JS.gt. simpl.
  destruct (Qle_bool (v + - v) 0) eqn:E; [done|].
  assert (v + - v <= 0) by lra. apply Qle_bool_iff in H. congruence.
Qed.

Lemma js_sort_tinit_asc n v : js_sort by_value_asc (tinit n (Fin v)) = tinit n (Fin v).
Proof.
  apply js_sort_id. intros x y (i & -> & _)%list_elem_of_fmap (j & -> & _)%list_elem_of_fmap.
  unfold by_value_asc, JS.gt. simpl.
  destruct (Qle_bool (v + - v) 0) eqn:E; [done|].
  assert (v + - v <= 0) by lra. apply Qle_bool_iff in H. congruence.
Qed.

Lemma expectedFrequency_empty g :
  (1 <= balls g)%nat -> exists q, getExpectedFrequency g [] = Fin q /\ q == 0.
Proof.
  intros HN. unfold getExpectedFrequency. simpl.
  assert (Hz : JS.Qzero_b (inject_Z (Z.of_nat (balls g))) = false).
  { unfold JS.Qzero_b. destruct (Qeq_bool _ 0) eqn:E; [|done].
    apply Qeq_bool_eq in E. unfold Qeq in E. simpl in E. lia. }
  rewrite Hz. eexists. split; [done|]. unfold Qdiv. ring.
Qed.

(** C9, as amended.  On an empty history every analyzer operation returns:
    frequencies, expected frequency, hot, cold and overdue entries, decade
    counts and pattern counts are all zero; common pairs, the odd/even
    distribution, the delta histogram and the sum histogram are empty; the
    sum distribution has min [+Infinity], max [-Infinity] and mean [NaN]. *)
Theorem C9_analyzer_empty_history (g : GameConfig) (n : nat) :
  valid_game g ->
  getNumberFrequency g [] = tinit (balls g) (Fin 0) /\
  (exists q, getExpectedFrequency g [] = Fin q /\ q == 0) /\
  getHotNumbers g [] n = take n (tinit (balls g) (Fin 0)) /\
  getColdNumbers g [] n = take n (tinit (balls g) (Fin 0)) /\
  getOverdueNumbers g [] n = take n (tinit (balls g) (Fin 0)) /\
  getCommonPairs [] n = [] /\
  getOddEvenDistribution [] = [] /\
  getSumDistribution [] = mkSumDist PInf NInf NaN [] /\
  getDecadeDistribution g [] = map (fun i => (decade_key g i, Fin 0)) (seq 0 (decade_count g)) /\
  getDeltaAnalysis [] = [] /\
  getPatternAnalysis g [] = mkPatterns 0 0 0 0 0 0 0.
Proof.
  intros Hg. unfold valid_game in Hg.
  split; [done|]. split; [apply expectedFrequency_empty; lia|].
  split.
  { unfold getHotNumbers.
    change (getNumberFrequency g []) with (tinit (balls g) (Fin 0)).
    by rewrite js_sort_tinit. }
  split.
  { unfold getColdNumbers.
    change (getNumberFrequency g []) with (tinit (balls g) (Fin 0)).
    by rewrite js_sort_tinit_asc. }
  split.
  { unfold getOverdueNumbers.
    change (lastSeenTable g []) with (tinit (balls g) (Fin 0)).
    by rewrite js_sort_tinit. }
  split; [by destruct n|].
  repeat split.
Qed.

Lemma C9_analyzer_empty_history_witness :
  getSumDistribution [] = mkSumDist PInf NInf NaN [] /\
  getHotNumbers lotto649 [] 3 = [(1, Fin 0); (2, Fin 0); (3, Fin 0)]%nat.
Proof.
  destruct (C9_analyzer_empty_history lotto649 3) as (_ & _ & Hhot & _ & _ & _ & _ & Hsum & _).
  - unfold valid_game. simpl. lia.
  - split; [exact Hsum|exact Hhot].
Defined.

(** C9 as stated fails for the sum distribution: on an empty history its
    mean is [0/0 = NaN], not a number, and its min and max are the
    infinities. *)
Lemma C9_counterexample :
  is_number (sd_avg (getSumDistribution [])) = false /\
  sd_avg (getSumDistribution []) = NaN /\
  sd_min (getSumDistribution []) = PInf /\
  sd_max (getSumDistribution []) = NInf.
Proof. repeat split. Qed.

(** ** The Markov transition matrix (C6) *)

Lemma keys_tset_present {V} (t : list (nat * V)) k v :
  StronglySorted Nat.lt (keys t) -> k ∈ keys t -> keys (tset t k v) = keys t.
Proof.
  unfold keys. induction t as [|[k1 v1] t IH]; simpl; intros Hs Hin.
  - by apply elem_of_nil in Hin.
  - apply StronglySorted_cons in Hs as [Hk1 Hs].
    destruct (Nat.eqb_spec k k1) as [->|Hne]; [done|].
    apply elem_of_cons in Hin as [?|Hin]; [done|].
    destruct (Nat.ltb_spec k k1) as [Hlt|Hge].
    + exfalso. rewrite Forall_forall in Hk1. specialize (Hk1 _ Hin).
      unfold Nat.lt in Hk1. lia.
    + simpl. f_equal. by apply IH.
Qed.

Lemma foldR_inv {A B} (P : B -> Prop) (f : B -> A -> result B) (l : list A) :
  (forall b x, x ∈ l -> P b -> exists b', f b x = Ok b' /\ P b') ->
  forall b, P b -> exists b', foldR f l b = Ok b' /\ P b'.
Proof.
  induction l as [|x l IH]; intros Hf b Hb; simpl.
  - by exists b.
  - destruct (Hf b x) as (b1 & Hb1 & HP1); [left|done|].
    rewrite Hb1. simpl. apply IH; [|done].
    intros b0 y Hy. apply Hf. by right.
Qed.

Lemma row_wf_tinit N : row_wf N (tinit N (Fin 0)).
Proof. split; [apply keys_tinit|apply nonneg_tinit_zero]. Qed.

Lemma bumpTransition_wf N tr prev curr :
  matrix_wf N tr -> (1 <= prev <= N)%nat -> (1 <= curr <= N)%nat ->
  exists tr', bumpTransition tr prev curr = Ok tr' /\ matrix_wf N tr'.
Proof.
  intros [Hkeys Hrows] Hprev Hcurr. unfold bumpTransition.
  assert (Hin : prev ∈ keys tr).
  { rewrite Hkeys. apply list_elem_of_In, in_seq. lia. }
  destruct (tget_of_key tr prev Hin) as (row & Hget). rewrite Hget.
  eexists. split; [done|].
  assert (Hs : StronglySorted Nat.lt (keys tr)) by (rewrite Hkeys; apply seq_sorted).
  split; [by rewrite keys_tset_present|].
  apply Forall_forall. intros e [->|He]%elem_of_tset; simpl.
  - apply tget_elem in Hget. rewrite Forall_forall in Hrows.
    destruct (Hrows _ Hget) as [Hk Hnn]. simpl in *.
    destruct (tincr_freq N row curr Hk Hnn Hcurr) as (? & ? & _). by split.
  - rewrite Forall_forall in Hrows. by apply Hrows.
Qed.

Lemma countTransitions_wf g draws :
  valid_data g draws ->
  forall tr, matrix_wf (balls g) tr ->
  exists tr', countTransitions draws tr = Ok tr' /\ matrix_wf (balls g) tr'.
Proof.
  induction 1 as [|curr draws Hcurr Hdraws IH]; intros tr Htr; [by exists tr|].
  destruct draws as [|prev rest]; [by exists tr|].
  change (countTransitions (curr :: prev :: rest) tr)
    with (rbind (foldR (fun tr p => foldR (fun tr c => bumpTransition tr p c)
                                          (numbers curr) tr)
                       (numbers prev) tr)
                (countTransitions (prev :: rest))).
  apply Forall_cons in Hdraws as Hd. destruct Hd as [Hprev _].
  destruct Hcurr as (_ & _ & Hcr). destruct Hprev as (_ & _ & Hpr).
  rewrite Forall_forall in Hcr. rewrite Forall_forall in Hpr.
  destruct (foldR_inv (matrix_wf (balls g))
              (fun tr p => foldR (fun tr c => bumpTransition tr p c) (numbers curr) tr)
              (numbers prev)) with (b := tr) as (tr1 & Htr1 & Hwf1); [|done|].
  { intros b p Hp Hb.
    apply (foldR_inv (matrix_wf (balls g))); [|done].
    intros b0 c Hc Hb0. apply bumpTransition_wf; auto. }
  rewrite Htr1. simpl. by apply IH.
Qed.

Lemma markovCounts_wf g data :
  valid_data g data ->
  exists counts, markovCounts g data = Ok counts /\ matrix_wf (balls g) counts.
Proof.
  intros Hdata. unfold markovCounts. apply (countTransitions_wf g); [done|].
  split.
  - unfold keys. rewrite map_map. simpl. apply map_id.
  - apply Forall_forall. intros e (i & -> & _)%list_elem_of_fmap. apply row_wf_tinit.
Qed.

Lemma qtotal_map_div (row : table) t :
  Forall (fun e => JS.nonneg (snd e)) row -> 0 < t ->
  Forall (fun e => JS.nonneg (snd e)) (map (fun e => (fst e, JS.div (snd e) (Fin t))) row) /\
  qtotal (map (fun e => (fst e, JS.div (snd e) (Fin t))) row) == qtotal row / t.
Proof.
  intros Hnn Ht.
  assert (Hz : JS.Qzero_b t = false).
  { unfold JS.Qzero_b. destruct (Qeq_bool t 0) eqn:E; [|done].
    apply Qeq_bool_eq in E. lra. }
  induction Hnn as [|[k v] row Hv Hnn [IH1 IH2]]; simpl.
  - split; [constructor|]. unfold Qdiv. ring.
  - simpl in Hv. apply nonneg_inv in Hv as (x & -> & Hx). simpl. rewrite Hz.
    split.
    + constructor; [|done]. simpl. apply Qle_shift_div_l; lra.
    + rewrite IH2. field. lra.
Qed.

(** A normalized row sums to 1 when its counts have a positive total, and
    to 0 when they have none. *)
Lemma normalizeRow_sum N (row : table) :
  row_wf N row ->
  exists total q,
    JS.sum (values row) = Fin total /\ 0 <= total /\
    JS.sum (values (normalizeRow row)) = Fin q /\
    (0 < total -> q == 1) /\ (total == 0 -> q == 0).
Proof.
  intros [_ Hnn].
  destruct (sum_finite row Hnn) as (total & Hsum & Htotal).
  assert (Hge := qtotal_nonneg row Hnn).
  unfold normalizeRow. rewrite Hsum.
  change (JS.gt (Fin total) (Fin 0)) with (negb (Qle_bool total 0)).
  destruct (Qle_bool total 0) eqn:Hle; simpl.
  - apply Qle_bool_iff in Hle.
    exists total, total. split; [done|]. split; [lra|]. split; [done|].
    split; [intros; lra|done].
  - assert (Hpos : 0 < total).
    { destruct (Qlt_le_dec 0 total) as [|Hc]; [done|].
      apply Qle_bool_iff in Hc. congruence. }
    destruct (qtotal_map_div row total Hnn Hpos) as [Hnn' Hq'].
    destruct (sum_finite _ Hnn') as (q & Hsum' & Hq).
    exists total, q. split; [done|]. split; [lra|]. split; [done|].
    split; [|intros; lra].
    intros _. rewrite Hq, Hq', <- Htotal. field. lra.
Qed.

(** ** The confidence score (C5) *)

Lemma Qzero_b_false q : ~ q == 0 -> JS.Qzero_b q = false.
Proof.
  intros Hq. unfold JS.Qzero_b. destruct (Qeq_bool q 0) eqn:E; [|done].
  by apply Qeq_bool_eq in E.
Qed.

Lemma div_fin a b : ~ b == 0 -> JS.div (Fin a) (Fin b) = Fin (a / b).
Proof. intros Hb. unfold JS.div. by rewrite Qzero_b_false. Qed.

Lemma sub_fin a b : JS.sub (Fin a) (Fin b) = Fin (a + - b).
Proof. reflexivity. Qed.

Lemma div_nonneg a b : JS.nonneg a -> fin_pos b -> JS.nonneg (JS.div a b).
Proof.
  intros (x & -> & Hx)%nonneg_inv (y & -> & Hy). simpl.
  rewrite Qzero_b_false by lra. simpl. apply Qle_shift_div_l; lra.
Qed.

Lemma min_cap a c : JS.nonneg a -> 0 <= c -> fin_in 0 c (JS.min a (Fin c)).
Proof.
  intros (x & -> & Hx)%nonneg_inv Hc. unfold JS.min, JS.le.
  destruct (Qle_bool x c) eqn:E.
  - apply Qle_bool_iff in E. by exists x.
  - exists c. split; [done|lra].
Qed.

Lemma mul_range a lo hi c lo' hi' :
  fin_in lo hi a -> 0 <= c -> lo' <= lo * c -> hi * c <= hi' ->
  fin_in lo' hi' (JS.mul a (Fin c)).
Proof.
  intros (x & -> & Hlo & Hhi) Hc Hlo' Hhi'. exists (x * c). split; [done|].
  assert (lo * c <= x * c) by by apply Qmult_le_compat_r.
  assert (x * c <= hi * c) by by apply Qmult_le_compat_r.
  lra.
Qed.

Lemma of_nat_pos n : (1 <= n)%nat -> fin_pos (JS.of_nat n).
Proof.
  intros Hn. exists (inject_Z (Z.of_nat n)). split; [done|].
  change 0 with (inject_Z 0). rewrite <- Zlt_Qlt. lia.
Qed.

Lemma of_nat_nonneg n : JS.nonneg (JS.of_nat n).
Proof. simpl. change 0 with (inject_Z 0). rewrite <- Zle_Qle. lia. Qed.

Lemma tnum_frequency_nonneg g data n :
  valid_data g data -> (1 <= n <= balls g)%nat ->
  JS.nonneg (tnum (getNumberFrequency g data) n).
Proof.
  intros Hdata Hn.
  destruct (frequency_valid g data Hdata) as (Hk & Hnn & _).
  assert (Hin : n ∈ keys (getNumberFrequency g data)).
  { rewrite Hk. apply list_elem_of_In, in_seq. lia. }
  destruct (tget_of_key _ n Hin) as (v & Hget).
  unfold tnum. rewrite Hget. apply tget_elem in Hget.
  rewrite Forall_forall in Hnn. apply (Hnn _ Hget).
Qed.

Lemma fold_add_nonneg {A} (f : A -> jsnum) (l : list A) acc :
  JS.nonneg acc -> Forall (fun x => JS.nonneg (f x)) l ->
  JS.nonneg (fold_left (fun sum x => JS.add sum (f x)) l acc).
Proof.
  revert acc. induction l as [|x l IH]; intros acc Hacc Hl; simpl; [done|].
  apply Forall_cons in Hl as [Hx Hl]. apply IH; [|done].
  apply nonneg_inv in Hacc as (a & -> & Ha). apply nonneg_inv in Hx as (b & -> & Hb).
  simpl. lra.
Qed.

Lemma expectedFrequency_pos g data :
  valid_game g -> (1 <= pick g)%nat -> data <> [] ->
  fin_pos (getExpectedFrequency g data).
Proof.
  intros Hg Hpick Hne. unfold valid_game in Hg. unfold getExpectedFrequency. simpl.
  assert (HN : 0 < inject_Z (Z.of_nat (balls g))).
  { change 0 with (inject_Z 0). rewrite <- Zlt_Qlt. lia. }
  assert (HK : 0 < inject_Z (Z.of_nat (pick g))).
  { change 0 with (inject_Z 0). rewrite <- Zlt_Qlt. lia. }
  assert (HL : 0 < inject_Z (Z.of_nat (length data))).
  { change 0 with (inject_Z 0). rewrite <- Zlt_Qlt. destruct data; [done|]. simpl. lia. }
  rewrite Qzero_b_false by lra. eexists. split; [done|].
  apply Qlt_shift_div_l; [done|]. rewrite Qmult_0_l. by apply Qmult_lt_0_compat.
Qed.

Lemma frequencyAlignment_range g data c :
  valid_game g -> (1 <= pick g)%nat -> valid_data g data -> data <> [] ->
  valid_numbers g c ->
  fin_in 0 30 (frequencyAlignment g data c).
Proof.
  intros Hg Hpick Hdata Hne (Hlen & _ & Hrange). unfold frequencyAlignment.
  apply (mul_range _ 0 (15 # 10) 20); [|lra|lra|lra].
  apply min_cap; [|lra].
  apply div_nonneg; [|by apply expectedFrequency_pos].
  apply div_nonneg; [|apply of_nat_pos; lia].
  apply (fold_add_nonneg (fun n => tnum (getNumberFrequency g data) n)); [simpl; lra|].
  eapply Forall_impl; [exact Hrange|]. intros n Hn. by apply tnum_frequency_nonneg.
Qed.

Lemma count_odd_le xs : (count_odd xs <= length xs)%nat.
Proof. unfold count_odd. apply length_filter. Qed.

Lemma balanceComponent_range g c :
  (1 <= pick g)%nat -> length c = pick g ->
  fin_in 0 20 (balanceComponent g c).
Proof.
  intros Hpick Hlen. unfold balanceComponent.
  apply (mul_range _ 0 1 20); [|lra|lra|lra].
  assert (Hodd := count_odd_le c). rewrite Hlen in Hodd.
  set (o := inject_Z (Z.of_nat (count_odd c))).
  set (k := inject_Z (Z.of_nat (pick g))).
  assert (Ho : 0 <= o) by (unfold o; change 0 with (inject_Z 0); rewrite <- Zle_Qle; lia).
  assert (Hok : o <= k) by (unfold o, k; rewrite <- Zle_Qle; lia).
  assert (Hk : 0 < k) by (unfold k; change 0 with (inject_Z 0); rewrite <- Zlt_Qlt; lia).
  change (JS.of_nat (count_odd c)) with (Fin o). change (JS.of_nat (pick g)) with (Fin k).
  assert (Hhalf : 0 < k / 2) by (apply Qlt_shift_div_l; lra).
  rewrite (div_fin k 2) by lra. rewrite sub_fin.
  change (JS.abs (Fin (o + - (k / 2)))) with (Fin (Qabs (o + - (k / 2)))).
  rewrite div_fin by lra. rewrite sub_fin.
  eexists. split; [reflexivity|].
  assert (Habs : Qabs (o + - (k / 2)) <= k / 2).
  { apply Qabs_Qle_condition. split.
    - assert (k / 2 == k * (1 # 2)) by (field). lra.
    - assert (k / 2 == k * (1 # 2)) by (field). lra. }
  assert (Habs0 := Qabs_nonneg (o + - (k / 2))).
  assert (Hr1 : Qabs (o + - (k / 2)) / (k / 2) <= 1).
  { apply Qle_shift_div_r; lra. }
  assert (Hr0 : 0 <= Qabs (o + - (k / 2)) / (k / 2)).
  { apply Qle_shift_div_l; lra. }
  lra.
Qed.

Lemma spreadComponent_range g c :
  (1 <= balls g)%nat -> c <> [] ->
  fin_in 0 20 (spreadComponent g c).
Proof.
  intros HN Hc. unfold spreadComponent.
  apply (mul_range _ 0 1 20); [|lra|lra|lra].
  apply min_cap; [|lra].
  apply div_nonneg.
  - assert (Hp := sort_asc_perm c).
    destruct (sort_asc c) as [|x rest] eqn:E.
    + apply Permutation_nil_l in Hp. by subst.
    + unfold spread_of. apply of_nat_nonneg.
  - destruct (of_nat_pos (balls g) HN) as (n & -> & Hn).
    exists (n * (8 # 10)). split; [done|]. apply Qmult_lt_0_compat; lra.
Qed.

Lemma NoDup_Z_bounded_length (l : list Z) (M : Z) :
  (0 <= M)%Z ->
  NoDup l -> (forall x, x ∈ l -> (0 <= x <= M)%Z) -> (Z.of_nat (length l) <= M + 1)%Z.
Proof.
  intros HM Hnd Hb.
  assert (Hnd' : NoDup (Z.to_nat <$> l)).
  { apply NoDup_fmap_2_strong; [|done].
    intros x y Hx Hy Heq. apply Hb in Hx. apply Hb in Hy. lia. }
  assert (Hsub : (Z.to_nat <$> l) ⊆+ seq 0 (Z.to_nat M + 1)).
  { apply NoDup_submseteq; [done|].
    intros n (x & -> & Hx)%list_elem_of_fmap. apply Hb in Hx.
    apply list_elem_of_In, in_seq. lia. }
  apply submseteq_length in Hsub. rewrite length_fmap, length_seq in Hsub. lia.
Qed.

Lemma decades_bound g c :
  (1 <= balls g)%nat ->
  Forall (fun n => (1 <= n <= balls g)%nat) c ->
  (Z.of_nat (length (decadesOf c)) <= (Z.of_nat (balls g) - 1) / 10 + 1)%Z.
Proof.
  intros HN Hc. apply NoDup_Z_bounded_length.
  - apply Z.div_pos; lia.
  - unfold decadesOf. apply NoDup_remove_dups.
  - intros x Hx. unfold decadesOf in Hx. rewrite elem_of_remove_dups in Hx.
    apply list_elem_of_fmap in Hx as (n & -> & Hn).
    rewrite Forall_forall in Hc. specialize (Hc _ Hn). split.
    + apply Z.div_pos; lia.
    + apply Z.div_le_mono; lia.
Qed.

Lemma ceil_tenth N :
  (1 <= N)%Z -> ((N - 1) / 10 + 1 <= Qceiling (inject_Z N / 10))%Z.
Proof.
  intros HN.
  assert (Hm : inject_Z ((N - 1) / 10) < inject_Z N / 10).
  { apply Qlt_shift_div_l; [lra|].
    change 10 with (inject_Z 10). rewrite <- inject_Z_mult, <- Zlt_Qlt.
    assert (H := Z.mul_div_le (N - 1) 10 ltac:(lia)). lia. }
  assert (Hc := Qle_ceiling (inject_Z N / 10)).
  assert (Hlt : inject_Z ((N - 1) / 10) < inject_Z (Qceiling (inject_Z N / 10))) by lra.
  rewrite <- Zlt_Qlt in Hlt. lia.
Qed.

Lemma decadeComponent_range g c :
  (1 <= balls g)%nat ->
  Forall (fun n => (1 <= n <= balls g)%nat) c ->
  fin_in 0 20 (decadeComponent g c).
Proof.
  intros HN Hc. unfold decadeComponent.
  apply (mul_range _ 0 1 20); [|lra|lra|lra].
  assert (Hb := decades_bound g c HN Hc).
  assert (Hceil := ceil_tenth (Z.of_nat (balls g)) ltac:(lia)).
  set (n := Z.of_nat (length (decadesOf c))) in *.
  set (m := Qceiling (inject_Z (Z.of_nat (balls g)) / 10)) in *.
  assert (Hm : (1 <= m)%Z).
  { assert (0 <= (Z.of_nat (balls g) - 1) / 10)%Z by (apply Z.div_pos; lia). lia. }
  change (JS.of_nat (length (decadesOf c))) with (Fin (inject_Z n)).
  change (JS.of_nat (balls g)) with (Fin (inject_Z (Z.of_nat (balls g)))).
  rewrite (div_fin _ 10) by lra.
  change (JS.ceil (Fin (inject_Z (Z.of_nat (balls g)) / 10))) with (Fin (inject_Z m)).
  assert (Hmq : 0 < inject_Z m) by (change 0 with (inject_Z 0); rewrite <- Zlt_Qlt; lia).
  assert (Hnq : 0 <= inject_Z n) by (change 0 with (inject_Z 0); rewrite <- Zle_Qle; lia).
  assert (Hnm : inject_Z n <= inject_Z m) by (rewrite <- Zle_Qle; lia).
  rewrite div_fin by lra.
  eexists. split; [reflexivity|]. split.
  - apply Qle_shift_div_l; lra.
  - apply Qle_shift_div_r; lra.
Qed.

Lemma pairComponent_range data c : fin_in 0 20 (pairComponent data c).
Proof. unfold pairComponent. apply min_cap; [apply of_nat_nonneg|lra]. Qed.

(** C5, as amended.  For a game with [1 <= K < N], a non-empty valid history
    and [K] distinct numbers of [1..N], the five components are finite and
    capped (frequency alignment at 30, the other four at 20), and the
    confidence is their sum, rounded and cut off at 100: an integer in
    [[0, 100]]. *)
Theorem C5_confidence_in_range (g : GameConfig) (data : list Draw) (c : list nat) :
  valid_game g -> (1 <= pick g)%nat ->
  valid_data g data -> data <> [] ->
  valid_numbers g c ->
  exists f b s d p,
    frequencyAlignment g data c = Fin f /\ 0 <= f <= 30 /\
    balanceComponent g c = Fin b /\ 0 <= b <= 20 /\
    spreadComponent g c = Fin s /\ 0 <= s <= 20 /\
    decadeComponent g c = Fin d /\ 0 <= d <= 20 /\
    pairComponent data c = Fin p /\ 0 <= p <= 20 /\
    calculateConfidence g data c = JS.min (JS.round (Fin (0 + f + b + s + d + p))) (Fin 100) /\
    exists z : Z, calculateConfidence g data c = Fin (inject_Z z) /\ (0 <= z <= 100)%Z.
Proof.
  intros Hg Hpick Hdata Hne Hc.
  assert (HN : (1 <= balls g)%nat) by (unfold valid_game in Hg; lia).
  destruct (frequencyAlignment_range g data c Hg Hpick Hdata Hne Hc) as (f & Hf & Hfr).
  destruct Hc as (Hlen & Hnd & Hrange).
  destruct (balanceComponent_range g c Hpick Hlen) as (b & Hb & Hbr).
  destruct (spreadComponent_range g c HN) as (s & Hs & Hsr).
  { intros ->. simpl in Hlen. lia. }
  destruct (decadeComponent_range g c HN Hrange) as (d & Hd & Hdr).
  destruct (pairComponent_range data c) as (p & Hp & Hpr).
  exists f, b, s, d, p.
  assert (Hconf : calculateConfidence g data c
                  = JS.min (JS.round (Fin (0 + f + b + s + d + p))) (Fin 100)).
  { unfold calculateConfidence. by rewrite Hf, Hb, Hs, Hd, Hp. }
  repeat (split; [done|]).
  rewrite Hconf.
  set (x := 0 + f + b + s + d + p).
  assert (Hx : 0 <= x) by (unfold x; lra).
  change (JS.round (Fin x)) with (Fin (inject_Z (Qfloor (x + (1 # 2))))).
  assert (Hz : (0 <= Qfloor (x + (1 # 2)))%Z).
  { change 0%Z with (Qfloor (inject_Z 0)). apply Qfloor_resp_le.
    change (inject_Z 0) with 0. lra. }
  unfold JS.min, JS.le.
  destruct (Qle_bool (inject_Z (Qfloor (x + (1 # 2)))) 100) eqn:E.
  - apply Qle_bool_iff in E. change 100 with (inject_Z 100) in E. rewrite <- Zle_Qle in E.
    by eexists.
  - exists 100%Z. split; [done|lia].
Qed.

Lemma C5_confidence_in_range_witness :
  exists z : Z,
    calculateConfidence small_game small_history [1; 2]%nat = Fin (inject_Z z) /\
    (0 <= z <= 100)%Z.
Proof.
  destruct (C5_confidence_in_range small_game small_history [1; 2]%nat)
    as (f & b & s & d & p & _ & _ & _ & _ & _ & _ & _ & _ & _ & _ & _ & Hz).
  - unfold valid_game. simpl. lia.
  - simpl. lia.
  - unfold small_history. solve_valid_data.
  - discriminate.
  - solve_valid_numbers.
  - exact Hz.
Defined.

(** C5 as stated fails on an empty history: the expected frequency is 0,
    the frequency alignment is [0/0 = NaN], and so is the confidence. *)
Lemma C5_counterexample :
  valid_game lotto649 /\ valid_data lotto649 [] /\
  valid_numbers lotto649 [3; 11; 19; 27; 35; 43]%nat /\
  calculateConfidence lotto649 [] [3; 11; 19; 27; 35; 43]%nat = NaN /\
  is_number (calculateConfidence lotto649 [] [3; 11; 19; 27; 35; 43]%nat) = false.
Proof.
  split; [unfold valid_game; simpl; lia|].
  split; [constructor|].
  split; [solve_valid_numbers|].
  split; reflexivity.
Qed.

(** ** Computations in the random monad *)

Lemma post_ret {A} (x : A) (Q : A -> Prop) : Q x -> post (ret x) Q.
Proof. intros HQ s y s' [= <- _]. done. Qed.

Lemma post_bind {A B} (m : M A) (k : A -> M B) (Q1 : A -> Prop) (Q2 : B -> Prop) :
  post m Q1 -> (forall x, Q1 x -> post (k x) Q2) -> post (bind m k) Q2.
Proof.
  intros Hm Hk s y s'. rewrite bind_run.
  destruct (m s) as [[x s1]| |] eqn:E; [|done..].
  intros Hy. eapply Hk; [|exact Hy]. eapply Hm, E.
Qed.

Lemma post_impl {A} (m : M A) (Q1 Q2 : A -> Prop) :
  post m Q1 -> (forall x, Q1 x -> Q2 x) -> post m Q2.
Proof. intros Hm Himp s x s' Hx. eapply Himp, Hm, Hx. Qed.

Lemma post_throw {A} (Q : A -> Prop) : post throw Q.
Proof. by intros s x s'. Qed.

Lemma post_out_of_fuel {A} (Q : A -> Prop) : post out_of_fuel Q.
Proof. by intros s x s'. Qed.

Lemma post_foldM {A B} (f : B -> A -> M B) (I : B -> Prop) (l : list A) :
  (forall b x, I b -> post (f b x) I) ->
  forall b, I b -> post (foldM f l b) I.
Proof.
  intros Hf. induction l as [|x l IH]; intros b Hb; simpl.
  - by apply post_ret.
  - eapply post_bind; [by apply Hf|]. intros b' Hb'. by apply IH.
Qed.

Lemma post_random rnd : rnd_ok rnd -> post (random rnd) (fun r => 0 <= r /\ r < 1).
Proof. intros Hrnd s r s' [= <- _]. apply Hrnd. Qed.

Lemma post_randomBelow rnd n :
  rnd_ok rnd -> (1 <= n)%nat -> post (randomBelow rnd n) (fun k => (k < n)%nat).
Proof.
  intros Hrnd Hn s k s'. rewrite randomBelow_run. intros [= <- _].
  destruct (Hrnd s) as [H0 H1].
  set (q := inject_Z (Z.of_nat n)).
  assert (Hq : 0 < q) by (unfold q; change 0 with (inject_Z 0); rewrite <- Zlt_Qlt; lia).
  assert (Hlt : rnd s * q < q).
  { rewrite <- (Qmult_1_l q) at 2. apply Qmult_lt_compat_r; lra. }
  assert (Hfl := Qfloor_le (rnd s * q)).
  assert (Hz : inject_Z (Qfloor (rnd s * q)) < inject_Z (Z.of_nat n)) by (fold q; lra).
  rewrite <- Zlt_Qlt in Hz.
  assert (Hge : (0 <= Qfloor (rnd s * q))%Z).
  { change 0%Z with (Qfloor (inject_Z 0)). apply Qfloor_resp_le.
    change (inject_Z 0) with 0. apply Qmult_le_0_compat; lra. }
  change (Z.to_nat (Qfloor (rnd s * q)) < n)%nat. lia.
Qed.

(** A random number of [1..balls]. *)
Lemma post_randomNumber rnd g :
  rnd_ok rnd -> (1 <= balls g)%nat ->
  post (randomBelow rnd (balls g)) (fun k => (1 <= S k <= balls g)%nat).
Proof.
  intros Hrnd HN. eapply post_impl; [by apply post_randomBelow|]. intros k Hk. simpl in Hk. lia.
Qed.

(** ** The genetic algorithm: individuals stay well formed *)

Lemma elem_of_insert_inv {A} (l : list A) i x y :
  y ∈ <[i:=x]> l -> y = x \/ y ∈ l.
Proof.
  revert i. induction l as [|z l IH]; intros i; [by right|].
  destruct i as [|i]; simpl.
  - intros [->|Hy]%elem_of_cons; [by left|right; by right].
  - intros [->|Hy]%elem_of_cons; [right; left|].
    destruct (IH _ Hy) as [->|Hin]; [by left|right; by right].
Qed.

Lemma NoDup_insert_fresh {A} (l : list A) i x :
  NoDup l -> x ∉ l -> NoDup (<[i:=x]> l).
Proof.
  revert i. induction l as [|z l IH]; intros i Hnd Hx; [done|].
  apply NoDup_cons in Hnd as [Hz Hnd]. apply not_elem_of_cons in Hx as [Hxz Hx].
  destruct i as [|i]; simpl.
  - by apply NoDup_cons.
  - apply NoDup_cons. split; [|by apply IH].
    intros [->|Hin]%elem_of_insert_inv; done.
Qed.

Lemma partial_numbers_full g x :
  partial_numbers g x -> (pick g <= length x)%nat -> valid_numbers g x.
Proof. intros (Hnd & Hr & Hle) Hge. split; [lia|done]. Qed.

Lemma partial_numbers_nil g : partial_numbers g [].
Proof. split; [constructor|]. split; [constructor|simpl; lia]. Qed.

Lemma partial_numbers_snoc g x n :
  partial_numbers g x -> (length x < pick g)%nat ->
  (1 <= n <= balls g)%nat -> n ∉ x -> partial_numbers g (x ++ [n]).
Proof.
  intros (Hnd & Hr & Hle) Hlt Hn Hnin. split; [|split].
  - apply NoDup_app. split; [done|]. split; [|apply NoDup_singleton].
    intros y Hy ->%list_elem_of_singleton. done.
  - apply Forall_app. split; [done|by apply Forall_singleton].
  - rewrite length_app. simpl. lia.
Qed.

Lemma partial_numbers_set_add g x n :
  partial_numbers g x -> (length x < pick g)%nat ->
  (1 <= n <= balls g)%nat -> partial_numbers g (set_add x n).
Proof.
  intros Hx Hlt Hn. unfold set_add. destruct (includes x n) eqn:E; [done|].
  apply includes_false in E. by apply partial_numbers_snoc.
Qed.

Section GeneticInvariants.

Variable rnd : nat -> Q.
Variable g : GameConfig.
Variable data : list Draw.
Hypothesis Hrnd : rnd_ok rnd.
Hypothesis HN : (1 <= balls g)%nat.

Lemma grn_loop_S fuel numbers :
  grn_loop rnd g (S fuel) numbers
  = if Nat.ltb (length numbers) (pick g) then
      let* k := randomBelow rnd (balls g) in
      let n := S k in
      grn_loop rnd g fuel (if includes numbers n then numbers else numbers ++ [n])
    else ret numbers.
Proof. reflexivity. Qed.

Lemma post_grn_loop fuel :
  forall numbers,
    partial_numbers g numbers ->
    post (grn_loop rnd g fuel numbers) (individual g).
Proof.
  induction fuel as [|fuel IH]; intros numbers Hp; [apply post_out_of_fuel|].
  rewrite grn_loop_S. destruct (Nat.ltb_spec (length numbers) (pick g)) as [Hlt|Hge].
  - eapply post_bind; [by apply post_randomNumber|]. intros k Hk. cbv zeta.
    apply IH. by apply (partial_numbers_set_add g numbers (S k)).
  - apply post_ret. by apply partial_numbers_full.
Qed.

Lemma post_generateRandomNumbers fuel :
  post (generateRandomNumbers rnd g fuel) (individual g).
Proof. apply post_grn_loop, partial_numbers_nil. Qed.

Lemma crossover_fill_S fuel child :
  crossover_fill rnd g (S fuel) child
  = if Nat.ltb (length child) (pick g) then
      let* k := randomBelow rnd (balls g) in
      crossover_fill rnd g fuel (set_add child (S k))
    else ret child.
Proof. reflexivity. Qed.

Lemma post_crossover_fill fuel :
  forall child,
    partial_numbers g child ->
    post (crossover_fill rnd g fuel child) (individual g).
Proof.
  induction fuel as [|fuel IH]; intros child Hp; [apply post_out_of_fuel|].
  rewrite crossover_fill_S. destruct (Nat.ltb_spec (length child) (pick g)) as [Hlt|Hge].
  - eapply post_bind; [by apply post_randomNumber|]. intros k Hk.
    apply IH. by apply partial_numbers_set_add.
  - apply post_ret. by apply partial_numbers_full.
Qed.

Lemma guarded_add_fold l :
  forall child,
    Forall (fun n => (1 <= n <= balls g)%nat) l -> partial_numbers g child ->
    partial_numbers g
      (fold_left (fun child x =>
                    if Nat.ltb (length child) (pick g) then set_add child x else child)
                 l child).
Proof.
  induction l as [|x l IH]; intros child Hl Hc; simpl; [done|].
  apply Forall_cons in Hl as [Hx Hl].
  apply IH; [done|].
  destruct (Nat.ltb_spec (length child) (pick g)) as [Hlt|Hge]; [|done].
  by apply partial_numbers_set_add.
Qed.

Lemma post_crossover fuel parent1 parent2 :
  individual g parent1 -> individual g parent2 ->
  post (crossover rnd g fuel parent1 parent2) (individual g).
Proof.
  intros (_ & _ & H1) (_ & _ & H2). unfold crossover. cbv zeta.
  apply post_crossover_fill, guarded_add_fold; [done|].
  apply guarded_add_fold; [by apply Forall_take|apply partial_numbers_nil].
Qed.

Lemma post_mutate_pick fuel mutated :
  post (mutate_pick rnd g fuel mutated)
       (fun n => (1 <= n <= balls g)%nat /\ n ∉ mutated).
Proof.
  induction fuel as [|fuel IH]; [apply post_out_of_fuel|].
  simpl. eapply post_bind; [by apply post_randomNumber|]. intros k Hk.
  destruct (includes mutated (S k)) eqn:E; [apply IH|].
  apply post_ret. split; [done|by apply includes_false].
Qed.

Lemma post_mutate fuel numbers rate :
  individual g numbers -> post (mutate rnd g fuel numbers rate) (individual g).
Proof.
  intros Hind. unfold mutate. apply post_foldM; [|done].
  intros mutated i (Hlen & Hnd & Hr).
  eapply post_bind; [by apply post_random|]. intros r _.
  destruct (negb (Qle_bool rate r)); [|by apply post_ret].
  eapply post_bind; [apply post_mutate_pick|]. intros newNum [Hnew Hfresh].
  apply post_ret. split; [by rewrite length_insert|].
  split; [by apply NoDup_insert_fresh|by apply Forall_insert].
Qed.

Lemma post_offspring fuel (elite : list (list nat * jsnum)) :
  Forall (fun e => individual g (fst e)) elite ->
  post (offspring rnd g fuel elite) (individual g).
Proof.
  intros Helite. unfold offspring.
  eapply post_bind with (Q1 := fun _ => True); [by intros ? ? ?|]. intros i1 _.
  destruct (elite !! i1) as [[parent1 f1]|] eqn:E1; [|apply post_throw].
  eapply post_bind with (Q1 := fun _ => True); [by intros ? ? ?|]. intros i2 _.
  destruct (elite !! i2) as [[parent2 f2]|] eqn:E2; [|apply post_throw].
  apply list_elem_of_lookup_2 in E1, E2. rewrite Forall_forall in Helite.
  assert (Hp1 := Helite _ E1). assert (Hp2 := Helite _ E2). simpl in *.
  eapply post_bind; [by apply post_crossover|]. intros child Hchild.
  by apply post_mutate.
Qed.

Lemma post_breed fuel (elite : list (list nat * jsnum)) missing :
  Forall (fun e => individual g (fst e)) elite ->
  forall newPopulation,
    Forall (individual g) newPopulation ->
    post (breed rnd g fuel missing elite newPopulation)
         (fun res => Forall (individual g) res /\
                     length res = (length newPopulation + missing)%nat /\
                     (forall x, x ∈ newPopulation -> x ∈ res) /\
                     (missing = 0%nat \/ elite <> [])).
Proof.
  intros Helite. induction missing as [|missing IH]; intros newPopulation Hnew; simpl.
  - apply post_ret. split; [done|]. split; [lia|]. split; [done|by left].
  - intros s res s'. rewrite bind_run.
    destruct (offspring rnd g fuel elite s) as [[mutated s1]| |] eqn:E; [|done..].
    intros Hres.
    assert (Hne : elite <> []).
    { intros ->. unfold offspring in E. rewrite bind_run, randomBelow_run in E. done. }
    assert (Hm : individual g mutated) by (eapply post_offspring; eauto).
    destruct (IH (newPopulation ++ [mutated])) with (s := s1) (x := res) (s' := s')
      as (Hall & Hlen & Hsub & _); [|done|].
    { apply Forall_app. split; [done|by apply Forall_singleton]. }
    split; [done|]. split; [rewrite Hlen, length_app; simpl; lia|].
    split; [|by right].
    intros x Hx. apply Hsub, elem_of_app. by left.
Qed.

Lemma post_initialPopulation fuel populationSize :
  post (initialPopulation rnd g fuel populationSize)
       (fun pop => Forall (individual g) pop /\ length pop = populationSize).
Proof.
  induction populationSize as [|n IH]; simpl.
  - apply post_ret. by split.
  - eapply post_bind; [apply post_generateRandomNumbers|]. intros x Hx.
    eapply post_bind; [apply IH|]. intros rest [Hrest Hlen].
    apply post_ret. split; [by constructor|simpl; lia].
Qed.

End GeneticInvariants.

(** ** The genetic algorithm: elitism (C7) *)

Lemma sample_rnd_ok : rnd_ok sample_rnd.
Proof.
  intros n. unfold sample_rnd.
  destruct (n mod 7)%nat as [|[|[|[|[|[|?]]]]]]; split; unfold Qle, Qlt; simpl; lia.
Qed.

Lemma le_trans_js a b c : JS.le a b = true -> JS.le b c = true -> JS.le a c = true.
Proof.
  destruct a as [x| | |], b as [y| | |], c as [z| | |]; simpl; try done.
  rewrite !Qle_bool_iff. apply Qle_trans.
Qed.

Lemma le_refl_fin q : JS.le (Fin q) (Fin q) = true.
Proof. simpl. apply Qle_bool_iff, Qle_refl. Qed.

Lemma fold_is_fin {A} (step : jsnum -> A -> jsnum) (l : list A) :
  (forall acc y, y ∈ l -> is_fin acc -> is_fin (step acc y)) ->
  forall acc, is_fin acc -> is_fin (fold_left step l acc).
Proof.
  induction l as [|y l IH]; intros Hstep acc Hacc; simpl; [done|].
  apply IH.
  - intros a z Hz. apply Hstep. by right.
  - apply Hstep; [left|done].
Qed.

Lemma nonneg_is_fin a : JS.nonneg a -> is_fin a.
Proof. intros (q & -> & _)%nonneg_inv. by exists q. Qed.

(** The fitness of an individual is a finite number. *)
Lemma evaluateFitness_fin g data x :
  valid_data g data -> (1 <= pick g)%nat -> (1 <= balls g)%nat ->
  individual g x -> is_fin (evaluateFitness g data x).
Proof.
  intros Hdata Hpick HN (Hlen & _ & Hr). unfold evaluateFitness. cbv zeta.
  set (f1 := fold_left _ x (Fin 0)).
  assert (H1 : is_fin f1).
  { apply fold_is_fin; [|by exists 0].
    intros acc n Hn [a ->]. rewrite Forall_forall in Hr.
    destruct (nonneg_is_fin _ (tnum_frequency_nonneg g data n Hdata (Hr _ Hn))) as [v ->].
    by eexists. }
  set (f2 := fold_left _ (pairs_of x) f1).
  assert (H2 : is_fin f2).
  { apply fold_is_fin; [|done].
    intros acc p _ [a ->]. destruct (findPair _ _ _); by eexists. }
  destruct H2 as [a2 ->].
  assert (Hk : ~ inject_Z (Z.of_nat (length x)) == 0).
  { intros Hc. unfold Qeq in Hc. simpl in Hc. lia. }
  assert (HNq : ~ inject_Z (Z.of_nat (balls g)) == 0).
  { intros Hc. unfold Qeq in Hc. simpl in Hc. lia. }
  unfold JS.of_nat. rewrite sub_fin.
  change (JS.abs (Fin ?q)) with (Fin (Qabs q)).
  rewrite div_fin by done. rewrite sub_fin.
  assert (Hs : exists n, spread_of (sort_asc x) = Fin (inject_Z (Z.of_nat n))).
  { assert (Hp := sort_asc_perm x).
    destruct (sort_asc x) as [|y rest] eqn:E.
    - apply Permutation_nil_l in Hp. subst. simpl in Hlen. lia.
    - by eexists. }
  destruct Hs as [n ->]. rewrite div_fin by done. by eexists.
Qed.

(** Sorting finite values in descending order. *)
Lemma sort_insert_desc {K} (x : K * jsnum) (l : list (K * jsnum)) :
  is_fin (snd x) -> Forall (fun e => is_fin (snd e)) l ->
  StronglySorted desc_by_value l ->
  StronglySorted desc_by_value (sort_insert by_value_desc x l).
Proof.
  intros [a Ha] Hfin Hs. induction Hs as [|y l Hl IH Hy]; simpl.
  - repeat constructor.
  - apply Forall_cons in Hfin as [[b Hb] Hfin].
    unfold by_value_desc at 1. rewrite Ha, Hb, sub_fin.
    change (JS.gt (Fin (b + - a)) (Fin 0)) with (negb (Qle_bool (b + - a) 0)).
    destruct (Qle_bool (b + - a) 0) eqn:E; simpl.
    + apply Qle_bool_iff in E.
      assert (Hxy : desc_by_value x y).
      { unfold desc_by_value. rewrite Ha, Hb. simpl. apply Qle_bool_iff. lra. }
      constructor; [by constructor|]. constructor; [done|].
      eapply Forall_impl; [exact Hy|]. intros z Hz. unfold desc_by_value in *.
      by eapply le_trans_js.
    + assert (Hyx : desc_by_value y x).
      { unfold desc_by_value. rewrite Ha, Hb. simpl. apply Qle_bool_iff.
        destruct (Qlt_le_dec 0 (b + - a)) as [|Hc]; [lra|].
        apply Qle_bool_iff in Hc. congruence. }
      constructor; [by apply IH|].
      rewrite sort_insert_perm. by constructor.
Qed.

Lemma js_sort_desc {K} (l : list (K * jsnum)) :
  Forall (fun e => is_fin (snd e)) l ->
  StronglySorted desc_by_value (js_sort by_value_desc l).
Proof.
  induction l as [|x l IH]; intros Hfin; [constructor|].
  apply Forall_cons in Hfin as [Hx Hfin].
  unfold js_sort in *. simpl. apply sort_insert_desc; [done| |by apply IH].
  fold (js_sort by_value_desc l). by rewrite js_sort_perm.
Qed.

(** The first entry of the sorted list has the greatest value. *)
Lemma js_sort_head_max {K} (l : list (K * jsnum)) h t :
  Forall (fun e => is_fin (snd e)) l ->
  js_sort by_value_desc l = h :: t ->
  forall e, e ∈ l -> JS.le (snd e) (snd h) = true.
Proof.
  intros Hfin Hsort e He.
  assert (Hs := js_sort_desc l Hfin). rewrite Hsort in Hs.
  apply StronglySorted_cons in Hs as [Hh _].
  assert (He' : e ∈ h :: t) by (rewrite <- Hsort, js_sort_perm; done).
  apply elem_of_cons in He' as [->|He'].
  - rewrite Forall_forall in Hfin. destruct (Hfin _ He) as [q ->]. apply le_refl_fin.
  - rewrite Forall_forall in Hh. apply (Hh _ He').
Qed.

(** [Math.max] over finite values. *)
Lemma fold_max_spec xs :
  Forall is_fin xs ->
  forall acc, acc = NInf \/ is_fin acc ->
  let m := fold_left JS.max xs acc in
  (m = NInf \/ is_fin m) /\
  JS.le acc m = true /\
  (forall x, x ∈ xs -> JS.le x m = true) /\
  (m = acc \/ m ∈ xs).
Proof.
  induction 1 as [|x xs [q ->] Hxs IH]; intros acc Hacc; simpl.
  - split; [done|]. split; [|split; [by intros x ?%elem_of_nil|by left]].
    destruct Hacc as [->|[a ->]]; [done|apply le_refl_fin].
  - assert (Hstep : (JS.max acc (Fin q) = Fin q /\ JS.le acc (Fin q) = true) \/
                    (JS.max acc (Fin q) = acc /\ JS.le (Fin q) acc = true /\ is_fin acc)).
    { destruct Hacc as [->|[a ->]]; [by left|].
      unfold JS.max, JS.le. destruct (Qle_bool a q) eqn:E; [by left|].
      right. split; [done|]. split; [|by exists a].
      apply Qle_bool_iff. destruct (Qlt_le_dec q a) as [|Hc]; [lra|].
      apply Qle_bool_iff in Hc. congruence. }
    destruct Hstep as [[-> Hle]|(-> & Hle & Hfin)].
    + destruct (IH (Fin q)) as (Hm & Hge & Hall & Hin); [right; by exists q|].
      split; [done|]. split; [by eapply le_trans_js|]. split.
      * intros x [->|Hx]%elem_of_cons; [done|by apply Hall].
      * right. destruct Hin as [->|Hin]; [left|by right].
    + destruct (IH acc Hacc) as (Hm & Hge & Hall & Hin).
      split; [done|]. split; [done|]. split.
      * intros x [->|Hx]%elem_of_cons; [by eapply le_trans_js|by apply Hall].
      * destruct Hin as [->|Hin]; [by left|right; by right].
Qed.

Lemma max_list_ge xs x :
  Forall is_fin xs -> x ∈ xs -> JS.le x (JS.max_list xs) = true.
Proof.
  intros Hxs Hx. destruct (fold_max_spec xs Hxs NInf) as (_ & _ & Hall & _); [by left|].
  by apply Hall.
Qed.

Lemma max_list_in xs :
  Forall is_fin xs -> JS.max_list xs = NInf \/ JS.max_list xs ∈ xs.
Proof.
  intros Hxs. destruct (fold_max_spec xs Hxs NInf) as (_ & _ & _ & Hin); [by left|].
  done.
Qed.

Section Elitism.

Variable rnd : nat -> Q.
Variable g : GameConfig.
Variable data : list Draw.
Hypothesis Hrnd : rnd_ok rnd.
Hypothesis Hdata : valid_data g data.
Hypothesis Hpick : (1 <= pick g)%nat.
Hypothesis HN : (1 <= balls g)%nat.

Lemma rank_entries population e :
  e ∈ rank g data population ->
  fst e ∈ population /\ snd e = evaluateFitness g data (fst e).
Proof.
  unfold rank. rewrite js_sort_perm. intros (x & -> & Hx)%list_elem_of_fmap. done.
Qed.

Lemma rank_fin population :
  Forall (individual g) population ->
  Forall (fun e => is_fin (snd e))
         (map (fun x => (x, evaluateFitness g data x)) population).
Proof.
  intros Hpop. apply Forall_forall. intros e (x & -> & Hx)%list_elem_of_fmap. simpl.
  rewrite Forall_forall in Hpop. by apply evaluateFitness_fin, Hpop.
Qed.

Lemma fitness_fin population :
  Forall (individual g) population ->
  Forall is_fin (map (evaluateFitness g data) population).
Proof.
  intros Hpop. apply Forall_forall. intros v (x & -> & Hx)%list_elem_of_fmap.
  rewrite Forall_forall in Hpop. by apply evaluateFitness_fin, Hpop.
Qed.

(** One turn of the evolution loop keeps the population well formed and does
    not lower its best fitness. *)
Lemma nextGeneration_elitism fuel populationSize population s population' s' :
  Forall (individual g) population ->
  length population = populationSize ->
  nextGeneration rnd g data fuel populationSize population s = Ok (population', s') ->
  Forall (individual g) population' /\
  length population' = populationSize /\
  JS.le (bestFitness g data population) (bestFitness g data population') = true.
Proof.
  intros Hpop Hlen Hnext. unfold nextGeneration in Hnext. cbv zeta in Hnext.
  set (scored := rank g data population) in *.
  set (elite := take (eliteSize populationSize) scored) in *.
  assert (Hscored : forall e, e ∈ scored ->
                      fst e ∈ population /\ snd e = evaluateFitness g data (fst e))
    by apply rank_entries.
  assert (Helite_sub : forall e, e ∈ elite -> e ∈ scored).
  { intros e He. by apply (subseteq_take (eliteSize populationSize) scored). }
  assert (Helite : Forall (fun e => individual g (fst e)) elite).
  { apply Forall_forall. intros e He%Helite_sub%Hscored.
    rewrite Forall_forall in Hpop. apply Hpop, He. }
  assert (Hnew : Forall (individual g) (map fst elite)).
  { apply Forall_forall. intros x (e & -> & He)%list_elem_of_fmap.
    rewrite Forall_forall in Helite. by apply Helite. }
  destruct (post_breed rnd g Hrnd HN fuel elite _ Helite (map fst elite) Hnew
              s population' s' Hnext) as (Hall & Hlen' & Hsub & Hmissing).
  assert (Hlen_scored : length scored = populationSize).
  { unfold scored, rank. by rewrite js_sort_perm, length_map. }
  assert (Hlen_elite : (length elite <= populationSize)%nat).
  { unfold elite. rewrite length_take. lia. }
  rewrite length_map in Hlen', Hmissing.
  split; [done|]. split; [lia|].
  assert (Hfin' := fitness_fin population' Hall).
  destruct (max_list_in _ (fitness_fin population Hpop)) as [Hbest|Hbest].
  { unfold bestFitness. rewrite Hbest.
    destruct (max_list_in _ Hfin') as [->|Hin]; [done|].
    rewrite Forall_forall in Hfin'. by destruct (Hfin' _ Hin) as [q ->]. }
  apply list_elem_of_fmap in Hbest as (x0 & Hbest & Hx0).
  assert (Hne : elite <> []).
  { destruct Hmissing as [Hm|Hm]; [|done].
    intros Hnil. rewrite Hnil in Hm. simpl in Hm.
    destruct population; [by apply elem_of_nil in Hx0|simpl in Hlen; lia]. }
  destruct elite as [|h elite'] eqn:Eelite; [done|].
  assert (Hhead : exists t, scored = h :: t).
  { unfold elite in Eelite. destruct scored as [|h0 t]; [by rewrite take_nil in Eelite|].
    destruct (eliteSize populationSize); [done|]. simpl in Eelite.
    injection Eelite as -> _. by eexists. }
  destruct Hhead as [t Hhead].
  assert (Hmax : JS.le (evaluateFitness g data x0) (snd h) = true).
  { apply (js_sort_head_max _ h t (rank_fin population Hpop) Hhead (x0, _)).
    apply list_elem_of_fmap. by exists x0. }
  assert (Hh : snd h = evaluateFitness g data (fst h)).
  { apply Hscored. rewrite Hhead. left. }
  unfold bestFitness at 1. rewrite Hbest.
  eapply le_trans_js; [exact Hmax|]. rewrite Hh.
  apply max_list_ge; [done|].
  apply list_elem_of_fmap. exists (fst h). split; [done|].
  apply Hsub. simpl. left.
Qed.

(** Every generation is a well-formed population of the requested size. *)
Lemma evolve_inv fuel generations populationSize :
  post (evolve rnd g data fuel generations populationSize)
       (fun pop => Forall (individual g) pop /\ length pop = populationSize).
Proof.
  induction generations as [|gen IH]; simpl.
  - by apply post_initialPopulation.
  - intros s pop' s'. rewrite bind_run.
    destruct (evolve rnd g data fuel gen populationSize s) as [[pop s1]| |] eqn:E; [|done..].
    intros Hnext. destruct (IH _ _ _ E) as [Hpop Hlen].
    destruct (nextGeneration_elitism _ _ _ _ _ _ Hpop Hlen Hnext) as (? & ? & _). done.
Qed.

End Elitism.

(** C7.  Whenever generation [gen + 1] of the genetic algorithm exists, it
    was bred from generation [gen], and the best fitness present in it is at
    least the best fitness present in generation [gen]: the fittest
    individual is copied unchanged with the elite and its fitness is a fixed
    finite number. *)
Theorem C7_genetic_elitism (rnd : nat -> Q) (g : GameConfig) (data : list Draw)
    (fuel gen populationSize s : nat) (population' : list (list nat)) (s' : nat) :
  rnd_ok rnd -> valid_game g -> (1 <= pick g)%nat -> valid_data g data ->
  evolve rnd g data fuel (S gen) populationSize s = Ok (population', s') ->
  exists population s1,
    evolve rnd g data fuel gen populationSize s = Ok (population, s1) /\
    nextGeneration rnd g data fuel populationSize population s1 = Ok (population', s') /\
    JS.le (bestFitness g data population) (bestFitness g data population') = true.
Proof.
  intros Hrnd Hg Hpick Hdata Hevolve.
  assert (HN : (1 <= balls g)%nat) by (unfold valid_game in Hg; lia).
  change (evolve rnd g data fuel (S gen) populationSize s)
    with (bind (evolve rnd g data fuel gen populationSize)
               (nextGeneration rnd g data fuel populationSize) s) in Hevolve.
  rewrite bind_run in Hevolve.
  destruct (evolve rnd g data fuel gen populationSize s) as [[pop s1]| |] eqn:E; [|done..].
  exists pop, s1. split; [done|]. split; [done|].
  destruct (evolve_inv rnd g data Hrnd Hdata Hpick HN fuel gen populationSize _ _ _ E)
    as [Hpop Hlen].
  by destruct (nextGeneration_elitism rnd g data Hrnd Hdata Hpick HN
                 _ _ _ _ _ _ Hpop Hlen Hevolve) as (_ & _ & ?).
Qed.

Lemma C7_genetic_elitism_witness :
  exists population population' s1 s',
    evolve sample_rnd small_game small_history 50 1 5 0%nat = Ok (population, s1) /\
    evolve sample_rnd small_game small_history 50 2 5 0%nat = Ok (population', s') /\
    JS.le (bestFitness small_game small_history population)
          (bestFitness small_game small_history population') = true.
Proof.
  assert (E : exists population' s',
             evolve sample_rnd small_game small_history 50 2 5 0%nat = Ok (population', s'))
    by (vm_compute; eauto).
  destruct E as (population' & s' & E).
  destruct (C7_genetic_elitism sample_rnd small_game small_history 50 1 5 0%nat
              population' s') as (population & s1 & E1 & _ & Hle).
  - apply sample_rnd_ok.
  - unfold valid_game. simpl. lia.
  - simpl. lia.
  - unfold small_history. solve_valid_data.
  - exact E.
  - exists population, population', s1, s'. split; [exact E1|]. split; [exact E|exact Hle].
Defined.

(** ** What a strategy returns (C1) *)

(** *** Weighted selection, whatever the weights *)

Lemma ws_scan_key rand (t : table) k : ws_scan rand t = Some k -> k ∈ keys t.
Proof.
  revert rand. induction t as [|[k0 w] t IH]; intros rand; simpl; [done|].
  destruct (JS.le (JS.sub rand w) (Fin 0)).
  - intros [= ->]. left.
  - intros H. right. by eapply IH.
Qed.

Lemma keys_ok_tset {V} N (t : list (nat * V)) k v :
  keys_ok N t -> (1 <= k <= N)%nat -> keys_ok N (tset t k v).
Proof.
  intros [Hs Hr] Hk. split; [by apply keys_tset_sorted|].
  apply Forall_forall. intros k' (e & -> & He)%list_elem_of_fmap.
  apply elem_of_tset in He as [->|He]; [done|].
  rewrite Forall_forall in Hr. apply Hr. apply list_elem_of_fmap. by exists e.
Qed.

Lemma keys_tset_sub {V} (t : list (nat * V)) k v k' :
  k' ∈ keys (tset t k v) -> k' = k \/ k' ∈ keys t.
Proof.
  intros (e & -> & He)%list_elem_of_fmap.
  apply elem_of_tset in He as [->|He]; [by left|right].
  apply list_elem_of_fmap. by exists e.
Qed.

Lemma keys_ok_tdel {V} N (t : list (nat * V)) k :
  keys_ok N t -> keys_ok N (tdel t k).
Proof.
  intros [Hs Hr]. split; [by apply keys_tdel_sorted|].
  apply Forall_forall. intros k' (e & -> & He%elem_of_tdel)%list_elem_of_fmap.
  rewrite Forall_forall in Hr. apply Hr. apply list_elem_of_fmap. by exists e.
Qed.

Lemma ws_pinv_fallback g selected av :
  ws_pinv (balls g) selected av -> ws_pinv (balls g) selected (ws_fallback g selected av).
Proof.
  unfold ws_fallback.
  assert (Hgen : forall l av,
             Forall (fun i => (1 <= i <= balls g)%nat) l ->
             ws_pinv (balls g) selected av ->
             ws_pinv (balls g) selected
               (fold_left (fun av i => if includes selected i then av else tset av i (Fin 1))
                          l av)).
  { induction l as [|i l IH]; intros av0 Hl Hinv; simpl; [done|].
    apply Forall_cons in Hl as [Hi Hl]. apply IH; [done|].
    destruct (includes selected i) eqn:E; [done|]. apply includes_false in E.
    destruct Hinv as (Hk & Hnd & Hr & Hdisj).
    split; [by apply keys_ok_tset|]. split; [done|]. split; [done|].
    intros n Hn [->|Hin]%keys_tset_sub; [done|]. by apply (Hdisj n). }
  intros Hinv. apply Hgen; [|done].
  apply Forall_forall. intros i Hi%list_elem_of_In%in_seq. lia.
Qed.

Lemma ws_pinv_select N selected (av : table) k :
  ws_pinv N selected av -> k ∈ keys av -> ws_pinv N (selected ++ [k]) (tdel av k).
Proof.
  intros (Hk & Hnd & Hr & Hdisj) Hin.
  split; [by apply keys_ok_tdel|]. split; [|split].
  - apply NoDup_app. split; [done|]. split; [|apply NoDup_singleton].
    intros n Hn ->%list_elem_of_singleton. by apply (Hdisj _ Hn).
  - apply Forall_app. split; [done|]. apply Forall_singleton.
    destruct Hk as [_ Hkr]. rewrite Forall_forall in Hkr. by apply Hkr.
  - intros n [Hn| ->%list_elem_of_singleton]%elem_of_app Hn'.
    + apply (Hdisj _ Hn). apply list_elem_of_fmap in Hn' as (e & -> & He%elem_of_tdel).
      apply list_elem_of_fmap. by exists e.
    + destruct Hk as [Hs _]. by apply keys_tdel_not_in in Hn'.
Qed.

(** Whatever [weightedSelection] returns is [count] distinct numbers of
    [1..N] in ascending order. *)
Lemma ws_loop_partial rnd g count fuel :
  forall selected av s res s',
    ws_pinv (balls g) selected av -> (length selected <= count)%nat ->
    ws_loop rnd g fuel count selected av s = Ok (res, s') ->
    selection (balls g) count res.
Proof.
  induction fuel as [|fuel IH]; intros selected av s res s' Hinv Hlen; [done|].
  rewrite ws_loop_S.
  destruct (Nat.ltb_spec (length selected) count) as [Hlt|Hge].
  - cbv zeta. destruct (JS.eq _ _).
    + apply IH; [by apply ws_pinv_fallback|done].
    + rewrite bind_run. unfold random.
      destruct (ws_scan _ av) as [k|] eqn:Hscan.
      * apply IH; [|rewrite length_app; simpl; lia].
        apply ws_pinv_select; [done|]. by eapply ws_scan_key.
      * by apply IH.
  - intros [= <- _]. destruct Hinv as (_ & Hnd & Hr & _).
    assert (Hp := sort_asc_perm selected).
    split; [rewrite Hp; lia|]. split; [by rewrite Hp|]. split; [by rewrite Hp|].
    apply sorted_le_NoDup_lt; [apply sort_asc_sorted|by rewrite Hp].
Qed.

Lemma weightedSelection_partial rnd g weights count fuel s res s' :
  keys_ok (balls g) weights ->
  weightedSelection rnd g fuel weights count s = Ok (res, s') ->
  selection (balls g) count res.
Proof.
  intros Hk. unfold weightedSelection. apply ws_loop_partial; [|simpl; lia].
  split; [done|]. split; [constructor|]. split; [constructor|].
  by intros n ?%elem_of_nil.
Qed.

Lemma keys_map_seq {V} (f : nat -> V) N : keys (map (fun i => (i, f i)) (seq 1 N)) = seq 1 N.
Proof. unfold keys. rewrite map_map. simpl. apply map_id. Qed.

(** *** Overdue *)

Lemma lastSeenStep_wf N (ls : table) idx (d : Draw) :
  row_wf N ls -> Forall (fun n => (1 <= n <= N)%nat) (numbers d) ->
  row_wf N (lastSeenStep ls idx d).
Proof.
  unfold lastSeenStep. generalize (numbers d). intros ns. revert ls.
  induction ns as [|n ns IH]; intros ls Hls Hns; cbn [fold_left]; [done|].
  apply Forall_cons in Hns as [Hn Hns]. apply IH; [|done].
  destruct (JS.gt (tnum ls n) (JS.of_nat idx)); [|done].
  destruct Hls as [Hk Hnn]. split.
  - rewrite <- Hk. apply keys_tset_present; [rewrite Hk; apply seq_sorted|].
    rewrite Hk. apply list_elem_of_In, in_seq. lia.
  - apply Forall_forall. intros e [->|He]%elem_of_tset; [apply of_nat_nonneg|].
    rewrite Forall_forall in Hnn. by apply Hnn.
Qed.

Lemma lastSeenTable_wf g data :
  valid_data g data -> row_wf (balls g) (lastSeenTable g data).
Proof.
  intros Hdata. unfold lastSeenTable.
  assert (Hgen : forall idx ls, row_wf (balls g) ls ->
                                row_wf (balls g) (lastSeenLoop data idx ls)).
  { induction Hdata as [|d data Hd Hdata IH]; intros idx ls Hls; simpl; [done|].
    apply IH. apply lastSeenStep_wf; [done|]. apply Hd. }
  apply Hgen. split; [apply keys_tinit|].
  apply Forall_forall. intros e (i & -> & _)%list_elem_of_fmap. apply of_nat_nonneg.
Qed.

Lemma row_wf_tnum N (row : table) i :
  row_wf N row -> (1 <= i <= N)%nat -> JS.nonneg (tnum row i).
Proof.
  intros [Hk Hnn] Hi.
  assert (Hin : i ∈ keys row) by (rewrite Hk; apply list_elem_of_In, in_seq; lia).
  destruct (tget_of_key row i Hin) as (v & Hget).
  unfold tnum. rewrite Hget. apply tget_elem in Hget.
  rewrite Forall_forall in Hnn. apply (Hnn _ Hget).
Qed.

Lemma wf_of_map_seq (f : nat -> jsnum) N :
  (forall i, (1 <= i <= N)%nat -> JS.nonneg (f i)) ->
  wf_weights N (map (fun i => (i, f i)) (seq 1 N)).
Proof.
  intros Hf. apply seq_keys_wf; [apply keys_map_seq|].
  apply Forall_forall. intros e (i & -> & Hi%list_elem_of_In%in_seq)%list_elem_of_fmap.
  simpl. apply Hf. lia.
Qed.

Lemma fin_in_nonneg hi a : fin_in 0 hi a -> JS.nonneg a.
Proof. by intros (q & -> & Hq & _). Qed.

Lemma overdueScores_wf g data :
  valid_data g data -> (1 <= pick g)%nat -> (1 <= balls g)%nat ->
  wf_weights (balls g) (overdueScores g data).
Proof.
  intros Hdata Hpick HN. unfold overdueScores. cbv zeta.
  apply (wf_of_map_seq (fun i => JS.min (JS.div (tnum (lastSeenTable g data) i) _) (Fin 3))).
  intros i Hi. apply (fin_in_nonneg 3). apply min_cap; [|lra].
  apply div_nonneg; [by apply (row_wf_tnum (balls g)), Hi; apply lastSeenTable_wf|].
  destruct (of_nat_pos _ HN) as (n & -> & Hn). destruct (of_nat_pos _ Hpick) as (k & -> & Hk).
  rewrite div_fin by lra. eexists. split; [done|]. apply Qlt_shift_div_l; lra.
Qed.

Lemma wf_weights_keys_ok N t : wf_weights N t -> keys_ok N t.
Proof.
  intros [Hs Hall]. split; [done|].
  apply Forall_forall. intros k (e & -> & He)%list_elem_of_fmap.
  rewrite Forall_forall in Hall. by apply Hall.
Qed.

(** *** Fourier / cyclical *)

Lemma mul_nonneg a b : JS.nonneg a -> JS.nonneg b -> JS.nonneg (JS.mul a b).
Proof.
  intros (x & -> & Hx)%nonneg_inv (y & -> & Hy)%nonneg_inv. simpl.
  by apply Qmult_le_0_compat.
Qed.

Lemma sum_nat_from xs a : fold_left Nat.add xs a = (a + sum_nat xs)%nat.
Proof.
  unfold sum_nat. revert a. induction xs as [|x xs IH]; intros a; simpl; [lia|].
  rewrite (IH (a + x)%nat), (IH x). lia.
Qed.

Lemma sum_nat_cons x xs : sum_nat (x :: xs) = (x + sum_nat xs)%nat.
Proof. unfold sum_nat at 1. simpl. apply sum_nat_from. Qed.

Lemma filter_fst_sorted {B} (P : nat * B -> Prop) `{!forall x, Decision (P x)}
    (l : list (nat * B)) :
  StronglySorted Nat.lt (map fst l) -> StronglySorted Nat.lt (map fst (filter P l)).
Proof.
  induction l as [|e l IH]; simpl; intros Hs; [constructor|].
  apply StronglySorted_cons in Hs as [He Hs].
  rewrite filter_cons. destruct (decide (P e)); simpl; [|by apply IH].
  constructor; [by apply IH|].
  apply Forall_forall. intros k (e' & -> & He')%list_elem_of_fmap.
  apply list_elem_of_filter in He' as [_ He'].
  rewrite Forall_forall in He. apply He. apply list_elem_of_fmap. by exists e'.
Qed.

Lemma fst_combine_seq {B} (l : list B) a :
  map fst (combine (seq a (length l)) l) = seq a (length l).
Proof.
  revert a. induction l as [|x l IH]; intros a; simpl; [done|]. by rewrite IH.
Qed.

Lemma positionsOf_sorted data num : StronglySorted Nat.lt (positionsOf data num).
Proof.
  unfold positionsOf. apply filter_fst_sorted. rewrite fst_combine_seq. apply seq_sorted.
Qed.

Lemma gaps_positive positions :
  StronglySorted Nat.lt positions -> (2 <= length positions)%nat ->
  (1 <= sum_nat (gaps positions))%nat /\ (1 <= length (gaps positions))%nat.
Proof.
  intros Hs Hlen. destruct positions as [|p0 [|p1 rest]]; simpl in Hlen; [lia..|].
  apply StronglySorted_cons in Hs as [Hp0 _]. apply Forall_cons in Hp0 as [Hlt _].
  unfold Nat.lt in Hlt.
  change (gaps (p0 :: p1 :: rest)) with ((p1 - p0)%nat :: gaps (p1 :: rest)).
  rewrite sum_nat_cons. simpl. lia.
Qed.

Lemma cycleScoreOf_nonneg g data num :
  valid_data g data -> (1 <= num <= balls g)%nat ->
  JS.nonneg (cycleScoreOf data (getNumberFrequency g data) num).
Proof.
  intros Hdata Hnum. unfold cycleScoreOf. cbv zeta.
  assert (Hf := tnum_frequency_nonneg g data num Hdata Hnum).
  destruct (Nat.ltb_spec (length (positionsOf data num)) 2) as [Hlt|Hge]; [done|].
  destruct (gaps_positive _ (positionsOf_sorted data num) Hge) as [Hsum Hlen].
  apply mul_nonneg; [|done].
  apply div_nonneg; [apply of_nat_nonneg|].
  destruct (of_nat_pos _ Hsum) as (a & -> & Ha). destruct (of_nat_pos _ Hlen) as (b & -> & Hb).
  rewrite div_fin by lra. eexists. split; [done|]. apply Qlt_shift_div_l; lra.
Qed.

Lemma fourierCycles_wf g data :
  valid_data g data -> wf_weights (balls g) (fourierCycles g data).
Proof.
  intros Hdata. unfold fourierCycles. cbv zeta.
  apply (wf_of_map_seq (cycleScoreOf data (getNumberFrequency g data))).
  intros i Hi. by apply cycleScoreOf_nonneg.
Qed.

(** *** Markov chain *)

Lemma normalizeRow_wf N row : row_wf N row -> row_wf N (normalizeRow row).
Proof.
  intros [Hk Hnn]. unfold normalizeRow.
  destruct (sum_finite row Hnn) as (total & -> & Htotal).
  change (JS.gt (Fin total) (Fin 0)) with (negb (Qle_bool total 0)).
  destruct (Qle_bool total 0) eqn:E; simpl; [done|].
  assert (Hpos : 0 < total).
  { destruct (Qlt_le_dec 0 total) as [|Hc]; [done|].
    apply Qle_bool_iff in Hc. congruence. }
  split; [|by apply qtotal_map_div].
  rewrite <- Hk. apply (keys_map_snd (fun v => JS.div v (Fin total))).
Qed.

Lemma markovTransitions_wf g data :
  valid_data g data ->
  exists tr, markovTransitions g data = Ok tr /\ matrix_wf (balls g) tr.
Proof.
  intros Hdata. destruct (markovCounts_wf g data Hdata) as (counts & Hc & Hk & Hrows).
  unfold markovTransitions. rewrite Hc. simpl. eexists. split; [done|]. split.
  - rewrite <- Hk. unfold keys. rewrite map_map. done.
  - apply Forall_forall. intros e (e0 & -> & He0)%list_elem_of_fmap. simpl.
    rewrite Forall_forall in Hrows. by apply normalizeRow_wf, Hrows.
Qed.

Lemma foldR_collect (h : nat -> result jsnum) (l : list nat) :
  (forall i, i ∈ l -> exists v, h i = Ok v /\ JS.nonneg v) ->
  forall acc : table,
  exists vs : table,
    foldR (fun scores i => rbind (h i) (fun score => Ok (scores ++ [(i, score)]))) l acc
    = Ok (acc ++ vs) /\
    keys vs = l /\ Forall (fun e => JS.nonneg (snd e)) vs.
Proof.
  induction l as [|i l IH]; intros Hh acc; simpl.
  - exists []. by rewrite app_nil_r.
  - destruct (Hh i) as (v & Hv & Hnn); [left|]. rewrite Hv. simpl.
    destruct (IH (fun j Hj => Hh j (list_elem_of_further _ _ _ Hj)) (acc ++ [(i, v)]))
      as (vs & Hvs & Hk & Hall).
    exists ((i, v) :: vs). rewrite Hvs, <- app_assoc. split; [done|].
    split; [simpl; by rewrite Hk|by constructor].
Qed.

Lemma markovScores_wf N g tr lastDraw :
  N = balls g ->
  matrix_wf N tr -> Forall (fun n => (1 <= n <= N)%nat) lastDraw ->
  exists scores, markovScores g tr lastDraw = Ok scores /\ wf_weights N scores.
Proof.
  intros -> [Hk Hrows] Hlast. unfold markovScores.
  destruct (foldR_collect
              (fun i => foldR (fun score prev =>
                                 match tget tr prev with
                                 | None => Throw
                                 | Some row => Ok (JS.add score (tnum row i))
                                 end) lastDraw (Fin 0))
              (seq 1 (balls g))) with (acc := @nil (nat * jsnum))
    as (vs & Hvs & Hkeys & Hnn).
  - intros i Hi%list_elem_of_In%in_seq.
    apply (foldR_inv JS.nonneg); [|simpl; lra].
    intros score prev Hprev Hscore.
    rewrite Forall_forall in Hlast. specialize (Hlast _ Hprev).
    assert (Hin : prev ∈ keys tr) by (rewrite Hk; apply list_elem_of_In, in_seq; lia).
    destruct (tget_of_key tr prev Hin) as (row & Hget). rewrite Hget.
    eexists. split; [done|].
    apply tget_elem in Hget. rewrite Forall_forall in Hrows.
    assert (Hrow := Hrows _ Hget). simpl in Hrow.
    assert (Hv : JS.nonneg (tnum row i)) by (apply (row_wf_tnum (balls g)); [done|lia]).
    apply nonneg_inv in Hscore as (a & -> & Ha). apply nonneg_inv in Hv as (b & -> & Hb).
    simpl. lra.
  - exists vs. split; [exact Hvs|]. by apply seq_keys_wf.
Qed.

(** *** Pattern *)

Lemma patternScore_nonneg g data selected num :
  valid_data g data -> (1 <= num <= balls g)%nat ->
  JS.nonneg (patternScore data (getNumberFrequency g data) selected num).
Proof.
  intros Hdata Hnum. unfold patternScore.
  apply (fold_add_nonneg
           (fun sel => JS.mul (JS.of_nat (default 0%nat (oget pair_eqb (pairScores data)
                                                              (sel, num)))) (Fin 2))).
  - by apply tnum_frequency_nonneg.
  - apply Forall_forall. intros sel _. apply mul_nonneg; [apply of_nat_nonneg|simpl; lra].
Qed.

(** The inner loop finds an unselected number of [1..N] whenever there is
    one, and nothing else. *)
Lemma patternBest_spec g data selected :
  valid_data g data ->
  (fst (patternBest g data (getNumberFrequency g data) selected) = None /\
   forall i, i ∈ seq 1 (balls g) -> i ∈ selected) \/
  (exists n, fst (patternBest g data (getNumberFrequency g data) selected) = Some n /\
             (1 <= n <= balls g)%nat /\ (n ∉ selected)).
Proof.
  intros Hdata. unfold patternBest.
  set (step := fun (best : option nat * jsnum) num => _).
  assert (Hgen : forall l best,
             Forall (fun i => (1 <= i <= balls g)%nat) l ->
             ((fst best = None /\ snd best = Fin (-1)) \/
              (exists n, fst best = Some n /\ (1 <= n <= balls g)%nat /\ (n ∉ selected) /\
                         JS.nonneg (snd best))) ->
             let r := fold_left step l best in
             ((fst r = None /\ forall i, i ∈ l -> i ∈ selected) \/
              (exists n, fst r = Some n /\ (1 <= n <= balls g)%nat /\ n ∉ selected))).
  { induction l as [|i l IH]; intros best Hl Hbest; simpl.
    - destruct Hbest as [[Hb _]|(n & Hn & Hr & Hni & _)].
      + left. split; [done|]. by intros i ?%elem_of_nil.
      + right. by exists n.
    - apply Forall_cons in Hl as [Hi Hl].
      assert (Hstep : (includes selected i = true /\ step best i = best) \/
                      ((i ∉ selected) /\ exists sc, JS.nonneg sc /\
                         (step best i = (Some i, sc) \/
                          (step best i = best /\ fst best <> None)))).
      { unfold step. destruct (includes selected i) eqn:E; [by left|right].
        apply includes_false in E. split; [done|].
        assert (Hsc := patternScore_nonneg g data selected i Hdata Hi).
        exists (patternScore data (getNumberFrequency g data) selected i).
        split; [done|].
        destruct (JS.gt _ (snd best)) eqn:Hgt; [by left|right].
        split; [done|].
        destruct Hbest as [[_ Hb]|(n & Hn & _)]; [|by rewrite Hn].
        exfalso. rewrite Hb in Hgt.
        apply nonneg_inv in Hsc as (q & Hq & Hq0). rewrite Hq in Hgt.
        unfold JS.gt, JS.lt in Hgt. apply negb_false_iff, Qle_bool_iff in Hgt. lra. }
      destruct Hstep as [[Hinc ->]|(Hni & sc & Hsc & [->|[-> Hsome]])].
      + destruct (IH best Hl Hbest) as [[Hnone Hall]|Hsome]; [left|by right].
        split; [done|]. intros j [->|Hj]%elem_of_cons; [by apply includes_spec|by apply Hall].
      + destruct (IH (Some i, sc) Hl) as [[Hnone Hall]|Hsome]; [| |by right].
        * right. exists i. simpl. repeat split; try done; try lia.
        * exfalso. clear -Hnone. revert Hnone.
          assert (Hkeep : forall l0 b, fst b <> None -> fst (fold_left step l0 b) <> None).
          { induction l0 as [|j l0 IH0]; intros b Hb; simpl; [done|]. apply IH0.
            unfold step. destruct (includes selected j); [done|].
            by destruct (JS.gt _ _). }
          by apply Hkeep.
      + destruct (IH best Hl Hbest) as [[Hnone Hall]|Hsome']; [|by right].
        exfalso. revert Hnone.
        assert (Hkeep : forall l0 b, fst b <> None -> fst (fold_left step l0 b) <> None).
        { induction l0 as [|j l0 IH0]; intros b Hb; simpl; [done|]. apply IH0.
          unfold step. destruct (includes selected j); [done|].
          by destruct (JS.gt _ _). }
        by apply Hkeep. }
  apply (Hgen (seq 1 (balls g)) (None, Fin (-1))).
  - apply Forall_forall. intros i Hi%list_elem_of_In%in_seq. lia.
  - by left.
Qed.

Lemma patternBest_some g data selected :
  valid_data g data ->
  (exists i, i ∈ seq 1 (balls g) /\ (i ∉ selected)) ->
  exists n, fst (patternBest g data (getNumberFrequency g data) selected) = Some n /\
            (1 <= n <= balls g)%nat /\ (n ∉ selected).
Proof.
  intros Hdata (i & Hi & Hni).
  destruct (patternBest_spec g data selected Hdata) as [[_ Hall]|Hsome]; [|done].
  exfalso. by apply Hni, Hall.
Qed.


Lemma pattern_loop_total g data fuel :
  valid_game g -> valid_data g data ->
  forall selected,
    partial_numbers g selected ->
    (pick g - length selected + 1 <= fuel)%nat ->
    exists res,
      pattern_loop g data fuel (getNumberFrequency g data) selected = Ok res /\
      valid_numbers g res.
Proof.
  intros Hg Hdata. unfold valid_game in Hg.
  induction fuel as [|fuel IH]; intros selected Hp Hfuel; [lia|].
  simpl. destruct (Nat.ltb_spec (length selected) (pick g)) as [Hlt|Hge].
  - destruct (patternBest_some g data selected Hdata) as (n & -> & Hn & Hni).
    { destruct Hp as (Hnd & _). apply pigeonhole_free; [done|lia]. }
    apply IH; [by apply partial_numbers_snoc|]. rewrite length_app. simpl. lia.
  - exists selected. split; [done|]. by apply partial_numbers_full.
Qed.

Lemma frequency_sorted_head g data :
  valid_data g data -> (1 <= balls g)%nat ->
  exists first v rest,
    js_sort by_value_desc (getNumberFrequency g data) = (first, v) :: rest /\
    (1 <= first <= balls g)%nat.
Proof.
  intros Hdata HN. destruct (frequency_valid g data Hdata) as (Hk & _ & _).
  assert (Hp := js_sort_perm (@by_value_desc nat) (getNumberFrequency g data)).
  destruct (js_sort by_value_desc (getNumberFrequency g data)) as [|[first v] rest] eqn:E.
  - apply Permutation_nil_l in Hp.
    rewrite <- Hp in Hk. destruct (balls g); [lia|done].
  - exists first, v, rest. split; [done|].
    assert (Hin : first ∈ keys (getNumberFrequency g data)).
    { apply list_elem_of_fmap. exists (first, v). split; [done|]. rewrite <- Hp. left. }
    rewrite Hk in Hin. apply list_elem_of_In, in_seq in Hin. lia.
Qed.

Lemma patternBasedPrediction_total g data fuel :
  valid_game g -> (1 <= pick g)%nat -> valid_data g data ->
  (pick g <= fuel)%nat ->
  exists res, patternBasedPrediction g data fuel = Ok res /\ candidate g res.
Proof.
  intros Hg Hpick Hdata Hfuel. unfold patternBasedPrediction. cbv zeta.
  destruct (frequency_sorted_head g data Hdata) as (first & v & rest & -> & Hfirst).
  { unfold valid_game in Hg. lia. }
  destruct (pattern_loop_total g data fuel Hg Hdata [first]) as (res & -> & Hres).
  - split; [apply NoDup_singleton|]. split; [by apply Forall_singleton|simpl; lia].
  - simpl. lia.
  - simpl. eexists. split; [done|]. by apply sort_asc_candidate.
Qed.

(** *** Wheeling *)

Lemma sublist_NoDup {A} (l1 l2 : list A) : l1 `sublist_of` l2 -> NoDup l2 -> NoDup l1.
Proof.
  induction 1 as [|x l1 l2 Hsub IH|x l1 l2 Hsub IH]; intros Hnd; [done| |].
  - apply NoDup_cons in Hnd as [Hx Hnd]. apply NoDup_cons. split; [|by apply IH].
    intros Hin. apply Hx. by eapply elem_of_sublist.
  - apply NoDup_cons in Hnd as [_ Hnd]. by apply IH.
Qed.

Lemma generateCombinations_unfold arr size :
  generateCombinations arr (S size)
  = match arr with
    | [] => []
    | x :: rest => map (cons x) (generateCombinations rest size)
                     ++ generateCombinations rest (S size)
    end.
Proof. destruct arr; reflexivity. Qed.

Lemma generateCombinations_sublist size :
  forall arr c, c ∈ generateCombinations arr size -> c `sublist_of` arr /\ length c = size.
Proof.
  induction size as [|size IHs]; intros arr c.
  - simpl. intros ->%list_elem_of_singleton. split; [apply sublist_nil_l|done].
  - induction arr as [|x rest IHa]; rewrite generateCombinations_unfold.
    + by intros ?%elem_of_nil.
    + intros [(c' & -> & Hc')%list_elem_of_fmap|Hc]%elem_of_app.
      * destruct (IHs rest c' Hc') as [Hsub Hlen].
        split; [by apply sublist_skip|simpl; by rewrite Hlen].
      * destruct (IHa Hc) as [Hsub Hlen]. split; [by apply sublist_cons|done].
Qed.

Lemma generateCombinations_nonempty size :
  forall arr, (size <= length arr)%nat -> generateCombinations arr size <> [].
Proof.
  induction size as [|size IHs]; intros arr Hlen; [done|].
  destruct arr as [|x rest]; [simpl in Hlen; lia|].
  rewrite generateCombinations_unfold. simpl in Hlen.
  destruct (generateCombinations rest size) eqn:E; [|done].
  exfalso. apply (IHs rest); [lia|done].
Qed.

Lemma wheelingSystemPrediction_total g data :
  valid_game g -> valid_data g data ->
  exists res, wheelingSystemPrediction g data None = Ok res /\ candidate g res.
Proof.
  intros Hg Hdata. unfold valid_game in Hg. unfold wheelingSystemPrediction. cbv zeta.
  set (keyNumbers := map fst (getHotNumbers g data (pick g + 3))).
  destruct (frequency_valid g data Hdata) as (Hk & _ & _).
  assert (Hperm : map fst (js_sort by_value_desc (getNumberFrequency g data))
                  ≡ₚ seq 1 (balls g)).
  { rewrite <- Hk. unfold keys. apply fmap_Permutation, js_sort_perm. }
  assert (Hsub : keyNumbers `sublist_of`
                   map fst (js_sort by_value_desc (getNumberFrequency g data))).
  { unfold keyNumbers, getHotNumbers. apply fmap_sublist, sublist_take. }
  assert (Hnd : NoDup keyNumbers).
  { eapply sublist_NoDup; [exact Hsub|]. rewrite Hperm. apply NoDup_seq. }
  assert (Hrange : Forall (fun n => (1 <= n <= balls g)%nat) keyNumbers).
  { apply Forall_forall. intros n Hn. eapply elem_of_sublist in Hn; [|exact Hsub].
    rewrite Hperm in Hn. apply list_elem_of_In, in_seq in Hn. lia. }
  assert (Hlen : (pick g <= length keyNumbers)%nat).
  { unfold keyNumbers, getHotNumbers. rewrite length_map, length_take.
    rewrite (Permutation_length (js_sort_perm _ _)).
    assert (length (getNumberFrequency g data) = balls g).
    { rewrite <- (length_map fst). fold (keys (getNumberFrequency g data)).
      by rewrite Hk, length_seq. }
    lia. }
  set (scores := map _ (generateCombinations keyNumbers (pick g))).
  assert (Hp := js_sort_perm (@by_value_desc (list nat)) scores).
  destruct (js_sort by_value_desc scores) as [|[combo sc] rest] eqn:E.
  - apply Permutation_nil_l in Hp. symmetry in Hp. unfold scores in Hp.
    apply fmap_nil_inv in Hp. by apply generateCombinations_nonempty in Hp.
  - eexists. split; [done|]. apply sort_asc_candidate.
    assert (Hin : (combo, sc) ∈ scores) by (rewrite <- Hp; left).
    unfold scores in Hin. apply list_elem_of_fmap in Hin as (c & [= -> _] & Hc).
    destruct (generateCombinations_sublist _ _ _ Hc) as [Hcs Hcl].
    split; [done|]. split; [by eapply sublist_NoDup|].
    apply Forall_forall. intros n Hn. eapply elem_of_sublist in Hn; [|exact Hcs].
    rewrite Forall_forall in Hrange. by apply Hrange.
Qed.

(** *** Strategies that may not return: what they return when they do *)

Lemma seq_keys_ok {V} N (t : list (nat * V)) : keys t = seq 1 N -> keys_ok N t.
Proof.
  intros Hk. split; rewrite Hk; [apply seq_sorted|].
  apply Forall_forall. intros i Hi%list_elem_of_In%in_seq. lia.
Qed.

Lemma post_weightedSelection rnd g weights fuel :
  keys_ok (balls g) weights ->
  post (weightedSelection rnd g fuel weights (pick g)) (candidate g).
Proof.
  intros Hk s res s' Hres. apply selection_candidate.
  by eapply weightedSelection_partial.
Qed.

Lemma post_lift {A} (r : result A) (Q : A -> Prop) :
  (forall x, r = Ok x -> Q x) -> post (lift r) Q.
Proof. intros Hr s x s'. unfold lift. destruct r; [|done..]. intros [= <- _]. by apply Hr. Qed.

Section Strategies.

Variable rnd : nat -> Q.
Variable g : GameConfig.
Variable data : list Draw.
Hypothesis Hrnd : rnd_ok rnd.
Hypothesis Hg : valid_game g.
Hypothesis Hpick : (1 <= pick g)%nat.
Hypothesis Hdata : valid_data g data.

Lemma balls_pos : (1 <= balls g)%nat.
Proof. unfold valid_game in Hg. lia. Qed.

Lemma post_frequency fuel : post (frequencyBasedPrediction rnd g data fuel) (candidate g).
Proof.
  apply post_weightedSelection, seq_keys_ok.
  destruct (frequency_valid g data Hdata) as (Hk & _).
  unfold frequencyWeights. cbv zeta. rewrite <- Hk.
  apply (keys_map_snd (fun v => JS.div v _)).
Qed.

Lemma post_overdue fuel : post (overdueBasedPrediction rnd g data fuel) (candidate g).
Proof.
  apply post_weightedSelection, wf_weights_keys_ok, overdueScores_wf; auto using balls_pos.
Qed.

Lemma post_fourier fuel : post (fourierAnalysisPrediction rnd g data fuel) (candidate g).
Proof. by apply post_weightedSelection, wf_weights_keys_ok, fourierCycles_wf. Qed.

Lemma post_markov fuel : post (markovChainPrediction rnd g data fuel) (candidate g).
Proof.
  unfold markovChainPrediction.
  destruct (markovTransitions_wf g data Hdata) as (tr & Htr & Hwf).
  eapply post_bind with (Q1 := matrix_wf (balls g)).
  { apply post_lift. intros x Hx. rewrite Htr in Hx. by injection Hx as <-. }
  intros tr' Htr'. destruct data as [|lastDraw rest] eqn:E; [apply post_throw|].
  apply Forall_cons in Hdata as [(_ & _ & Hlast) _].
  destruct (markovScores_wf (balls g) g tr' (numbers lastDraw) eq_refl Htr' Hlast)
    as (scores & Hscores & Hswf).
  eapply post_bind with (Q1 := wf_weights (balls g)).
  { apply post_lift. intros x Hx. rewrite Hscores in Hx. by injection Hx as <-. }
  intros scores' Hs'. by apply post_weightedSelection, wf_weights_keys_ok.
Qed.

Lemma pattern_loop_partial fuel :
  forall selected res,
    partial_numbers g selected ->
    pattern_loop g data fuel (getNumberFrequency g data) selected = Ok res ->
    valid_numbers g res.
Proof.
  induction fuel as [|fuel IH]; intros selected res Hp; [done|].
  simpl. destruct (Nat.ltb_spec (length selected) (pick g)) as [Hlt|Hge].
  - destruct (patternBest_spec g data selected Hdata) as [[-> _]|(n & -> & Hn & Hni)].
    + by apply IH.
    + apply IH. by apply partial_numbers_snoc.
  - intros [= <-]. by apply partial_numbers_full.
Qed.

Lemma pattern_partial fuel res :
  patternBasedPrediction g data fuel = Ok res -> candidate g res.
Proof.
  unfold patternBasedPrediction. cbv zeta.
  destruct (frequency_sorted_head g data Hdata balls_pos) as (first & v & rest & -> & Hfirst).
  destruct (pattern_loop g data fuel (getNumberFrequency g data) [first]) as [sel| |] eqn:E;
    [|done..].
  simpl. intros [= <-]. apply sort_asc_candidate.
  eapply pattern_loop_partial; [|exact E].
  split; [apply NoDup_singleton|]. split; [by apply Forall_singleton|simpl; lia].
Qed.

Lemma post_statistical fuel :
  post (statisticalEquilibriumPrediction rnd g data fuel) (candidate g).
Proof.
  unfold statisticalEquilibriumPrediction. cbv zeta.
  destruct (js_sort by_count_desc (getOddEvenDistribution data)) as [|[[targetOdds ev] c] rest];
    [apply post_throw|].
  generalize 1000%nat. intros attempts.
  induction attempts as [|attempts IH]; simpl; [apply post_frequency|].
  eapply post_bind; [apply (post_generateRandomNumbers rnd g Hrnd balls_pos)|].
  intros candidate0 Hc.
  destruct (matchesProfile _ _ _); [|apply IH].
  apply post_ret. by apply sort_asc_candidate.
Qed.

Lemma post_genetic fuel generations populationSize :
  post (geneticAlgorithmPrediction rnd g data fuel generations populationSize)
       (candidate g).
Proof.
  unfold geneticAlgorithmPrediction.
  eapply post_bind; [apply (evolve_inv rnd g data Hrnd Hdata Hpick balls_pos)|].
  intros population [Hpop _].
  destruct (rank g data population) as [|[best f] rest] eqn:E; [apply post_throw|].
  apply post_ret, sort_asc_candidate.
  destruct (rank_entries g data population (best, f)) as [Hin _]; [rewrite E; left|].
  rewrite Forall_forall in Hpop. by apply Hpop.
Qed.

(** Monte Carlo *)

Lemma monteCarloCdf_range e :
  e ∈ monteCarloCdf g data -> (1 <= fst e <= balls g)%nat.
Proof.
  unfold monteCarloCdf. cbv zeta.
  set (step := fun (acc : jsnum * list (nat * jsnum)) i => _).
  assert (Hgen : forall l acc,
             Forall (fun i => (1 <= i <= balls g)%nat) l ->
             Forall (fun e => (1 <= fst e <= balls g)%nat) (snd acc) ->
             Forall (fun e => (1 <= fst e <= balls g)%nat) (snd (fold_left step l acc))).
  { induction l as [|i l IH]; intros acc Hl Hacc; simpl; [done|].
    apply Forall_cons in Hl as [Hi Hl]. apply IH; [done|].
    unfold step. simpl. apply Forall_app. split; [done|]. by apply Forall_singleton. }
  intros He.
  assert (Hall : Forall (fun e => (1 <= fst e <= balls g)%nat)
                        (snd (fold_left step (seq 1 (balls g)) (Fin 0, [])))).
  { apply Hgen; [|constructor].
    apply Forall_forall. intros i Hi%list_elem_of_In%in_seq. lia. }
  rewrite Forall_forall in Hall. by apply Hall.
Qed.

Lemma post_mc_sample fuel :
  forall sample,
    partial_numbers g sample ->
    post (mc_sample rnd g fuel (monteCarloCdf g data) sample) (valid_numbers g).
Proof.
  induction fuel as [|fuel IH]; intros sample Hp; [apply post_out_of_fuel|].
  simpl. destruct (Nat.ltb_spec (length sample) (pick g)) as [Hlt|Hge].
  - eapply post_bind with (Q1 := fun _ => True); [by intros ? ? ?|]. intros rand _.
    destruct (List.find _ (monteCarloCdf g data)) as [[num c]|] eqn:E; [|apply post_throw].
    apply find_some in E as [Hin%list_elem_of_In%monteCarloCdf_range _]. simpl in Hin.
    apply IH. by apply (partial_numbers_set_add g sample num).
  - apply post_ret. by apply partial_numbers_full.
Qed.

Lemma elem_of_oset {K V} (eqb : K -> K -> bool) (o : list (K * V)) k v e :
  e ∈ oset eqb o k v -> e = (k, v) \/ e ∈ o.
Proof.
  induction o as [|[k0 v0] o IH]; simpl.
  - intros ->%list_elem_of_singleton. by left.
  - destruct (eqb k k0).
    + intros [->|He]%elem_of_cons; [by left|right; by right].
    + intros [->|He]%elem_of_cons; [right; left|].
      destruct (IH He) as [->|Hin]; [by left|right; by right].
Qed.

Lemma post_mc_run fuel iterations :
  forall counts,
    Forall (fun e => candidate g (fst e)) counts ->
    post (mc_run rnd g fuel iterations (monteCarloCdf g data) counts)
         (Forall (fun e => candidate g (fst e))).
Proof.
  induction iterations as [|iterations IH]; intros counts Hc; simpl; [by apply post_ret|].
  eapply post_bind; [apply post_mc_sample, partial_numbers_nil|]. intros sample Hs.
  apply IH. apply Forall_forall. intros e [->|He]%elem_of_oset.
  - by apply sort_asc_candidate.
  - rewrite Forall_forall in Hc. by apply Hc.
Qed.

Lemma post_monteCarlo fuel iterations :
  post (monteCarloSimulation rnd g data fuel iterations) (candidate g).
Proof.
  unfold monteCarloSimulation.
  eapply post_bind; [apply post_mc_run; constructor|]. intros counts Hc.
  assert (Hentries : mc_entries g counts ≡ₚ counts).
  { unfold mc_entries. destruct (Nat.eqb (pick g) 1); [apply js_sort_perm|done]. }
  assert (Hp := js_sort_perm (@by_count_desc (list nat)) (mc_entries g counts)).
  destruct (js_sort by_count_desc (mc_entries g counts)) as [|[combo c] rest] eqn:E;
    [apply post_throw|].
  assert (Hin : (combo, c) ∈ counts) by (rewrite <- Hentries, <- Hp; left).
  rewrite Forall_forall in Hc. specialize (Hc _ Hin). simpl in Hc.
  apply post_ret. destruct combo as [|n combo]; [|done].
  destruct Hc as [[Hlen _] _]. simpl in Hlen. lia.
Qed.

(** Delta system *)

Lemma last_in (numbers : list nat) : numbers <> [] -> List.last numbers 0%nat ∈ numbers.
Proof.
  induction numbers as [|x [|y rest] IH]; [done|left|].
  intros _. right. apply IH. done.
Qed.

Lemma post_delta_loop fuel :
  forall numbers,
    partial_numbers g numbers -> numbers <> [] ->
    post (delta_loop rnd g data fuel numbers) (valid_numbers g).
Proof.
  induction fuel as [|fuel IH]; intros numbers Hp Hne; [apply post_out_of_fuel|].
  rewrite delta_loop_S. destruct (Nat.ltb_spec (length numbers) (pick g)) as [Hlt|Hge].
  2:{ apply post_ret. by apply partial_numbers_full. }
  assert (Hlast : (1 <= List.last numbers 0)%nat).
  { destruct Hp as (_ & Hr & _). rewrite Forall_forall in Hr.
    apply (Hr _ (last_in numbers Hne)). }
  assert (Hpush : forall n, delta_ok g numbers (Some n) = true -> (1 <= n)%nat ->
                            partial_numbers g (numbers ++ [n]) /\ numbers ++ [n] <> []).
  { intros n Hok Hn. unfold delta_ok in Hok. apply andb_true_iff in Hok as [Hle Hni].
    apply Nat.leb_le in Hle. apply negb_true_iff, includes_false in Hni.
    split; [apply partial_numbers_snoc; auto; lia|by destruct numbers]. }
  eapply post_bind with (Q1 := fun _ => True); [by intros ? ? ?|]. intros i _. cbv zeta.
  destruct (delta_ok g numbers _) eqn:Hok.
  - destruct (sortedDeltas data !! i) as [d|]; [|done]. simpl in *.
    destruct (Hpush _ Hok) as [Hp' Hne']; [lia|]. by apply IH.
  - eapply post_bind with (Q1 := fun _ => True); [by intros ? ? ?|]. intros j _.
    destruct (delta_ok g numbers (Some _)) eqn:Hok2; [|by apply IH].
    destruct (Hpush _ Hok2) as [Hp' Hne']; [lia|]. by apply IH.
Qed.

Lemma post_delta_fill fuel :
  forall numbers,
    partial_numbers g numbers ->
    post (delta_fill rnd g fuel numbers) (valid_numbers g).
Proof.
  induction fuel as [|fuel IH]; intros numbers Hp; [apply post_out_of_fuel|].
  simpl. destruct (Nat.ltb_spec (length numbers) (pick g)) as [Hlt|Hge].
  - eapply post_bind; [by apply post_randomNumber, balls_pos|]. intros k Hk. cbv zeta.
    apply IH. by apply (partial_numbers_set_add g numbers (S k)).
  - apply post_ret. by apply partial_numbers_full.
Qed.

Lemma post_delta fuel :
  (15 <= balls g)%nat ->
  post (deltaSystemPrediction rnd g data fuel) (candidate g).
Proof.
  intros H15. unfold deltaSystemPrediction.
  eapply post_bind; [apply (post_randomBelow rnd 15 Hrnd); lia|]. intros k Hk. cbv zeta.
  cbv beta in Hk.
  eapply post_bind.
  { apply (post_delta_loop fuel [S k]); [|done].
    split; [apply NoDup_singleton|]. split; [apply Forall_singleton; lia|simpl; lia]. }
  intros numbers (Hlen & Hnd & Hr).
  eapply post_bind.
  { apply (post_delta_fill fuel numbers). split; [done|]. split; [done|lia]. }
  intros numbers' Hn'. apply post_ret. by apply sort_asc_candidate.
Qed.

End Strategies.

(** *** All strategies *)

Ltac case_algorithm H :=
  match goal with
  | |- context [String.eqb ?a ?name] =>
      destruct (String.eqb a name) eqn:H; [apply String.eqb_eq in H; subst a|]
  end.

(* ===================================================================== *)
(** * Further properties of the analyzer and of the engine *)
(* ===================================================================== *)

Lemma add_of_nat a b : JS.add (JS.of_nat a) (JS.of_nat b) = JS.of_nat (a + b).
Proof.
  unfold JS.of_nat, inject_Z. simpl. unfold Qplus. simpl. do 2 f_equal. lia.
Qed.

Lemma succ_of_nat a : JS.add (JS.of_nat a) (Fin 1) = JS.of_nat (S a).
Proof. change (Fin 1) with (JS.of_nat 1). rewrite add_of_nat. f_equal. lia. Qed.

Lemma tget_map_seq {V} (f : nat -> V) a N n :
  (a <= n < a + N)%nat -> tget (map (fun i => (i, f i)) (seq a N)) n = Some (f n).
Proof.
  revert a. induction N as [|N IH]; intros a Hn; [lia|]. simpl.
  destruct (Nat.eqb_spec n a) as [->|Hne]; [done|]. apply IH. lia.
Qed.

Lemma tset_map_seq {V} (f : nat -> V) a N n v :
  (a <= n < a + N)%nat ->
  tset (map (fun i => (i, f i)) (seq a N)) n v
  = map (fun i => (i, if Nat.eqb i n then v else f i)) (seq a N).
Proof.
  revert a. induction N as [|N IH]; intros a Hn; [lia|]. simpl.
  destruct (Nat.eqb_spec n a) as [->|Hne].
  - rewrite Nat.eqb_refl. f_equal. apply map_ext_in. intros i Hi%in_seq.
    destruct (Nat.eqb_spec i a); [lia|done].
  - destruct (Nat.ltb_spec n a); [lia|].
    destruct (Nat.eqb_spec a n); [lia|]. f_equal. apply IH. lia.
Qed.

(** Counting into a table of counters over [1..N]. *)
Lemma tincr_counts (c : nat -> nat) N n :
  (1 <= n <= N)%nat ->
  tincr (map (fun i => (i, JS.of_nat (c i))) (seq 1 N)) n
  = map (fun i => (i, JS.of_nat (c i + (if Nat.eqb i n then 1 else 0)))) (seq 1 N).
Proof.
  intros Hn. unfold tincr, tnum.
  rewrite (tget_map_seq (fun i => JS.of_nat (c i))) by lia.
  rewrite (tset_map_seq (fun i => JS.of_nat (c i))) by lia.
  apply map_ext_in. intros i _. destruct (Nat.eqb_spec i n) as [->|].
  - rewrite succ_of_nat. f_equal. f_equal. lia.
  - f_equal. f_equal. lia.
Qed.

Lemma fold_tincr_counts N ns : forall (c : nat -> nat),
  Forall (fun n => (1 <= n <= N)%nat) ns ->
  fold_left tincr ns (map (fun i => (i, JS.of_nat (c i))) (seq 1 N))
  = map (fun i => (i, JS.of_nat (c i + count_occ Nat.eq_dec ns i))) (seq 1 N).
Proof.
  induction ns as [|n ns IH]; intros c Hns; simpl.
  - apply map_ext_in. intros i _. do 2 f_equal. lia.
  - apply Forall_cons in Hns as [Hn Hns].
    rewrite tincr_counts by done. rewrite IH by done.
    apply map_ext_in. intros i _. do 2 f_equal.
    destruct (Nat.eq_dec n i) as [->|Hne].
    + rewrite Nat.eqb_refl. lia.
    + destruct (Nat.eqb_spec i n); [congruence|lia].
Qed.


Lemma count_occ_NoDup (l : list nat) n :
  NoDup l -> count_occ Nat.eq_dec l n = if bool_decide (n ∈ l) then 1%nat else 0%nat.
Proof.
  induction 1 as [|x l Hx Hnd IH]; cbn [count_occ].
  - rewrite bool_decide_eq_false_2; [done|]. by intros ?%elem_of_nil.
  - destruct (Nat.eq_dec x n) as [->|Hne].
    + rewrite IH. rewrite (bool_decide_eq_false_2 (n ∈ l)) by done.
      rewrite bool_decide_eq_true_2; [done|]. by left.
    + rewrite IH. apply f_equal with (f := fun b : bool => if b then 1%nat else 0%nat).
      apply bool_decide_ext. rewrite elem_of_cons. split; [by right|]. by intros [?|?].
Qed.

Lemma count_occ_draws data n :
  Forall (fun d => NoDup (numbers d)) data ->
  count_occ Nat.eq_dec (flat_map numbers data) n = drawsWith n data.
Proof.
  unfold drawsWith. induction 1 as [|d data Hd _ IH]; simpl; [done|].
  rewrite count_occ_app, IH, count_occ_NoDup by done.
  rewrite filter_cons. destruct (decide (n ∈ numbers d)) as [Hin|Hin].
  - rewrite bool_decide_eq_true_2 by done. done.
  - rewrite bool_decide_eq_false_2 by done. done.
Qed.

Lemma frequency_counts g data :
  Forall (fun d => Forall (fun n => (1 <= n <= balls g)%nat) (numbers d)) data ->
  getNumberFrequency g data
  = map (fun n => (n, JS.of_nat (count_occ Nat.eq_dec (flat_map numbers data) n)))
        (seq 1 (balls g)).
Proof.
  intros Hdata. unfold getNumberFrequency.
  assert (Hgen : forall c : nat -> nat,
    fold_left (fun fr draw => fold_left tincr (numbers draw) fr) data
              (map (fun i => (i, JS.of_nat (c i))) (seq 1 (balls g)))
    = map (fun i => (i, JS.of_nat (c i + count_occ Nat.eq_dec (flat_map numbers data) i)))
          (seq 1 (balls g))).
  { induction Hdata as [|d data Hd _ IH]; intros c; simpl.
    - apply map_ext_in. intros i _. do 2 f_equal. lia.
    - rewrite fold_tincr_counts by done. rewrite IH.
      apply map_ext_in. intros i _. do 2 f_equal. rewrite count_occ_app. lia. }
  exact (Hgen (fun _ => 0%nat)).
Qed.

Lemma valid_data_range g data :
  valid_data g data ->
  Forall (fun d => Forall (fun n => (1 <= n <= balls g)%nat) (numbers d)) data.
Proof. intros H. eapply Forall_impl; [exact H|]. by intros d (_ & _ & ?). Qed.

Lemma valid_data_NoDup g data :
  valid_data g data -> Forall (fun d => NoDup (numbers d)) data.
Proof. intros H. eapply Forall_impl; [exact H|]. by intros d (_ & ? & _). Qed.

Lemma getNumberFrequency_spec (g : GameConfig) (data : list Draw) :
  valid_data g data ->
  getNumberFrequency g data
  = map (fun n => (n, JS.of_nat (drawsWith n data))) (seq 1 (balls g)).
Proof.
  intros Hdata. rewrite (frequency_counts g data) by by eapply valid_data_range.
  apply map_ext_in. intros n _. do 2 f_equal.
  apply count_occ_draws. by eapply valid_data_NoDup.
Qed.


Ltac solve_elem := rewrite ?elem_of_cons in *; tauto.

Lemma sort_insert_stable {A} (after : A -> A -> bool) (R orig : A -> A -> Prop) x (l : list A) :
  (forall a b c, a ∈ x :: l -> b ∈ x :: l -> c ∈ x :: l -> R a b -> R b c -> R a c) ->
  (forall b, b ∈ l -> after x b = true -> R b x) ->
  (forall b, b ∈ l -> after x b = false -> orig x b -> R x b) ->
  Forall (orig x) l ->
  StronglySorted R l ->
  StronglySorted R (sort_insert after x l).
Proof.
  intros Htr Hafter Hbefore Horig Hs.
  induction Hs as [|y l Hs IH Hy]; simpl; [repeat constructor|].
  apply Forall_cons in Horig as [Hxy Horig].
  destruct (after x y) eqn:E.
  - constructor.
    + apply IH; [| | |done].
      * intros a b c Ha Hb Hc. apply Htr; solve_elem.
      * intros b Hb. apply Hafter. solve_elem.
      * intros b Hb. apply Hbefore. solve_elem.
    + apply Forall_forall. intros z Hz.
      rewrite sort_insert_perm in Hz. apply elem_of_cons in Hz as [->|Hz].
      * apply Hafter; [solve_elem|done].
      * rewrite Forall_forall in Hy. by apply Hy.
  - assert (Hxy' : R x y) by (apply Hbefore; [solve_elem|done|done]).
    constructor; [by constructor|].
    apply Forall_cons. split; [done|].
    apply Forall_forall. intros z Hz. rewrite Forall_forall in Hy.
    apply (Htr x y z); [solve_elem|solve_elem|solve_elem|done|by apply Hy].
Qed.

Lemma js_sort_stable {A} (after : A -> A -> bool) (R orig : A -> A -> Prop) (l : list A) :
  (forall a b c, a ∈ l -> b ∈ l -> c ∈ l -> R a b -> R b c -> R a c) ->
  (forall a b, a ∈ l -> b ∈ l -> after a b = true -> R b a) ->
  (forall a b, a ∈ l -> b ∈ l -> after a b = false -> orig a b -> R a b) ->
  StronglySorted orig l ->
  StronglySorted R (js_sort after l).
Proof.
  intros Htr Hafter Hbefore Hs.
  induction Hs as [|x l Hs IH Hx]; [constructor|].
  unfold js_sort in *. simpl. fold (js_sort after l).
  assert (Hperm := js_sort_perm after l).
  apply sort_insert_stable with (orig := orig).
  - intros a b c Ha Hb Hc. unfold js_sort in Hperm. rewrite Hperm in Ha, Hb, Hc. by apply Htr.
  - intros b Hb. unfold js_sort in Hperm. rewrite Hperm in Hb. apply Hafter; solve_elem.
  - intros b Hb. unfold js_sort in Hperm. rewrite Hperm in Hb. apply Hbefore; solve_elem.
  - unfold js_sort in Hperm. by rewrite Hperm.
  - apply IH.
    + intros a b c Ha Hb Hc. apply Htr; solve_elem.
    + intros a b Ha Hb. apply Hafter; solve_elem.
    + intros a b Ha Hb. apply Hbefore; solve_elem.
Qed.


Lemma before_desc_trans (a b c : nat * jsnum) :
  is_fin (snd a) -> is_fin (snd b) -> is_fin (snd c) ->
  before_desc a b -> before_desc b c -> before_desc a c.
Proof.
  destruct a as [ka va], b as [kb vb], c as [kc vc]. unfold before_desc. simpl.
  intros [x ->] [y ->] [z ->]. unfold JS.lt, JS.eq.
  rewrite !negb_true_iff, !Qeq_bool_iff.
  intros H1 H2.
  assert (E : forall p q, Qle_bool p q = false <-> q < p).
  { intros p q. split.
    - intros Hf. destruct (Qlt_le_dec q p) as [|Hc]; [done|].
      apply Qle_bool_iff in Hc. congruence.
    - intros Hlt. destruct (Qle_bool p q) eqn:E; [|done]. apply Qle_bool_iff in E. lra. }
  rewrite !E in *.
  destruct H1 as [H1|[H1 K1]], H2 as [H2|[H2 K2]].
  - left. lra.
  - left. lra.
  - left. lra.
  - right. split; [lra|lia].
Qed.

Lemma by_value_desc_after (a b : nat * jsnum) :
  is_fin (snd a) -> is_fin (snd b) ->
  by_value_desc a b = true -> before_desc b a.
Proof.
  destruct a as [ka va], b as [kb vb]. unfold before_desc, by_value_desc. simpl.
  intros [x ->] [y ->]. unfold JS.gt, JS.sub, JS.lt. simpl.
  rewrite !negb_true_iff. intros H. left.
  destruct (Qle_bool y x) eqn:E; [|done]. apply Qle_bool_iff in E.
  assert (Hc : y + - x <= 0) by lra. apply Qle_bool_iff in Hc. congruence.
Qed.

Lemma by_value_desc_before (a b : nat * jsnum) :
  is_fin (snd a) -> is_fin (snd b) ->
  by_value_desc a b = false -> (fst a < fst b)%nat -> before_desc a b.
Proof.
  destruct a as [ka va], b as [kb vb]. unfold before_desc, by_value_desc. simpl.
  intros [x ->] [y ->]. unfold JS.gt, JS.sub, JS.lt, JS.eq. simpl.
  rewrite negb_false_iff, negb_true_iff. intros H%Qle_bool_iff Hk.
  destruct (Qle_bool x y) eqn:E.
  - right. apply Qle_bool_iff in E. split; [|done]. apply Qeq_bool_iff. lra.
  - by left.
Qed.

Lemma before_asc_trans (a b c : nat * jsnum) :
  is_fin (snd a) -> is_fin (snd b) -> is_fin (snd c) ->
  before_asc a b -> before_asc b c -> before_asc a c.
Proof.
  destruct a as [ka va], b as [kb vb], c as [kc vc]. unfold before_asc. simpl.
  intros [x ->] [y ->] [z ->]. unfold JS.lt, JS.eq.
  rewrite !negb_true_iff, !Qeq_bool_iff.
  intros H1 H2.
  assert (E : forall p q, Qle_bool p q = false <-> q < p).
  { intros p q. split.
    - intros Hf. destruct (Qlt_le_dec q p) as [|Hc]; [done|].
      apply Qle_bool_iff in Hc. congruence.
    - intros Hlt. destruct (Qle_bool p q) eqn:E; [|done]. apply Qle_bool_iff in E. lra. }
  rewrite !E in *.
  destruct H1 as [H1|[H1 K1]], H2 as [H2|[H2 K2]].
  - left. lra.
  - left. lra.
  - left. lra.
  - right. split; [lra|lia].
Qed.

Lemma by_value_asc_after (a b : nat * jsnum) :
  is_fin (snd a) -> is_fin (snd b) ->
  by_value_asc a b = true -> before_asc b a.
Proof.
  destruct a as [ka va], b as [kb vb]. unfold before_asc, by_value_asc. simpl.
  intros [x ->] [y ->]. unfold JS.gt, JS.sub, JS.lt. simpl.
  rewrite !negb_true_iff. intros H. left.
  destruct (Qle_bool x y) eqn:E; [|done]. apply Qle_bool_iff in E.
  assert (Hc : x + - y <= 0) by lra. apply Qle_bool_iff in Hc. congruence.
Qed.

Lemma by_value_asc_before (a b : nat * jsnum) :
  is_fin (snd a) -> is_fin (snd b) ->
  by_value_asc a b = false -> (fst a < fst b)%nat -> before_asc a b.
Proof.
  destruct a as [ka va], b as [kb vb]. unfold before_asc, by_value_asc. simpl.
  intros [x ->] [y ->]. unfold JS.gt, JS.sub, JS.lt, JS.eq. simpl.
  rewrite negb_false_iff, negb_true_iff. intros H%Qle_bool_iff Hk.
  destruct (Qle_bool y x) eqn:E.
  - right. apply Qle_bool_iff in E. split; [|done]. apply Qeq_bool_iff. lra.
  - by left.
Qed.

(** A table of counters over [1..N], ranked. *)
Lemma counters_sorted_by_key (c : nat -> jsnum) a N :
  StronglySorted (fun x y : nat * jsnum => (fst x < fst y)%nat)
                 (map (fun n => (n, c n)) (seq a N)).
Proof.
  revert a. induction N as [|N IH]; intros a; simpl; constructor; [apply IH|].
  apply Forall_forall. intros e (i & -> & Hi%list_elem_of_In%in_seq)%list_elem_of_fmap.
  simpl. lia.
Qed.

Lemma ranking_hot (t : table) :
  StronglySorted (fun x y : nat * jsnum => (fst x < fst y)%nat) t ->
  Forall (fun e => is_fin (snd e)) t ->
  StronglySorted before_desc (js_sort by_value_desc t).
Proof.
  intros Hs Hfin. rewrite Forall_forall in Hfin.
  eapply js_sort_stable; [| | |exact Hs].
  - intros a b c Ha Hb Hc. apply before_desc_trans; by apply Hfin.
  - intros a b Ha Hb. apply by_value_desc_after; by apply Hfin.
  - intros a b Ha Hb. cbv beta. apply by_value_desc_before; by apply Hfin.
Qed.

Lemma ranking_cold (t : table) :
  StronglySorted (fun x y : nat * jsnum => (fst x < fst y)%nat) t ->
  Forall (fun e => is_fin (snd e)) t ->
  StronglySorted before_asc (js_sort by_value_asc t).
Proof.
  intros Hs Hfin. rewrite Forall_forall in Hfin.
  eapply js_sort_stable; [| | |exact Hs].
  - intros a b c Ha Hb Hc. apply before_asc_trans; by apply Hfin.
  - intros a b Ha Hb. apply by_value_asc_after; by apply Hfin.
  - intros a b Ha Hb. cbv beta. apply by_value_asc_before; by apply Hfin.
Qed.

(** The first [count] entries of a ranking. *)
Lemma take_ranking {A} (R : A -> A -> Prop) (l : list A) count :
  StronglySorted R l -> NoDup l ->
  StronglySorted R (take count l) /\
  (forall x y, x ∈ take count l -> y ∈ l -> y ∉ take count l -> R x y).
Proof.
  intros Hs Hnd. rewrite <- (take_drop count l) in Hs, Hnd.
  split; [by eapply StronglySorted_app_1_l|].
  intros x y Hx Hy Hny.
  eapply StronglySorted_app_1_elem_of; [exact Hs|done|].
  rewrite <- (take_drop count l) in Hy at 1. apply elem_of_app in Hy as [|]; done.
Qed.


(** The first [count] entries of the ranking of a table of counters over
    [1..N]. *)
Lemma top_desc (c : nat -> nat) N count :
  let t := map (fun n => (n, JS.of_nat (c n))) (seq 1 N) in
  let top := take count (js_sort by_value_desc t) in
  length top = Nat.min count N /\
  StronglySorted before_desc top /\
  (forall e, e ∈ top -> (1 <= fst e <= N)%nat /\ snd e = JS.of_nat (c (fst e))) /\
  (forall n, (1 <= n <= N)%nat -> n ∉ keys top ->
     forall e, e ∈ top -> before_desc e (n, JS.of_nat (c n))).
Proof.
  intros t top. unfold top.
  assert (Hs : StronglySorted before_desc (js_sort by_value_desc t)).
  { apply ranking_hot; [apply counters_sorted_by_key|].
    apply Forall_forall. intros e (i & -> & _)%list_elem_of_fmap. by eexists. }
  assert (Hperm := js_sort_perm by_value_desc t).
  assert (Hnd : NoDup (js_sort by_value_desc t)).
  { rewrite Hperm. unfold t. apply NoDup_fmap_2; [|apply NoDup_ListNoDup, seq_NoDup].
    intros x y [= ->]. done. }
  destruct (take_ranking before_desc _ count Hs Hnd) as [Hs1 Hs2].
  split.
  { rewrite length_take, Hperm. unfold t. by rewrite length_map, length_seq. }
  split; [done|]. split.
  { intros e He. assert (He' : e ∈ t).
    { rewrite <- Hperm. eapply elem_of_sublist; [exact He|]. apply sublist_take. }
    apply list_elem_of_fmap in He' as (i & -> & Hi%list_elem_of_In%in_seq).
    simpl. split; [lia|done]. }
  intros n Hn Hnot e He. apply Hs2; [done| |].
  - rewrite Hperm. apply list_elem_of_fmap. exists n. split; [done|].
    apply list_elem_of_In, in_seq. lia.
  - intros Hc. apply Hnot. apply list_elem_of_fmap. by exists (n, JS.of_nat (c n)).
Qed.

Lemma top_asc (c : nat -> nat) N count :
  let t := map (fun n => (n, JS.of_nat (c n))) (seq 1 N) in
  let top := take count (js_sort by_value_asc t) in
  length top = Nat.min count N /\
  StronglySorted before_asc top /\
  (forall e, e ∈ top -> (1 <= fst e <= N)%nat /\ snd e = JS.of_nat (c (fst e))) /\
  (forall n, (1 <= n <= N)%nat -> n ∉ keys top ->
     forall e, e ∈ top -> before_asc e (n, JS.of_nat (c n))).
Proof.
  intros t top. unfold top.
  assert (Hs : StronglySorted before_asc (js_sort by_value_asc t)).
  { apply ranking_cold; [apply counters_sorted_by_key|].
    apply Forall_forall. intros e (i & -> & _)%list_elem_of_fmap. by eexists. }
  assert (Hperm := js_sort_perm by_value_asc t).
  assert (Hnd : NoDup (js_sort by_value_asc t)).
  { rewrite Hperm. unfold t. apply NoDup_fmap_2; [|apply NoDup_ListNoDup, seq_NoDup].
    intros x y [= ->]. done. }
  destruct (take_ranking before_asc _ count Hs Hnd) as [Hs1 Hs2].
  split.
  { rewrite length_take, Hperm. unfold t. by rewrite length_map, length_seq. }
  split; [done|]. split.
  { intros e He. assert (He' : e ∈ t).
    { rewrite <- Hperm. eapply elem_of_sublist; [exact He|]. apply sublist_take. }
    apply list_elem_of_fmap in He' as (i & -> & Hi%list_elem_of_In%in_seq).
    simpl. split; [lia|done]. }
  intros n Hn Hnot e He. apply Hs2; [done| |].
  - rewrite Hperm. apply list_elem_of_fmap. exists n. split; [done|].
    apply list_elem_of_In, in_seq. lia.
  - intros Hc. apply Hnot. apply list_elem_of_fmap. by exists (n, JS.of_nat (c n)).
Qed.

(** X3: On a valid history [getHotNumbers count] returns [min count balls]
    entries, each a number of [1..balls] with its draw count, by descending
    count and ascending number among equal counts; every number left out
    comes after every entry returned in that order. *)
Theorem hot_numbers_ranking (g : GameConfig) (data : list Draw) (count : nat) :
  valid_data g data ->
  let hot := getHotNumbers g data count in
  length hot = Nat.min count (balls g) /\
  StronglySorted before_desc hot /\
  (forall e, e ∈ hot ->
     (1 <= fst e <= balls g)%nat /\ snd e = JS.of_nat (drawsWith (fst e) data)) /\
  (forall n, (1 <= n <= balls g)%nat -> n ∉ keys hot ->
     forall e, e ∈ hot -> before_desc e (n, JS.of_nat (drawsWith n data))).
Proof.
  intros Hdata. unfold getHotNumbers.
  rewrite (getNumberFrequency_spec g data Hdata).
  apply (top_desc (fun n => drawsWith n data)).
Qed.

(** X4: On a valid history [getColdNumbers count] returns [min count balls]
    entries, each a number of [1..balls] with its draw count, by ascending
    count and ascending number among equal counts; every number left out
    comes after every entry returned in that order. *)
Theorem cold_numbers_ranking (g : GameConfig) (data : list Draw) (count : nat) :
  valid_data g data ->
  let cold := getColdNumbers g data count in
  length cold = Nat.min count (balls g) /\
  StronglySorted before_asc cold /\
  (forall e, e ∈ cold ->
     (1 <= fst e <= balls g)%nat /\ snd e = JS.of_nat (drawsWith (fst e) data)) /\
  (forall n, (1 <= n <= balls g)%nat -> n ∉ keys cold ->
     forall e, e ∈ cold -> before_asc e (n, JS.of_nat (drawsWith n data))).
Proof.
  intros Hdata. unfold getColdNumbers.
  rewrite (getNumberFrequency_spec g data Hdata).
  apply (top_asc (fun n => drawsWith n data)).
Qed.

(** ** The last-seen table *)

Lemma gt_of_nat a b : JS.gt (JS.of_nat a) (JS.of_nat b) = Nat.ltb b a.
Proof.
  unfold JS.gt, JS.lt, JS.of_nat.
  destruct (Nat.ltb_spec b a) as [H|H].
  - apply negb_true_iff. destruct (Qle_bool _ _) eqn:E; [|done].
    apply Qle_bool_iff in E. rewrite <- Zle_Qle in E. lia.
  - apply negb_false_iff. apply Qle_bool_iff. rewrite <- Zle_Qle. lia.
Qed.

Lemma lastSeenStep_counts N idx (d : Draw) (v : nat -> nat) :
  Forall (fun n => (1 <= n <= N)%nat) (numbers d) ->
  lastSeenStep (map (fun n => (n, JS.of_nat (v n))) (seq 1 N)) idx d
  = map (fun n => (n, JS.of_nat (if bool_decide (n ∈ numbers d) && Nat.ltb idx (v n)
                                 then idx else v n))) (seq 1 N).
Proof.
  unfold lastSeenStep. generalize (numbers d) as ns. intros ns. revert v.
  induction ns as [|m ns IH]; intros v Hns; cbn [fold_left].
  - apply map_ext_in. intros n _. rewrite bool_decide_eq_false_2; [done|].
    by intros ?%elem_of_nil.
  - apply Forall_cons in Hns as [Hm Hns].
    assert (Hget : tnum (map (fun n => (n, JS.of_nat (v n))) (seq 1 N)) m = JS.of_nat (v m)).
    { unfold tnum. by rewrite (tget_map_seq (fun n => JS.of_nat (v n))) by lia. }
    rewrite Hget, gt_of_nat.
    destruct (Nat.ltb_spec idx (v m)) as [Hlt|Hge].
    + rewrite (tset_map_seq (fun n => JS.of_nat (v n))) by lia.
      rewrite (map_ext_in _ (fun n => (n, JS.of_nat ((fun i => if Nat.eqb i m then idx else v i) n)))).
      2:{ intros n _. by destruct (Nat.eqb n m). }
      rewrite IH by done. apply map_ext_in. intros n _. do 2 f_equal.
      destruct (Nat.eqb_spec n m) as [->|Hne].
      * rewrite Nat.ltb_irrefl, andb_false_r.
        rewrite bool_decide_eq_true_2 by (by left).
        destruct (Nat.ltb_spec idx (v m)); [done|lia].
      * rewrite (bool_decide_ext (n ∈ m :: ns) (n ∈ ns)); [done|].
        rewrite elem_of_cons. split; [by intros [?|?]|by right].
    + rewrite IH by done. apply map_ext_in. intros n _. do 2 f_equal.
      destruct (Nat.eq_dec n m) as [->|Hne].
      * destruct (Nat.ltb_spec idx (v m)); [lia|]. by rewrite !andb_false_r.
      * rewrite (bool_decide_ext (n ∈ m :: ns) (n ∈ ns)); [done|].
        rewrite elem_of_cons. split; [by intros [?|?]|by right].
Qed.

Lemma lastSeenLoop_counts N draws : forall idx (v : nat -> nat),
  Forall (fun d => Forall (fun n => (1 <= n <= N)%nat) (numbers d)) draws ->
  (forall n, (v n < idx)%nat \/ (idx + length draws <= v n)%nat) ->
  lastSeenLoop draws idx (map (fun n => (n, JS.of_nat (v n))) (seq 1 N))
  = map (fun n => (n, JS.of_nat (if Nat.ltb (v n) idx then v n
                                 else match list_find (fun d => n ∈ numbers d) draws with
                                      | Some (i, _) => (idx + i)%nat
                                      | None => v n
                                      end))) (seq 1 N).
Proof.
  induction draws as [|d draws IH]; intros idx v Hdraws Hv; simpl.
  - apply map_ext_in. intros n _. by destruct (Nat.ltb (v n) idx).
  - apply Forall_cons in Hdraws as [Hd Hdraws].
    rewrite lastSeenStep_counts by done. rewrite IH; [|done|].
    + apply map_ext_in. intros n _. do 2 f_equal.
      specialize (Hv n). simpl in Hv.
      destruct (decide (n ∈ numbers d)) as [Hin|Hin].
      * rewrite bool_decide_eq_true_2 by done. simpl.
        destruct (Nat.ltb_spec (v n) idx) as [H1|H1].
        -- destruct (Nat.ltb_spec idx (v n)); [lia|].
           destruct (Nat.ltb_spec (v n) (S idx)); [done|lia].
        -- destruct (Nat.ltb_spec idx (v n)); [|lia].
           destruct (Nat.ltb_spec idx (S idx)); [|lia]. lia.
      * rewrite bool_decide_eq_false_2 by done. simpl.
        destruct (Nat.ltb_spec (v n) idx) as [H1|H1].
        -- destruct (Nat.ltb_spec (v n) (S idx)); [done|lia].
        -- destruct (Nat.ltb_spec (v n) (S idx)); [lia|].
           destruct (list_find _ draws) as [[i x]|]; simpl; [f_equal; lia|done].
    + intros n. simpl in Hv. specialize (Hv n).
      destruct (bool_decide (n ∈ numbers d) && Nat.ltb idx (v n)); lia.
Qed.

Lemma lastSeenTable_counts g data :
  valid_data g data ->
  lastSeenTable g data
  = map (fun n => (n, JS.of_nat (drawsSince n data))) (seq 1 (balls g)).
Proof.
  intros Hdata. unfold lastSeenTable, tinit, drawsSince.
  rewrite (lastSeenLoop_counts (balls g) data 0 (fun _ => length data)).
  - apply map_ext_in. intros n _. by do 2 f_equal.
  - by eapply valid_data_range.
  - intros n. right. lia.
Qed.

(** X5: On a valid history [getOverdueNumbers count] returns [min count balls]
    entries; the value of a number is the index of the most recent draw that
    holds it, or the number of draws if none does; the entries come by
    descending value, ascending number among equal values, and every number
    left out comes after every entry returned. *)
Theorem overdue_numbers_ranking (g : GameConfig) (data : list Draw) (count : nat) :
  valid_data g data ->
  let overdue := getOverdueNumbers g data count in
  length overdue = Nat.min count (balls g) /\
  StronglySorted before_desc overdue /\
  (forall e, e ∈ overdue ->
     (1 <= fst e <= balls g)%nat /\ snd e = JS.of_nat (drawsSince (fst e) data)) /\
  (forall n, (1 <= n <= balls g)%nat -> n ∉ keys overdue ->
     forall e, e ∈ overdue -> before_desc e (n, JS.of_nat (drawsSince n data))).
Proof.
  intros Hdata. unfold getOverdueNumbers.
  rewrite (lastSeenTable_counts g data Hdata).
  apply (top_desc (fun n => drawsSince n data)).
Qed.

(** Sums of counters. *)
Lemma sum_from_counts (l : list nat) (c : nat -> nat) a :
  fold_left JS.add (map (fun n => JS.of_nat (c n)) l) (JS.of_nat a)
  = JS.of_nat (a + sum_list_with c l).
Proof.
  revert a. induction l as [|n l IH]; intros a; cbn [fold_left map sum_list_with].
  - f_equal. lia.
  - rewrite add_of_nat, IH. f_equal. lia.
Qed.

Lemma sum_counts (l : list nat) (c : nat -> nat) :
  JS.sum (values (map (fun n => (n, JS.of_nat (c n))) l)) = JS.of_nat (sum_list_with c l).
Proof.
  unfold JS.sum, values. rewrite map_map. simpl.
  change (Fin 0) with (JS.of_nat 0). by rewrite sum_from_counts.
Qed.

Lemma qtotal_counts (l : list nat) (c : nat -> nat) :
  qtotal (map (fun n => (n, JS.of_nat (c n))) l) == inject_Z (Z.of_nat (sum_list_with c l)).
Proof.
  induction l as [|n l IH]; cbn [map qtotal sum_list_with]; [done|].
  unfold JS.of_nat at 1. rewrite IH, Nat2Z.inj_add, inject_Z_plus. done.
Qed.

Lemma inject_Z_nat_inj a b : inject_Z (Z.of_nat a) == inject_Z (Z.of_nat b) -> a = b.
Proof. unfold Qeq. simpl. lia. Qed.

(** X2: On a valid history the frequencies of [getNumberFrequency] add up to the
    number of draws times [pick]. *)
Theorem frequency_total (g : GameConfig) (data : list Draw) :
  valid_data g data ->
  JS.sum (values (getNumberFrequency g data)) = JS.of_nat (length data * pick g).
Proof.
  intros Hdata.
  destruct (frequency_valid g data Hdata) as (_ & _ & Hq).
  rewrite (getNumberFrequency_spec g data Hdata) in *.
  rewrite sum_counts. f_equal. apply inject_Z_nat_inj.
  by rewrite <- qtotal_counts.
Qed.

(** ** Counter objects with string keys *)

Section Counters.

Context {K : Type} `{EqDecision K}.
Variable eqb : K -> K -> bool.
Hypothesis eqb_spec : forall a b, eqb a b = true <-> a = b.

Lemma eqb_refl_ok a : eqb a a = true.
Proof. by apply eqb_spec. Qed.

Lemma eqb_neq a b : a <> b -> eqb a b = false.
Proof. intros H. destruct (eqb a b) eqn:E; [|done]. by apply eqb_spec in E. Qed.

Lemma oget_oset_eq {V} (o : list (K * V)) k v : oget eqb (oset eqb o k v) k = Some v.
Proof.
  induction o as [|[k0 v0] o IH]; simpl.
  - by rewrite eqb_refl_ok.
  - destruct (eqb k k0) eqn:E; simpl; [by rewrite eqb_refl_ok|by rewrite E].
Qed.

Lemma oget_oset_ne {V} (o : list (K * V)) k k' v :
  k' <> k -> oget eqb (oset eqb o k v) k' = oget eqb o k'.
Proof.
  intros Hne. induction o as [|[k0 v0] o IH]; simpl.
  - by rewrite eqb_neq.
  - destruct (eqb k k0) eqn:E; simpl.
    + apply eqb_spec in E as ->. by rewrite eqb_neq.
    + by rewrite IH.
Qed.

Lemma keys_oset {V} (o : list (K * V)) k v :
  map fst (oset eqb o k v) = if bool_decide (k ∈ map fst o) then map fst o
                             else map fst o ++ [k].
Proof.
  induction o as [|[k0 v0] o IH]; cbn [oset map fst app].
  - rewrite bool_decide_eq_false_2; [done|]. by intros ?%elem_of_nil.
  - destruct (eqb k k0) eqn:E.
    + apply eqb_spec in E as ->. rewrite bool_decide_eq_true_2; [done|]. by left.
    + cbn [map fst]. rewrite IH.
      assert (Hne : k <> k0) by (intros ->; by rewrite eqb_refl_ok in E).
      rewrite (bool_decide_ext (k ∈ k0 :: map fst o) (k ∈ map fst o)).
      2:{ rewrite elem_of_cons. split; [by intros [?|?]|by right]. }
      by destruct (bool_decide (k ∈ map fst o)).
Qed.

Lemma NoDup_keys_oset {V} (o : list (K * V)) k v :
  NoDup (map fst o) -> NoDup (map fst (oset eqb o k v)).
Proof.
  intros Hnd. rewrite keys_oset. case_bool_decide as Hin; [done|].
  apply NoDup_app. split; [done|]. split; [|apply NoDup_singleton].
  intros x Hx ->%list_elem_of_singleton. done.
Qed.

Lemma oget_elem {V} (o : list (K * V)) k v :
  NoDup (map fst o) -> (k, v) ∈ o -> oget eqb o k = Some v.
Proof.
  induction o as [|[k0 v0] o IH]; simpl; [by intros _ ?%elem_of_nil|].
  intros [Hk0 Hnd]%NoDup_cons [[= -> ->]|Hin]%elem_of_cons.
  - by rewrite eqb_refl_ok.
  - rewrite eqb_neq; [by apply IH|]. intros ->. apply Hk0.
    apply list_elem_of_fmap. by exists (k0, v).
Qed.

Lemma elem_oget {V} (o : list (K * V)) k v :
  oget eqb o k = Some v -> (k, v) ∈ o.
Proof.
  induction o as [|[k0 v0] o IH]; simpl; [done|].
  destruct (eqb k k0) eqn:E.
  - apply eqb_spec in E as ->. intros [= ->]. by left.
  - intros H. right. by apply IH.
Qed.

Lemma oget_none {V} (o : list (K * V)) k :
  oget eqb o k = None <-> k ∉ map fst o.
Proof.
  induction o as [|[k0 v0] o IH]; simpl.
  - split; [intros _ ?%elem_of_nil; done|done].
  - destruct (eqb k k0) eqn:E.
    + apply eqb_spec in E as ->. split; [done|]. intros H. exfalso. apply H. by left.
    + rewrite IH. rewrite not_elem_of_cons. split; [|by intros [_ ?]].
      intros H. split; [|done]. intros ->. by rewrite eqb_refl_ok in E.
Qed.

(** Counting the keys of a list into an object. *)
Lemma obump_fold_get (ks : list K) : forall (o : list (K * nat)) k,
  default 0%nat (oget eqb (fold_left (obump eqb) ks o) k)
  = (default 0%nat (oget eqb o k) + length (filter (fun x => x = k) ks))%nat.
Proof.
  induction ks as [|x ks IH]; intros o k; cbn [fold_left].
  - rewrite filter_nil. simpl. lia.
  - rewrite IH. unfold obump. rewrite filter_cons.
    destruct (decide (x = k)) as [->|Hne].
    + rewrite oget_oset_eq. simpl. lia.
    + rewrite oget_oset_ne by done. done.
Qed.

Lemma obump_fold_keys (ks : list K) : forall (o : list (K * nat)),
  NoDup (map fst o) ->
  NoDup (map fst (fold_left (obump eqb) ks o)) /\
  (forall k, k ∈ map fst (fold_left (obump eqb) ks o) <-> k ∈ map fst o \/ k ∈ ks).
Proof.
  induction ks as [|x ks IH]; intros o Hnd; cbn [fold_left].
  - split; [done|]. intros k. rewrite elem_of_nil. tauto.
  - destruct (IH (obump eqb o x)) as [Hnd' Hk].
    { by apply NoDup_keys_oset. }
    split; [done|]. intros k. rewrite Hk. unfold obump. rewrite keys_oset.
    rewrite elem_of_cons. case_bool_decide as Hin.
    + split; [intros [?|?]; auto|]. intros [?|[->|?]]; auto.
    + rewrite elem_of_app, list_elem_of_singleton. tauto.
Qed.

Lemma obump_total (o : list (K * nat)) k :
  sum_list_with snd (obump eqb o k) = S (sum_list_with snd o).
Proof.
  unfold obump. induction o as [|[k0 v0] o IH]; simpl; [done|].
  destruct (eqb k k0) eqn:E; simpl; [lia|]. rewrite IH. lia.
Qed.

Lemma obump_fold_total (ks : list K) : forall (o : list (K * nat)),
  sum_list_with snd (fold_left (obump eqb) ks o) = (sum_list_with snd o + length ks)%nat.
Proof.
  induction ks as [|x ks IH]; intros o; cbn [fold_left]; [simpl; lia|].
  rewrite IH, obump_total. simpl. lia.
Qed.

(** Every entry of the counted object holds the number of occurrences of
    its key. *)
Lemma obump_fold_entries (ks : list K) (e : K * nat) :
  e ∈ fold_left (obump eqb) ks [] ->
  fst e ∈ ks /\ snd e = length (filter (fun x => x = fst e) ks).
Proof.
  intros He. destruct e as [k c]. simpl.
  destruct (obump_fold_keys ks []) as [Hnd Hk]; [constructor|].
  assert (Hin : k ∈ ks).
  { assert (H : k ∈ map fst (fold_left (obump eqb) ks [])).
    { apply list_elem_of_fmap. by exists (k, c). }
    apply Hk in H as [H|H]; [by apply elem_of_nil in H|done]. }
  split; [done|].
  assert (Hget := oget_elem _ _ _ Hnd He).
  assert (Hc := obump_fold_get ks [] k). rewrite Hget in Hc. simpl in Hc. done.
Qed.

End Counters.

Lemma pair_eqb_spec a b : pair_eqb a b = true <-> a = b.
Proof.
  destruct a as [a1 a2], b as [b1 b2]. unfold pair_eqb. simpl.
  rewrite andb_true_iff, !Nat.eqb_eq. split; [by intros [-> ->]|by intros [= -> ->]].
Qed.

Lemma elem_of_pairs_of xs a b :
  (a, b) ∈ pairs_of xs -> a ∈ xs /\ b ∈ xs.
Proof.
  induction xs as [|x xs IH]; simpl; [by intros ?%elem_of_nil|].
  intros [(y & [= -> ->] & Hy)%list_elem_of_fmap|H]%elem_of_app.
  - split; [by left|by right].
  - destruct (IH H). split; by right.
Qed.

Lemma pairs_of_sorted xs a b :
  StronglySorted Nat.lt xs ->
  (a, b) ∈ pairs_of xs <-> a ∈ xs /\ b ∈ xs /\ (a < b)%nat.
Proof.
  induction 1 as [|x xs Hs IH Hx]; simpl.
  - rewrite !elem_of_nil. tauto.
  - rewrite elem_of_app, list_elem_of_fmap, IH, !elem_of_cons.
    rewrite Forall_forall in Hx. split.
    + intros [(y & [= -> ->] & Hy)|(Ha & Hb & Hlt)].
      * split; [by left|]. split; [by right|]. by apply Hx.
      * auto.
    + intros ([->|Ha] & [->|Hb] & Hlt).
      * unfold Nat.lt in *. lia.
      * left. by exists b.
      * specialize (Hx _ Ha). unfold Nat.lt in *. lia.
      * right. auto.
Qed.

Lemma pairs_of_NoDup xs : NoDup xs -> NoDup (pairs_of xs).
Proof.
  induction 1 as [|x xs Hx Hnd IH]; simpl; [constructor|].
  apply NoDup_app. split; [|split; [|done]].
  - apply NoDup_fmap_2; [|done]. by intros y z [= ->].
  - intros [a b] (y & [= -> ->] & Hy)%list_elem_of_fmap Hin.
    apply elem_of_pairs_of in Hin as [Hin _]. done.
Qed.

Lemma sorted_lt_NoDup xs : StronglySorted Nat.lt xs -> NoDup xs.
Proof.
  induction 1 as [|x xs Hs IH Hx]; constructor; [|done].
  intros Hin. rewrite Forall_forall in Hx. specialize (Hx _ Hin). unfold Nat.lt in Hx. lia.
Qed.

Lemma filter_eq_NoDup {A} `{EqDecision A} (l : list A) k :
  NoDup l -> length (filter (fun x => x = k) l) = if bool_decide (k ∈ l) then 1%nat else 0%nat.
Proof.
  induction 1 as [|x l Hx Hnd IH].
  - rewrite filter_nil. rewrite bool_decide_eq_false_2; [done|]. by intros ?%elem_of_nil.
  - rewrite filter_cons. destruct (decide (x = k)) as [->|Hne].
    + simpl. rewrite IH. rewrite (bool_decide_eq_false_2 (k ∈ l)) by done.
      rewrite bool_decide_eq_true_2; [done|]. by left.
    + rewrite IH. apply f_equal with (f := fun b : bool => if b then 1%nat else 0%nat).
      apply bool_decide_ext. rewrite elem_of_cons. split; [by right|]. by intros [?|?].
Qed.

Lemma filter_flat_map_length {A B} (P : B -> Prop) `{!forall x, Decision (P x)}
    (f : A -> list B) (l : list A) :
  length (filter P (flat_map f l)) = sum_list_with (fun x => length (filter P (f x))) l.
Proof.
  induction l as [|x l IH]; simpl; [done|].
  rewrite filter_app, length_app, IH. done.
Qed.

Lemma sum_indicator {A} (P : A -> Prop) `{!forall x, Decision (P x)} (l : list A) :
  sum_list_with (fun x => if bool_decide (P x) then 1%nat else 0%nat) l = length (filter P l).
Proof.
  induction l as [|x l IH]; simpl; [done|].
  rewrite filter_cons. case_bool_decide; destruct (decide (P x)); try done; simpl; lia.
Qed.

(** The number of times the pair key [a-b] is counted. *)
Lemma pair_occurrences data a b :
  Forall (fun d => StronglySorted Nat.lt (numbers d)) data ->
  length (filter (fun x => x = (a, b)) (flat_map (fun d => pairs_of (numbers d)) data))
  = if Nat.ltb a b then drawsWithBoth a b data else 0%nat.
Proof.
  intros Hdata. rewrite filter_flat_map_length. unfold drawsWithBoth.
  rewrite <- sum_indicator.
  destruct (Nat.ltb_spec a b) as [Hlt|Hge].
  - induction Hdata as [|d data Hd _ IH]; simpl; [done|]. rewrite IH. f_equal.
    rewrite filter_eq_NoDup by (by apply pairs_of_NoDup, sorted_lt_NoDup).
    apply f_equal with (f := fun b : bool => if b then 1%nat else 0%nat).
    apply bool_decide_ext. rewrite pairs_of_sorted by done. tauto.
  - induction Hdata as [|d data Hd _ IH]; simpl; [done|]. rewrite IH.
    rewrite filter_eq_NoDup by (by apply pairs_of_NoDup, sorted_lt_NoDup).
    rewrite bool_decide_eq_false_2; [done|]. rewrite pairs_of_sorted by done. lia.
Qed.

Lemma pairCounts_fold data : forall o,
  fold_left (fun pairs draw => fold_left (obump pair_eqb) (pairs_of (numbers draw)) pairs) data o
  = fold_left (obump pair_eqb) (flat_map (fun d => pairs_of (numbers d)) data) o.
Proof.
  induction data as [|d data IH]; intros o; simpl; [done|].
  by rewrite IH, fold_left_app.
Qed.

Lemma pairCounts_entries data e :
  Forall (fun d => StronglySorted Nat.lt (numbers d)) data ->
  e ∈ pairCounts data ->
  (fst (fst e) < snd (fst e))%nat /\
  snd e = drawsWithBoth (fst (fst e)) (snd (fst e)) data /\ (1 <= snd e)%nat.
Proof.
  intros Hdata He. unfold pairCounts in He. rewrite pairCounts_fold in He.
  apply (obump_fold_entries pair_eqb pair_eqb_spec) in He as [Hin Hc].
  destruct e as [[a b] c]. simpl in *.
  rewrite (pair_occurrences data a b Hdata) in Hc.
  assert (Hpos : (1 <= length (filter (fun x => x = (a, b))
                                (flat_map (fun d => pairs_of (numbers d)) data)))%nat).
  { apply list_elem_of_In, in_split in Hin as (l1 & l2 & ->).
    rewrite filter_app, filter_cons, decide_True by done. rewrite length_app. simpl. lia. }
  rewrite (pair_occurrences data a b Hdata) in Hpos.
  destruct (Nat.ltb_spec a b); [|lia]. split; [done|]. split; [done|lia].
Qed.

Lemma pairCounts_get data a b :
  Forall (fun d => StronglySorted Nat.lt (numbers d)) data ->
  default 0%nat (oget pair_eqb (pairCounts data) (a, b))
  = if Nat.ltb a b then drawsWithBoth a b data else 0%nat.
Proof.
  intros Hdata. unfold pairCounts. rewrite pairCounts_fold.
  rewrite (obump_fold_get pair_eqb pair_eqb_spec). simpl.
  by apply pair_occurrences.
Qed.

Lemma by_count_sorted {K} (l : list (K * nat)) :
  StronglySorted (fun x y : K * nat => (snd y <= snd x)%nat) (js_sort by_count_desc l).
Proof.
  apply js_sort_stable with (orig := fun _ _ => True).
  - intros a b c _ _ _. lia.
  - intros a b _ _. unfold by_count_desc. intros H%Nat.ltb_lt. lia.
  - intros a b _ _. unfold by_count_desc. intros H%Nat.ltb_ge _. lia.
  - induction l; constructor; [done|]. by apply Forall_forall.
Qed.

(** X6: When the numbers of every draw are in ascending order, [getCommonPairs
    count] returns at most [count] pairs [(a, b)] with [a < b], each with the
    number of draws that hold both [a] and [b] (at least 1), by descending
    count; no pair left out occurs in more draws than a pair returned. *)
Theorem common_pairs_ranking (data : list Draw) (count : nat) :
  Forall (fun d => StronglySorted Nat.lt (numbers d)) data ->
  let pairs := getCommonPairs data count in
  (length pairs <= count)%nat /\
  StronglySorted (fun x y : (nat * nat) * nat => (snd y <= snd x)%nat) pairs /\
  (forall a b c, ((a, b), c) ∈ pairs ->
     (a < b)%nat /\ c = drawsWithBoth a b data /\ (1 <= c)%nat) /\
  (forall a b, (a < b)%nat -> (a, b) ∉ map fst pairs ->
     forall e, e ∈ pairs -> (drawsWithBoth a b data <= snd e)%nat).
Proof.
  intros Hdata pairs. unfold pairs, getCommonPairs.
  set (sorted := js_sort by_count_desc (pairCounts data)).
  assert (Hs : StronglySorted (fun x y : (nat * nat) * nat => (snd y <= snd x)%nat) sorted)
    by apply by_count_sorted.
  assert (Hperm : sorted ≡ₚ pairCounts data) by apply js_sort_perm.
  split; [rewrite length_take; lia|].
  rewrite <- (take_drop count sorted) in Hs.
  split; [by eapply StronglySorted_app_1_l|].
  split.
  - intros a b c Hin.
    assert (Hin' : ((a, b), c) ∈ pairCounts data).
    { rewrite <- Hperm. eapply elem_of_sublist; [exact Hin|]. apply sublist_take. }
    apply (pairCounts_entries data _ Hdata) in Hin'. simpl in Hin'. done.
  - intros a b Hlt Hnot e He.
    destruct (oget pair_eqb (pairCounts data) (a, b)) as [c|] eqn:Hget.
    + assert (Hc := pairCounts_get data a b Hdata). rewrite Hget in Hc. simpl in Hc.
      destruct (Nat.ltb_spec a b); [|lia]. subst c.
      apply (elem_oget pair_eqb pair_eqb_spec) in Hget.
      rewrite <- Hperm, <- (take_drop count sorted) in Hget.
      apply elem_of_app in Hget as [Hget|Hget].
      * exfalso. apply Hnot. apply list_elem_of_fmap.
        exists ((a, b), drawsWithBoth a b data). split; [done|exact Hget].
      * apply (StronglySorted_app_1_elem_of _ _ _ _ _ Hs He Hget).
    + assert (Hc := pairCounts_get data a b Hdata). rewrite Hget in Hc. simpl in Hc.
      destruct (Nat.ltb_spec a b); [|lia]. lia.
Qed.

Lemma fold_obump_map {A K} (eqb : K -> K -> bool) (f : A -> K) (l : list A) : forall o,
  fold_left (fun o x => obump eqb o (f x)) l o = fold_left (obump eqb) (map f l) o.
Proof. induction l as [|x l IH]; intros o; simpl; [done|]. by rewrite IH. Qed.

Lemma filter_map_length {A B} (P : B -> Prop) `{!forall x, Decision (P x)}
    (f : A -> B) (l : list A) :
  length (filter P (map f l)) = length (filter (fun x => P (f x)) l).
Proof.
  induction l as [|x l IH]; simpl; [done|].
  rewrite !filter_cons. destruct (decide (P (f x))); simpl; by rewrite IH.
Qed.

Lemma filter_length_ext {A} (P Q : A -> Prop) `{!forall x, Decision (P x)}
    `{!forall x, Decision (Q x)} (l : list A) :
  Forall (fun x => P x <-> Q x) l -> length (filter P l) = length (filter Q l).
Proof.
  induction 1 as [|x l Hx _ IH]; [done|].
  rewrite !filter_cons. destruct (decide (P x)), (decide (Q x)); simpl; try tauto; by rewrite IH.
Qed.

(** X7: On a valid history [getOddEvenDistribution] has one entry per odd/even
    split that occurs: the split [(o, e)] has [o + e = pick] and its count is
    the number of draws with [o] odd numbers; the counts add up to the number
    of draws. *)
Theorem odd_even_distribution (g : GameConfig) (data : list Draw) :
  valid_data g data ->
  let distribution := getOddEvenDistribution data in
  NoDup (map fst distribution) /\
  (forall o e c, ((o, e), c) ∈ distribution ->
     (o + e = pick g)%nat /\ c = drawsWithOdds o data /\ (1 <= c)%nat) /\
  sum_list_with snd distribution = length data.
Proof.
  intros Hdata distribution. unfold distribution, getOddEvenDistribution.
  rewrite (fold_obump_map pair_eqb
             (fun draw => (count_odd (numbers draw),
                           (length (numbers draw) - count_odd (numbers draw))%nat))).
  set (ks := map _ data).
  destruct (obump_fold_keys pair_eqb pair_eqb_spec ks []) as [Hnd _]; [constructor|].
  split; [done|]. split.
  - intros o e c Hin.
    apply (obump_fold_entries pair_eqb pair_eqb_spec) in Hin as [Hk Hc]. simpl in Hk, Hc.
    unfold ks in Hk. apply list_elem_of_fmap in Hk as (d & [= -> ->] & Hd).
    unfold valid_data in Hdata. rewrite Forall_forall in Hdata.
    destruct (Hdata d Hd) as (Hlen & _ & _).
    assert (Hle := count_odd_le (numbers d)).
    split; [lia|].
    assert (Hc' : c = drawsWithOdds (count_odd (numbers d)) data).
    { rewrite Hc. unfold ks, drawsWithOdds. rewrite filter_map_length.
      apply filter_length_ext. apply Forall_forall. intros d' Hd'.
      destruct (Hdata d' Hd') as (Hlen' & _ & _).
      assert (Hle' := count_odd_le (numbers d')).
      split; [by intros [= -> _]|]. intros Ho. f_equal; [done|]. lia. }
    split; [done|]. rewrite Hc'. unfold drawsWithOdds.
    apply list_elem_of_In, in_split in Hd as (l1 & l2 & ->).
    rewrite filter_app, filter_cons, decide_True by done. rewrite length_app. simpl. lia.
  - rewrite obump_fold_total. simpl. unfold ks. by rewrite length_map.
Qed.

(** [Math.min] and [Math.max] over counts. *)
Lemma min_of_nat a b : JS.min (JS.of_nat a) (JS.of_nat b) = JS.of_nat (Nat.min a b).
Proof.
  unfold JS.min, JS.le, JS.of_nat.
  destruct (Qle_bool _ _) eqn:E.
  - apply Qle_bool_iff in E. rewrite <- Zle_Qle in E. do 3 f_equal. lia.
  - assert (~ (Z.of_nat a <= Z.of_nat b)%Z).
    { intros Hc. rewrite Zle_Qle in Hc. apply Qle_bool_iff in Hc. congruence. }
    do 3 f_equal. lia.
Qed.

Lemma max_of_nat a b : JS.max (JS.of_nat a) (JS.of_nat b) = JS.of_nat (Nat.max a b).
Proof.
  unfold JS.max, JS.le, JS.of_nat.
  destruct (Qle_bool _ _) eqn:E.
  - apply Qle_bool_iff in E. rewrite <- Zle_Qle in E. do 3 f_equal. lia.
  - assert (~ (Z.of_nat a <= Z.of_nat b)%Z).
    { intros Hc. rewrite Zle_Qle in Hc. apply Qle_bool_iff in Hc. congruence. }
    do 3 f_equal. lia.
Qed.

Lemma fold_min_of_nat l : forall a,
  fold_left JS.min (map JS.of_nat l) (JS.of_nat a) = JS.of_nat (fold_left Nat.min l a).
Proof.
  induction l as [|x l IH]; intros a; cbn [fold_left map]; [done|].
  by rewrite min_of_nat, IH.
Qed.

Lemma fold_max_of_nat l : forall a,
  fold_left JS.max (map JS.of_nat l) (JS.of_nat a) = JS.of_nat (fold_left Nat.max l a).
Proof.
  induction l as [|x l IH]; intros a; cbn [fold_left map]; [done|].
  by rewrite max_of_nat, IH.
Qed.

Lemma fold_min_spec l : forall a,
  (fold_left Nat.min l a = a \/ fold_left Nat.min l a ∈ l) /\
  (fold_left Nat.min l a <= a)%nat /\
  (forall x, x ∈ l -> (fold_left Nat.min l a <= x)%nat).
Proof.
  induction l as [|x l IH]; intros a; simpl.
  - split; [by left|]. split; [done|]. by intros x ?%elem_of_nil.
  - destruct (IH (Nat.min a x)) as (Hin & Hle & Hall).
    split; [|split; [lia|]].
    + destruct Hin as [Hin|Hin]; [|right; by right].
      rewrite Hin. destruct (Nat.min_spec a x) as [[_ E]|[_ E]]; rewrite E; [by left|].
      right. by left.
    + intros y [->|Hy]%elem_of_cons; [lia|by apply Hall].
Qed.

Lemma fold_max_nat_spec l : forall a,
  (fold_left Nat.max l a = a \/ fold_left Nat.max l a ∈ l) /\
  (a <= fold_left Nat.max l a)%nat /\
  (forall x, x ∈ l -> (x <= fold_left Nat.max l a)%nat).
Proof.
  induction l as [|x l IH]; intros a; simpl.
  - split; [by left|]. split; [done|]. by intros x ?%elem_of_nil.
  - destruct (IH (Nat.max a x)) as (Hin & Hle & Hall).
    split; [|split; [lia|]].
    + destruct Hin as [Hin|Hin]; [|right; by right].
      rewrite Hin. destruct (Nat.max_spec a x) as [[_ E]|[_ E]]; rewrite E; [|by left].
      right. by left.
    + intros y [->|Hy]%elem_of_cons; [lia|by apply Hall].
Qed.

Lemma sum_of_nat_list l :
  JS.sum (map JS.of_nat l) = JS.of_nat (sum_list l).
Proof.
  assert (H : forall a, fold_left JS.add (map JS.of_nat l) (JS.of_nat a)
                        = JS.of_nat (a + sum_list l)).
  { induction l as [|x l IH]; intros a; cbn [fold_left map sum_list_with].
    - f_equal. lia.
    - rewrite add_of_nat, IH. f_equal. unfold id. lia. }
  exact (H 0%nat).
Qed.

Lemma sum_list_bounds l lo hi :
  (forall x, x ∈ l -> (lo <= x <= hi)%nat) ->
  (lo * length l <= sum_list l <= hi * length l)%nat.
Proof.
  induction l as [|x l IH]; intros H; simpl; [lia|].
  assert (Hx := H x ltac:(by left)).
  destruct IH as [H1 H2]; [intros y Hy; apply H; by right|].
  rewrite !Nat.mul_succ_r. lia.
Qed.

(** X8: On a non-empty history the [min] and [max] of [getSumDistribution] are
    sums of draws that bound every draw's sum, [avg] is the total of the sums
    divided by the number of draws, and [min <= avg <= max]. *)
Theorem sum_distribution_bounds (data : list Draw) :
  data <> [] ->
  let sums := map (fun d => sum_nat (numbers d)) data in
  let dist := getSumDistribution data in
  exists lo hi : nat,
    sd_min dist = JS.of_nat lo /\ sd_max dist = JS.of_nat hi /\
    lo ∈ sums /\ hi ∈ sums /\
    (forall x, x ∈ sums -> (lo <= x <= hi)%nat) /\
    sd_avg dist = Fin (inject_Z (Z.of_nat (sum_list sums)) / inject_Z (Z.of_nat (length data))) /\
    JS.le (sd_min dist) (sd_avg dist) = true /\
    JS.le (sd_avg dist) (sd_max dist) = true.
Proof.
  intros Hne sums dist. unfold dist, getSumDistribution. cbn [sd_min sd_max sd_avg].
  fold sums.
  destruct sums as [|x sums'] eqn:Hsums.
  { destruct data; [done|discriminate]. }
  rewrite <- Hsums.
  assert (Hmin : JS.min_list (map JS.of_nat sums) = JS.of_nat (fold_left Nat.min sums' x)).
  { rewrite Hsums. unfold JS.min_list. cbn [map fold_left].
    change (JS.min PInf (JS.of_nat x)) with (JS.of_nat x). apply fold_min_of_nat. }
  assert (Hmax : JS.max_list (map JS.of_nat sums) = JS.of_nat (fold_left Nat.max sums' x)).
  { rewrite Hsums. unfold JS.max_list. cbn [map fold_left].
    change (JS.max NInf (JS.of_nat x)) with (JS.of_nat x). apply fold_max_of_nat. }
  destruct (fold_min_spec sums' x) as (Hin1 & Hle1 & Hall1).
  destruct (fold_max_nat_spec sums' x) as (Hin2 & Hle2 & Hall2).
  set (lo := fold_left Nat.min sums' x) in *.
  set (hi := fold_left Nat.max sums' x) in *.
  assert (Hbounds : forall y, y ∈ sums -> (lo <= y <= hi)%nat).
  { rewrite Hsums. intros y [->|Hy]%elem_of_cons; [lia|].
    split; [by apply Hall1|by apply Hall2]. }
  assert (Hlen : length sums = length data) by (unfold sums; apply length_map).
  assert (Hpos : (1 <= length data)%nat) by (destruct data; [done|simpl; lia]).
  exists lo, hi. rewrite Hmin, Hmax.
  split; [done|]. split; [done|].
  split. { rewrite Hsums. destruct Hin1 as [->|?]; [by left|by right]. }
  split. { rewrite Hsums. destruct Hin2 as [->|?]; [by left|by right]. }
  split; [done|].
  rewrite sum_of_nat_list, Hlen.
  assert (Hdiv : JS.div (JS.of_nat (sum_list sums)) (JS.of_nat (length data))
                 = Fin (inject_Z (Z.of_nat (sum_list sums)) / inject_Z (Z.of_nat (length data)))).
  { unfold JS.of_nat. apply div_fin. intros Hc.
    unfold Qeq in Hc. simpl in Hc. lia. }
  rewrite Hdiv. split; [done|].
  assert (Hsum := sum_list_bounds sums lo hi Hbounds). rewrite Hlen in Hsum.
  assert (HL : 0 < inject_Z (Z.of_nat (length data))).
  { change 0 with (inject_Z 0). rewrite <- Zlt_Qlt. lia. }
  unfold JS.le, JS.of_nat. split; apply Qle_bool_iff.
  - apply Qle_shift_div_l; [done|]. rewrite <- inject_Z_mult, <- Zle_Qle. lia.
  - apply Qle_shift_div_r; [done|]. rewrite <- inject_Z_mult, <- Zle_Qle. lia.
Qed.

(** X9: The [ranges] of [getSumDistribution] have one entry per bucket of width 20
    that holds a draw's sum: the bucket starts at a multiple of 20, its count
    is the number of draws whose sum lies in [start .. start + 19], and the
    counts add up to the number of draws. *)
Theorem sum_distribution_ranges (data : list Draw) :
  let ranges := sd_ranges (getSumDistribution data) in
  NoDup (map fst ranges) /\
  (forall start c, (start, c) ∈ ranges ->
     (start mod 20 = 0)%nat /\ c = drawsWithSumIn start (start + 19) data /\ (1 <= c)%nat) /\
  sum_list_with snd ranges = length data.
Proof.
  intros ranges. unfold ranges, getSumDistribution. cbn [sd_ranges].
  rewrite (fold_obump_map Nat.eqb (fun sum => (sum / 20 * 20)%nat)).
  rewrite map_map.
  set (ks := map _ data).
  destruct (obump_fold_keys Nat.eqb Nat.eqb_eq ks []) as [Hnd _]; [constructor|].
  split; [done|]. split.
  - intros start c Hin.
    apply (obump_fold_entries Nat.eqb Nat.eqb_eq) in Hin as [Hk Hc]. simpl in Hk, Hc.
    unfold ks in Hk. apply list_elem_of_fmap in Hk as (d & -> & Hd).
    split. { apply Nat.Div0.mod_mul. }
    assert (Hc' : c = drawsWithSumIn (sum_nat (numbers d) / 20 * 20)
                                     (sum_nat (numbers d) / 20 * 20 + 19) data).
    { rewrite Hc. unfold ks, drawsWithSumIn. rewrite filter_map_length.
      apply filter_length_ext. apply Forall_forall. intros d' _.
      set (x := sum_nat (numbers d')). set (y := sum_nat (numbers d)).
      assert (Hx := Nat.div_mod_eq x 20). assert (Hy := Nat.div_mod_eq y 20).
      assert (Hx' := Nat.mod_upper_bound x 20). assert (Hy' := Nat.mod_upper_bound y 20).
      split; [intros E; lia|]. intros [H1 H2].
      assert (x / 20 = y / 20)%nat; [|lia].
      symmetry. apply (Nat.div_unique x 20 (y / 20) (x - y / 20 * 20)); lia. }
    split; [done|]. rewrite Hc'. unfold drawsWithSumIn.
    apply list_elem_of_In, in_split in Hd as (l1 & l2 & ->).
    rewrite filter_app, filter_cons, length_app.
    rewrite decide_True.
    + simpl. lia.
    + assert (Hy := Nat.div_mod_eq (sum_nat (numbers d)) 20).
      assert (Hy' := Nat.mod_upper_bound (sum_nat (numbers d)) 20). lia.
  - rewrite obump_fold_total. simpl. unfold ks. by rewrite length_map.
Qed.

(** ** Objects whose keys are built from an index *)

Section Indexed.

Context {K V : Type}.
Variable eqb : K -> K -> bool.
Hypothesis eqb_spec : forall a b, eqb a b = true <-> a = b.
Variable key : nat -> K.
Hypothesis key_inj : forall i j, key i = key j -> i = j.

Lemma oget_indexed (c : nat -> V) a n i :
  (a <= i < a + n)%nat ->
  oget eqb (map (fun j => (key j, c j)) (seq a n)) (key i) = Some (c i).
Proof.
  revert a. induction n as [|n IH]; intros a Hi; [lia|]. simpl.
  destruct (eqb (key i) (key a)) eqn:E.
  - apply eqb_spec, key_inj in E. by subst.
  - apply IH. assert (i <> a) by (intros ->; rewrite (eqb_refl_ok eqb eqb_spec) in E; done). lia.
Qed.

Lemma oset_indexed (c : nat -> V) a n i v :
  (a <= i < a + n)%nat ->
  oset eqb (map (fun j => (key j, c j)) (seq a n)) (key i) v
  = map (fun j => (key j, if Nat.eqb j i then v else c j)) (seq a n).
Proof.
  revert a. induction n as [|n IH]; intros a Hi; [lia|]. simpl.
  destruct (eqb (key i) (key a)) eqn:E.
  - apply eqb_spec, key_inj in E. subst. rewrite Nat.eqb_refl. f_equal.
    apply map_ext_in. intros j Hj%in_seq. destruct (Nat.eqb_spec j a); [lia|done].
  - assert (i <> a) by (intros ->; rewrite (eqb_refl_ok eqb eqb_spec) in E; done).
    destruct (Nat.eqb_spec a i); [lia|]. f_equal. apply IH. lia.
Qed.

End Indexed.

Lemma decade_key_inj g i j : decade_key g i = decade_key g j -> i = j.
Proof. unfold decade_key. intros [= H _]. lia. Qed.

Lemma decade_index_bound g n :
  (1 <= n <= balls g)%nat -> ((n - 1) / 10 < decade_count g)%nat.
Proof.
  intros Hn. unfold decade_count.
  apply Nat.Div0.div_lt_upper_bound.
  assert (H := Nat.div_mod_eq (balls g + 9) 10).
  assert (H' := Nat.mod_upper_bound (balls g + 9) 10). lia.
Qed.

Lemma decade_of_number n i :
  (1 <= n)%nat -> ((n - 1) / 10 = i <-> 10 * i + 1 <= n <= 10 * i + 10)%nat.
Proof.
  intros Hn. assert (H := Nat.div_mod_eq (n - 1) 10).
  assert (H' := Nat.mod_upper_bound (n - 1) 10). split.
  - intros <-. lia.
  - intros [H1 H2]. symmetry. apply (Nat.div_unique (n - 1) 10 i (n - 1 - 10 * i)); lia.
Qed.

Lemma decade_step g (c : nat -> nat) ns :
  Forall (fun n => (1 <= n <= balls g)%nat) ns ->
  fold_left (fun dec num =>
               let k := decade_key g ((num - 1) / 10) in
               let old := match oget pair_eqb dec k with Some v => v | None => NaN end in
               oset pair_eqb dec k (JS.add old (Fin 1)))
            ns (map (fun i => (decade_key g i, JS.of_nat (c i))) (seq 0 (decade_count g)))
  = map (fun i => (decade_key g i,
                   JS.of_nat (c i + length (filter (fun n => (10 * i + 1 <= n <= 10 * i + 10)%nat) ns))))
        (seq 0 (decade_count g)).
Proof.
  revert c. induction ns as [|n ns IH]; intros c Hns; cbn [fold_left].
  - apply map_ext_in. intros i _. rewrite filter_nil. simpl. do 2 f_equal. lia.
  - apply Forall_cons in Hns as [Hn Hns]. cbv zeta.
    assert (Hb := decade_index_bound g n Hn).
    rewrite (oget_indexed pair_eqb pair_eqb_spec (decade_key g) (decade_key_inj g)
               (fun i => JS.of_nat (c i))) by lia.
    rewrite (oset_indexed pair_eqb pair_eqb_spec (decade_key g) (decade_key_inj g)
               (fun i => JS.of_nat (c i))) by lia.
    rewrite succ_of_nat.
    rewrite (map_ext_in _ (fun i => (decade_key g i,
               JS.of_nat ((fun j => if Nat.eqb j ((n - 1) / 10) then S (c j) else c j) i)))).
    2:{ intros i _. by destruct (Nat.eqb_spec i ((n - 1) / 10)) as [->|]. }
    rewrite IH by done. apply map_ext_in. intros i _. do 2 f_equal.
    rewrite filter_cons.
    destruct (Nat.eqb_spec i ((n - 1) / 10)) as [E|E].
    + symmetry in E. apply decade_of_number in E; [|lia].
      rewrite decide_True by done. simpl. lia.
    + rewrite decide_False; [done|]. intros Hc. apply decade_of_number in Hc; [|lia]. done.
Qed.

Lemma getDecadeDistribution_spec g data :
  valid_data g data ->
  getDecadeDistribution g data
  = map (fun i => (decade_key g i, JS.of_nat (drawnInDecade i data))) (seq 0 (decade_count g)).
Proof.
  intros Hdata. apply valid_data_range in Hdata. unfold getDecadeDistribution, drawnInDecade.
  assert (Hgen : forall c : nat -> nat,
    fold_left (fun dec draw =>
                 fold_left (fun dec num =>
                              let k := decade_key g ((num - 1) / 10) in
                              let old := match oget pair_eqb dec k with
                                         | Some v => v | None => NaN end in
                              oset pair_eqb dec k (JS.add old (Fin 1)))
                           (numbers draw) dec)
              data (map (fun i => (decade_key g i, JS.of_nat (c i))) (seq 0 (decade_count g)))
    = map (fun i => (decade_key g i,
                     JS.of_nat (c i + length (filter (fun n => (10 * i + 1 <= n <= 10 * i + 10)%nat)
                                                     (flat_map numbers data)))))
          (seq 0 (decade_count g))).
  { induction Hdata as [|d data Hd _ IH]; intros c; cbn [fold_left flat_map].
    - apply map_ext_in. intros i _. rewrite filter_nil. simpl. do 2 f_equal. lia.
    - rewrite decade_step by done. rewrite IH. apply map_ext_in. intros i _.
      do 2 f_equal. rewrite filter_app, length_app. lia. }
  exact (Hgen (fun _ => 0%nat)).
Qed.

(** Every number of a list falls in exactly one class. *)
Lemma sum_classes {A} (cls : A -> nat) (l : list A) m :
  Forall (fun x => (cls x < m)%nat) l ->
  sum_list_with (fun i => length (filter (fun x => cls x = i) l)) (seq 0 m) = length l.
Proof.
  induction 1 as [|x l Hx _ IH]; cbn [length].
  - induction (seq 0 m) as [|i s IHs]; [done|].
    cbn [sum_list_with]. rewrite IHs. by rewrite filter_nil.
  - rewrite <- IH.
    assert (Hone : forall a n, sum_list_with (fun i => if decide (cls x = i) then 1%nat else 0%nat) (seq a n)
                               = if bool_decide (a <= cls x < a + n)%nat then 1%nat else 0%nat).
    { intros a n. revert a. induction n as [|n IHn]; intros a; simpl.
      - rewrite bool_decide_eq_false_2; [done|lia].
      - rewrite IHn. destruct (decide (cls x = a)) as [E|E].
        + rewrite bool_decide_eq_false_2 by lia. rewrite bool_decide_eq_true_2 by lia. done.
        + simpl. apply f_equal with (f := fun b : bool => if b then 1%nat else 0%nat).
          apply bool_decide_ext. lia. }
    specialize (Hone 0%nat m). rewrite bool_decide_eq_true_2 in Hone by lia.
    assert (Hsplit : forall s,
      sum_list_with (fun i => length (filter (fun y => cls y = i) (x :: l))) s
      = (sum_list_with (fun i => if decide (cls x = i) then 1%nat else 0%nat) s
         + sum_list_with (fun i => length (filter (fun y => cls y = i) l)) s)%nat).
    { intros s. induction s as [|i s IHs]; simpl; [done|].
      rewrite IHs, filter_cons. destruct (decide (cls x = i)); simpl; lia. }
    rewrite Hsplit, Hone. done.
Qed.

Lemma sum_list_map {A} (f : A -> nat) (l : list A) :
  sum_list (map f l) = sum_list_with f l.
Proof. induction l as [|x l IH]; simpl; [done|]. by rewrite IH. Qed.

Lemma sum_list_with_ext {A} (f h : A -> nat) (l : list A) :
  (forall x, x ∈ l -> f x = h x) -> sum_list_with f l = sum_list_with h l.
Proof.
  induction l as [|x l IH]; intros H; simpl; [done|].
  rewrite H by (by left). rewrite IH; [done|]. intros y Hy. apply H. by right.
Qed.

(** X10: On a valid history [getDecadeDistribution] has one entry for each decade
    [10 i + 1 .. 10 i + 10] up to [balls], in ascending order, with the
    number of drawn numbers that fall in it; the entries add up to the number
    of draws times [pick]. *)
Theorem decade_distribution (g : GameConfig) (data : list Draw) :
  valid_data g data ->
  getDecadeDistribution g data
  = map (fun i => (decade_key g i, JS.of_nat (drawnInDecade i data))) (seq 0 (decade_count g)) /\
  JS.sum (map snd (getDecadeDistribution g data)) = JS.of_nat (length data * pick g).
Proof.
  intros Hdata. split; [by apply getDecadeDistribution_spec|].
  rewrite getDecadeDistribution_spec by done. rewrite map_map. cbn [snd].
  rewrite <- (map_map (fun i => drawnInDecade i data) JS.of_nat), sum_of_nat_list. f_equal.
  unfold drawnInDecade.
  assert (Hr := valid_data_range g data Hdata).
  assert (Hall : Forall (fun n => (1 <= n <= balls g)%nat) (flat_map numbers data)).
  { apply Forall_forall. intros n (d & Hd & Hn)%list_elem_of_In%in_flat_map.
    rewrite Forall_forall in Hr. specialize (Hr d (proj2 (list_elem_of_In _ _) Hd)).
    rewrite Forall_forall in Hr. apply Hr. by apply list_elem_of_In. }
  assert (Hlen : length (flat_map numbers data) = (length data * pick g)%nat).
  { clear Hr Hall. induction Hdata as [|d data (Hl & _ & _) _ IH]; simpl; [done|].
    rewrite length_app, IH, Hl. lia. }
  rewrite <- Hlen, <- (sum_classes (fun n => ((n - 1) / 10)%nat) (flat_map numbers data) (decade_count g)).
  - rewrite sum_list_map. apply sum_list_with_ext. intros i _.
    apply filter_length_ext.
    eapply Forall_impl; [exact Hall|]. intros n Hn. cbv beta in *.
    symmetry. apply decade_of_number. lia.
  - eapply Forall_impl; [exact Hall|]. intros n Hn. by apply decade_index_bound.
Qed.

(** ** Counting into an integer-keyed object: [t[k] = (t[k] || 0) + 1] *)

Lemma or_else_of_nat n : JS.or_else (JS.of_nat n) (Fin 0) = JS.of_nat n.
Proof.
  unfold JS.or_else, JS.truthy, JS.of_nat, JS.Qzero_b.
  destruct (Qeq_bool _ 0) eqn:E; [|done]. cbn [negb].
  apply Qeq_bool_iff in E. unfold Qeq in E. cbn [Qnum Qden inject_Z] in E.
  unfold inject_Z. f_equal. f_equal. lia.
Qed.

Lemma keys_NoDup_tget {V} (t : list (nat * V)) k v :
  StronglySorted Nat.lt (keys t) -> (k, v) ∈ t -> tget t k = Some v.
Proof.
  induction t as [|[k0 v0] t IH]; simpl; [by intros _ ?%elem_of_nil|].
  intros [Hk0 Hs]%StronglySorted_cons [[= -> ->]|Hin]%elem_of_cons.
  - by rewrite Nat.eqb_refl.
  - destruct (Nat.eqb_spec k k0) as [->|]; [|by apply IH].
    exfalso. rewrite Forall_forall in Hk0.
    assert (Hk : k0 ∈ keys t) by (apply list_elem_of_fmap; by exists (k0, v)).
    specialize (Hk0 _ Hk). unfold Nat.lt in Hk0. lia.
Qed.

Lemma tget_none_keys {V} (t : list (nat * V)) k : tget t k = None <-> k ∉ keys t.
Proof.
  induction t as [|[k0 v0] t IH]; simpl.
  - split; [intros _ ?%elem_of_nil; done|done].
  - destruct (Nat.eqb_spec k k0) as [->|Hne].
    + split; [done|]. intros H. exfalso. apply H. by left.
    + rewrite IH, not_elem_of_cons. tauto.
Qed.

Lemma keys_tset_iff {V} (t : list (nat * V)) k v k' :
  k' ∈ keys (tset t k v) <-> k' = k \/ k' ∈ keys t.
Proof.
  unfold keys. induction t as [|[k0 v0] t IH]; simpl.
  - rewrite list_elem_of_singleton, elem_of_nil. tauto.
  - destruct (Nat.eqb_spec k k0) as [->|Hne]; simpl.
    + rewrite !elem_of_cons. tauto.
    + destruct (Nat.ltb k k0); simpl; rewrite !elem_of_cons; [tauto|].
      rewrite IH. tauto.
Qed.

Lemma tset_elem_inv {V} (t : list (nat * V)) k v e :
  StronglySorted Nat.lt (keys t) ->
  e ∈ tset t k v -> e = (k, v) \/ (e ∈ t /\ fst e <> k).
Proof.
  intros Hs He. destruct e as [k' v'].
  destruct (Nat.eq_dec k' k) as [->|Hne].
  - left. assert (Hs' := keys_tset_sorted t k v Hs).
    apply (keys_NoDup_tget _ _ _ Hs') in He. rewrite tget_tset_eq in He. congruence.
  - right. apply elem_of_tset in He as [[= -> ->]|He]; [done|]. done.
Qed.

Lemma count_into_counts (c : nat -> nat) (t : table) k :
  counts_of c t ->
  counts_of (fun j => if Nat.eqb j k then S (c j) else c j) (count_into t k).
Proof.
  intros (Hs & Hk & Hv). unfold count_into.
  assert (Hold : JS.or_else (tnum t k) (Fin 0) = JS.of_nat (c k)).
  { unfold tnum. destruct (tget t k) as [v|] eqn:Hget.
    - apply tget_elem in Hget. rewrite (Hv _ _ Hget). apply or_else_of_nat.
    - apply tget_none_keys in Hget. rewrite Hk in Hget.
      assert (E0 : c k = 0%nat).
      { destruct (c k) eqn:Ec; [done|]. exfalso. apply Hget. lia. }
      rewrite E0. reflexivity. }
  rewrite Hold, succ_of_nat.
  split; [by apply keys_tset_sorted|]. split.
  - intros j. rewrite keys_tset_iff, Hk. destruct (Nat.eqb_spec j k); lia.
  - intros j v Hin. apply tset_elem_inv in Hin as [[= -> ->]|[Hin Hne]]; [| |done].
    + by rewrite Nat.eqb_refl.
    + simpl in Hne. destruct (Nat.eqb_spec j k); [done|]. by apply Hv.
Qed.

Lemma count_into_fold (ks : list nat) : forall (c : nat -> nat) (t : table),
  counts_of c t ->
  counts_of (fun j => (c j + length (filter (fun x => x = j) ks))%nat)
            (fold_left count_into ks t).
Proof.
  induction ks as [|k ks IH]; intros c t Ht; cbn [fold_left].
  - destruct Ht as (Hs & Hk & Hv). split; [done|]. split.
    + intros j. rewrite Hk, filter_nil. simpl. lia.
    + intros j v Hin. rewrite (Hv _ _ Hin), filter_nil. simpl. f_equal. lia.
  - apply count_into_counts with (k := k) in Ht. apply IH in Ht.
    destruct Ht as (Hs & Hk & Hv). split; [done|].
    assert (E : forall j, ((if Nat.eqb j k then S (c j) else c j)
                           + length (filter (fun x => x = j) ks)
                           = c j + length (filter (fun x => x = j) (k :: ks)))%nat).
    { intros j. rewrite filter_cons. destruct (Nat.eqb_spec j k) as [->|Hne].
      - rewrite decide_True by done. simpl. lia.
      - rewrite decide_False by congruence. done. }
    split.
    + intros j. rewrite Hk, E. done.
    + intros j v Hin. rewrite (Hv _ _ Hin), E. done.
Qed.

Lemma counts_of_sum (c : nat -> nat) (t : table) :
  counts_of c t -> JS.sum (values t) = JS.of_nat (sum_list_with c (keys t)).
Proof.
  intros (_ & _ & Hv).
  assert (Ht : t = map (fun k => (k, JS.of_nat (c k))) (keys t)).
  { clear -Hv. induction t as [|[k v] t IH]; simpl; [done|]. f_equal.
    - f_equal. apply Hv. by left.
    - apply IH. intros j w Hin. apply Hv. by right. }
  rewrite Ht at 1. apply sum_counts.
Qed.

(** The counts of the keys of a list add up to its length. *)
Lemma sum_occurrences (ks K : list nat) :
  NoDup K -> (forall x, x ∈ ks -> x ∈ K) ->
  sum_list_with (fun j => length (filter (fun x => x = j) ks)) K = length ks.
Proof.
  intros Hnd. induction ks as [|k ks IH]; intros Hsub.
  - clear. induction K as [|j K IHK]; [done|].
    cbn [sum_list_with]. rewrite IHK. by rewrite filter_nil.
  - cbn [length]. rewrite <- IH by (intros x Hx; apply Hsub; by right).
    assert (Hk : k ∈ K) by (apply Hsub; by left).
    clear IH Hsub. induction Hnd as [|j K Hj Hnd IHK]; [by apply elem_of_nil in Hk|].
    cbn [sum_list_with]. rewrite filter_cons.
    apply elem_of_cons in Hk as [->|Hk].
    + rewrite decide_True by done. cbn [length].
      assert (Hrest : sum_list_with (fun j0 => length (filter (fun x => x = j0) (j :: ks))) K
                      = sum_list_with (fun j0 => length (filter (fun x => x = j0) ks)) K).
      { apply sum_list_with_ext. intros i Hi. rewrite filter_cons, decide_False; [done|].
        intros ->. done. }
      rewrite Hrest. lia.
    + rewrite decide_False by (intros ->; done). rewrite IHK by done. lia.
Qed.

Lemma count_into_total (ks : list nat) :
  JS.sum (values (fold_left count_into ks [])) = JS.of_nat (length ks).
Proof.
  assert (H0 : counts_of (fun _ => 0%nat) []).
  { split; [constructor|]. split.
    - intros k. rewrite elem_of_nil. lia.
    - by intros k v ?%elem_of_nil. }
  apply (count_into_fold ks) in H0. simpl in H0.
  rewrite (counts_of_sum _ _ H0). f_equal.
  destruct H0 as (Hs & Hk & _).
  apply sum_occurrences.
  - clear -Hs. induction Hs as [|x l Hs IH Hx]; constructor; [|done].
    intros Hin. rewrite Forall_forall in Hx. specialize (Hx _ Hin). unfold Nat.lt in Hx. lia.
  - intros x Hx. apply Hk.
    apply list_elem_of_In, in_split in Hx as (l1 & l2 & ->).
    rewrite filter_app, filter_cons, decide_True by done. rewrite length_app. simpl. lia.
Qed.

Lemma count_into_entries (ks : list nat) k v :
  (k, v) ∈ fold_left count_into ks [] ->
  k ∈ ks /\ v = JS.of_nat (length (filter (fun x => x = k) ks)).
Proof.
  intros Hin.
  assert (H0 : counts_of (fun _ => 0%nat) []).
  { split; [constructor|]. split.
    - intros j. rewrite elem_of_nil. lia.
    - by intros j w ?%elem_of_nil. }
  apply (count_into_fold ks) in H0. simpl in H0. destruct H0 as (Hs & Hk & Hv).
  split; [|by apply Hv].
  assert (Hkey : k ∈ keys (fold_left count_into ks [])) by (apply list_elem_of_fmap; by exists (k, v)).
  apply Hk in Hkey.
  destruct (decide (k ∈ ks)) as [|Hn]; [done|]. exfalso.
  assert (filter (fun x => x = k) ks = []); [|by rewrite H in Hkey; simpl in Hkey; lia].
  clear -Hn. induction ks as [|x ks IH]; [done|].
  apply not_elem_of_cons in Hn as [Hne Hn].
  rewrite filter_cons, decide_False by done. by apply IH.
Qed.

(** ** Deltas *)

Lemma sort_asc_strict ns : NoDup ns -> StronglySorted Nat.lt (sort_asc ns).
Proof.
  intros Hnd. apply Sorted_StronglySorted; [intros x y z; unfold Nat.lt; lia|].
  apply sorted_le_NoDup_lt; [apply sort_asc_sorted|by rewrite sort_asc_perm].
Qed.

Lemma gaps_length l : length (gaps l) = (length l - 1)%nat.
Proof.
  induction l as [|x [|y l] IH]; [done|done|].
  change (gaps (x :: y :: l)) with ((y - x)%nat :: gaps (y :: l)).
  cbn [length] in *. rewrite IH. lia.
Qed.

Lemma gaps_range N l :
  StronglySorted Nat.lt l -> Forall (fun n => (1 <= n <= N)%nat) l ->
  Forall (fun d => (1 <= d <= N - 1)%nat) (gaps l).
Proof.
  induction 1 as [|x l Hs IH Hx]; intros Hr; [constructor|].
  apply Forall_cons in Hr as [Hxr Hr].
  destruct l as [|y l]; [constructor|].
  change (gaps (x :: y :: l)) with ((y - x)%nat :: gaps (y :: l)).
  constructor; [|by apply IH].
  apply Forall_cons in Hx as [Hxy _]. apply Forall_cons in Hr as [Hyr _].
  unfold Nat.lt in Hxy. lia.
Qed.

Lemma drawDeltas_valid g data :
  valid_data g data ->
  Forall (fun d => (1 <= d <= balls g - 1)%nat) (drawDeltas data) /\
  length (drawDeltas data) = (length data * (pick g - 1))%nat.
Proof.
  unfold drawDeltas. induction 1 as [|d data (Hlen & Hnd & Hr) _ [IH1 IH2]]; simpl.
  - split; [constructor|done].
  - split.
    + apply Forall_app. split; [|done].
      apply gaps_range; [by apply sort_asc_strict|by rewrite sort_asc_perm].
    + rewrite length_app, IH2, gaps_length, sort_asc_perm, Hlen. lia.
Qed.

(** X11: On a valid history the keys of [getDeltaAnalysis] are gaps between
    neighbouring numbers of a sorted draw, within [1 .. balls - 1]; the value
    of a gap is the number of times it occurs (at least 1), and the values
    add up to the number of draws times [pick - 1]. *)
Theorem delta_analysis (g : GameConfig) (data : list Draw) :
  valid_data g data ->
  StronglySorted Nat.lt (keys (getDeltaAnalysis data)) /\
  (forall d v, (d, v) ∈ getDeltaAnalysis data ->
     (1 <= d <= balls g - 1)%nat /\
     v = JS.of_nat (length (filter (fun x => x = d) (drawDeltas data))) /\
     JS.ge v (Fin 1) = true) /\
  JS.sum (values (getDeltaAnalysis data)) = JS.of_nat (length data * (pick g - 1)).
Proof.
  intros Hdata. destruct (drawDeltas_valid g data Hdata) as [Hrange Hlen].
  change (getDeltaAnalysis data) with (fold_left count_into (drawDeltas data) []).
  assert (H0 : counts_of (fun _ => 0%nat) []).
  { split; [constructor|]. split.
    - intros j. rewrite elem_of_nil. lia.
    - by intros j w ?%elem_of_nil. }
  apply (count_into_fold (drawDeltas data)) in H0. destruct H0 as (Hs & Hk & _).
  split; [done|]. split.
  - intros d v Hin. destruct (count_into_entries _ _ _ Hin) as [Hd Hv].
    rewrite Forall_forall in Hrange. split; [by apply Hrange|]. split; [done|].
    assert (Hkey : d ∈ keys (fold_left count_into (drawDeltas data) [])).
    { apply list_elem_of_fmap. by exists (d, v). }
    apply Hk in Hkey. simpl in Hkey. rewrite Hv.
    unfold JS.ge, JS.le, JS.of_nat. apply Qle_bool_iff.
    change 1 with (inject_Z 1). rewrite <- Zle_Qle. lia.
  - rewrite count_into_total. by rewrite Hlen.
Qed.

(** ** Consecutive numbers *)

Lemma consecutiveCount_sorted l :
  StronglySorted Nat.lt l -> consecutiveCount l = consecutivePairs l.
Proof.
  unfold consecutivePairs. induction 1 as [|x l Hs IH Hx]; [done|].
  rewrite Forall_forall in Hx.
  rewrite filter_cons.
  assert (Htail : length (filter (fun n => S n ∈ x :: l) l) = length (filter (fun n => S n ∈ l) l)).
  { apply filter_length_ext. apply Forall_forall. intros n Hn. rewrite elem_of_cons.
    specialize (Hx _ Hn). unfold Nat.lt in Hx. split; [intros [?|?]; [lia|done]|by right]. }
  destruct l as [|y l].
  - rewrite decide_False; [done|]. rewrite elem_of_cons, elem_of_nil. lia.
  - change (consecutiveCount (x :: y :: l))
      with (((if Nat.eqb y (x + 1) then 1 else 0) + consecutiveCount (y :: l))%nat).
    rewrite IH. apply StronglySorted_cons in Hs as [Hy _]. rewrite Forall_forall in Hy.
    assert (Hxy := Hx y ltac:(by left)). unfold Nat.lt in Hxy.
    destruct (Nat.eqb_spec y (x + 1)) as [E|E].
    + rewrite decide_True.
      * cbn [length]. rewrite Htail. lia.
      * rewrite !elem_of_cons. right. left. lia.
    + rewrite decide_False; [by rewrite Htail|].
      rewrite !elem_of_cons. intros [?|[?|Hin]]; [lia|lia|].
      specialize (Hy _ Hin). unfold Nat.lt in Hy. lia.
Qed.

Lemma consecutivePairs_perm l1 l2 : l1 ≡ₚ l2 -> consecutivePairs l1 = consecutivePairs l2.
Proof.
  intros Hp. unfold consecutivePairs.
  rewrite (filter_length_ext (fun n => S n ∈ l1) (fun n => S n ∈ l2)).
  - by rewrite Hp.
  - apply Forall_forall. intros n _. by rewrite Hp.
Qed.

Lemma consecutiveCount_draw ns :
  NoDup ns -> consecutiveCount (sort_asc ns) = consecutivePairs ns.
Proof.
  intros Hnd. rewrite consecutiveCount_sorted by (by apply sort_asc_strict).
  apply consecutivePairs_perm, sort_asc_perm.
Qed.

Lemma consecutiveCount_le l : (consecutiveCount l <= length l - 1)%nat.
Proof.
  induction l as [|x [|y l] IH]; [done|simpl; lia|].
  change (consecutiveCount (x :: y :: l))
    with (((if Nat.eqb y (x + 1) then 1 else 0) + consecutiveCount (y :: l))%nat).
  cbn [length] in *. destruct (Nat.eqb y (x + 1)); lia.
Qed.

Lemma fold_count_into_map {A} (f : A -> nat) (l : list A) : forall t,
  fold_left (fun t x => count_into t (f x)) l t = fold_left count_into (map f l) t.
Proof. induction l as [|x l IH]; intros t; simpl; [done|]. by rewrite IH. Qed.

(** X12: On a valid history [getConsecutivePairFrequency] maps a count [c] of at
    most [pick - 1] to the number of draws in which exactly [c] numbers are
    followed by their successor; the values add up to the number of draws. *)
Theorem consecutive_pair_frequency (g : GameConfig) (data : list Draw) :
  valid_data g data ->
  StronglySorted Nat.lt (keys (getConsecutivePairFrequency data)) /\
  (forall c v, (c, v) ∈ getConsecutivePairFrequency data ->
     (c <= pick g - 1)%nat /\ v = JS.of_nat (drawsWithConsecutive c data)) /\
  JS.sum (values (getConsecutivePairFrequency data)) = JS.of_nat (length data).
Proof.
  intros Hdata.
  change (getConsecutivePairFrequency data)
    with (fold_left (fun t d => count_into t (consecutiveCount (sort_asc (numbers d)))) data []).
  rewrite fold_count_into_map. set (ks := map _ data).
  assert (H0 : counts_of (fun _ => 0%nat) []).
  { split; [constructor|]. split.
    - intros j. rewrite elem_of_nil. lia.
    - by intros j w ?%elem_of_nil. }
  apply (count_into_fold ks) in H0. destruct H0 as (Hs & _ & _).
  split; [done|]. split.
  - intros c v Hin. destruct (count_into_entries _ _ _ Hin) as [Hc Hv].
    unfold valid_data in Hdata. rewrite Forall_forall in Hdata. split.
    + unfold ks in Hc. apply list_elem_of_fmap in Hc as (d & -> & Hd).
      destruct (Hdata d Hd) as (Hlen & _ & _).
      assert (H := consecutiveCount_le (sort_asc (numbers d))).
      assert (Hl : length (sort_asc (numbers d)) = pick g) by (by rewrite sort_asc_perm).
      by rewrite Hl in H.
    + rewrite Hv. f_equal. unfold ks, drawsWithConsecutive. rewrite filter_map_length.
      apply filter_length_ext. apply Forall_forall. intros d Hd.
      destruct (Hdata d Hd) as (_ & Hnd & _). by rewrite consecutiveCount_draw.
  - rewrite count_into_total. unfold ks. by rewrite length_map.
Qed.

(** ** Bonus numbers *)

(** X13: When no bonus number exceeds [maxBonus = bonusBalls || balls],
    [getBonusFrequency] has one entry for each number of [1..maxBonus], in
    ascending order, with the number of draws that have this bonus number; a
    draw without bonus number is not counted. *)
Theorem bonus_frequency (game : GameInfo) (data : list Draw) :
  let maxBonus := if Nat.eqb (bonusBalls game) 0 then balls (config game)
                  else bonusBalls game in
  Forall (fun d => (bonus d <= maxBonus)%nat) data ->
  getBonusFrequency game data
  = map (fun b => (b, JS.of_nat (drawsWithBonus b data))) (seq 1 maxBonus).
Proof.
  intros maxBonus Hdata. unfold getBonusFrequency. fold maxBonus.
  assert (Hgen : forall c : nat -> nat,
    fold_left (fun frequency draw =>
                 if Nat.eqb (bonus draw) 0 then frequency else tincr frequency (bonus draw))
              data (map (fun i => (i, JS.of_nat (c i))) (seq 1 maxBonus))
    = map (fun i => (i, JS.of_nat (c i + drawsWithBonus i data))) (seq 1 maxBonus)).
  { unfold drawsWithBonus. induction Hdata as [|d data Hd _ IH]; intros c; cbn [fold_left].
    - apply map_ext_in. intros i _. rewrite filter_nil. simpl. do 2 f_equal. lia.
    - destruct (Nat.eqb_spec (bonus d) 0) as [E|E].
      + rewrite IH. apply map_ext_in. intros i Hi%in_seq. do 2 f_equal.
        rewrite filter_cons, decide_False; [done|lia].
      + rewrite tincr_counts by lia. rewrite IH. apply map_ext_in. intros i _.
        do 2 f_equal. rewrite filter_cons.
        destruct (Nat.eqb_spec i (bonus d)) as [->|Hne].
        * rewrite decide_True by done. simpl. lia.
        * rewrite decide_False by congruence. lia. }
  exact (Hgen (fun _ => 0%nat)).
Qed.

(** A counter of a fold that bumps it on the draws satisfying [b]. *)
Lemma fold_counter {P : Type} (step : P -> Draw -> P) (f : P -> nat) (b : Draw -> bool)
    (data : list Draw) :
  (forall p d, f (step p d) = bump (b d) (f p)) ->
  forall p0, f (fold_left step data p0)
             = (f p0 + length (filter (fun d => b d = true) data))%nat.
Proof.
  intros Hstep. induction data as [|d data IH]; intros p0; cbn [fold_left].
  - rewrite filter_nil. simpl. lia.
  - rewrite IH, Hstep, filter_cons. destruct (decide (b d = true)) as [E|E].
    + rewrite E. simpl. lia.
    + destruct (b d); [done|]. simpl. lia.
Qed.

Lemma count_odd_all ns :
  count_odd ns = length ns <-> Forall (fun n => n mod 2 = 1)%nat ns.
Proof.
  unfold count_odd. induction ns as [|n ns IH].
  - split; [constructor|done].
  - rewrite filter_cons. assert (Hle := length_filter (fun n => Nat.eqb (n mod 2) 1) ns).
    rewrite Forall_cons. destruct (Nat.eqb_spec (n mod 2) 1) as [E|E].
    + rewrite decide_True by done. cbn [length]. rewrite <- IH. split; [intros; split; [done|lia]|].
      intros [_ ->]. done.
    + rewrite decide_False by (simpl; tauto). cbn [length]. split; [lia|tauto].
Qed.

Lemma count_odd_none ns :
  count_odd ns = 0%nat <-> Forall (fun n => n mod 2 = 0)%nat ns.
Proof.
  unfold count_odd. induction ns as [|n ns IH].
  - split; [constructor|done].
  - rewrite filter_cons, Forall_cons. assert (Hm := Nat.mod_upper_bound n 2).
    destruct (Nat.eqb_spec (n mod 2) 1) as [E|E].
    + rewrite decide_True by done. cbn [length]. split; [lia|]. intros [? _]. lia.
    + rewrite decide_False by (simpl; tauto). rewrite IH. split; [|tauto].
      intros H. split; [lia|done].
Qed.

Lemma existsb_gap_one l :
  existsb (fun d => Nat.eqb d 1) (gaps l) = true <-> (1 <= consecutiveCount l)%nat.
Proof.
  induction l as [|x [|y l] IHl]; [simpl; split; [done|lia]|simpl; split; [done|lia]|].
  change (gaps (x :: y :: l)) with ((y - x)%nat :: gaps (y :: l)).
  change (consecutiveCount (x :: y :: l))
    with (((if Nat.eqb y (x + 1) then 1 else 0) + consecutiveCount (y :: l))%nat).
  cbn [existsb]. rewrite orb_true_iff, IHl, Nat.eqb_eq.
  destruct (Nat.eqb_spec y (x + 1)); lia.
Qed.

Lemma consecutivePairs_pos ns :
  (1 <= consecutivePairs ns)%nat <-> Exists (fun n => S n ∈ ns) ns.
Proof.
  unfold consecutivePairs. rewrite Exists_exists. split.
  - intros H. destruct (filter (fun n => S n ∈ ns) ns) as [|n l] eqn:E; [simpl in H; lia|].
    assert (Hn : n ∈ filter (fun n => S n ∈ ns) ns) by (rewrite E; by left).
    apply list_elem_of_filter in Hn as [? ?]. by exists n.
  - intros (n & Hn & HS).
    assert (Hin : n ∈ filter (fun n => S n ∈ ns) ns) by (by apply list_elem_of_filter).
    destruct (filter (fun n => S n ∈ ns) ns); [by apply elem_of_nil in Hin|simpl; lia].
Qed.

(** X14: On a valid history with [pick >= 1], [getPatternAnalysis] counts in
    [allOdd], [allEven] and [hasConsecutive] the draws whose numbers are all
    odd, all even, and hold two consecutive numbers; no draw is both all odd
    and all even, and no counter exceeds the number of draws. *)
Theorem pattern_analysis (g : GameConfig) (data : list Draw) :
  valid_data g data -> (1 <= pick g)%nat ->
  let patterns := getPatternAnalysis g data in
  allOdd patterns = drawsAllOdd data /\
  allEven patterns = drawsAllEven data /\
  hasConsecutive patterns = drawsWithConsecutivePair data /\
  (allOdd patterns + allEven patterns <= length data)%nat /\
  (balanced patterns <= length data)%nat /\
  (lowNumbers patterns <= length data)%nat /\
  (highNumbers patterns <= length data)%nat /\
  (spreadOut patterns <= length data)%nat.
Proof.
  intros Hdata Hpick patterns. unfold patterns, getPatternAnalysis.
  set (step := fun (p : PatternAnalysis) (draw : Draw) => _).
  set (p0 := mkPatterns 0 0 0 0 0 0 0).
  unfold valid_data in Hdata.
  assert (H1 : allOdd (fold_left step data p0) = drawsAllOdd data).
  { rewrite (fold_counter step allOdd
               (fun d => Nat.eqb (count_odd (numbers d)) (pick g))) by done.
    simpl. apply filter_length_ext.
    eapply Forall_impl; [exact Hdata|]. intros d (Hlen & _ & _). cbv beta.
    rewrite Nat.eqb_eq, <- Hlen. apply count_odd_all. }
  assert (H2 : allEven (fold_left step data p0) = drawsAllEven data).
  { rewrite (fold_counter step allEven
               (fun d => Nat.eqb (count_odd (numbers d)) 0)) by done.
    simpl. apply filter_length_ext.
    apply Forall_forall. intros d _. rewrite Nat.eqb_eq. apply count_odd_none. }
  assert (H3 : hasConsecutive (fold_left step data p0) = drawsWithConsecutivePair data).
  { rewrite (fold_counter step hasConsecutive
               (fun d => existsb (fun x => Nat.eqb x 1) (gaps (sort_asc (numbers d))))) by done.
    simpl. apply filter_length_ext.
    eapply Forall_impl; [exact Hdata|]. intros d (_ & Hnd & _). cbv beta.
    rewrite existsb_gap_one, consecutiveCount_draw by done. apply consecutivePairs_pos. }
  rewrite H1, H2, H3.
  split; [done|]. split; [done|]. split; [done|]. split.
  { unfold drawsAllOdd, drawsAllEven. clear -Hdata Hpick.
    induction Hdata as [|d data (Hlen & _ & _) _ IH]; [simpl; lia|].
    rewrite !filter_cons. cbn [length].
    destruct (decide (Forall (fun n => n mod 2 = 1)%nat (numbers d))) as [Ho|Ho],
             (decide (Forall (fun n => n mod 2 = 0)%nat (numbers d))) as [He|He];
      cbn [length]; try lia.
    exfalso. destruct (numbers d) as [|n ns]; [simpl in Hlen; lia|].
    apply Forall_cons in Ho as [? _]. apply Forall_cons in He as [? _]. lia. }
  repeat split.
  - rewrite (fold_counter step balanced
               (fun d => JS.le (JS.abs (JS.sub (JS.of_nat (count_odd (numbers d)))
                                              (JS.div (JS.of_nat (pick g)) (Fin 2)))) (Fin 1)))
      by done.
    simpl. apply length_filter.
  - rewrite (fold_counter step lowNumbers
               (fun d => Nat.leb (pick g - 1)
                           (length (filter (fun n => JS.le (JS.of_nat n)
                                                      (JS.div (JS.of_nat (balls g)) (Fin 2)))
                                           (numbers d))))) by done.
    simpl. apply length_filter.
  - rewrite (fold_counter step highNumbers
               (fun d => Nat.leb (length (filter (fun n => JS.le (JS.of_nat n)
                                                      (JS.div (JS.of_nat (balls g)) (Fin 2)))
                                           (numbers d))) 1)) by done.
    simpl. apply length_filter.
  - rewrite (fold_counter step spreadOut
               (fun d => JS.ge (spread_of (sort_asc (numbers d)))
                               (JS.mul (JS.of_nat (balls g)) (Fin (7 # 10))))) by done.
    simpl. apply length_filter.
Qed.

Lemma nextDraw_loop_spec game today late turns : forall i0,
  match nextDraw_loop game today late turns i0 with
  | Some i =>
      (i0 <= i < i0 + turns)%nat /\ isDrawDay game (today + i) = true /\
      (i = 0%nat -> late = false) /\
      (forall j, (i0 <= j < i)%nat -> isDrawDay game (today + j) = true ->
                 j = 0%nat /\ late = true)
  | None =>
      forall j, (i0 <= j < i0 + turns)%nat -> isDrawDay game (today + j) = true ->
                j = 0%nat /\ late = true
  end.
Proof.
  induction turns as [|turns IH]; intros i0; cbn [nextDraw_loop].
  - intros j Hj. lia.
  - fold (isDrawDay game (today + i0)).
    destruct (isDrawDay game (today + i0)) eqn:Hd.
    + destruct (Nat.eqb_spec i0 0) as [->|Hne]; cbn [andb].
      * destruct late eqn:Hl.
        -- specialize (IH 1%nat). destruct (nextDraw_loop game today true turns 1) as [i|].
           ++ destruct IH as (Hr & Hi & Hz & Hmin). split; [lia|]. split; [done|].
              split; [lia|]. intros j Hj Hdj.
              destruct (Nat.eq_dec j 0%nat) as [->|]; [done|]. apply Hmin; [lia|done].
           ++ intros j Hj Hdj. destruct (Nat.eq_dec j 0%nat) as [->|]; [done|].
              apply IH; [lia|done].
        -- split; [lia|]. split; [done|]. split; [done|]. intros j Hj. lia.
      * split; [lia|]. split; [done|]. split; [lia|]. intros j Hj. lia.
    + specialize (IH (S i0)). destruct (nextDraw_loop game today late turns (S i0)) as [i|].
      * destruct IH as (Hr & Hi & Hz & Hmin). split; [lia|]. split; [done|].
        split; [done|]. intros j Hj Hdj.
        destruct (Nat.eq_dec j i0) as [->|]; [congruence|]. apply Hmin; [lia|done].
      * intros j Hj Hdj. destruct (Nat.eq_dec j i0) as [->|]; [congruence|].
        apply IH; [lia|done].
Qed.

Lemma includes_name_spec xs name :
  includes_name xs (Some name) = true <-> name ∈ xs.
Proof.
  simpl. induction xs as [|x xs IH]; simpl.
  - split; [done|by intros ?%elem_of_nil].
  - rewrite orb_true_iff, IH, elem_of_cons, String.eqb_eq. done.
Qed.

(** X15: When the game has a draw day that is the name of a day of the week,
    [getNextDrawDate] returns a date at most 7 days ahead that is a draw day:
    the first one from today on, today itself being skipped exactly when the
    time is past 22:30. *)
Theorem next_draw_date (game : GameInfo) (today : nat) (late : bool) :
  (exists name, name ∈ dayNames /\ name ∈ drawDays game) ->
  exists i,
    getNextDrawDate game today late = Some i /\
    (i <= 7)%nat /\ isDrawDay game (today + i) = true /\
    (i = 0%nat -> late = false) /\
    (forall j, (j < i)%nat -> isDrawDay game (today + j) = true -> j = 0%nat /\ late = true).
Proof.
  intros (name & Hday & Hdraw).
  assert (Hspec := nextDraw_loop_spec game today late 8 0).
  unfold getNextDrawDate.
  destruct (nextDraw_loop game today late 8 0) as [i|].
  - destruct Hspec as (Hr & Hi & Hz & Hmin). exists i.
    split; [done|]. split; [lia|]. split; [done|]. split; [done|].
    intros j Hj. apply Hmin. lia.
  - exfalso. apply list_elem_of_lookup_1 in Hday as (k & Hk).
    assert (Hk7 : (k < 7)%nat) by (apply lookup_lt_Some in Hk; simpl in Hk; lia).
    (* the day [k] comes up among the next seven days *)
    set (j := (S ((k + 7 - S (today mod 7)) mod 7))%nat).
    assert (Hm := Nat.mod_upper_bound today 7).
    assert (Hj7 := Nat.mod_upper_bound (k + 7 - S (today mod 7)) 7).
    assert (Hjk : ((today + j) mod 7 = k)%nat).
    { unfold j. rewrite (Nat.div_mod_eq today 7) at 1.
      set (r := (today mod 7)%nat) in *. set (q := (today / 7)%nat).
      assert (Hcases : ((k + 7 - S r) mod 7 = k + 7 - S r \/
                        (k + 7 - S r) mod 7 = k - S r /\ S r <= k)%nat).
      { destruct (Nat.lt_ge_cases (k + 7 - S r) 7) as [Hlt|Hge].
        - left. by apply Nat.mod_small.
        - right. split; [|lia].
          symmetry. apply (Nat.mod_unique (k + 7 - S r) 7 1 (k - S r)); lia. }
      destruct Hcases as [E|[E Hle]]; rewrite E.
      - symmetry. apply (Nat.mod_unique _ 7 (q + 1) k); lia.
      - symmetry. apply (Nat.mod_unique _ 7 q k); lia. }
    destruct (Hspec j) as [Hj0 _]; [unfold j; lia| |unfold j in Hj0; lia].
    unfold isDrawDay. rewrite Hjk, Hk. by apply includes_name_spec.
Qed.

Lemma next_draw_date_witness :
  exists i, getNextDrawDate (mkInfo (mkGame 45 6) true 45 ["Saturday"] 250000) 6 true = Some i
            /\ (i <= 7)%nat.
Proof.
  destruct (next_draw_date (mkInfo (mkGame 45 6) true 45 ["Saturday"] 250000) 6 true)
    as (i & Hi & Hle & _).
  - exists "Saturday". split; unfold dayNames; simpl;
      repeat first [apply list_elem_of_here | apply list_elem_of_further].
  - by exists i.
Defined.

(** ** Weighted selection: the result and the number of random calls *)

(** Every number selected costs one call of [Math.random()]. *)
Lemma ws_loop_calls_at_least rnd g count :
  forall fuel selected av s res s',
    ws_loop rnd g fuel count selected av s = Ok (res, s') ->
    (s + (count - length selected) <= s')%nat.
Proof.
  induction fuel as [|fuel IH]; intros selected av s res s'; [done|].
  rewrite ws_loop_S.
  destruct (Nat.ltb_spec (length selected) count) as [Hlt|Hge].
  - cbv zeta. destruct (JS.eq _ _).
    + apply IH.
    + rewrite bind_run. unfold random.
      destruct (ws_scan _ av) as [k|].
      * intros H%IH. rewrite length_app in H. simpl in H. lia.
      * intros H%IH. lia.
  - intros [= _ <-]. lia.
Qed.

(** X16: Whatever [weightedSelection] returns for weights keyed within
    [1..balls] is [count] distinct numbers of [1..balls] in ascending order,
    and it has called [Math.random()] at least [count] times; the weights
    and the random source may be any numbers. *)
Theorem weighted_selection_result (rnd : nat -> Q) (g : GameConfig) (weights : table)
    (count fuel s : nat) (res : list nat) (s' : nat) :
  keys_ok (balls g) weights ->
  weightedSelection rnd g fuel weights count s = Ok (res, s') ->
  selection (balls g) count res /\ (s + count <= s')%nat.
Proof.
  intros Hk Hres. split; [by eapply weightedSelection_partial|].
  unfold weightedSelection in Hres. apply ws_loop_calls_at_least in Hres.
  simpl in Hres. lia.
Qed.

Lemma ws_loop_no_throw rnd g count fuel : forall selected av s,
  ws_loop rnd g fuel count selected av s <> Throw.
Proof.
  induction fuel as [|fuel IH]; intros selected av s; [done|].
  rewrite ws_loop_S. destruct (Nat.ltb (length selected) count); [|done].
  cbv zeta. destruct (JS.eq _ _); [apply IH|].
  rewrite bind_run. unfold random. destruct (ws_scan _ av); apply IH.
Qed.

Lemma NoDup_range_length N (l : list nat) :
  NoDup l -> Forall (fun n => (1 <= n <= N)%nat) l -> (length l <= N)%nat.
Proof.
  intros Hnd Hr.
  assert (H : (length l <= length (seq 1 N))%nat).
  { apply submseteq_length, NoDup_submseteq; [done|].
    intros n Hn. rewrite Forall_forall in Hr. specialize (Hr _ Hn).
    apply list_elem_of_In, in_seq. lia. }
  by rewrite length_seq in H.
Qed.

(** X17: Asked for more numbers than there are balls, [weightedSelection] never
    returns: the loop runs out of every fuel. *)
Theorem weighted_selection_too_many (rnd : nat -> Q) (g : GameConfig) (weights : table)
    (count fuel s : nat) :
  keys_ok (balls g) weights -> (balls g < count)%nat ->
  weightedSelection rnd g fuel weights count s = OutOfFuel.
Proof.
  intros Hk Hcount.
  destruct (weightedSelection rnd g fuel weights count s) as [[res s']| |] eqn:E; [| |done].
  - apply weightedSelection_partial in E as (Hlen & Hnd & Hr & _); [|done].
    assert (H := NoDup_range_length _ _ Hnd Hr). lia.
  - by apply ws_loop_no_throw in E.
Qed.

(** ** [generateCombinations] *)

Lemma generateCombinations_complete (arr c : list nat) :
  c `sublist_of` arr -> c ∈ generateCombinations arr (length c).
Proof.
  induction 1 as [|x l1 l2 Hsub IH|x l1 l2 Hsub IH].
  - by left.
  - cbn [length]. rewrite generateCombinations_unfold. apply elem_of_app. left.
    apply list_elem_of_fmap. by exists l1.
  - destruct l1 as [|y l1]; [by left|].
    cbn [length] in *. rewrite generateCombinations_unfold. apply elem_of_app. by right.
Qed.

Lemma generateCombinations_NoDup size : forall arr,
  NoDup arr -> NoDup (generateCombinations arr size).
Proof.
  induction size as [|size IHs]; intros arr Hnd; [apply NoDup_singleton|].
  induction Hnd as [|x rest Hx Hnd IHa]; rewrite generateCombinations_unfold; [constructor|].
  apply NoDup_app. split; [|split; [|done]].
  - apply NoDup_fmap_2; [by intros a b [= ->]|by apply IHs].
  - intros c (c' & -> & _)%list_elem_of_fmap Hin.
    apply generateCombinations_sublist in Hin as [Hsub _].
    apply Hx. eapply elem_of_sublist; [|exact Hsub]. by left.
Qed.

Lemma fact_pos n : (1 <= fact n)%nat.
Proof. assert (H := lt_O_fact n). lia. Qed.

Lemma generateCombinations_count arr : forall size,
  (length (generateCombinations arr size) * (fact size * fact (length arr - size))
   = if Nat.leb size (length arr) then fact (length arr) else 0)%nat.
Proof.
  induction arr as [|x rest IH]; intros [|j].
  - reflexivity.
  - reflexivity.
  - cbn [generateCombinations length Nat.leb Nat.sub fact]. lia.
  - rewrite generateCombinations_unfold, length_app, length_map.
    assert (IH1 := IH j). assert (IH2 := IH (S j)).
    change (length (x :: rest)) with (S (length rest)).
    change (S (length rest) - S j)%nat with (length rest - j)%nat.
    change (Nat.leb (S j) (S (length rest))) with (Nat.leb j (length rest)).
    remember (length (generateCombinations rest j)) as a eqn:Ea. clear Ea.
    remember (length (generateCombinations rest (S j))) as b eqn:Eb. clear Eb.
    remember (length rest) as m eqn:Em. clear Em IH.
    assert (Hj := fact_pos j). assert (HSj := fact_pos (S j)).
    assert (Hmj := fact_pos (m - j)). assert (HmSj := fact_pos (m - S j)).
    assert (Hm := fact_pos m).
    destruct (Nat.leb_spec j m) as [Hle|Hgt].
    + destruct (Nat.leb_spec (S j) m) as [Hle'|Hgt'].
      * assert (E : (m - j = S (m - S j))%nat) by lia. rewrite E in *.
        remember (m - S j)%nat as p eqn:Ep.
        assert (Em : (S m = S j + S p)%nat) by lia.
        change (fact (S m)) with (S m * fact m)%nat.
        change (fact (S j)) with (S j * fact j)%nat in *.
        change (fact (S p)) with (S p * fact p)%nat in *.
        rewrite Em.
        transitivity (S j * (a * (fact j * (S p * fact p)))
                      + S p * (b * (S j * fact j * fact p)))%nat; [lia|].
        rewrite IH1, IH2. lia.
      * assert (m = j) by lia. subst j. rewrite Nat.sub_diag in *.
        change (fact 0) with 1%nat in *.
        assert (b = 0)%nat by nia. assert (a = 1)%nat by nia.
        subst. lia.
    + destruct (Nat.leb_spec (S j) m) as [Hle'|Hgt']; [lia|].
      assert (a = 0)%nat by nia. assert (b = 0)%nat by nia.
      subst. lia.
Qed.

(** X18: [generateCombinations arr size] lists exactly the subsequences of [arr] of
    length [size]: as many as the binomial coefficient, none if [size]
    exceeds the length, and without repetition when [arr] has none. *)
Theorem combinations_enumerated (arr : list nat) (size : nat) :
  (forall c, c ∈ generateCombinations arr size <-> c `sublist_of` arr /\ length c = size) /\
  (length (generateCombinations arr size) * (fact size * fact (length arr - size))
   = if Nat.leb size (length arr) then fact (length arr) else 0)%nat /\
  (NoDup arr -> NoDup (generateCombinations arr size)).
Proof.
  split; [|split].
  - intros c. split; [apply generateCombinations_sublist|].
    intros [Hsub <-]. by apply generateCombinations_complete.
  - apply generateCombinations_count.
  - apply generateCombinations_NoDup.
Qed.

Lemma wheel_score_sum g data combo :
  valid_data g data ->
  Forall (fun n => (1 <= n <= balls g)%nat) combo ->
  fold_left (fun sum num => JS.add sum (tnum (getNumberFrequency g data) num)) combo (Fin 0)
  = JS.of_nat (wheelScore data combo).
Proof.
  intros Hdata. rewrite (getNumberFrequency_spec g data Hdata).
  change (Fin 0) with (JS.of_nat 0). unfold wheelScore.
  assert (Hgen : forall a,
    Forall (fun n => (1 <= n <= balls g)%nat) combo ->
    fold_left (fun sum num =>
                 JS.add sum (tnum (map (fun n => (n, JS.of_nat (drawsWith n data)))
                                       (seq 1 (balls g))) num))
              combo (JS.of_nat a)
    = JS.of_nat (a + sum_list_with (fun n => drawsWith n data) combo)).
  { induction combo as [|n combo IH]; intros a Hr; cbn [fold_left sum_list_with].
    - f_equal. lia.
    - apply Forall_cons in Hr as [Hn Hr]. unfold tnum at 2.
      rewrite (tget_map_seq (fun n => JS.of_nat (drawsWith n data))) by lia.
      rewrite add_of_nat, IH by done. f_equal. lia. }
  apply (Hgen 0%nat).
Qed.

Lemma le_of_nat a b : JS.le (JS.of_nat a) (JS.of_nat b) = true <-> (a <= b)%nat.
Proof.
  unfold JS.le, JS.of_nat. rewrite Qle_bool_iff, <- Zle_Qle. lia.
Qed.

(** X19: Given at least [pick] key numbers of [1..balls] and a valid history,
    [wheelingSystemPrediction] returns, sorted, a combination of [pick] key
    numbers whose total frequency no other combination of key numbers
    exceeds. *)
Theorem wheeling_best_combination (g : GameConfig) (data : list Draw) (keyNumbers : list nat) :
  valid_data g data ->
  Forall (fun n => (1 <= n <= balls g)%nat) keyNumbers ->
  (pick g <= length keyNumbers)%nat ->
  exists combo,
    wheelingSystemPrediction g data (Some keyNumbers) = Ok (sort_asc combo) /\
    combo `sublist_of` keyNumbers /\ length combo = pick g /\
    forall other, other `sublist_of` keyNumbers -> length other = pick g ->
                  (wheelScore data other <= wheelScore data combo)%nat.
Proof.
  intros Hdata Hrange Hlen. unfold wheelingSystemPrediction. cbv zeta.
  set (scores := map _ (generateCombinations keyNumbers (pick g))).
  assert (Hscores : forall e, e ∈ scores ->
            fst e `sublist_of` keyNumbers /\ length (fst e) = pick g /\
            snd e = JS.of_nat (wheelScore data (fst e))).
  { intros e (c & -> & Hc)%list_elem_of_fmap. cbn [fst snd].
    destruct (generateCombinations_sublist _ _ _ Hc) as [Hsub Hl].
    split; [done|]. split; [done|]. apply wheel_score_sum; [done|].
    apply Forall_forall. intros n Hn. rewrite Forall_forall in Hrange.
    apply Hrange. by eapply elem_of_sublist. }
  assert (Hfin : Forall (fun e => is_fin (snd e)) scores).
  { apply Forall_forall. intros e He. destruct (Hscores e He) as (_ & _ & ->). by eexists. }
  assert (Hp := js_sort_perm (@by_value_desc (list nat)) scores).
  destruct (js_sort by_value_desc scores) as [|[combo sc] rest] eqn:E.
  - apply Permutation_nil_l in Hp. symmetry in Hp. unfold scores in Hp.
    apply fmap_nil_inv in Hp. by apply generateCombinations_nonempty in Hp.
  - exists combo. split; [done|].
    assert (Hin : (combo, sc) ∈ scores) by (rewrite <- Hp; left).
    destruct (Hscores _ Hin) as (Hsub & Hl & Hsc). cbn [fst snd] in *.
    split; [done|]. split; [done|].
    intros other Hother Hol.
    assert (Ho : (other, JS.of_nat (wheelScore data other)) ∈ scores).
    { unfold scores. apply list_elem_of_fmap. exists other. split.
      - f_equal. symmetry. apply wheel_score_sum; [done|].
        apply Forall_forall. intros n Hn. rewrite Forall_forall in Hrange.
        apply Hrange. by eapply elem_of_sublist.
      - rewrite <- Hol. by apply generateCombinations_complete. }
    assert (Hmax := js_sort_head_max scores _ _ Hfin E _ Ho). cbn [snd] in Hmax.
    rewrite Hsc in Hmax. by apply le_of_nat.
Qed.

(** X20: Given fewer key numbers than [pick], [wheelingSystemPrediction] throws:
    there is no combination, and the best one is read as [undefined]. *)
Theorem wheeling_too_few_keys (g : GameConfig) (data : list Draw) (keyNumbers : list nat) :
  (length keyNumbers < pick g)%nat ->
  wheelingSystemPrediction g data (Some keyNumbers) = Throw.
Proof.
  intros Hlen. unfold wheelingSystemPrediction. cbv zeta.
  assert (Hnil : generateCombinations keyNumbers (pick g) = []).
  { destruct (generateCombinations keyNumbers (pick g)) as [|c l] eqn:E; [done|].
    assert (Hc : c ∈ generateCombinations keyNumbers (pick g)) by (rewrite E; left).
    apply generateCombinations_sublist in Hc as [Hsub Hl].
    apply sublist_length in Hsub. lia. }
  by rewrite Hnil.
Qed.

(** ** The deterministic strategies on an empty history *)

Lemma js_sort_sorted_id {A} (after : A -> A -> bool) (l : list A) :
  StronglySorted (fun x y => after x y = false) l -> js_sort after l = l.
Proof.
  induction 1 as [|x l Hs IH Hx]; [done|].
  unfold js_sort in *. cbn [fold_right]. rewrite IH.
  destruct l as [|y l]; [done|]. cbn [sort_insert].
  apply Forall_cons in Hx as [-> _]. done.
Qed.

Lemma sort_asc_seq a n : sort_asc (seq a n) = seq a n.
Proof.
  apply js_sort_sorted_id.
  assert (H := seq_sorted a n).
  induction H as [|x l Hs IH Hx]; constructor; [done|].
  eapply Forall_impl; [exact Hx|]. intros y Hy. cbv beta. apply Nat.ltb_ge.
  unfold Nat.lt in Hy. lia.
Qed.

Lemma tnum_tinit N v n : (1 <= n <= N)%nat -> tnum (tinit N v) n = v.
Proof. intros Hn. unfold tnum, tinit. by rewrite (tget_map_seq (fun _ => v)) by lia. Qed.

Lemma patternScore_empty N selected num :
  (1 <= num <= N)%nat -> patternScore [] (tinit N (Fin 0)) selected num = Fin 0.
Proof.
  intros Hn. unfold patternScore. rewrite tnum_tinit by done.
  induction selected as [|sel selected IH]; [done|]. cbn [fold_left]. exact IH.
Qed.

Lemma patternBest_keep N selected (m : nat) l :
  Forall (fun n => (1 <= n <= N)%nat) l ->
  fold_left (fun best num =>
               if includes selected num then best
               else
                 if JS.gt (patternScore [] (tinit N (Fin 0)) selected num) (snd best)
                 then (Some num, patternScore [] (tinit N (Fin 0)) selected num)
                 else best)
            l (Some m, Fin 0)
  = (Some m, Fin 0).
Proof.
  induction 1 as [|n l Hn _ IH]; [done|]. cbn [fold_left].
  destruct (includes selected n); [done|].
  rewrite patternScore_empty by done. exact IH.
Qed.

Lemma patternBest_empty g j :
  (j < balls g)%nat ->
  fst (patternBest g [] (tinit (balls g) (Fin 0)) (seq 1 j)) = Some (S j).
Proof.
  intros Hj. unfold patternBest. cbv zeta.
  assert (Hseq : seq 1 (balls g) = seq 1 j ++ seq (1 + j) (S (balls g - S j))).
  { rewrite <- seq_app. f_equal. lia. }
  rewrite Hseq, fold_left_app.
  assert (Hskip : fold_left (fun best num =>
               if includes (seq 1 j) num then best
               else
                 if JS.gt (patternScore [] (tinit (balls g) (Fin 0)) (seq 1 j) num) (snd best)
                 then (Some num, patternScore [] (tinit (balls g) (Fin 0)) (seq 1 j) num)
                 else best)
            (seq 1 j) (None, Fin (-1)) = (None, Fin (-1))).
  { assert (Hgen : forall l, (forall n, n ∈ l -> n ∈ seq 1 j) ->
      fold_left (fun best num =>
               if includes (seq 1 j) num then best
               else
                 if JS.gt (patternScore [] (tinit (balls g) (Fin 0)) (seq 1 j) num) (snd best)
                 then (Some num, patternScore [] (tinit (balls g) (Fin 0)) (seq 1 j) num)
                 else best)
            l (None, Fin (-1)) = (None, Fin (-1))).
    { induction l as [|n l IH]; intros Hl; [done|]. cbn [fold_left].
      rewrite (proj2 (includes_spec (seq 1 j) n)) by (apply Hl; by left).
      apply IH. intros k Hk. apply Hl. by right. }
    by apply Hgen. }
  rewrite Hskip. cbn [seq fold_left].
  assert (Hnot : includes (seq 1 j) (1 + j) = false).
  { apply includes_false. intros Hin%list_elem_of_In%in_seq. lia. }
  rewrite Hnot. rewrite patternScore_empty by lia.
  change (JS.gt (Fin 0) (snd (None, Fin (-1)))) with true. cbv iota.
  rewrite (patternBest_keep (balls g)); [done|].
  apply Forall_forall. intros n Hn%list_elem_of_In%in_seq. lia.
Qed.

Lemma pattern_loop_empty g : forall k fuel j,
  (1 <= j)%nat -> (j + k = pick g)%nat -> (pick g <= balls g)%nat -> (k + 1 <= fuel)%nat ->
  pattern_loop g [] fuel (tinit (balls g) (Fin 0)) (seq 1 j) = Ok (seq 1 (pick g)).
Proof.
  induction k as [|k IH]; intros fuel j Hj Hk HN Hfuel;
    (destruct fuel as [|fuel]; [lia|]); cbn [pattern_loop]; rewrite length_seq.
  - destruct (Nat.ltb_spec j (pick g)); [lia|]. by replace j with (pick g) by lia.
  - destruct (Nat.ltb_spec j (pick g)); [|lia].
    rewrite patternBest_empty by lia.
    replace (seq 1 j ++ [S j]) with (seq 1 (S j)) by (by rewrite seq_S).
    apply IH; lia.
Qed.

Lemma generateCombinations_head k : forall arr,
  (k <= length arr)%nat ->
  exists rest, generateCombinations arr k = take k arr :: rest.
Proof.
  induction k as [|k IH]; intros arr Hlen.
  - exists []. by destruct arr.
  - destruct arr as [|x arr]; [simpl in Hlen; lia|].
    rewrite generateCombinations_unfold. cbn [length] in Hlen.
    destruct (IH arr) as (rest & ->); [lia|]. by eexists.
Qed.

(** X21: On an empty history the pattern strategy and the wheeling strategy
    without key numbers both return [1, 2, .., pick]. *)
Theorem empty_history_deterministic (g : GameConfig) (fuel : nat) :
  (1 <= pick g <= balls g)%nat -> (pick g <= fuel)%nat ->
  patternBasedPrediction g [] fuel = Ok (seq 1 (pick g)) /\
  wheelingSystemPrediction g [] None = Ok (seq 1 (pick g)).
Proof.
  intros [HK HN] Hfuel. split.
  - unfold patternBasedPrediction. cbv zeta.
    change (getNumberFrequency g []) with (tinit (balls g) (Fin 0)).
    rewrite js_sort_tinit.
    destruct (balls g) as [|N] eqn:EN; [lia|].
    change (tinit (S N) (Fin 0)) with ((1%nat, Fin 0) :: map (fun i => (i, Fin 0)) (seq 2 N)).
    cbv iota beta.
    change ((1%nat, Fin 0) :: map (fun i => (i, Fin 0)) (seq 2 N)) with (tinit (S N) (Fin 0)).
    rewrite <- EN. change [1%nat] with (seq 1 1).
    rewrite (pattern_loop_empty g (pick g - 1) fuel 1) by lia.
    cbn [rbind]. by rewrite sort_asc_seq.
  - unfold wheelingSystemPrediction, getHotNumbers. cbv zeta.
    change (getNumberFrequency g []) with (tinit (balls g) (Fin 0)).
    rewrite js_sort_tinit.
    assert (Hkeys : map fst (take (pick g + 3) (tinit (balls g) (Fin 0)))
                    = seq 1 (Nat.min (pick g + 3) (balls g))).
    { unfold tinit. rewrite <- fmap_take, <- list_fmap_compose.
      rewrite take_seq. apply list_fmap_id. }
    rewrite Hkeys. set (M := Nat.min (pick g + 3) (balls g)).
    destruct (generateCombinations_head (pick g) (seq 1 M)) as (rest & Hc).
    { rewrite length_seq. unfold M. lia. }
    assert (Hscores :
      map (fun combo =>
             (combo, fold_left (fun sum num => JS.add sum (tnum (tinit (balls g) (Fin 0)) num))
                               combo (Fin 0)))
          (generateCombinations (seq 1 M) (pick g))
      = map (fun combo => (combo, Fin 0)) (generateCombinations (seq 1 M) (pick g))).
    { apply map_ext_in. intros c Hc'%list_elem_of_In. f_equal.
      apply generateCombinations_sublist in Hc' as [Hsub _].
      assert (Hr : Forall (fun n => (1 <= n <= balls g)%nat) c).
      { apply Forall_forall. intros n Hn. eapply elem_of_sublist in Hn; [|exact Hsub].
        apply list_elem_of_In, in_seq in Hn. unfold M in Hn. lia. }
      clear -Hr. induction Hr as [|n c Hn _ IH]; [done|]. cbn [fold_left].
      rewrite tnum_tinit by done. exact IH. }
    rewrite Hscores, js_sort_id.
    + rewrite Hc. cbn [map]. rewrite take_seq.
      replace (Nat.min (pick g) M) with (pick g) by (unfold M; lia).
      by rewrite sort_asc_seq.
    + intros x y (c1 & -> & _)%list_elem_of_fmap (c2 & -> & _)%list_elem_of_fmap. done.
Qed.

(** ** The strategies on an empty history *)

Lemma frequencyBasedPrediction_empty rnd g fuel s :
  (1 <= balls g)%nat -> (1 <= pick g)%nat ->
  frequencyBasedPrediction rnd g [] fuel s = OutOfFuel.
Proof.
  intros HN HK. unfold frequencyBasedPrediction, weightedSelection.
  rewrite frequencyWeights_empty by lia.
  destruct (balls g) as [|n]; [lia|].
  unfold tinit. simpl. apply ws_loop_NaN. lia.
Qed.

Lemma monteCarloCdf_empty g : forall e, e ∈ monteCarloCdf g [] -> snd e = NaN.
Proof.
  unfold monteCarloCdf. cbv zeta.
  change (getNumberFrequency g []) with (tinit (balls g) (Fin 0)).
  destruct (sum_finite _ (nonneg_tinit_zero (balls g))) as (q & Hsum & Hq).
  rewrite Hsum. rewrite qtotal_tinit_zero in Hq.
  assert (Hz : JS.Qzero_b q = true) by by apply Qeq_bool_iff.
  assert (Hgen : forall l acc (cdf : list (nat * jsnum)),
    Forall (fun n => (1 <= n <= balls g)%nat) l ->
    (forall e, e ∈ cdf -> snd e = NaN) ->
    forall e, e ∈ snd (fold_left (fun acc i =>
                    let cumulative :=
                      JS.add (fst acc) (JS.div (tnum (tinit (balls g) (Fin 0)) i) (Fin q)) in
                    (cumulative, snd acc ++ [(i, cumulative)])) l (acc, cdf)) ->
              snd e = NaN).
  { induction l as [|n l IH]; intros acc cdf Hl Hcdf e; cbn [fold_left]; [by apply Hcdf|].
    apply Forall_cons in Hl as [Hn Hl]. cbv zeta. cbn [fst snd].
    rewrite tnum_tinit by done.
    assert (Hdiv : JS.div (Fin 0) (Fin q) = NaN) by (unfold JS.div; by rewrite Hz).
    rewrite Hdiv.
    assert (Hadd : JS.add acc NaN = NaN) by (by destruct acc).
    rewrite Hadd. apply IH; [done|].
    intros e' [He'| ->%list_elem_of_singleton]%elem_of_app; [by apply Hcdf|done]. }
  apply Hgen.
  - apply Forall_forall. intros n Hn%list_elem_of_In%in_seq. lia.
  - by intros e' ?%elem_of_nil.
Qed.

Lemma find_ge_NaN (cdf : list (nat * jsnum)) r :
  (forall e, e ∈ cdf -> snd e = NaN) ->
  List.find (fun c => JS.ge (snd c) (Fin r)) cdf = None.
Proof.
  induction cdf as [|c cdf IH]; intros H; [done|]. cbn [List.find].
  rewrite (H c) by (by left). change (JS.ge NaN (Fin r)) with false. cbv iota.
  apply IH. intros e He. apply H. by right.
Qed.

(** X22: On an empty history the statistical-equilibrium strategy, the Markov
    strategy and the Monte Carlo simulation throw, for every game with
    [pick >= 1] and every random source. *)
Theorem empty_history_exceptions (rnd : nat -> Q) (g : GameConfig)
    (fuel iterations s : nat) :
  (1 <= pick g)%nat ->
  statisticalEquilibriumPrediction rnd g [] fuel s = Throw /\
  markovChainPrediction rnd g [] fuel s = Throw /\
  monteCarloSimulation rnd g [] (S fuel) (S iterations) s = Throw.
Proof.
  intros HK. split; [reflexivity|]. split; [reflexivity|].
  unfold monteCarloSimulation.
  rewrite bind_run. cbn [mc_run]. rewrite bind_run. cbn [mc_sample].
  assert (Hlt : Nat.ltb (length (@nil nat)) (pick g) = true) by (apply Nat.ltb_lt; simpl; lia).
  rewrite Hlt, bind_run. unfold random.
  rewrite find_ge_NaN; [done|]. apply monteCarloCdf_empty.
Qed.

(** X23: On an empty history [hybridPrediction] never returns, and neither does
    [generateMultipleSets] for the hybrid strategy and a positive count:
    the frequency strategy it runs first loops forever. *)
Theorem empty_history_hybrid_diverges (rnd : nat -> Q) (g : GameConfig)
    (weights : gmap string jsnum) (constraints : Constraints) (fuel count s : nat) :
  (1 <= balls g)%nat -> (1 <= pick g)%nat ->
  hybridPrediction rnd g [] weights fuel s = OutOfFuel /\
  generateMultipleSets rnd g [] weights fuel (S count) "hybrid" constraints s = OutOfFuel.
Proof.
  intros HN HK.
  assert (Hh : forall s0, hybridPrediction rnd g [] weights fuel s0 = OutOfFuel).
  { intros s0. unfold hybridPrediction. rewrite bind_run.
    by rewrite frequencyBasedPrediction_empty. }
  split; [apply Hh|].
  unfold generateMultipleSets. rewrite bind_run. cbn [gms_sets]. rewrite bind_run.
  assert (Hatt : forall turns used attempts s0,
    gms_attempts rnd g [] weights fuel turns "hybrid" constraints used attempts s0 = OutOfFuel).
  { induction turns as [|turns IH]; intros used attempts s0; [done|].
    rewrite gms_attempts_S, bind_run.
    change (runAlgorithm rnd g [] weights fuel "hybrid") with (hybridPrediction rnd g [] weights fuel).
    by rewrite Hh. }
  by rewrite Hatt.
Qed.

(** ** The overdue strategy and the most recent draw *)

Lemma drawsSince_latest n d data :
  (drawsSince n (d :: data) = 0%nat <-> n ∈ numbers d).
Proof.
  unfold drawsSince. cbn [list_find].
  destruct (decide (n ∈ numbers d)) as [Hin|Hin]; [done|].
  split; [|done]. destruct (list_find _ data) as [[i x]|]; simpl; [lia|lia].
Qed.

Lemma overdueScores_entries g data :
  valid_data g data -> (1 <= pick g)%nat -> (1 <= balls g)%nat ->
  forall k w, (k, w) ∈ overdueScores g data ->
    (1 <= k <= balls g)%nat /\
    exists q, w = Fin q /\ 0 <= q /\ (0 < q <-> (1 <= drawsSince k data)%nat).
Proof.
  intros Hdata HK HN k w. unfold overdueScores. cbv zeta.
  rewrite (lastSeenTable_counts g data Hdata).
  intros (i & Heq & Hi%list_elem_of_In%in_seq)%list_elem_of_fmap.
  assert (Hk := f_equal fst Heq). assert (Hw := f_equal snd Heq).
  cbn [fst snd] in Hk, Hw. subst k w. clear Heq.
  split; [lia|].
  unfold tnum. rewrite (tget_map_seq (fun n => JS.of_nat (drawsSince n data))) by lia.
  set (ds := drawsSince i data).
  destruct (of_nat_pos _ HN) as (n & En & Hn). destruct (of_nat_pos _ HK) as (p & Ep & Hp).
  rewrite En, Ep. rewrite div_fin by lra.
  assert (Hnp : 0 < n / p) by (apply Qlt_shift_div_l; lra).
  unfold JS.of_nat. rewrite div_fin by lra.
  set (x := inject_Z (Z.of_nat ds) / (n / p)).
  assert (Hx0 : 0 <= inject_Z (Z.of_nat ds)).
  { change 0 with (inject_Z 0). rewrite <- Zle_Qle. lia. }
  assert (Hx : 0 <= x) by (apply Qle_shift_div_l; lra).
  assert (Hpos : 0 < x <-> (1 <= ds)%nat).
  { split.
    - intros Hlt. destruct ds; [|lia]. exfalso.
      unfold x in Hlt. change (inject_Z (Z.of_nat 0)) with 0 in Hlt.
      unfold Qdiv in Hlt. rewrite Qmult_0_l in Hlt. lra.
    - intros Hds. apply Qlt_shift_div_l; [done|].
      rewrite Qmult_0_l. change 0 with (inject_Z 0). rewrite <- Zlt_Qlt. lia. }
  unfold JS.min, JS.le. destruct (Qle_bool x 3) eqn:E.
  - exists x. done.
  - exists 3. split; [done|]. split; [lra|]. split; [|lra]. intros _. apply Hpos.
    destruct (Qlt_le_dec 0 x) as [|Hc]; [done|].
    assert (Hc3 : x <= 3) by lra. apply Qle_bool_iff in Hc3. congruence.
Qed.

Lemma filter_partition_length {A} (P : A -> Prop) `{!forall x, Decision (P x)} (l : list A) :
  (length (filter P l) + length (filter (fun x => ~ P x) l) = length l)%nat.
Proof.
  induction l as [|x l IH]; [done|]. rewrite !filter_cons.
  destruct (decide (P x)), (decide (~ P x)); simpl; try tauto; lia.
Qed.

(** The numbers of [1..N] outside a draw. *)
Lemma outside_draw_length N (ns : list nat) :
  NoDup ns -> Forall (fun n => (1 <= n <= N)%nat) ns ->
  length (filter (fun n => n ∉ ns) (seq 1 N)) = (N - length ns)%nat.
Proof.
  intros Hnd Hr.
  assert (Hpart := filter_partition_length (fun n => n ∈ ns) (seq 1 N)).
  rewrite length_seq in Hpart.
  assert (Hin : filter (fun n => n ∈ ns) (seq 1 N) ≡ₚ ns).
  { apply NoDup_Permutation; [apply NoDup_filter, NoDup_seq|done|].
    intros n. rewrite list_elem_of_filter. split; [tauto|]. intros Hn. split; [done|].
    rewrite Forall_forall in Hr. specialize (Hr _ Hn). apply list_elem_of_In, in_seq. lia. }
  rewrite Hin in Hpart. lia.
Qed.

Lemma rnd_granular_positive rnd : rnd_granular rnd -> rnd_positive rnd.
Proof.
  intros H n. destruct (H n) as [Hlo Hhi]. split; [|done].
  eapply Qlt_le_trans; [|exact Hlo]. reflexivity.
Qed.

Lemma sample_rnd_granular : rnd_granular sample_rnd.
Proof.
  intros n. unfold sample_rnd.
  destruct (n mod 7)%nat as [|[|[|[|[|[|?]]]]]]; split; unfold Qle, Qlt; simpl; lia.
Qed.

(** X24: When [2 * pick <= balls] and [Math.random()] returns no value below
    [2^-53], whatever the overdue strategy returns on a valid non-empty
    history is a candidate with no number of the most recent draw. *)
Theorem overdue_avoids_latest_draw (rnd : nat -> Q) (g : GameConfig) (d : Draw)
    (data : list Draw) (fuel s : nat) (res : list nat) (s' : nat) :
  rnd_granular rnd -> valid_data g (d :: data) ->
  (1 <= pick g)%nat -> (2 * pick g <= balls g)%nat ->
  overdueBasedPrediction rnd g (d :: data) fuel s = Ok (res, s') ->
  candidate g res /\ forall n, n ∈ res -> n ∉ numbers d.
Proof.
  intros Hgran Hdata HK HN Hres.
  assert (Hrnd := rnd_granular_positive rnd Hgran).
  assert (Hwf := overdueScores_wf g (d :: data) Hdata HK ltac:(lia)).
  unfold overdueBasedPrediction in Hres.
  assert (Hsel : selection (balls g) (pick g) res).
  { eapply weightedSelection_partial; [|exact Hres]. by apply wf_weights_keys_ok. }
  assert (Hcand : candidate g res).
  { destruct Hsel as (Hl & Hnd & Hr & Hs). by repeat split. }
  split; [done|].
  assert (Hresp : respects_weights (overdueScores g (d :: data)) res).
  { eapply weightedSelection_respects_positive; [done| |exact Hres].
    by apply wf_weights_nonneg with (N := balls g). }
  assert (Hentries := overdueScores_entries g (d :: data) Hdata HK ltac:(lia)).
  assert (Hposkey : forall k, positive_key (overdueScores g (d :: data)) k -> k ∉ numbers d).
  { intros k (w & Hin & Hw) Hk. destruct (Hentries _ _ Hin) as (_ & q & [= <-] & _ & Hq).
    apply Hq in Hw. apply (drawsSince_latest k d data) in Hk. lia. }
  destruct Hresp as [Hall|Hall].
  { intros n Hn. rewrite Forall_forall in Hall. by apply Hposkey, Hall. }
  set (P := filter (fun n => n ∉ numbers d) (seq 1 (balls g))).
  assert (Hd : valid_numbers g (numbers d)).
  { unfold valid_data in Hdata. by apply Forall_cons in Hdata as [? _]. }
  destruct Hd as (Hdl & Hdn & Hdr).
  assert (HP : P ⊆+ res).
  { apply NoDup_submseteq; [apply NoDup_filter, NoDup_seq|].
    intros n [Hn Hseq]%list_elem_of_filter. apply Hall.
    apply list_elem_of_In, in_seq in Hseq.
    assert (Hkey : n ∈ keys (overdueScores g (d :: data))).
    { unfold overdueScores. cbv zeta.
      rewrite (keys_map_seq (fun i => JS.min (JS.div (tnum (lastSeenTable g (d :: data)) i) _) (Fin 3))).
      apply list_elem_of_In, in_seq. lia. }
    apply list_elem_of_fmap in Hkey as ([k w] & -> & Hin). cbn [fst] in *.
    destruct (Hentries _ _ Hin) as (_ & q & -> & _ & Hq).
    exists q. split; [done|]. apply Hq.
    destruct (drawsSince k (d :: data)) eqn:E; [|lia].
    apply drawsSince_latest in E. done. }
  assert (HlenP : length P = (balls g - pick g)%nat).
  { unfold P. rewrite outside_draw_length by done. by rewrite Hdl. }
  destruct Hsel as (Hl & _).
  assert (Hperm : P ≡ₚ res).
  { apply submseteq_length_Permutation; [done|]. rewrite HlenP, Hl. lia. }
  intros n Hn. rewrite <- Hperm in Hn. unfold P in Hn.
  by apply list_elem_of_filter in Hn as [? _].
Qed.

(** ** Crossover of two valid parents *)

Section Crossover.

Variable K : nat.

Lemma guarded_add_distinct l : forall child,
  NoDup (child ++ l) -> (length (child ++ l) <= K)%nat ->
  fold_left (guarded_add K) l child = child ++ l.
Proof.
  induction l as [|x l IH]; intros child Hnd Hlen; cbn [fold_left].
  - by rewrite app_nil_r.
  - rewrite length_app in Hlen. cbn [length] in Hlen.
    unfold guarded_add at 2. destruct (Nat.ltb_spec (length child) K); [|lia].
    unfold set_add.
    assert (Hx : includes child x = false).
    { apply includes_false. intros Hin. apply NoDup_app in Hnd as (_ & Hd & _).
      apply (Hd x Hin). by left. }
    rewrite Hx. rewrite (IH (child ++ [x])).
    + by rewrite <- app_assoc.
    + by rewrite <- app_assoc.
    + rewrite <- app_assoc, length_app. simpl. lia.
Qed.

Lemma guarded_add_fill l : forall child,
  (length child <= K)%nat ->
  exists extra,
    fold_left (guarded_add K) l child = child ++ extra /\
    (forall x, x ∈ extra -> x ∈ l) /\
    (length (child ++ extra) <= K)%nat /\
    (length (child ++ extra) = K \/ forall x, x ∈ l -> x ∈ child ++ extra).
Proof.
  induction l as [|x l IH]; intros child Hlen; cbn [fold_left].
  - exists []. rewrite app_nil_r. split; [done|]. split; [by intros x ?%elem_of_nil|].
    split; [done|]. right. by intros x ?%elem_of_nil.
  - unfold guarded_add at 2. destruct (Nat.ltb_spec (length child) K) as [Hlt|Hge].
    + unfold set_add. destruct (includes child x) eqn:Hx.
      * apply includes_spec in Hx.
        destruct (IH child Hlen) as (extra & -> & Hsub & Hle & Hfull).
        exists extra. split; [done|]. split; [intros y Hy; right; by apply Hsub|].
        split; [done|]. destruct Hfull as [?|Hall]; [by left|right].
        intros y [->|Hy]%elem_of_cons; [apply elem_of_app; by left|by apply Hall].
      * destruct (IH (child ++ [x])) as (extra & -> & Hsub & Hle & Hfull).
        { rewrite length_app. simpl. lia. }
        exists (x :: extra). rewrite <- app_assoc in *. cbn [app] in *.
        split; [done|]. split.
        { intros y [->|Hy]%elem_of_cons; [by left|right; by apply Hsub]. }
        split; [done|]. destruct Hfull as [?|Hall]; [by left|right].
        intros y [->|Hy]%elem_of_cons; [|by apply Hall].
        apply elem_of_app. right. by left.
    + assert (Hsame : forall l', fold_left (guarded_add K) l' child = child).
      { induction l' as [|y l' IH']; [done|]. cbn [fold_left]. unfold guarded_add at 2.
        destruct (Nat.ltb_spec (length child) K); [lia|done]. }
      rewrite Hsame. exists []. rewrite app_nil_r. split; [done|].
      split; [by intros y ?%elem_of_nil|]. split; [done|]. left. lia.
Qed.

End Crossover.

(** X25: The crossover of two valid individuals returns without calling
    [Math.random()]: the child is a valid individual that starts with the
    first [floor(pick / 2)] numbers of the first parent, and every number of
    it comes from a parent. *)
Theorem crossover_of_valid_parents (rnd : nat -> Q) (g : GameConfig) (fuel : nat)
    (parent1 parent2 : list nat) (s : nat) :
  individual g parent1 -> individual g parent2 -> (1 <= fuel)%nat ->
  exists child,
    crossover rnd g fuel parent1 parent2 s = Ok (child, s) /\
    individual g child /\
    take (pick g / 2) child = take (pick g / 2) parent1 /\
    forall n, n ∈ child -> n ∈ parent1 \/ n ∈ parent2.
Proof.
  intros (Hl1 & Hnd1 & Hr1) (Hl2 & Hnd2 & Hr2) Hfuel.
  unfold crossover. cbv zeta.
  set (c := (pick g / 2)%nat).
  assert (Hc : (c <= pick g)%nat) by (unfold c; apply Nat.Div0.div_le_upper_bound; lia).
  assert (Hfirst : fold_left (fun child x =>
                      if Nat.ltb (length child) (pick g) then set_add child x else child)
                    (take c parent1) [] = take c parent1).
  { apply (guarded_add_distinct (pick g) (take c parent1) []).
    - cbn [app]. eapply sublist_NoDup; [apply sublist_take|done].
    - cbn [app]. rewrite length_take. lia. }
  rewrite Hfirst.
  destruct (guarded_add_fill (pick g) parent2 (take c parent1)) as (extra & Hfold & Hsub & Hle & Hfull).
  { rewrite length_take. lia. }
  unfold guarded_add in Hfold. rewrite Hfold.
  assert (Hpart : partial_numbers g (take c parent1 ++ extra)).
  { split; [|split; [|done]].
    - assert (H0 : partial_numbers g (take c parent1)).
      { split; [eapply sublist_NoDup; [apply sublist_take|done]|].
        split; [by apply Forall_take|rewrite length_take; lia]. }
      destruct (guarded_add_fold g parent2 (take c parent1) Hr2 H0) as (Hnd & _).
      by rewrite Hfold in Hnd.
    - apply Forall_app. split; [by apply Forall_take|].
      apply Forall_forall. intros n Hn. rewrite Forall_forall in Hr2. by apply Hr2, Hsub. }
  assert (Hlen : length (take c parent1 ++ extra) = pick g).
  { destruct Hfull as [?|Hall]; [done|].
    destruct Hpart as (Hnd & _ & _).
    assert (H : (length parent2 <= length (take c parent1 ++ extra))%nat).
    { apply submseteq_length, NoDup_submseteq; [done|]. intros n Hn. by apply Hall. }
    lia. }
  exists (take c parent1 ++ extra).
  destruct fuel as [|fuel]; [lia|]. rewrite crossover_fill_S.
  destruct (Nat.ltb_spec (length (take c parent1 ++ extra)) (pick g)); [lia|].
  split; [done|]. split.
  { destruct Hpart as (Hnd & Hr & _). by repeat split. }
  split.
  { rewrite take_app_le by (rewrite length_take; lia).
    rewrite take_take. f_equal. lia. }
  intros n [Hn|Hn]%elem_of_app.
  - left. eapply elem_of_sublist; [exact Hn|apply sublist_take].
  - right. by apply Hsub.
Qed.

(** ** Several sets from a strategy that draws no random number *)

Lemma gms_attempts_fixed rnd g data weights fuel algorithm constraints c used :
  (forall s, runAlgorithm rnd g data weights fuel algorithm s = Ok (c, s)) ->
  forall turns attempts s,
    (1 <= turns)%nat -> (100 - attempts <= turns)%nat ->
    gms_attempts rnd g data weights fuel turns algorithm constraints used attempts s
    = Ok (c, s).
Proof.
  intros Hrun. induction turns as [|turns IH]; intros attempts s H1 H100; [lia|].
  rewrite gms_attempts_S, bind_run, Hrun. cbv zeta. rewrite attemptsAfter_S.
  destruct (usedHas used c); [|done]. cbn [andb].
  destruct (Nat.ltb_spec (S attempts) 100) as [Hlt|Hge]; [|done].
  apply IH; lia.
Qed.

Lemma gms_sets_fixed rnd g data weights fuel algorithm constraints c :
  (forall s, runAlgorithm rnd g data weights fuel algorithm s = Ok (c, s)) ->
  (100 <= fuel)%nat ->
  forall remaining sets used s,
    gms_sets rnd g data weights fuel remaining algorithm constraints sets used s
    = Ok (sets ++ repeat (mkSet c (calculateConfidence g data c) algorithm) remaining, s).
Proof.
  intros Hrun Hfuel. induction remaining as [|remaining IH]; intros sets used s.
  - cbn [gms_sets repeat]. by rewrite app_nil_r.
  - cbn [gms_sets]. rewrite bind_run.
    rewrite (gms_attempts_fixed rnd g data weights fuel algorithm constraints c used Hrun)
      by lia.
    rewrite IH. cbn [repeat]. by rewrite <- app_assoc.
Qed.

Lemma js_sort_repeat {A} (after : A -> A -> bool) (x : A) n :
  after x x = false -> js_sort after (repeat x n) = repeat x n.
Proof.
  intros Hx. apply js_sort_id. intros a b Ha Hb.
  apply list_elem_of_In, repeat_spec in Ha. apply list_elem_of_In, repeat_spec in Hb. by subst.
Qed.

Lemma confidence_not_above_itself (a : jsnum) : JS.gt (JS.sub a a) (Fin 0) = false.
Proof.
  destruct a as [q| | |]; try reflexivity.
  unfold JS.gt, JS.sub, JS.lt. simpl. apply negb_false_iff, Qle_bool_iff. lra.
Qed.

(** X26: For the pattern strategy [generateMultipleSets] returns [count] copies of
    one set: the strategy is deterministic, and a combination produced before
    is accepted again once the 100 attempts are used up. *)
Theorem multiple_sets_of_pattern_repeat (rnd : nat -> Q) (g : GameConfig) (data : list Draw)
    (weights : gmap string jsnum) (fuel : nat) :
  valid_game g -> (1 <= pick g)%nat -> valid_data g data ->
  (pick g <= fuel)%nat -> (100 <= fuel)%nat ->
  exists c,
    patternBasedPrediction g data fuel = Ok c /\ candidate g c /\
    forall count constraints s,
      generateMultipleSets rnd g data weights fuel count "pattern" constraints s
      = Ok (repeat (mkSet c (calculateConfidence g data c) "pattern") count, s).
Proof.
  intros Hg HK Hdata Hfuel H100.
  destruct (patternBasedPrediction_total g data fuel Hg HK Hdata Hfuel) as (c & Hc & Hcand).
  exists c. split; [done|]. split; [done|].
  intros count constraints s. unfold generateMultipleSets. rewrite bind_run.
  rewrite (gms_sets_fixed rnd g data weights fuel "pattern" constraints c).
  - cbn [app]. unfold ret. do 2 f_equal. apply js_sort_repeat.
    cbn [ps_confidence]. apply confidence_not_above_itself.
  - intros s0. change (runAlgorithm rnd g data weights fuel "pattern")
      with (lift (patternBasedPrediction g data fuel)). by rewrite Hc.
  - done.
Qed.

(** ** The generated sample history *)

Lemma data_generateRandomNumbers_loop rnd fuel max count : forall numbers s,
  Data.generateRandomNumbers_loop rnd fuel max count numbers s
  = grn_loop rnd (mkGame max count) fuel numbers s.
Proof.
  induction fuel as [|fuel IH]; intros numbers s; [done|].
  cbn [Data.generateRandomNumbers_loop grn_loop pick balls].
  destruct (Nat.ltb (length numbers) count); [|done].
  rewrite !bind_run. destruct (randomBelow rnd max s) as [[k s']| |]; [|done..].
  apply IH.
Qed.

Lemma post_data_generateRandomNumbers rnd fuel max count :
  rnd_ok rnd -> (1 <= max)%nat ->
  post (Data.generateRandomNumbers rnd fuel max count) (valid_numbers (mkGame max count)).
Proof.
  intros Hrnd Hmax s x s'. unfold Data.generateRandomNumbers.
  rewrite data_generateRandomNumbers_loop.
  apply (post_grn_loop rnd (mkGame max count) Hrnd Hmax fuel []), partial_numbers_nil.
Qed.

Lemma randomBelowZ_run rnd n s :
  randomBelowZ rnd n s = Ok (Qfloor (rnd s * inject_Z n), S s).
Proof. reflexivity. Qed.

Lemma randomBelowZ_range rnd n s :
  rnd_ok rnd -> (0 < n)%Z ->
  (0 <= Qfloor (rnd s * inject_Z n) < n)%Z.
Proof.
  intros Hrnd Hn. destruct (Hrnd s) as [H0 H1].
  assert (Hq : 0 < inject_Z n) by (change 0 with (inject_Z 0); by rewrite <- Zlt_Qlt).
  split.
  - change 0%Z with (Qfloor (inject_Z 0)). apply Qfloor_resp_le.
    change (inject_Z 0) with 0. apply Qmult_le_0_compat; lra.
  - rewrite Zlt_Qlt. eapply Qle_lt_trans; [apply Qfloor_le|].
    rewrite <- (Qmult_1_l (inject_Z n)) at 2. apply Qmult_lt_compat_r; [done|lra].
Qed.

Lemma post_sampleDraw rnd fuel game i :
  rnd_ok rnd -> (1 <= balls (config game))%nat ->
  post (Data.sampleDraw rnd fuel game i) (sampleDrawOk game).
Proof.
  intros Hrnd HN. unfold Data.sampleDraw. cbv zeta.
  eapply post_bind.
  { apply (post_data_generateRandomNumbers rnd fuel (balls (config game)) (pick (config game)));
      done. }
  intros ns Hns.
  eapply post_bind with (Q1 := fun b =>
    (S b <= Nat.max 1 (if hasBonus game then bonusBalls game else 1))%nat).
  { intros s b s'. rewrite randomBelow_run. intros [= <- _].
    remember (if hasBonus game then bonusBalls game else 1%nat) as m eqn:Em. clear Em.
    destruct (Nat.eq_dec m 0%nat) as [E|E].
    - subst m. change (Z.of_nat 0) with 0%Z. rewrite Z.mul_0_r, Zdiv_0_l. simpl. lia.
    - assert (Hb : (Z.to_nat (Qfloor (rnd s * inject_Z (Z.of_nat m))) < m)%nat).
      { apply (post_randomBelow rnd m Hrnd ltac:(lia) s _ (S s)). apply randomBelow_run. }
      change (S (Z.to_nat (Qfloor (rnd s * inject_Z (Z.of_nat m)))) <= Nat.max 1 m)%nat.
      lia. }
  intros b Hb.
  destruct (JS.floor _) as [q| | |]; try apply post_throw.
  intros s d s'. rewrite bind_run, randomBelowZ_run. intros [= <- _].
  unfold sampleDrawOk. cbn [draw numbers bonus jackpot].
  split.
  { destruct (config game) as [N K] eqn:Eg. by apply (sort_asc_candidate (mkGame N K)). }
  split; [lia|].
  assert (Hj := randomBelowZ_range rnd 50000000 s Hrnd ltac:(lia)).
  change (jackpotStart game <= jackpotStart game + Qfloor (rnd s * inject_Z 50000000)
          < jackpotStart game + 50000000)%Z.
  lia.
Qed.

Lemma post_generateSampleData_loop rnd fuel game :
  rnd_ok rnd -> (1 <= balls (config game))%nat ->
  forall remaining i data,
    Forall (sampleDrawOk game) data ->
    post (Data.generateSampleData_loop rnd fuel game i remaining data)
         (fun res => length res = (length data + remaining)%nat /\
                     Forall (sampleDrawOk game) res).
Proof.
  intros Hrnd HN. induction remaining as [|remaining IH]; intros i data Hall.
  - apply post_ret. split; [lia|done].
  - cbn [Data.generateSampleData_loop].
    eapply post_bind; [by apply post_sampleDraw|]. intros d Hd.
    eapply post_impl; [apply (IH (S i) (data ++ [d]))|].
    + apply Forall_app. split; [done|by apply Forall_singleton].
    + intros res [Hl Hres]. rewrite length_app in Hl. simpl in Hl. split; [lia|done].
Qed.

(** X27: Every history [generateSampleData] returns has [numDraws] draws, each
    with [pick] distinct numbers of [1..balls] in ascending order, a bonus
    number within [1..bonusBalls] and a jackpot within 50 million of
    [jackpotStart]: it is a valid history of the game. *)
Theorem sample_data_is_valid (rnd : nat -> Q) (game : GameInfo) (fuel numDraws : nat) :
  rnd_ok rnd -> (1 <= balls (config game))%nat ->
  post (Data.generateSampleData rnd fuel game numDraws)
       (fun data =>
          length data = numDraws /\
          valid_data (config game) (map draw data) /\
          Forall (sampleDrawOk game) data).
Proof.
  intros Hrnd HN. unfold Data.generateSampleData.
  eapply post_impl; [apply (post_generateSampleData_loop rnd fuel game Hrnd HN numDraws 0 [])|].
  - constructor.
  - intros data [Hlen Hall]. split; [done|]. split; [|done].
    unfold valid_data. apply Forall_fmap. eapply Forall_impl; [exact Hall|].
    by intros d ((Hv & _) & _).
Qed.

(** ** The CSV parser *)

Lemma js_sort_Z_sorted (l : list Z) :
  StronglySorted Z.le (js_sort (fun a b => Z.ltb b a) l).
Proof.
  apply js_sort_stable with (orig := fun _ _ => True).
  - intros a b c _ _ _. lia.
  - intros a b _ _ H%Z.ltb_lt. lia.
  - intros a b _ _ H%Z.ltb_ge _. lia.
  - induction l; constructor; [done|]. by apply Forall_forall.
Qed.

Lemma parseLine_shape game draws idx line :
  Forall (fun d => length (ManualDataEntry.numbers d) = pick game /\
                   StronglySorted Z.le (ManualDataEntry.numbers d)) draws ->
  Forall (fun d => length (ManualDataEntry.numbers d) = pick game /\
                   StronglySorted Z.le (ManualDataEntry.numbers d))
         (ManualDataEntry.parseLine game draws idx line) /\
  (length (ManualDataEntry.parseLine game draws idx line) <= S (length draws))%nat.
Proof.
  intros Hdraws. unfold ManualDataEntry.parseLine.
  destruct (Nat.eqb idx 0 && _); [split; [done|lia]|]. cbv zeta.
  destruct (Nat.ltb _ _); [split; [done|lia]|].
  match goal with
  | |- context [Nat.eqb ?a (pick game)] => destruct (Nat.eqb_spec a (pick game)) as [E|E]
  end; [|split; [done|lia]].
  split.
  - apply Forall_app. split; [done|]. apply Forall_singleton.
    cbn [ManualDataEntry.numbers]. split; [done|]. apply js_sort_Z_sorted.
  - rewrite length_app. simpl. lia.
Qed.

(** X28: [parseCSV] returns at most one draw per line, each with exactly [pick]
    numbers in ascending order; nothing else is checked, as the example
    shows: the header line is skipped, a repeated number and a hexadecimal
    field are accepted, an empty bonus field is [null], and a line with a
    field that is no number is dropped. *)
Theorem parseCSV_shape (csvText : string) (game : GameConfig) :
  (length (ManualDataEntry.parseCSV csvText game)
   <= length (ManualDataEntry.linesOf csvText))%nat /\
  Forall (fun d => length (ManualDataEntry.numbers d) = pick game /\
                   StronglySorted Z.le (ManualDataEntry.numbers d))
         (ManualDataEntry.parseCSV csvText game) /\
  ManualDataEntry.parseCSV "draw date,n1,n2,bonus
2024-01-13, 7 ,7,
2024-01-10,12,0x1f,9,extra
2024-01-06,5,x,3" (mkGame 49 2)
  = [ ManualDataEntry.mkCsvDraw "2024-01-13" [7; 7]%Z None;
      ManualDataEntry.mkCsvDraw "2024-01-10" [12; 31]%Z (Some (Some 9%Z)) ].
Proof.
  split; [|split].
  - unfold ManualDataEntry.parseCSV. cbv zeta.
    set (lines := ManualDataEntry.linesOf _).
    assert (Hgen : forall (l : list (nat * string)) draws,
      (length (fold_left (fun draws '(idx, line) => ManualDataEntry.parseLine game draws idx line)
                         l draws) <= length draws + length l)%nat).
    { induction l as [|[idx line] l IH]; intros draws; cbn [fold_left length]; [lia|].
      etrans; [apply IH|].
      assert (H := parseLine_shape game [] idx line (Forall_nil_2 _)).
      assert (H' : (length (ManualDataEntry.parseLine game draws idx line)
                    <= S (length draws))%nat).
      { unfold ManualDataEntry.parseLine.
        destruct (Nat.eqb idx 0 && _); [lia|]. cbv zeta.
        destruct (Nat.ltb _ _); [lia|].
        destruct (Nat.eqb _ _); [rewrite length_app; simpl; lia|lia]. }
      lia. }
    etrans; [apply Hgen|]. rewrite length_combine, length_seq. simpl. lia.
  - unfold ManualDataEntry.parseCSV. cbv zeta.
    set (lines := ManualDataEntry.linesOf _).
    assert (Hgen : forall (l : list (nat * string)) draws,
      Forall (fun d => length (ManualDataEntry.numbers d) = pick game /\
                       StronglySorted Z.le (ManualDataEntry.numbers d)) draws ->
      Forall (fun d => length (ManualDataEntry.numbers d) = pick game /\
                       StronglySorted Z.le (ManualDataEntry.numbers d))
             (fold_left (fun draws '(idx, line) => ManualDataEntry.parseLine game draws idx line)
                        l draws)).
    { induction l as [|[idx line] l IH]; intros draws Hd; cbn [fold_left]; [done|].
      apply IH. by apply parseLine_shape. }
    apply Hgen. constructor.
  - vm_compute. reflexivity.
Qed.

(** ** The balanced generator *)

Lemma underrepresentedOf_keys frequency avgFreq n :
  n ∈ RealisticDataGenerator.underrepresentedOf frequency avgFreq -> n ∈ keys frequency.
Proof.
  unfold RealisticDataGenerator.underrepresentedOf, keys.
  intros (e & -> & He)%list_elem_of_fmap.
  apply list_elem_of_fmap. exists e. split; [done|].
  apply list_elem_of_In in He. apply filter_In in He as [He _]. by apply list_elem_of_In.
Qed.

Lemma post_generateBalancedNumbers_loop rnd N K frequency totalFreq :
  rnd_ok rnd -> (1 <= N)%nat ->
  Forall (fun k => (1 <= k <= N)%nat) (keys frequency) ->
  forall fuel numbers,
    partial_numbers (mkGame N K) numbers ->
    post (RealisticDataGenerator.generateBalancedNumbers_loop rnd fuel N K frequency totalFreq
                                                              numbers)
         (valid_numbers (mkGame N K)).
Proof.
  intros Hrnd HN Hkeys. induction fuel as [|fuel IH]; intros numbers Hp;
    [apply post_out_of_fuel|].
  cbn [RealisticDataGenerator.generateBalancedNumbers_loop].
  destruct (Nat.ltb_spec (length numbers) K) as [Hlt|Hge].
  - eapply post_bind with (Q1 := fun _ => True); [done|]. intros r _.
    eapply post_bind with (Q1 := fun num => (1 <= num <= N)%nat).
    + destruct (negb (Qle_bool (7 # 10) r)).
      * eapply post_bind; [by apply (post_randomNumber rnd (mkGame N K))|].
        intros k Hk. by apply post_ret.
      * cbv zeta.
        set (under := RealisticDataGenerator.underrepresentedOf _ _).
        destruct (Nat.ltb 0 (length under)).
        -- eapply post_bind with (Q1 := fun _ => True); [done|]. intros i _.
           destruct (under !! i) as [n|] eqn:E; [|apply post_throw].
           apply post_ret. apply list_elem_of_lookup_2 in E.
           apply underrepresentedOf_keys in E.
           by apply (proj1 (Forall_forall _ _) Hkeys).
        -- eapply post_bind; [by apply (post_randomNumber rnd (mkGame N K))|].
           intros k Hk. by apply post_ret.
    + intros num Hnum. apply IH. by apply (partial_numbers_set_add (mkGame N K)).
  - apply post_ret. by apply partial_numbers_full.
Qed.

Lemma post_generateDraw rnd fuel game frequency :
  rnd_ok rnd -> (1 <= balls (config game))%nat ->
  keys frequency = seq 1 (balls (config game)) ->
  Forall (fun e => JS.nonneg (snd e)) frequency ->
  post (RealisticDataGenerator.generateDraw rnd fuel game frequency)
       (fun r => generatedDrawOk game (fst r) /\
                 keys (snd r) = seq 1 (balls (config game)) /\
                 Forall (fun e => JS.nonneg (snd e)) (snd r)).
Proof.
  intros Hrnd HN Hkeys Hnn. unfold RealisticDataGenerator.generateDraw. cbv zeta.
  destruct (config game) as [N K] eqn:Eg. cbn [balls pick] in *.
  eapply post_bind.
  { unfold RealisticDataGenerator.generateBalancedNumbers. cbv zeta.
    apply post_generateBalancedNumbers_loop; [done..| |apply partial_numbers_nil].
    rewrite Hkeys. apply Forall_forall. intros k Hk%elem_of_seq. lia. }
  intros ns Hns.
  set (m := if Nat.eqb (bonusBalls game) 0 then N else bonusBalls game).
  assert (Hm : (1 <= m)%nat).
  { unfold m. destruct (Nat.eqb_spec (bonusBalls game) 0); lia. }
  eapply post_bind; [by apply (post_randomBelow rnd m)|].
  intros b Hb. cbv beta in Hb.
  intros s x s'. rewrite bind_run, randomBelowZ_run. intros [= <- _].
  cbn [fst snd]. split.
  - unfold generatedDrawOk. cbn [draw numbers bonus jackpot]. rewrite Eg.
    split; [by apply (sort_asc_candidate (mkGame N K))|].
    split; [cbn [balls]; fold m; lia|].
    assert (Hj := randomBelowZ_range rnd 70000000 s Hrnd ltac:(lia)).
    change (jackpotStart game <= jackpotStart game + Qfloor (rnd s * inject_Z 70000000)
            < jackpotStart game + 70000000)%Z.
    lia.
  - destruct Hns as (_ & _ & Hr).
    destruct (fold_tincr_freq N ns frequency Hkeys Hnn Hr) as (Hk' & Hn' & _).
    done.
Qed.

Lemma post_generate_loop rnd fuel game :
  rnd_ok rnd -> (1 <= balls (config game))%nat ->
  forall remaining frequency draws,
    keys frequency = seq 1 (balls (config game)) ->
    Forall (fun e => JS.nonneg (snd e)) frequency ->
    Forall (generatedDrawOk game) draws ->
    post (RealisticDataGenerator.generate_loop rnd fuel game remaining frequency draws)
         (fun res => length res = (length draws + remaining)%nat /\
                     Forall (generatedDrawOk game) res).
Proof.
  intros Hrnd HN. induction remaining as [|remaining IH];
    intros frequency draws Hkeys Hnn Hall.
  - apply post_ret. split; [lia|done].
  - cbn [RealisticDataGenerator.generate_loop].
    eapply post_bind; [by apply post_generateDraw|]. intros [x fr] (Hx & Hk & Hn).
    cbn [fst snd] in *.
    eapply post_impl; [apply (IH fr (draws ++ [x]))|]; [done|done| |].
    + apply Forall_app. split; [done|by apply Forall_singleton].
    + intros res [Hl Hres]. rewrite length_app in Hl. simpl in Hl. split; [lia|done].
Qed.

(** X29: Every history [RealisticDataGenerator.generate] returns has [numDraws]
    draws, each with [pick] distinct numbers of [1..balls] in ascending
    order, a bonus number within [1..(bonusBalls || balls)] and a jackpot
    within 70 million of [jackpotStart]: it is a valid history of the game. *)
Theorem realistic_data_is_valid (rnd : nat -> Q) (game : GameInfo) (fuel numDraws : nat) :
  rnd_ok rnd -> (1 <= balls (config game))%nat ->
  post (RealisticDataGenerator.generate rnd fuel game numDraws)
       (fun data =>
          length data = numDraws /\
          valid_data (config game) (map draw data) /\
          Forall (generatedDrawOk game) data).
Proof.
  intros Hrnd HN. unfold RealisticDataGenerator.generate. cbv zeta.
  eapply post_bind.
  { apply (post_generate_loop rnd fuel game Hrnd HN numDraws
             (tinit (balls (config game)) (Fin 0)) []).
    - apply keys_tinit.
    - apply nonneg_tinit_zero.
    - constructor. }
  intros draws [Hlen Hall]. apply post_ret. simpl in Hlen.
  assert (Hrev : Forall (generatedDrawOk game) (rev draws)).
  { apply Forall_forall. intros x Hx. rewrite Forall_forall in Hall. apply Hall.
    by apply list_elem_of_In, in_rev, list_elem_of_In. }
  split; [by rewrite length_rev|]. split; [|done].
  unfold valid_data. apply Forall_fmap. eapply Forall_impl; [exact Hrev|].
  by intros d ((Hv & _) & _).
Qed.

(** ** Mutation *)

Lemma mutate_rate_zero_run rnd g fuel rate :
  rnd_ok rnd -> rate <= 0 ->
  forall (idx : list nat) (mutated : list nat) s,
    foldM (fun mutated i =>
             let* r := random rnd in
             if negb (Qle_bool rate r) then
               let* newNum := mutate_pick rnd g fuel mutated in
               ret (<[i := newNum]> mutated)
             else ret mutated) idx mutated s
    = Ok (mutated, (s + length idx)%nat).
Proof.
  intros Hrnd Hrate. induction idx as [|i idx IH]; intros mutated s.
  - cbn [foldM length]. unfold ret. by rewrite Nat.add_0_r.
  - cbn [foldM length]. rewrite bind_run, bind_run.
    change (random rnd s) with (Ok (rnd s, S s) : result (Q * nat)). cbv iota beta.
    assert (E : Qle_bool rate (rnd s) = true).
    { apply Qle_bool_iff. destruct (Hrnd s). lra. }
    rewrite E. cbn [negb]. change (ret mutated (S s)) with (Ok (mutated, S s) : result (list nat * nat)).
    cbv iota beta. rewrite IH. f_equal. f_equal. lia.
Qed.

(** X30: Whatever [mutate] returns for a valid individual is a valid individual;
    with a rate of 0 or less it returns the individual itself, after one
    call of [Math.random()] per number. *)
Theorem mutate_keeps_individual (rnd : nat -> Q) (g : GameConfig) (fuel : nat)
    (numbers : list nat) (rate : Q) :
  rnd_ok rnd -> (1 <= balls g)%nat -> individual g numbers ->
  post (mutate rnd g fuel numbers rate) (individual g) /\
  (rate <= 0 ->
   forall s, mutate rnd g fuel numbers rate s = Ok (numbers, (s + pick g)%nat)).
Proof.
  intros Hrnd HN Hind. split; [by apply post_mutate|].
  intros Hrate s. unfold mutate.
  rewrite (mutate_rate_zero_run rnd g fuel rate Hrnd Hrate), length_seq.
  by destruct Hind as (-> & _).
Qed.

Lemma small_history_valid : valid_data small_game small_history.
Proof. unfold small_history. solve_valid_data. Qed.

Lemma small_history_sorted : Forall (fun d => StronglySorted Nat.lt (numbers d)) small_history.
Proof.
  unfold small_history.
  repeat first [apply Forall_cons_2 | apply Forall_nil_2 | apply SSorted_cons
               | apply SSorted_nil | (simpl; lia)].
Qed.

Lemma wf_weights_ones N : wf_weights N (tinit N (Fin 1)).
Proof.
  split.
  - rewrite keys_tinit. generalize 1%nat. induction N as [|N IH]; intros a; simpl; constructor.
    + apply IH.
    + apply Forall_forall. intros k Hk%elem_of_seq. lia.
  - unfold tinit. apply Forall_forall. intros e (i & -> & Hi%elem_of_seq)%list_elem_of_fmap.
    simpl. split; [lia|lra].
Qed.

Lemma keys_ok_ones N : keys_ok N (tinit N (Fin 1)).
Proof.
  destruct (wf_weights_ones N) as [Hs _]. split; [done|].
  rewrite keys_tinit. apply Forall_forall. intros k Hk%elem_of_seq. lia.
Qed.

(** X1: On a valid history, [getNumberFrequency] has one entry for every number of
    [1..balls], in ascending order, and the entry of [n] is the number of
    draws that hold [n]. *)
Theorem frequency_is_draw_count (g : GameConfig) (data : list Draw) :
  valid_data g data ->
  getNumberFrequency g data
  = map (fun n => (n, JS.of_nat (drawsWith n data))) (seq 1 (balls g)).
Proof. apply getNumberFrequency_spec. Qed.

Lemma frequency_is_draw_count_witness :
  getNumberFrequency small_game small_history
  = [(1, JS.of_nat 2); (2, JS.of_nat 2); (3, JS.of_nat 1);
     (4, JS.of_nat 0); (5, JS.of_nat 1); (6, JS.of_nat 0)]%nat.
Proof.
  rewrite (frequency_is_draw_count small_game small_history small_history_valid).
  reflexivity.
Defined.

Lemma frequency_total_witness :
  JS.sum (values (getNumberFrequency small_game small_history)) = JS.of_nat 6.
Proof. apply (frequency_total small_game small_history), small_history_valid. Defined.

Lemma hot_numbers_ranking_witness :
  length (getHotNumbers small_game small_history 3) = 3%nat /\
  StronglySorted before_desc (getHotNumbers small_game small_history 3).
Proof.
  destruct (hot_numbers_ranking small_game small_history 3 small_history_valid)
    as (Hlen & Hsorted & _).
  split; [exact Hlen|exact Hsorted].
Defined.

Lemma cold_numbers_ranking_witness :
  length (getColdNumbers small_game small_history 3) = 3%nat /\
  StronglySorted before_asc (getColdNumbers small_game small_history 3).
Proof.
  destruct (cold_numbers_ranking small_game small_history 3 small_history_valid)
    as (Hlen & Hsorted & _).
  split; [exact Hlen|exact Hsorted].
Defined.

Lemma overdue_numbers_ranking_witness :
  length (getOverdueNumbers small_game small_history 3) = 3%nat /\
  StronglySorted before_desc (getOverdueNumbers small_game small_history 3).
Proof.
  destruct (overdue_numbers_ranking small_game small_history 3 small_history_valid)
    as (Hlen & Hsorted & _).
  split; [exact Hlen|exact Hsorted].
Defined.

Lemma common_pairs_ranking_witness :
  (length (getCommonPairs small_history 2) <= 2)%nat /\
  forall a b c, ((a, b), c) ∈ getCommonPairs small_history 2 ->
                (a < b)%nat /\ c = drawsWithBoth a b small_history /\ (1 <= c)%nat.
Proof.
  destruct (common_pairs_ranking small_history 2 small_history_sorted)
    as (Hlen & _ & Hentries & _).
  split; [exact Hlen|exact Hentries].
Defined.

Lemma odd_even_distribution_witness :
  sum_list_with snd (getOddEvenDistribution small_history) = 3%nat.
Proof.
  destruct (odd_even_distribution small_game small_history small_history_valid)
    as (_ & _ & Hsum).
  exact Hsum.
Defined.

Lemma sum_distribution_bounds_witness :
  exists lo hi : nat,
    sd_min (getSumDistribution small_history) = JS.of_nat lo /\
    sd_max (getSumDistribution small_history) = JS.of_nat hi /\
    (lo <= hi)%nat.
Proof.
  destruct (sum_distribution_bounds small_history) as (lo & hi & Hmin & Hmax & Hlo & _ & Hall & _).
  - discriminate.
  - exists lo, hi. split; [exact Hmin|]. split; [exact Hmax|]. apply (Hall lo Hlo).
Defined.

Lemma decade_distribution_witness :
  JS.sum (map snd (getDecadeDistribution small_game small_history)) = JS.of_nat 6.
Proof.
  destruct (decade_distribution small_game small_history small_history_valid) as (_ & Hsum).
  exact Hsum.
Defined.

Lemma delta_analysis_witness :
  JS.sum (values (getDeltaAnalysis small_history)) = JS.of_nat 3.
Proof.
  destruct (delta_analysis small_game small_history small_history_valid) as (_ & _ & Hsum).
  exact Hsum.
Defined.

Lemma consecutive_pair_frequency_witness :
  JS.sum (values (getConsecutivePairFrequency small_history)) = JS.of_nat 3.
Proof.
  destruct (consecutive_pair_frequency small_game small_history small_history_valid)
    as (_ & _ & Hsum).
  exact Hsum.
Defined.

Lemma bonus_frequency_witness :
  getBonusFrequency small_info small_history
  = [(1, JS.of_nat 3); (2, JS.of_nat 0); (3, JS.of_nat 0)]%nat.
Proof.
  rewrite (bonus_frequency small_info small_history); [reflexivity|].
  unfold small_history. repeat (apply Forall_cons_2; [simpl; lia|]). apply Forall_nil_2.
Defined.

Lemma pattern_analysis_witness :
  allOdd (getPatternAnalysis small_game small_history) = drawsAllOdd small_history /\
  hasConsecutive (getPatternAnalysis small_game small_history)
  = drawsWithConsecutivePair small_history.
Proof.
  destruct (pattern_analysis small_game small_history small_history_valid)
    as (Hodd & _ & Hcons & _).
  - simpl. lia.
  - split; [exact Hodd|exact Hcons].
Defined.

Lemma weighted_selection_result_witness :
  exists res s',
    weightedSelection sample_rnd small_game 10 (tinit 6 (Fin 1)) 2 0%nat = Ok (res, s') /\
    selection 6 2 res /\ (2 <= s')%nat.
Proof.
  assert (E : exists res s',
             weightedSelection sample_rnd small_game 10 (tinit 6 (Fin 1)) 2 0%nat
             = Ok (res, s'))
    by (vm_compute; eauto).
  destruct E as (res & s' & E). exists res, s'. split; [exact E|].
  apply (weighted_selection_result sample_rnd small_game (tinit 6 (Fin 1)) 2 10 0 res s').
  - apply (keys_ok_ones 6).
  - exact E.
Defined.

Lemma weighted_selection_too_many_witness :
  weightedSelection sample_rnd small_game 100 (tinit 6 (Fin 1)) 7 0%nat = OutOfFuel.
Proof.
  apply (weighted_selection_too_many sample_rnd small_game (tinit 6 (Fin 1)) 7 100 0).
  - apply (keys_ok_ones 6).
  - simpl. lia.
Defined.

Lemma wheeling_best_combination_witness :
  exists combo,
    wheelingSystemPrediction small_game small_history (Some [1; 2; 3]%nat) = Ok (sort_asc combo) /\
    length combo = 2%nat.
Proof.
  destruct (wheeling_best_combination small_game small_history [1; 2; 3]%nat)
    as (combo & Hrun & _ & Hlen & _).
  - apply small_history_valid.
  - repeat (apply Forall_cons_2; [simpl; lia|]). apply Forall_nil_2.
  - simpl. lia.
  - exists combo. split; [exact Hrun|exact Hlen].
Defined.

Lemma wheeling_too_few_keys_witness :
  wheelingSystemPrediction small_game small_history (Some [4]%nat) = Throw.
Proof.
  apply (wheeling_too_few_keys small_game small_history [4]%nat). simpl. lia.
Defined.

Lemma empty_history_deterministic_witness :
  patternBasedPrediction lotto649 [] 6 = Ok [1; 2; 3; 4; 5; 6]%nat /\
  wheelingSystemPrediction lotto649 [] None = Ok [1; 2; 3; 4; 5; 6]%nat.
Proof.
  apply (empty_history_deterministic lotto649 6); simpl; lia.
Defined.

Lemma empty_history_exceptions_witness :
  statisticalEquilibriumPrediction sample_rnd lotto649 [] 10 0%nat = Throw /\
  markovChainPrediction sample_rnd lotto649 [] 10 0%nat = Throw /\
  monteCarloSimulation sample_rnd lotto649 [] 11 1 0%nat = Throw.
Proof.
  apply (empty_history_exceptions sample_rnd lotto649 10 0 0). simpl. lia.
Defined.

Lemma empty_history_hybrid_diverges_witness :
  hybridPrediction sample_rnd lotto649 [] initialWeights 1000 0%nat = OutOfFuel /\
  generateMultipleSets sample_rnd lotto649 [] initialWeights 1000 1 "hybrid" onlyOddEven 0%nat
  = OutOfFuel.
Proof.
  apply (empty_history_hybrid_diverges sample_rnd lotto649 initialWeights onlyOddEven 1000 0 0);
    simpl; lia.
Defined.

Lemma overdue_avoids_latest_draw_witness :
  exists res s',
    overdueBasedPrediction sample_rnd small_game small_history 5 0%nat = Ok (res, s') /\
    candidate small_game res /\
    forall n, n ∈ res -> n ∉ [1; 2]%nat.
Proof.
  assert (E : exists res s',
             overdueBasedPrediction sample_rnd small_game small_history 5 0%nat = Ok (res, s'))
    by (vm_compute; eauto).
  destruct E as (res & s' & E). exists res, s'. split; [exact E|].
  apply (overdue_avoids_latest_draw sample_rnd small_game (mkDraw [1; 2]%nat 1)
           [mkDraw [2; 3]%nat 1; mkDraw [1; 5]%nat 1] 5 0 res s').
  - apply sample_rnd_granular.
  - apply small_history_valid.
  - simpl. lia.
  - simpl. lia.
  - exact E.
Defined.

Lemma crossover_of_valid_parents_witness :
  exists child,
    crossover sample_rnd small_game 1 [1; 2]%nat [3; 4]%nat 0%nat = Ok (child, 0%nat) /\
    individual small_game child.
Proof.
  destruct (crossover_of_valid_parents sample_rnd small_game 1 [1; 2]%nat [3; 4]%nat 0)
    as (child & Hrun & Hind & _).
  - solve_valid_numbers.
  - solve_valid_numbers.
  - lia.
  - exists child. split; [exact Hrun|exact Hind].
Defined.

Lemma multiple_sets_of_pattern_repeat_witness :
  exists c,
    patternBasedPrediction small_game small_history 100 = Ok c /\
    generateMultipleSets sample_rnd small_game small_history initialWeights 100 3 "pattern"
                         onlyOddEven 0%nat
    = Ok (repeat (mkSet c (calculateConfidence small_game small_history c) "pattern") 3, 0%nat).
Proof.
  destruct (multiple_sets_of_pattern_repeat sample_rnd small_game small_history
              initialWeights 100) as (c & Hrun & _ & Hsets).
  - unfold valid_game. simpl. lia.
  - simpl. lia.
  - apply small_history_valid.
  - simpl. lia.
  - lia.
  - exists c. split; [exact Hrun|apply Hsets].
Defined.

Lemma sample_data_is_valid_witness :
  exists data s',
    Data.generateSampleData sample_rnd 20 lotto649_info 3 0%nat = Ok (data, s') /\
    length data = 3%nat /\
    valid_data lotto649 (map draw data).
Proof.
  assert (E : exists data s',
             Data.generateSampleData sample_rnd 20 lotto649_info 3 0%nat = Ok (data, s'))
    by (vm_compute; eauto).
  destruct E as (data & s' & E).
  destruct (sample_data_is_valid sample_rnd lotto649_info 20 3) with (s := 0%nat) (x := data)
                                                                      (s' := s')
    as (Hlen & Hvalid & _).
  - apply sample_rnd_ok.
  - simpl. lia.
  - exact E.
  - exists data, s'. split; [exact E|]. split; [exact Hlen|exact Hvalid].
Defined.

Lemma realistic_data_is_valid_witness :
  exists data s',
    RealisticDataGenerator.generate sample_rnd 20 lotto649_info 3 0%nat = Ok (data, s') /\
    length data = 3%nat /\
    valid_data lotto649 (map draw data).
Proof.
  assert (E : exists data s',
             RealisticDataGenerator.generate sample_rnd 20 lotto649_info 3 0%nat = Ok (data, s'))
    by (vm_compute; eauto).
  destruct E as (data & s' & E).
  destruct (realistic_data_is_valid sample_rnd lotto649_info 20 3) with (s := 0%nat) (x := data)
                                                                         (s' := s')
    as (Hlen & Hvalid & _).
  - apply sample_rnd_ok.
  - simpl. lia.
  - exact E.
  - exists data, s'. split; [exact E|]. split; [exact Hlen|exact Hvalid].
Defined.

Lemma mutate_keeps_individual_witness :
  mutate sample_rnd small_game 5 [1; 2]%nat 0 0%nat = Ok ([1; 2]%nat, 2%nat).
Proof.
  destruct (mutate_keeps_individual sample_rnd small_game 5 [1; 2]%nat 0) as (_ & Hrun).
  - apply sample_rnd_ok.
  - simpl. lia.
  - solve_valid_numbers.
  - apply (Hrun ltac:(lra) 0%nat).
Defined.

(* ===================================================================== *)
(** * The Markov transition matrix (C6) *)
(* ===================================================================== *)

(** ** The transition counts in closed form *)

Lemma countsMatrix_ext N (f h : nat -> nat -> nat) :
  (forall p c, (1 <= p <= N)%nat -> (1 <= c <= N)%nat -> f p c = h p c) ->
  countsMatrix N f = countsMatrix N h.
Proof.
  intros Hfh. unfold countsMatrix, countsRow. apply map_ext_in. intros p Hp%in_seq.
  f_equal. apply map_ext_in. intros c Hc%in_seq. f_equal. f_equal. apply Hfh; lia.
Qed.

Lemma bumpTransition_counts N f prev curr :
  (1 <= prev <= N)%nat -> (1 <= curr <= N)%nat ->
  bumpTransition (countsMatrix N f) prev curr
  = Ok (countsMatrix N (fun p c =>
          (f p c + if Nat.eqb p prev && Nat.eqb c curr then 1 else 0)%nat)).
Proof.
  intros Hp Hc. unfold bumpTransition, countsMatrix.
  rewrite (tget_map_seq (countsRow N f)) by lia.
  rewrite (tset_map_seq (countsRow N f)) by lia.
  f_equal. apply map_ext_in. intros p Hin%in_seq. f_equal.
  destruct (Nat.eqb_spec p prev) as [->|Hne].
  - unfold countsRow. rewrite (tincr_counts (f prev)) by lia.
    apply map_ext_in. intros c _. cbv beta. by rewrite Nat.eqb_refl, andb_true_l.
  - unfold countsRow. apply map_ext_in. intros c _. cbv beta.
    destruct (Nat.eqb_spec p prev); [done|]. cbn [andb]. by rewrite Nat.add_0_r.
Qed.

Lemma bump_row_counts N prev (currs : list nat) : forall f,
  (1 <= prev <= N)%nat -> Forall (fun c => (1 <= c <= N)%nat) currs ->
  foldR (fun tr c => bumpTransition tr prev c) currs (countsMatrix N f)
  = Ok (countsMatrix N (fun p c =>
          (f p c + if Nat.eqb p prev then count_occ Nat.eq_dec currs c else 0)%nat)).
Proof.
  induction currs as [|x currs IH]; intros f Hp Hcs; cbn [foldR].
  - f_equal. apply countsMatrix_ext. intros p c _ _. cbn [count_occ].
    destruct (Nat.eqb p prev); lia.
  - apply Forall_cons in Hcs as [Hx Hcs].
    rewrite bumpTransition_counts by done. cbn [rbind]. rewrite IH by done.
    f_equal. apply countsMatrix_ext. intros p c _ _. cbn [count_occ].
    destruct (Nat.eqb_spec p prev) as [->|]; cbn [andb]; [|lia].
    destruct (Nat.eq_dec x c) as [->|Hne].
    + rewrite Nat.eqb_refl. lia.
    + destruct (Nat.eqb_spec c x); [congruence|lia].
Qed.

Lemma bump_draw_counts N (prevs currs : list nat) : forall f,
  Forall (fun p => (1 <= p <= N)%nat) prevs -> Forall (fun c => (1 <= c <= N)%nat) currs ->
  foldR (fun tr p => foldR (fun tr c => bumpTransition tr p c) currs tr) prevs
        (countsMatrix N f)
  = Ok (countsMatrix N (fun p c =>
          (f p c + count_occ Nat.eq_dec prevs p * count_occ Nat.eq_dec currs c)%nat)).
Proof.
  induction prevs as [|x prevs IH]; intros f Hps Hcs; cbn [foldR].
  - f_equal. apply countsMatrix_ext. intros p c _ _. cbn [count_occ]. lia.
  - apply Forall_cons in Hps as [Hx Hps].
    rewrite bump_row_counts by done. cbn [rbind]. rewrite IH by done.
    f_equal. apply countsMatrix_ext. intros p c _ _. cbn [count_occ].
    destruct (Nat.eq_dec x p) as [->|Hne].
    + rewrite Nat.eqb_refl. lia.
    + destruct (Nat.eqb_spec p x); [congruence|lia].
Qed.

Lemma transitionsObserved_cons curr prev rest p c :
  transitionsObserved (curr :: prev :: rest) p c
  = ((if bool_decide (p ∈ numbers prev /\ c ∈ numbers curr) then 1 else 0)
     + transitionsObserved (prev :: rest) p c)%nat.
Proof.
  unfold transitionsObserved. cbn [drop zip zip_with].
  rewrite filter_cons. cbn [fst snd].
  destruct (decide (p ∈ numbers prev /\ c ∈ numbers curr)) as [H|H].
  - rewrite bool_decide_eq_true_2 by done. done.
  - rewrite bool_decide_eq_false_2 by done. done.
Qed.

Lemma countTransitions_counts g data :
  valid_data g data ->
  forall f,
    countTransitions data (countsMatrix (balls g) f)
    = Ok (countsMatrix (balls g) (fun p c => (f p c + transitionsObserved data p c)%nat)).
Proof.
  induction 1 as [|curr draws Hcurr Hdraws IH]; intros f.
  - cbn [countTransitions]. f_equal. apply countsMatrix_ext. intros p c _ _.
    unfold transitionsObserved. simpl. lia.
  - destruct draws as [|prev rest].
    + cbn [countTransitions]. f_equal. apply countsMatrix_ext. intros p c _ _.
      unfold transitionsObserved. simpl. lia.
    + change (countTransitions (curr :: prev :: rest) (countsMatrix (balls g) f))
        with (rbind (foldR (fun tr p => foldR (fun tr c => bumpTransition tr p c)
                                              (numbers curr) tr)
                           (numbers prev) (countsMatrix (balls g) f))
                    (countTransitions (prev :: rest))).
      assert (Hprev := Forall_inv Hdraws).
      destruct Hcurr as (_ & Hndc & Hrc). destruct Hprev as (_ & Hndp & Hrp).
      rewrite bump_draw_counts by done. cbn [rbind]. rewrite IH.
      f_equal. apply countsMatrix_ext. intros p c _ _.
      rewrite transitionsObserved_cons, !count_occ_NoDup by done.
      destruct (decide (p ∈ numbers prev)) as [Hp|Hp];
        destruct (decide (c ∈ numbers curr)) as [Hc|Hc].
      * rewrite !bool_decide_eq_true_2 by done. lia.
      * rewrite (bool_decide_eq_false_2 (c ∈ _)) by done.
        rewrite (bool_decide_eq_false_2 (_ /\ _)) by tauto. lia.
      * rewrite (bool_decide_eq_false_2 (p ∈ _)) by done.
        rewrite (bool_decide_eq_false_2 (_ /\ _)) by tauto. lia.
      * rewrite (bool_decide_eq_false_2 (p ∈ _)) by done.
        rewrite (bool_decide_eq_false_2 (_ /\ _)) by tauto. lia.
Qed.

Lemma markovCounts_counts g data :
  valid_data g data ->
  markovCounts g data = Ok (countsMatrix (balls g) (transitionsObserved data)).
Proof.
  intros Hdata. unfold markovCounts.
  change (map (fun i => (i, tinit (balls g) (Fin 0))) (seq 1 (balls g)))
    with (countsMatrix (balls g) (fun _ _ => 0%nat)).
  by rewrite (countTransitions_counts g data Hdata).
Qed.

Lemma countsRow_wf N f prev : row_wf N (countsRow N f prev).
Proof.
  split.
  - unfold countsRow. apply (keys_map_seq (fun c => JS.of_nat (f prev c))).
  - apply Forall_forall. intros e (c & -> & _)%list_elem_of_fmap. apply of_nat_nonneg.
Qed.

(** C6.  On a valid history the matrix of transition counts is built
    without error and holds, at row [prev] and column [curr], the number of
    indices [i >= 1] with [prev] in draw [i] and [curr] in draw [i - 1].
    The counts of a row add up to the transitions observed for its number;
    after normalization the row adds up to 1 when at least one transition
    was observed for it, and to 0 when none was (sums in exact
    arithmetic). *)
Theorem C6_markov_rows_sum_to_one (g : GameConfig) (data : list Draw) :
  valid_data g data ->
  markovCounts g data = Ok (countsMatrix (balls g) (transitionsObserved data)) /\
  markovTransitions g data
  = Ok (map (fun e => (fst e, normalizeRow (snd e)))
            (countsMatrix (balls g) (transitionsObserved data))) /\
  forall prev, (1 <= prev <= balls g)%nat ->
    let row := countsRow (balls g) (transitionsObserved data) prev in
    JS.sum (values row) = JS.of_nat (rowObserved g data prev) /\
    exists q,
      JS.sum (values (normalizeRow row)) = Fin q /\
      ((1 <= rowObserved g data prev)%nat -> q == 1) /\
      (rowObserved g data prev = 0%nat -> q == 0).
Proof.
  intros Hdata. split; [by apply markovCounts_counts|]. split.
  { unfold markovTransitions. by rewrite (markovCounts_counts g data Hdata). }
  intros prev Hprev row.
  assert (Hsum : JS.sum (values row) = JS.of_nat (rowObserved g data prev)).
  { unfold row, countsRow, rowObserved. apply sum_counts. }
  split; [done|].
  destruct (normalizeRow_sum (balls g) row (countsRow_wf _ _ _))
    as (total & q & Htotal & _ & Hq & Hpos & Hzero).
  exists q. split; [done|].
  rewrite Hsum in Htotal. unfold JS.of_nat in Htotal. injection Htotal as <-.
  split.
  - intros Hobs. apply Hpos. change 0 with (inject_Z 0). rewrite <- Zlt_Qlt. lia.
  - intros Hobs. apply Hzero. by rewrite Hobs.
Qed.

Lemma C6_markov_rows_sum_to_one_witness :
  markovCounts small_game small_history
  = Ok (countsMatrix 6 (transitionsObserved small_history)) /\
  rowObserved small_game small_history 2 = 2%nat /\
  rowObserved small_game small_history 4 = 0%nat /\
  (exists q,
      JS.sum (values (normalizeRow (countsRow 6 (transitionsObserved small_history) 2)))
      = Fin q /\ q == 1) /\
  (exists q,
      JS.sum (values (normalizeRow (countsRow 6 (transitionsObserved small_history) 4)))
      = Fin q /\ q == 0).
Proof.
  destruct (C6_markov_rows_sum_to_one small_game small_history) as (Hcounts & _ & Hrows).
  { unfold small_history. solve_valid_data. }
  split; [exact Hcounts|]. split; [reflexivity|]. split; [reflexivity|]. split.
  - destruct (Hrows 2%nat) as (_ & q & Hq & Hone & _); [simpl; lia|].
    exists q. split; [exact Hq|]. apply Hone. vm_compute. lia.
  - destruct (Hrows 4%nat) as (_ & q & Hq & _ & Hzero); [simpl; lia|].
    exists q. split; [exact Hq|]. apply Hzero. reflexivity.
Defined.

(* ===================================================================== *)
(** * What a strategy returns (C1) *)
(* ===================================================================== *)

(** ** A weight that is not a number *)

Lemma sum_with_NaN (t : table) k : (k, NaN) ∈ t -> JS.sum (values t) = NaN.
Proof.
  unfold JS.sum, values. generalize (Fin 0).
  induction t as [|[k0 v0] t IH]; intros acc; [by intros ?%elem_of_nil|].
  intros [[= <- <-]|Hin]%elem_of_cons; cbn [map fold_left snd].
  - replace (JS.add acc NaN) with NaN by (by destruct acc). apply fold_add_NaN.
  - by apply IH.
Qed.

(** With a weight that is [NaN] the total is [NaN]: it is not [=== 0], no
    scan reaches a key, and the loop of [weightedSelection] never returns. *)
Lemma ws_loop_with_NaN rnd g count k :
  forall fuel selected av s,
    (k, NaN) ∈ av -> (length selected < count)%nat ->
    ws_loop rnd g fuel count selected av s = OutOfFuel.
Proof.
  induction fuel as [|fuel IH]; intros selected av s Hin Hlen; [done|].
  rewrite ws_loop_S.
  assert (Hlt : Nat.ltb (length selected) count = true) by (by apply Nat.ltb_lt).
  rewrite Hlt. cbv zeta. rewrite (sum_with_NaN av k Hin).
  change (JS.eq NaN (Fin 0)) with false. cbv iota.
  unfold bind, random. change (JS.mul (Fin (rnd s)) NaN) with NaN.
  rewrite ws_scan_NaN. by apply IH.
Qed.

Lemma scores_inv_credit N (t : table) num x :
  scores_inv N t ->
  scores_inv N (tset t num (JS.add (tnum t num) x)).
Proof.
  intros [Hs Hout]. split; [by apply keys_tset_sorted|].
  intros k v [[= -> ->]|Hin]%elem_of_tset Hk; [|by eapply Hout].
  unfold tnum. destruct (tget t num) as [w|] eqn:E; [|done].
  apply tget_elem in E. by rewrite (Hout _ _ E Hk).
Qed.

Lemma creditPrediction_inv g (t : table) weight prediction :
  scores_inv (balls g) t ->
  scores_inv (balls g) (creditPrediction g t weight prediction) /\
  (forall k, k ∈ keys t -> k ∈ keys (creditPrediction g t weight prediction)) /\
  (forall n, n ∈ prediction -> n ∈ keys (creditPrediction g t weight prediction)).
Proof.
  unfold creditPrediction. generalize 0%nat. revert t.
  induction prediction as [|num prediction IH]; intros t i Hinv; cbn [length seq combine fold_left].
  - split; [done|]. split; [done|]. by intros n ?%elem_of_nil.
  - set (t' := tset t num _).
    destruct (IH t' (S i)) as (Hinv' & Hkeep & Hnew).
    { by apply scores_inv_credit. }
    split; [done|]. split.
    + intros k Hk. apply Hkeep. unfold t'. apply keys_tset_iff. by right.
    + intros n [->|Hn]%elem_of_cons; [|by apply Hnew].
      apply Hkeep. unfold t'. apply keys_tset_iff. by left.
Qed.

Lemma hybridScores_inv g (weights : gmap string jsnum) (predictions : list (list nat)) :
  length predictions = 8%nat ->
  scores_inv (balls g) (hybridScores g weights predictions) /\
  forall p n, p ∈ predictions -> n ∈ p -> n ∈ keys (hybridScores g weights predictions).
Proof.
  intros Hlen. unfold hybridScores.
  assert (Hgen : forall (ws : list jsnum) (ps : list (list nat)) t,
             length ws = length ps ->
             scores_inv (balls g) t ->
             let t' := fold_left (fun scores e => creditPrediction g scores (fst e) (snd e))
                                 (combine ws ps) t in
             scores_inv (balls g) t' /\
             (forall k, k ∈ keys t -> k ∈ keys t') /\
             (forall p n, p ∈ ps -> n ∈ p -> n ∈ keys t')).
  { induction ws as [|w ws IH]; intros [|p ps] t Hl Hinv; try done; cbn [combine fold_left].
    - split; [done|]. split; [done|]. by intros p n ?%elem_of_nil.
    - cbn [fst snd]. destruct (creditPrediction_inv g t w p Hinv) as (Hinv1 & Hkeep1 & Hnew1).
      destruct (IH ps (creditPrediction g t w p)) as (Hinv2 & Hkeep2 & Hnew2);
        [simpl in Hl; lia|done|].
      split; [done|]. split; [intros k Hk; by apply Hkeep2, Hkeep1|].
      intros q n [->|Hq]%elem_of_cons Hn; [by apply Hkeep2, Hnew1|by eapply Hnew2]. }
  destruct (Hgen (algoWeights weights) predictions (tinit (balls g) (Fin 0)))
    as (Hinv & _ & Hnew).
  - by rewrite Hlen.
  - split; [rewrite keys_tinit; apply seq_sorted|].
    intros k v (i & [= -> ->] & Hi%elem_of_seq)%list_elem_of_fmap Hk. lia.
  - done.
Qed.

(** Whatever the hybrid strategy returns is a candidate, whatever the eight
    strategies returned: a prediction with a number outside [1..N] leaves a
    [NaN] score, with which the final weighted selection never returns. *)
Lemma post_hybrid_any rnd g data (weights : gmap string jsnum) fuel :
  (1 <= pick g)%nat ->
  post (hybridPrediction rnd g data weights fuel) (candidate g).
Proof.
  intros HK. unfold hybridPrediction.
  eapply post_bind with (Q1 := fun _ => True); [done|]. intros p1 _.
  eapply post_bind with (Q1 := fun _ => True); [done|]. intros p2 _.
  eapply post_bind with (Q1 := fun _ => True); [done|]. intros p3 _.
  eapply post_bind with (Q1 := fun _ => True); [done|]. intros p4 _.
  eapply post_bind with (Q1 := fun _ => True); [done|]. intros p5 _.
  eapply post_bind with (Q1 := fun _ => True); [done|]. intros p6 _.
  eapply post_bind with (Q1 := fun _ => True); [done|]. intros p7 _.
  eapply post_bind with (Q1 := fun _ => True); [done|]. intros p8 _.
  cbv zeta. set (predictions := [p1; p2; p3; p4; p5; p6; p7; p8]).
  destruct (hybridScores_inv g weights predictions eq_refl) as ([Hs Hout] & Hnew).
  destruct (decide (Forall (fun k => (1 <= k <= balls g)%nat)
                           (keys (hybridScores g weights predictions)))) as [Hall|Hsome].
  - by apply post_weightedSelection.
  - apply not_Forall_Exists in Hsome; [|intros k; apply _].
    apply Exists_exists in Hsome as (k & Hk & Hrange).
    apply list_elem_of_fmap in Hk as ([k' v] & -> & Hin). cbn [fst] in Hrange.
    rewrite (Hout _ _ Hin Hrange) in Hin.
    intros s res s'. unfold weightedSelection.
    rewrite (ws_loop_with_NaN rnd g (pick g) k'); [done|done|simpl; lia].
Qed.

(** ** A random source that repeats itself *)

(** When [Math.random()] keeps returning the same value, the sets filled by
    rejection never get a second member. *)
Lemma grn_loop_constant rnd g c :
  (forall s, rnd s = c) -> (2 <= pick g)%nat ->
  forall fuel numbers s,
    numbers = [] \/ numbers = [S (Z.to_nat (Qfloor (c * inject_Z (Z.of_nat (balls g)))))] ->
    grn_loop rnd g fuel numbers s = OutOfFuel.
Proof.
  intros Hc HK. induction fuel as [|fuel IH]; intros numbers s Hn; [done|].
  rewrite grn_loop_S.
  assert (Hlt : Nat.ltb (length numbers) (pick g) = true).
  { apply Nat.ltb_lt. destruct Hn as [-> | ->]; simpl; lia. }
  rewrite Hlt, bind_run, randomBelow_run, Hc. cbv zeta.
  apply IH. destruct Hn as [-> | ->]; [by right|].
  right. cbn [includes existsb]. by rewrite Nat.eqb_refl.
Qed.

Lemma generateRandomNumbers_constant rnd g c fuel s :
  (forall s, rnd s = c) -> (2 <= pick g)%nat ->
  generateRandomNumbers rnd g fuel s = OutOfFuel.
Proof. intros Hc HK. apply (grn_loop_constant rnd g c Hc HK). by left. Qed.

Lemma equilibrium_loop_constant rnd g data c fuel attemptsLeft targetOdds targetSum s :
  (forall s, rnd s = c) -> (2 <= pick g)%nat ->
  equilibrium_loop rnd g data fuel (S attemptsLeft) targetOdds targetSum s = OutOfFuel.
Proof.
  intros Hc HK. cbn [equilibrium_loop].
  by rewrite bind_run, (generateRandomNumbers_constant rnd g c).
Qed.

Lemma evolve_constant rnd g data c fuel generations populationSize s :
  (forall s, rnd s = c) -> (2 <= pick g)%nat ->
  evolve rnd g data fuel generations (S populationSize) s = OutOfFuel.
Proof.
  intros Hc HK. revert s. induction generations as [|gen IH]; intros s.
  - cbn [evolve initialPopulation].
    by rewrite bind_run, (generateRandomNumbers_constant rnd g c).
  - cbn [evolve]. by rewrite bind_run, IH.
Qed.

Lemma mc_sample_constant rnd g c cdf num v :
  (forall s, rnd s = c) -> (2 <= pick g)%nat ->
  List.find (fun e => JS.ge (snd e) (Fin c)) cdf = Some (num, v) ->
  forall fuel sample s,
    sample = [] \/ sample = [num] ->
    mc_sample rnd g fuel cdf sample s = OutOfFuel.
Proof.
  intros Hc HK Hfind. induction fuel as [|fuel IH]; intros sample s Hs; [done|].
  cbn [mc_sample].
  assert (Hlt : Nat.ltb (length sample) (pick g) = true).
  { apply Nat.ltb_lt. destruct Hs as [-> | ->]; simpl; lia. }
  rewrite Hlt, bind_run. unfold random. rewrite Hc, Hfind.
  apply IH. destruct Hs as [-> | ->]; [by right|].
  right. cbn [includes existsb]. by rewrite Nat.eqb_refl.
Qed.

Lemma mc_run_constant rnd g c cdf num v fuel iterations counts s :
  (forall s, rnd s = c) -> (2 <= pick g)%nat ->
  List.find (fun e => JS.ge (snd e) (Fin c)) cdf = Some (num, v) ->
  iterations <> 0%nat ->
  mc_run rnd g fuel iterations cdf counts s = OutOfFuel.
Proof.
  intros Hc HK Hfind Hit. destruct iterations as [|iterations]; [done|].
  cbn [mc_run]. rewrite bind_run.
  rewrite (mc_sample_constant rnd g c cdf num v Hc HK Hfind); [done|by left].
Qed.

Lemma hybridPrediction_empty rnd g (weights : gmap string jsnum) fuel s :
  (1 <= balls g)%nat -> (1 <= pick g)%nat ->
  hybridPrediction rnd g [] weights fuel s = OutOfFuel.
Proof.
  intros HN HK. unfold hybridPrediction.
  by rewrite bind_run, frequencyBasedPrediction_empty.
Qed.

(** C1, as amended.  For a game with [1 <= K < N], a valid history and a
    random source in [[0, 1)]: whatever any of the eleven strategies returns
    is a candidate ([K] distinct numbers of [1..N] in ascending order), for
    the delta system when [N >= 15]; the pattern and the wheeling strategy
    always return. *)
Theorem C1_strategies_return_candidates (rnd : nat -> Q) (g : GameConfig)
    (data : list Draw) (weights : gmap string jsnum) (fuel : nat) (algorithm : string)
    (s : nat) :
  rnd_ok rnd -> valid_game g -> (1 <= pick g)%nat -> valid_data g data ->
  (algorithm = "delta" -> (15 <= balls g)%nat) ->
  (forall res s',
      runAlgorithm rnd g data weights fuel algorithm s = Ok (res, s') -> candidate g res) /\
  (algorithm = "pattern" \/ algorithm = "wheeling" -> (pick g <= fuel)%nat ->
   exists res,
     runAlgorithm rnd g data weights fuel algorithm s = Ok (res, s) /\ candidate g res).
Proof.
  intros Hrnd Hg Hpick Hdata H15.
  unfold runAlgorithm.
  case_algorithm E1.
  { split; [intros res s'; by apply post_frequency|]. by intros [|]. }
  case_algorithm E2.
  { split; [intros res s'; by apply post_overdue|]. by intros [|]. }
  case_algorithm E3.
  { split; [intros res s'; by apply post_lift, pattern_partial|].
    intros _ Hfuel.
    destruct (patternBasedPrediction_total g data fuel Hg Hpick Hdata Hfuel)
      as (res & Hres & Hc).
    exists res. unfold lift. by rewrite Hres. }
  case_algorithm E4.
  { split; [intros res s'; by apply post_statistical|]. by intros [|]. }
  case_algorithm E5.
  { destruct (wheelingSystemPrediction_total g data Hg Hdata) as (res & Hres & Hc).
    split.
    - intros res0 s'. unfold lift. rewrite Hres. by intros [= <- _].
    - intros _ _. exists res. unfold lift. by rewrite Hres. }
  case_algorithm E6.
  { split; [|by intros [|]]. intros res s'. apply post_delta; auto. }
  case_algorithm E7.
  { split; [intros res s'; by apply post_markov|]. by intros [|]. }
  case_algorithm E8.
  { split; [intros res s'; by apply post_genetic|]. by intros [|]. }
  case_algorithm E9.
  { split; [intros res s'; by apply post_monteCarlo|]. by intros [|]. }
  case_algorithm E10.
  { split; [intros res s'; by apply post_fourier|]. by intros [|]. }
  split.
  - intros res s'. by apply post_hybrid_any.
  - intros [-> | ->]; simpl in *; congruence.
Qed.

Lemma C1_strategies_return_candidates_witness :
  (exists res s',
      runAlgorithm sample_rnd small_game small_history initialWeights 20 "overdue" 0%nat
      = Ok (res, s') /\ candidate small_game res) /\
  (exists res,
      runAlgorithm sample_rnd lotto649 five_even_draws initialWeights 20 "pattern" 0%nat
      = Ok (res, 0%nat) /\ candidate lotto649 res).
Proof.
  split.
  - assert (E : exists res s',
               runAlgorithm sample_rnd small_game small_history initialWeights 20 "overdue"
                            0%nat = Ok (res, s'))
      by (vm_compute; eauto).
    destruct E as (res & s' & E). exists res, s'. split; [exact E|].
    destruct (C1_strategies_return_candidates sample_rnd small_game small_history
                initialWeights 20 "overdue" 0%nat) as [Hpartial _].
    + apply sample_rnd_ok.
    + unfold valid_game. simpl. lia.
    + simpl. lia.
    + unfold small_history. solve_valid_data.
    + intros [=].
    + by apply (Hpartial res s').
  - apply (C1_strategies_return_candidates sample_rnd lotto649 five_even_draws
             initialWeights 20 "pattern" 0%nat).
    + apply sample_rnd_ok.
    + unfold valid_game. simpl. lia.
    + simpl. lia.
    + unfold five_even_draws. simpl. solve_valid_data.
    + intros [=].
    + by left.
    + simpl. lia.
Defined.

(** C1 as stated fails.  (1) With N = 10 and K = 1 the delta system takes
    its seed from [1..15] and returns it: here 13, outside [1..N].  (2) With
    K = 0 the pattern strategy returns its first number.  (3) On an empty
    history the Markov, statistical-equilibrium and Monte Carlo strategies
    throw, and the frequency and hybrid strategies never return.  (4) When
    [Math.random()] keeps returning the same value, the delta system, the
    statistical-equilibrium strategy, the genetic algorithm and the Monte
    Carlo simulation never return on a valid one-draw history with N = 15
    and K = 2. *)
Lemma C1_counterexample :
  (rnd_ok (fun _ => 4 # 5) /\
   valid_game tiny_game /\ valid_data tiny_game tiny_history /\
   runAlgorithm (fun _ => 4 # 5) tiny_game tiny_history initialWeights 10 "delta" 0%nat
   = Ok ([13]%nat, 1%nat) /\
   ~ candidate tiny_game [13]%nat) /\
  (valid_game empty_pick_game /\ valid_data empty_pick_game [] /\
   runAlgorithm sample_rnd empty_pick_game [] initialWeights 10 "pattern" 0%nat
   = Ok ([1]%nat, 0%nat) /\
   ~ candidate empty_pick_game [1]%nat) /\
  (valid_game lotto649 /\ valid_data lotto649 [] /\
   runAlgorithm sample_rnd lotto649 [] initialWeights 10 "markov" 0%nat = Throw /\
   runAlgorithm sample_rnd lotto649 [] initialWeights 10 "statistical" 0%nat = Throw /\
   runAlgorithm sample_rnd lotto649 [] initialWeights 10 "montecarlo" 0%nat = Throw /\
   (forall fuel s,
       runAlgorithm sample_rnd lotto649 [] initialWeights fuel "frequency" s = OutOfFuel /\
       runAlgorithm sample_rnd lotto649 [] initialWeights fuel "hybrid" s = OutOfFuel)) /\
  (rnd_ok constant_rnd /\ valid_game pair_game /\ valid_data pair_game pair_history /\
   (15 <= balls pair_game)%nat /\
   forall fuel s,
     runAlgorithm constant_rnd pair_game pair_history initialWeights fuel "delta" s
     = OutOfFuel /\
     runAlgorithm constant_rnd pair_game pair_history initialWeights fuel "statistical" s
     = OutOfFuel /\
     runAlgorithm constant_rnd pair_game pair_history initialWeights fuel "genetic" s
     = OutOfFuel /\
     runAlgorithm constant_rnd pair_game pair_history initialWeights fuel "montecarlo" s
     = OutOfFuel).
Proof.
  split; [|split; [|split]].
  - split; [solve_rnd|]. split; [unfold valid_game; simpl; lia|].
    split; [unfold tiny_history; solve_valid_data|].
    split; [reflexivity|].
    intros [(_ & _ & Hr) _]. apply Forall_cons in Hr as [Hr _]. simpl in Hr. lia.
  - split; [unfold valid_game; simpl; lia|]. split; [constructor|].
    split; [reflexivity|]. by intros [(Hlen & _) _].
  - split; [unfold valid_game; simpl; lia|]. split; [constructor|].
    split; [reflexivity|]. split; [reflexivity|]. split; [by vm_compute|].
    intros fuel s. split.
    + apply (frequencyBasedPrediction_empty sample_rnd lotto649); simpl; lia.
    + apply (hybridPrediction_empty sample_rnd lotto649); simpl; lia.
  - split; [solve_rnd|]. split; [unfold valid_game; simpl; lia|].
    split; [unfold pair_history; solve_valid_data|]. split; [simpl; lia|].
    assert (Hc : forall s, constant_rnd s = 29 # 30) by done.
    assert (HK : (2 <= pick pair_game)%nat) by (simpl; lia).
    intros fuel s. split; [|split; [|split]].
    + change (deltaSystemPrediction constant_rnd pair_game pair_history fuel s = OutOfFuel).
      unfold deltaSystemPrediction. rewrite bind_run, randomBelow_run. cbv beta iota zeta.
      change (Z.to_nat (Qfloor (constant_rnd s * inject_Z (Z.of_nat 15)))) with 14%nat.
      rewrite bind_run.
      rewrite (delta_loop_stuck constant_rnd pair_game pair_history [15]%nat); [done| |done|simpl; lia].
      change (sortedDeltas pair_history) with [1%nat]. repeat constructor.
    + change (statisticalEquilibriumPrediction constant_rnd pair_game pair_history fuel s
              = OutOfFuel).
      unfold statisticalEquilibriumPrediction. cbv zeta.
      change (js_sort by_count_desc (getOddEvenDistribution pair_history))
        with [((1, 1), 1)]%nat.
      change 1000%nat with (S 999).
      by apply (equilibrium_loop_constant constant_rnd pair_game pair_history (29 # 30)).
    + change (geneticAlgorithmPrediction constant_rnd pair_game pair_history fuel 50 100 s
              = OutOfFuel).
      unfold geneticAlgorithmPrediction. rewrite bind_run.
      change 100%nat with (S 99).
      by rewrite (evolve_constant constant_rnd pair_game pair_history (29 # 30)).
    + change (monteCarloSimulation constant_rnd pair_game pair_history fuel 10000 s
              = OutOfFuel).
      unfold monteCarloSimulation. rewrite bind_run.
      rewrite (mc_run_constant constant_rnd pair_game (29 # 30)
                 (monteCarloCdf pair_game pair_history) 2%nat (Fin (4 # 4))); [done|done|done| |].
      * by vm_compute.
      * intros H. apply (f_equal (Nat.eqb 0)) in H. by vm_compute in H.
Qed.
